(** * NBLog: the non-blocking audio event log (media/libnbaio/NBLog.cpp)

    A shallow embedding of the frame codec, the writer, the entry iterator,
    the reader's snapshot trimming, the hash rendering of the formatter and
    the merger, followed by the properties established for them.

    Memory is a list of bytes ([list Z], every byte in [0, 256)); a pointer
    into a buffer is a [Z] offset from the buffer's first byte.  The data
    model is the 64-bit little-endian Android ABI: [int] is 4 bytes,
    [time_t] and [long] are 8 bytes, [struct timespec] is 16 bytes. *)

From stdpp Require Import base numbers list gmap strings sorting.
From Stdlib Require Import ZArith Lia.

Local Open Scope Z_scope.

(** ** Outcomes of a call: normal return, abort, or undefined behaviour *)

Inductive outcome (A : Type) : Type :=
| Done (a : A)
| Fatal       (* LOG_ALWAYS_FATAL: the process aborts *)
| Undefined.  (* the C++ abstract machine gives no meaning to the call *)
Arguments Done {A} a.
Arguments Fatal {A}.
Arguments Undefined {A}.

Definition obind {A B} (m : outcome A) (k : A -> outcome B) : outcome B :=
  match m with
  | Done a => k a
  | Fatal => Fatal
  | Undefined => Undefined
  end.

Notation "'let*' x ':=' m 'in' k" := (obind m (fun x => k))
  (at level 10, x name, m at level 100, k at level 200, only parsing).

(** ** Bytes *)

(** [ptr[off]] for a buffer [m]; bytes outside the buffer read as 0. *)
Definition rd (m : list Z) (p : Z) : Z :=
  if p <? 0 then 0 else m !!! Z.to_nat p.

(** [n] bytes starting at [p]. *)
Definition rd_range (m : list Z) (p n : Z) : list Z :=
  (fun i => rd m i) <$> seqZ p n.

(** Little-endian object representation of an [n]-byte integer. *)
Fixpoint le_bytes (n : nat) (v : Z) : list Z :=
  match n with
  | O => []
  | S n' => v `mod` 256 :: le_bytes n' (v `div` 256)
  end.

(** The unsigned value of a little-endian byte string. *)
Fixpoint le_value (bs : list Z) : Z :=
  match bs with
  | [] => 0
  | b :: bs' => b + 256 * le_value bs'
  end.

(** Reinterpretation of an unsigned [w]-bit pattern as two's complement. *)
Definition to_signed (w : Z) (v : Z) : Z :=
  let u := v `mod` 2 ^ w in
  if u <? 2 ^ (w - 1) then u else u - 2 ^ w.

Definition is_byte (b : Z) : Prop := 0 <= b < 256.
Definition bytes (bs : list Z) : Prop := Forall is_byte bs.

#[global] Instance is_byte_dec (b : Z) : Decision (is_byte b).
Proof. unfold is_byte. apply _. Defined.

#[global] Instance bytes_dec (bs : list Z) : Decision (bytes bs).
Proof. unfold bytes. apply _. Defined.

(** ** Layout constants of NBLog.h *)

Module Layout.

(** Modelled from the spec: the header NBLog.h, which declares the [Event]
    enumeration, is not part of the sources; the tags are numbered in the
    order in which the specification lists the event kinds. *)
Definition EVENT_RESERVED : Z := 0.
Definition EVENT_STRING : Z := 1.
Definition EVENT_TIMESTAMP : Z := 2.
Definition EVENT_INTEGER : Z := 3.
Definition EVENT_FLOAT : Z := 4.
Definition EVENT_PID : Z := 5.
Definition EVENT_AUTHOR : Z := 6.
Definition EVENT_START_FMT : Z := 7.
Definition EVENT_HASH : Z := 8.
Definition EVENT_END_FMT : Z := 9.
Definition EVENT_HISTOGRAM_ENTRY_TS : Z := 10.
Definition EVENT_HISTOGRAM_FLUSH : Z := 11.
Definition EVENT_UPPER_BOUND : Z := 12.

(** Modelled from the spec: [Entry::kMaxLength], [Entry::kOverhead] and
    [Entry::kPreviousLengthOffset] are declared in NBLog.h; the
    specification gives 255, 3 and -1. *)
Definition kMaxLength : Z := 255.
Definition kOverhead : Z := 3.
Definition kPreviousLengthOffset : Z := -1.

(** Modelled from the spec: [struct entry { type; length; data[0] }]. *)
Definition offsetof_type : Z := 0.
Definition offsetof_length : Z := 1.
Definition offsetof_data : Z := 2.
Definition sizeof_entry : Z := 2.

Definition sizeof_int : Z := 4.
Definition sizeof_float : Z := 4.
Definition sizeof_pid_t : Z := 4.
Definition sizeof_hash : Z := 8.
Definition sizeof_timespec : Z := 16.

(** Modelled from the spec: [HistTsEntry] is the pair (hash, timestamp) and
    [HistTsEntryWithAuthor] is that payload with the author appended. *)
Definition sizeof_HistTsEntry : Z := sizeof_hash + sizeof_timespec.
Definition sizeof_HistTsEntryWithAuthor : Z := sizeof_HistTsEntry + sizeof_int.
Definition offsetof_Hist_ts : Z := sizeof_hash.
Definition offsetof_Hist_author : Z := sizeof_HistTsEntry.

End Layout.
Export Layout.

(** ** struct timespec *)

Record timespec : Type := Timespec { tv_sec : Z; tv_nsec : Z }.

Definition timespec_bytes (ts : timespec) : list Z :=
  le_bytes 8 (tv_sec ts) ++ le_bytes 8 (tv_nsec ts).

Definition timespec_read (m : list Z) (p : Z) : timespec :=
  {| tv_sec := to_signed 64 (le_value (rd_range m p 8));
     tv_nsec := to_signed 64 (le_value (rd_range m (p + 8) 8)) |}.

Definition int_read (m : list Z) (p : Z) : Z :=
  to_signed 32 (le_value (rd_range m p sizeof_int)).

Definition hash_read (m : list Z) (p : Z) : Z :=
  le_value (rd_range m p sizeof_hash).

(** ** Frames, as the specification describes them *)

Record frame : Type := Frame { ftype : Z; fpayload : list Z }.

(** [type, len, payload, len] *)
Definition encode (f : frame) : list Z :=
  ftype f :: Z.of_nat (length (fpayload f)) :: fpayload f
    ++ [Z.of_nat (length (fpayload f))].

Definition encode_all (fs : list frame) : list Z :=
  concat (encode <$> fs).

(** The frame boundaries of the encoding of [fs] laid out from [p] on:
    where each frame starts, and where the last one ends. *)
Fixpoint boundaries (p : Z) (fs : list frame) : list Z :=
  match fs with
  | [] => [p]
  | f :: fs' => p :: boundaries (p + Z.of_nat (length (encode f))) fs'
  end.

Definition frame_ok (f : frame) : Prop :=
  is_byte (ftype f) /\ bytes (fpayload f)
  /\ Z.of_nat (length (fpayload f)) <= kMaxLength.

#[global] Instance frame_ok_dec (f : frame) : Decision (frame_ok f).
Proof. unfold frame_ok. apply _. Defined.

(** ** NBLog::Entry *)

Module Entry.

(** [mData] is the pointer: [None] is NULL, [Some d] the bytes it points to. *)
Record t : Type := Build { mEvent : Z; mData : option (list Z); mLength : Z }.

Definition data_at (e : t) (i : Z) : Z :=
  match mData e with
  | Some d => rd d i
  | None => 0
  end.

(** The payload the entry describes: [mLength] bytes at [mData]. *)
Definition payload (e : t) : list Z :=
  take (Z.to_nat (mLength e)) (default [] (mData e)).

Definition readAt (e : t) (offset : Z) : Z :=
  if offset =? 0 then mEvent e
  else if offset =? 1 then mLength e
  else if offset <? mLength e + 2 then data_at e (offset - 2)
  else if offset =? mLength e + 2 then mLength e
  else 0.

End Entry.

(** ** C strings *)

(** [strlen]: the number of bytes before the first NUL; the bytes of a
    string are followed by an implicit terminator. *)
Fixpoint strlen (s : list Z) : Z :=
  match s with
  | [] => 0
  | c :: r => if c =? 0 then 0 else 1 + strlen r
  end.

Definition bytes_of_string (s : string) : list Z :=
  (fun a => Z.of_N (Ascii.N_of_ascii a)) <$> String.list_ascii_of_string s.

Definition chr (s : string) : Z :=
  match s with
  | String a _ => Z.of_N (Ascii.N_of_ascii a)
  | EmptyString => 0
  end.

Arguments chr : simpl never.

(** ** NBLog::Writer *)

(** One argument of a [va_list]. *)
Inductive va_arg : Type :=
| VaString (s : option (list Z))   (* char *, [None] is NULL *)
| VaTimespec (ts : timespec)
| VaInt (i : Z)
| VaDouble (d : Z).                (* the bit pattern of a double *)

Module Writer.

(** The FIFO writer is the external audio_utils_fifo_writer; with no
    throttling front it accepts every write, so it is modelled by the
    bytes written to it so far.  [None] is a NULL [mFifoWriter]. *)
Record t : Type := Build {
  mShared : bool;                    (* mShared != NULL *)
  mFifoWriter : option (list Z);
  mEnabled : bool;
  mPidTag : option (list Z);
  mPidTagSize : Z
}.

(** [Writer()] *)
Definition Writer_default : t :=
  {| mShared := false; mFifoWriter := None; mEnabled := false;
     mPidTag := None; mPidTagSize := 0 |}.

(** [Writer(void *shared, size_t size)]: [pid] is getpid(), [procName] the
    bytes prctl(PR_GET_NAME) left in the 16-byte buffer. *)
Definition Writer_shared (shared : bool) (pid : Z) (procName : list Z) : t :=
  let length := strlen procName in
  {| mShared := shared;
     mFifoWriter := if shared then Some [] else None;
     mEnabled := shared;
     mPidTag := Some (le_bytes 4 pid ++ take (Z.to_nat length) procName);
     mPidTagSize := length + sizeof_pid_t |}.

Definition isEnabled (w : t) : bool := mEnabled w.

Definition setEnabled (w : t) (enabled : bool) : bool * t :=
  (mEnabled w,
   {| mShared := mShared w; mFifoWriter := mFifoWriter w;
      mEnabled := enabled && mShared w;
      mPidTag := mPidTag w; mPidTagSize := mPidTagSize w |}).

(** The writer whose FIFO holds [fifo]. *)
Definition set_fifo (w : t) (fifo : list Z) : t :=
  {| mShared := mShared w; mFifoWriter := Some fifo; mEnabled := mEnabled w;
     mPidTag := mPidTag w; mPidTagSize := mPidTagSize w |}.

(** [mFifoWriter->write(buffer, count)] *)
Definition fifo_write (w : t) (buffer : list Z) : outcome t :=
  match mFifoWriter w with
  | Some written => Done (set_fifo w (written ++ buffer))
  | None => Undefined
  end.

(** The bytes written to the FIFO so far. *)
Definition written (w : t) : list Z := default [] (mFifoWriter w).

(** [log(const Entry *entry, true)]: the trusted path. *)
Definition log_trusted (w : t) (entry : Entry.t) : outcome t :=
  if negb (mEnabled w) then Done w
  else
    let need := Entry.mLength entry + kOverhead in
    let temp := (fun i => Entry.readAt entry i `mod` 256) <$> seqZ 0 need in
    fifo_write w temp.

(** [log(Event event, const void *data, size_t length)] *)
Definition log_event (w : t) (event : Z) (data : option (list Z)) (length : Z)
  : outcome t :=
  if negb (mEnabled w) then Done w
  else if bool_decide (data = None) || (kMaxLength <? length) then Done w
  else if (event =? EVENT_RESERVED) || (EVENT_UPPER_BOUND <=? event) then Done w
  else log_trusted w (Entry.Build event data length).

(** [log(const Entry *entry, bool trusted)] *)
Definition log_entry (w : t) (entry : Entry.t) (trusted : bool) : outcome t :=
  if negb (mEnabled w) then Done w
  else if negb trusted then
    log_event w (Entry.mEvent entry) (Entry.mData entry) (Entry.mLength entry)
  else log_trusted w entry.

(** [log(const char *string)] *)
Definition log_string (w : t) (string : option (list Z)) : outcome t :=
  if negb (mEnabled w) then Done w
  else
    match string with
    | None => Fatal
    | Some s =>
        let length := strlen s in
        let length := if kMaxLength <? length then kMaxLength else length in
        log_event w EVENT_STRING string length
    end.

(** [logTimestamp()]: [clock] is what clock_gettime(CLOCK_MONOTONIC) gives,
    [None] when it fails. *)
Definition logTimestamp (w : t) (clock : option timespec) : outcome t :=
  if negb (mEnabled w) then Done w
  else
    match clock with
    | Some ts => log_event w EVENT_TIMESTAMP (Some (timespec_bytes ts)) sizeof_timespec
    | None => Done w
    end.

(** [logTimestamp(const struct timespec &ts)] *)
Definition logTimestamp_ts (w : t) (ts : timespec) : outcome t :=
  if negb (mEnabled w) then Done w
  else log_event w EVENT_TIMESTAMP (Some (timespec_bytes ts)) sizeof_timespec.

Definition logInteger (w : t) (x : Z) : outcome t :=
  if negb (mEnabled w) then Done w
  else log_event w EVENT_INTEGER (Some (le_bytes 4 x)) sizeof_int.

(** [x] is the bit pattern of the float. *)
Definition logFloat (w : t) (x : Z) : outcome t :=
  if negb (mEnabled w) then Done w
  else log_event w EVENT_FLOAT (Some (le_bytes 4 x)) sizeof_float.

Definition logPID (w : t) : outcome t :=
  if negb (mEnabled w) then Done w
  else log_event w EVENT_PID (mPidTag w) (mPidTagSize w).

Definition logStart (w : t) (fmt : option (list Z)) : outcome t :=
  if negb (mEnabled w) then Done w
  else
    match fmt with
    | None => Undefined           (* strlen(NULL) *)
    | Some s =>
        let length := strlen s in
        let length := if kMaxLength <? length then kMaxLength else length in
        log_event w EVENT_START_FMT fmt length
    end.

Definition logEnd (w : t) : outcome t :=
  if negb (mEnabled w) then Done w
  else log_entry w (Entry.Build EVENT_END_FMT None 0) true.

Definition logHash (w : t) (hash : Z) : outcome t :=
  if negb (mEnabled w) then Done w
  else log_event w EVENT_HASH (Some (le_bytes 8 hash)) sizeof_hash.

(** The object representation of a [HistTsEntry]. *)
Definition HistTsEntry_bytes (hash : Z) (ts : timespec) : list Z :=
  le_bytes 8 hash ++ timespec_bytes ts.

Definition logHistTS (w : t) (clock : option timespec) (hash : Z) : outcome t :=
  if negb (mEnabled w) then Done w
  else
    match clock with
    | Some ts =>
        log_event w EVENT_HISTOGRAM_ENTRY_TS (Some (HistTsEntry_bytes hash ts))
          sizeof_HistTsEntry
    | None => Done w
    end.

Definition logHistFlush (w : t) (clock : option timespec) (hash : Z) : outcome t :=
  if negb (mEnabled w) then Done w
  else
    match clock with
    | Some ts =>
        log_event w EVENT_HISTOGRAM_FLUSH (Some (HistTsEntry_bytes hash ts))
          sizeof_HistTsEntry
    | None => Done w
    end.

Section Format.

(** The conversion [(float) f] of a double, on bit patterns. *)
Variable float_of_double : Z -> Z.

(** The loop of [logVFormat]: [p] is the rest of the format string from the
    cursor on, [argp] the arguments not yet consumed.  A [va_arg] that finds
    no argument of the requested type is undefined. *)
Fixpoint logVFormat_loop (w : t) (p : list Z) (argp : list va_arg) : outcome t :=
  match p with
  | [] => Done w
  | c :: p1 =>
      if c =? 0 then Done w
      else if negb (c =? chr "%") then logVFormat_loop w p1 argp
      else
        match p1 with
        | [] => Done w             (* "%\0": --p, then the loop test fails *)
        | c1 :: p2 =>
            if c1 =? chr "s" then
              match argp with
              | VaString s :: argp' =>
                  let* w' := log_string w s in logVFormat_loop w' p2 argp'
              | _ => Undefined
              end
            else if c1 =? chr "t" then
              match argp with
              | VaTimespec ts :: argp' =>
                  let* w' := logTimestamp_ts w ts in logVFormat_loop w' p2 argp'
              | _ => Undefined
              end
            else if c1 =? chr "d" then
              match argp with
              | VaInt i :: argp' =>
                  let* w' := logInteger w i in logVFormat_loop w' p2 argp'
              | _ => Undefined
              end
            else if c1 =? chr "f" then
              match argp with
              | VaDouble f :: argp' =>
                  let* w' := logFloat w (float_of_double f) in
                  logVFormat_loop w' p2 argp'
              | _ => Undefined
              end
            else if c1 =? chr "p" then
              let* w' := logPID w in logVFormat_loop w' p2 argp
            else if c1 =? 0 then Done w
            else if c1 =? chr "%" then logVFormat_loop w p2 argp
            else logVFormat_loop w p2 argp   (* ALOGW: invalid specifier *)
        end
  end.

Definition logVFormat (w : t) (clock : option timespec)
    (fmt : option (list Z)) (hash : Z) (argp : list va_arg) : outcome t :=
  if negb (mEnabled w) then Done w
  else
    let* w1 := logStart w fmt in
    let* w2 := logTimestamp w1 clock in
    let* w3 := logHash w2 hash in
    let* w4 := logVFormat_loop w3 (default [] fmt) argp in
    logEnd w4.

Definition logFormat (w : t) (clock : option timespec)
    (fmt : option (list Z)) (hash : Z) (args : list va_arg) : outcome t :=
  if negb (mEnabled w) then Done w
  else logVFormat w clock fmt hash args.

End Format.

End Writer.

(** ** The format grammar, as the specification tables it *)

(** The conversion characters of a format string: the character after each
    [%], read from left to right, up to the terminator. *)
Fixpoint specifiers (fmt : list Z) : list Z :=
  match fmt with
  | [] => []
  | c :: r =>
      if c =? 0 then []
      else if c =? chr "%" then
        match r with
        | [] => []
        | c1 :: r' => if c1 =? 0 then [] else c1 :: specifiers r'
        end
      else specifiers r
  end.

(** A string as [log(string)] stores it: cut at the terminator and at
    [kMaxLength]. *)
Definition string_payload (s : list Z) : list Z :=
  take (Z.to_nat (Z.min kMaxLength (strlen s))) s.

Section FormatGrammar.

Variable float_of_double : Z -> Z.
Variable pidTag : list Z.

(** The argument frames for the conversion characters [specs], in order:
    [s], [t], [d] and [f] take the next argument, [p] takes none, any other
    character gives no frame.  [None] when an argument is missing, of
    another type, or a null string. *)
Fixpoint arg_frames (specs : list Z) (args : list va_arg) : option (list frame) :=
  match specs with
  | [] => Some []
  | c :: specs' =>
      if c =? chr "s" then
        match args with
        | VaString (Some s) :: args' =>
            cons (Frame EVENT_STRING (string_payload s)) <$> arg_frames specs' args'
        | _ => None
        end
      else if c =? chr "t" then
        match args with
        | VaTimespec ts :: args' =>
            cons (Frame EVENT_TIMESTAMP (timespec_bytes ts)) <$> arg_frames specs' args'
        | _ => None
        end
      else if c =? chr "d" then
        match args with
        | VaInt i :: args' =>
            cons (Frame EVENT_INTEGER (le_bytes 4 i)) <$> arg_frames specs' args'
        | _ => None
        end
      else if c =? chr "f" then
        match args with
        | VaDouble d :: args' =>
            cons (Frame EVENT_FLOAT (le_bytes 4 (float_of_double d)))
              <$> arg_frames specs' args'
        | _ => None
        end
      else if c =? chr "p" then
        cons (Frame EVENT_PID pidTag) <$> arg_frames specs' args
      else arg_frames specs' args
  end.

(** The frames of one formatted record. *)
Definition format_frames (fmt : list Z) (ts : timespec) (hash : Z)
    (args : list frame) : list frame :=
  Frame EVENT_START_FMT (string_payload fmt)
    :: Frame EVENT_TIMESTAMP (timespec_bytes ts)
    :: Frame EVENT_HASH (le_bytes 8 hash)
    :: args ++ [Frame EVENT_END_FMT []].

End FormatGrammar.

(** The state an enabled writer is in: it has a FIFO and the cached pid
    tag, whose size fits a frame. *)
Definition writer_ok (w : Writer.t) (fifo pidTag : list Z) : Prop :=
  Writer.mEnabled w = true
  /\ Writer.mFifoWriter w = Some fifo
  /\ Writer.mPidTag w = Some pidTag
  /\ Writer.mPidTagSize w = Z.of_nat (length pidTag)
  /\ Z.of_nat (length pidTag) <= kMaxLength
  /\ bytes pidTag.

(** The strings among the arguments are made of bytes. *)
Definition va_arg_ok (a : va_arg) : Prop :=
  match a with
  | VaString (Some s) => bytes s
  | _ => True
  end.

#[global] Instance va_arg_ok_dec (a : va_arg) : Decision (va_arg_ok a).
Proof. destruct a as [[s|]| | |]; unfold va_arg_ok; apply _. Defined.

(** ** NBLog::EntryIterator

    An iterator is the pair of the buffer [m] it walks and its [ptr]. *)

Module EntryIterator.

(** [it->type], [it->length] and the address of [it->data] *)
Definition type (m : list Z) (ptr : Z) : Z := rd m (ptr + offsetof_type).
Definition length (m : list Z) (ptr : Z) : Z := rd m (ptr + offsetof_length).
Definition data (ptr : Z) : Z := ptr + offsetof_data.

(** [operator++] *)
Definition next (m : list Z) (ptr : Z) : Z :=
  ptr + (rd m (ptr + offsetof_length) + kOverhead).

(** [operator--] *)
Definition prev (m : list Z) (ptr : Z) : Z :=
  ptr - (rd m (ptr + kPreviousLengthOffset) + kOverhead).

Definition hasConsistentLength (m : list Z) (ptr : Z) : bool :=
  rd m (ptr + offsetof_length)
  =? rd m (ptr + (rd m (ptr + offsetof_length) + kOverhead + kPreviousLengthOffset)).

(** [copyTo(dst)]: [dst] is the FIFO writer, given by the bytes written. *)
Definition copyTo (m : list Z) (ptr : Z) (dst : list Z) : list Z :=
  let length := rd m (ptr + offsetof_length) + kOverhead in
  dst ++ rd_range m ptr length.

(** The boundaries met by [n] increments from [ptr], and by [n] decrements. *)
Fixpoint forward (n : nat) (m : list Z) (ptr : Z) : list Z :=
  match n with
  | O => [ptr]
  | S n' => ptr :: forward n' m (next m ptr)
  end.

Fixpoint backward (n : nat) (m : list Z) (ptr : Z) : list Z :=
  match n with
  | O => [ptr]
  | S n' => ptr :: backward n' m (prev m ptr)
  end.

End EntryIterator.

(** [memcpy(dst + off, src, |src|)] on a local array *)
Definition memcpy (dst : list Z) (off : Z) (src : list Z) : list Z :=
  take (Z.to_nat off) dst ++ src ++ drop (Z.to_nat off + length src) dst.

(** Whether [ptr] points into the buffer; reading elsewhere is undefined. *)
Definition in_buffer (m : list Z) (ptr : Z) : bool :=
  (0 <=? ptr) && (ptr <? Z.of_nat (length m)).

(** The frame [f] seen through the iterator that stands at its start in
    the buffer [m]. *)
Record frame_at (m : list Z) (p : Z) (f : frame) : Prop := {
  at_type : EntryIterator.type m p = ftype f;
  at_length : EntryIterator.length m p = Z.of_nat (length (fpayload f));
  at_next : EntryIterator.next m p = p + Z.of_nat (length (encode f));
  at_payload :
    rd_range m (EntryIterator.data p) (Z.of_nat (length (fpayload f))) = fpayload f;
  at_copyTo : forall dst, EntryIterator.copyTo m p dst = dst ++ encode f;
  at_inside : in_buffer m p = true
}.

(** ** NBLog::FormatEntry *)

Module FormatEntry.

Import EntryIterator.

Definition timestamp (m : list Z) (mEntry : Z) : timespec :=
  let it := mEntry in
  let it := next m it in
  timespec_read m (data it).

Definition hash (m : list Z) (mEntry : Z) : Z :=
  let it := mEntry in
  let it := next m it in
  let it := next m it in
  hash_read m (data it).

Definition author (m : list Z) (mEntry : Z) : Z :=
  let it := mEntry in
  let it := next m it in
  let it := next m it in
  let it := next m it in
  if type m it =? EVENT_AUTHOR then int_read m (data it) else -1.

Definition args (m : list Z) (mEntry : Z) : Z :=
  let it := mEntry in
  let it := next m it in
  let it := next m it in
  let it := next m it in
  if type m it =? EVENT_AUTHOR then next m it else it.

(** The synthesized author frame. *)
Definition authorEntry (author : Z) : list Z :=
  let authorEntrySize := kOverhead + sizeof_int in
  let b := replicate (Z.to_nat authorEntrySize) 0 in
  let b := <[Z.to_nat offsetof_type := EVENT_AUTHOR]> b in
  let b := <[Z.to_nat (authorEntrySize + kPreviousLengthOffset) := sizeof_int]> b in
  let b := <[Z.to_nat offsetof_length := sizeof_int]> b in
  memcpy b offsetof_data (le_bytes 4 author).

(** [while ((++it)->type != EVENT_END_FMT) it.copyTo(dst);] with the final
    position of [it].  The iterator must stay inside the buffer. *)
Fixpoint copy_rest (fuel : nat) (m : list Z) (it : Z) (dst : list Z)
  : outcome (Z * list Z) :=
  match fuel with
  | O => Undefined
  | S fuel' =>
      let it := next m it in
      if negb (in_buffer m it) then Undefined
      else if negb (type m it =? EVENT_END_FMT) then
        copy_rest fuel' m it (copyTo m it dst)
      else Done (it, dst)
  end.

Definition copyWithAuthor (m : list Z) (mEntry : Z) (dst : list Z) (author : Z)
  : outcome (Z * list Z) :=
  let it := mEntry in
  let dst := copyTo m it dst in
  let it := next m it in
  let dst := copyTo m it dst in
  let it := next m it in
  let dst := copyTo m it dst in
  let dst := dst ++ authorEntry author in
  let* r := copy_rest (S (List.length m)) m it dst in
  let '(it, dst) := r in
  let dst := copyTo m it dst in
  Done (next m it, dst).

End FormatEntry.

(** ** NBLog::HistogramEntry *)

Module HistogramEntry.

Import EntryIterator.

Definition timestamp (m : list Z) (mEntry : Z) : timespec :=
  timespec_read m (data mEntry + offsetof_Hist_ts).

Definition hash (m : list Z) (mEntry : Z) : Z :=
  hash_read m (data mEntry).

Definition author (m : list Z) (mEntry : Z) : Z :=
  if length m mEntry =? sizeof_HistTsEntryWithAuthor
  then int_read m (data mEntry + offsetof_Hist_author)
  else -1.

Definition copyWithAuthor (m : list Z) (mEntry : Z) (dst : list Z) (author : Z)
  : outcome (Z * list Z) :=
  let size := kOverhead + sizeof_HistTsEntryWithAuthor in
  let buffer := replicate (Z.to_nat size) 0 in
  let buffer := memcpy buffer 0 (rd_range m mEntry (sizeof_entry + sizeof_HistTsEntry)) in
  let buffer := memcpy buffer (sizeof_entry + sizeof_HistTsEntry) (le_bytes 4 author) in
  let buffer := <[Z.to_nat offsetof_length := sizeof_HistTsEntryWithAuthor]> buffer in
  let buffer :=
    <[Z.to_nat (size + kPreviousLengthOffset) := sizeof_HistTsEntryWithAuthor]> buffer in
  Done (next m mEntry, dst ++ buffer).

End HistogramEntry.

(** ** NBLog::AbstractEntry *)

Module AbstractEntry.

Inductive t : Type :=
| FormatEntry (mEntry : Z)
| HistogramEntry (mEntry : Z).

(** [buildEntry(ptr)]; [None] is the null pointer. *)
Definition buildEntry (m : list Z) (ptr : Z) : option t :=
  let type := EntryIterator.type m ptr in
  if type =? EVENT_START_FMT then Some (FormatEntry ptr)
  else if (type =? EVENT_HISTOGRAM_FLUSH) || (type =? EVENT_HISTOGRAM_ENTRY_TS)
  then Some (HistogramEntry ptr)
  else None.

Definition timestamp (m : list Z) (e : t) : timespec :=
  match e with
  | FormatEntry p => FormatEntry.timestamp m p
  | HistogramEntry p => HistogramEntry.timestamp m p
  end.

Definition hash (m : list Z) (e : t) : Z :=
  match e with
  | FormatEntry p => FormatEntry.hash m p
  | HistogramEntry p => HistogramEntry.hash m p
  end.

Definition author (m : list Z) (e : t) : Z :=
  match e with
  | FormatEntry p => FormatEntry.author m p
  | HistogramEntry p => HistogramEntry.author m p
  end.

Definition copyWithAuthor (m : list Z) (e : t) (dst : list Z) (author : Z)
  : outcome (Z * list Z) :=
  match e with
  | FormatEntry p => FormatEntry.copyWithAuthor m p dst author
  | HistogramEntry p => HistogramEntry.copyWithAuthor m p dst author
  end.

End AbstractEntry.

(** ** NBLog::Reader *)

Module Reader.

Definition startingTypes : gset Z :=
  {[ EVENT_START_FMT; EVENT_HISTOGRAM_ENTRY_TS ]}.
Definition endingTypes : gset Z :=
  {[ EVENT_END_FMT; EVENT_HISTOGRAM_ENTRY_TS; EVENT_HISTOGRAM_FLUSH ]}.

(** The loop of [findLastEntryOfTypes]; [None] is the null pointer. *)
Fixpoint findLast_loop (fuel : nat) (m : list Z) (front back : Z)
    (types : gset Z) : option Z :=
  match fuel with
  | O => None
  | S fuel' =>
      if front <=? back + kPreviousLengthOffset then
        let prev := back - rd m (back + kPreviousLengthOffset) - kOverhead in
        if (prev <? front)
           || negb (prev + rd m (prev + offsetof_length) + kOverhead =? back)
        then None
        else if bool_decide (rd m (prev + offsetof_type) ∈ types) then Some prev
        else findLast_loop fuel' m front prev types
      else None
  end.

(** Every round moves [back] down by at least [kOverhead], so the distance
    to [front] bounds the number of rounds. *)
Definition findLastEntryOfTypes (m : list Z) (front back : Z) (types : gset Z)
  : option Z :=
  findLast_loop (Z.to_nat (back - front)) m front back types.

Record Snapshot : Type := MkSnapshot {
  mData : list Z;
  mBegin : Z;
  mEnd : Z;
  mLost : Z
}.

(** [Snapshot()] *)
Definition Snapshot_empty : Snapshot :=
  {| mData := []; mBegin := 0; mEnd := 0; mLost := 0 |}.

(** [while ((firstStartTmp = findLastEntryOfTypes(front, firstStartTmp,
    startingTypes)) != nullptr) firstStart = firstStartTmp;]  Every round
    moves [firstStartTmp] down, so the distance to [front] bounds the
    number of rounds. *)
Fixpoint firstStart_loop (fuel : nat) (m : list Z) (front firstStartTmp : Z)
    (firstStart : option Z) : option Z :=
  match fuel with
  | O => firstStart
  | S fuel' =>
      match findLastEntryOfTypes m front firstStartTmp startingTypes with
      | Some p => firstStart_loop fuel' m front p (Some p)
      | None => firstStart
      end
  end.

(** What [mFifoReader->obtain] reports: the bytes of the two readable
    regions and the number of bytes lost to overrun. *)
Record obtained : Type := MkObtained {
  iovec0 : list Z;
  iovec1 : list Z;
  lost : Z
}.

(** [getSnapshot()]: [reader] is [None] for a NULL [mFifoReader].  The
    result is the snapshot and the count passed to [release]. *)
Definition getSnapshot (reader : option obtained) : Snapshot * Z :=
  match reader with
  | None => (Snapshot_empty, 0)
  | Some o =>
      let availToRead := Z.of_nat (length (iovec0 o) + length (iovec1 o)) in
      if availToRead <=? 0 then (Snapshot_empty, 0)
      else
        let data := iovec0 o ++ iovec1 o in
        let back := 0 + availToRead in
        let front := 0 in
        match findLastEntryOfTypes data front back endingTypes with
        | None =>
            ({| mData := data; mBegin := front; mEnd := front; mLost := lost o |},
             front - front)
        | Some lastEnd =>
            let e := EntryIterator.next data lastEnd in
            let firstStart :=
              firstStart_loop (Z.to_nat (e - front)) data front e None in
            let b := match firstStart with
                     | None => e
                     | Some p => p
                     end in
            ({| mData := data; mBegin := b; mEnd := e; mLost := lost o |},
             e - front)
        end
  end.

(** *** The backward chain, as the specification words it

    From a boundary [back], the previous frame starts at
    [back - back[-1] - kOverhead]; the step is consistent when that start
    is not before [front] and the frame found there ends exactly at
    [back]. *)
Definition back_step (m : list Z) (front back : Z) : option Z :=
  let prev := back - rd m (back - 1) - kOverhead in
  if (front <=? back - 1) && (front <=? prev)
     && (prev + rd m (prev + 1) + kOverhead =? back)
  then Some prev else None.

(** The frames reachable from [back] by consistent backward steps, nearest
    first. *)
Fixpoint back_chain (fuel : nat) (m : list Z) (front back : Z) : list Z :=
  match fuel with
  | O => []
  | S fuel' =>
      match back_step m front back with
      | Some prev => prev :: back_chain fuel' m front prev
      | None => []
      end
  end.

Definition reachable (m : list Z) (front back : Z) : list Z :=
  back_chain (Z.to_nat (back - front)) m front back.

Definition of_types (m : list Z) (types : gset Z) (ps : list Z) : list Z :=
  filter (fun p => rd m p ∈ types) ps.

(** A scan that has walked from [back] down to [b] over consistent steps
    whose frames are not of the wanted types. *)
Inductive scanned (m : list Z) (front : Z) (types : gset Z) : Z -> Z -> Prop :=
| scanned_here b : scanned m front types b b
| scanned_step back prev b :
    back_step m front back = Some prev ->
    rd m prev ∉ types ->
    scanned m front types prev b ->
    scanned m front types back b.

(** The step from [back] is a violation: there is room for a trailing
    length byte, but the frame start computed from it lies before [front]
    or the frame there does not end at [back]. *)
Definition violation (m : list Z) (front back : Z) : Prop :=
  front <= back - 1 /\
  let prev := back - rd m (back - 1) - kOverhead in
  prev < front \/ prev + rd m (prev + 1) + kOverhead <> back.

End Reader.

(** ** The formatter's rendering of the hash *)

Module Format.

Definition digit_char (d : Z) : string :=
  String.substring (Z.to_nat d) 1 "0123456789ABCDEF".

(** The digits of [v >= 0] in [base], most significant first; no digit
    for 0. *)
Fixpoint digits (fuel : nat) (base v : Z) (acc : string) : string :=
  match fuel with
  | O => acc
  | S fuel' =>
      if v <=? 0 then acc
      else digits fuel' base (v `div` base) (digit_char (v `mod` base) +:+ acc)
  end.

Fixpoint zeros (n : nat) : string :=
  match n with
  | O => ""
  | S n' => "0" +:+ zeros n'
  end.

(** printf's [%.<prec>X] of an [int] argument (read as unsigned int) *)
Definition fmt_X (prec : nat) (v : Z) : string :=
  let ds := digits 32 16 (v `mod` 2 ^ 32) "" in
  zeros (prec - String.length ds) +:+ ds.

(** printf's [%d] *)
Definition fmt_d (v : Z) : string :=
  if v =? 0 then "0"
  else if v <? 0 then "-" +:+ digits 32 10 (- v) ""
  else digits 32 10 v "".

(** The conversion [(int) x] of a 64-bit unsigned value *)
Definition int_of (x : Z) : Z := to_signed 32 x.

(** [body->appendFormat("%.4X-%d ", (int)(hash >> 16) & 0xFFFF,
    (int) hash & 0xFFFF)] *)
Definition appendHash (body : string) (hash : Z) : string :=
  body +:+ fmt_X 4 (Z.land (int_of (Z.shiftr hash 16)) 65535)
       +:+ "-" +:+ fmt_d (Z.land (int_of hash) 65535) +:+ " ".

(** [handleFormat], up to and including the hash. *)
Definition handleFormat_hash (m : list Z) (fmtEntry : Z) (body : string) : string :=
  let hash := FormatEntry.hash m fmtEntry in
  appendHash body hash.

End Format.

(** ** The format scenario of the specification

    [logFormat("x=%d pid=%p", 0xDEADBEEFCAFEBABE, 7)] on a fresh enabled
    writer of process 1234, named audio, at time 5.007. *)

Definition scenario_writer : Writer.t :=
  Writer.Writer_shared true 1234 (bytes_of_string "audio").

Definition scenario_hash : Z := 16045690984503098046.

Definition scenario_log : outcome Writer.t :=
  Writer.logFormat (fun d => d) scenario_writer (Some (Timespec 5 7000000))
    (Some (bytes_of_string "x=%d pid=%p")) scenario_hash [VaInt 7].

Definition scenario_fifo : list Z :=
  match scenario_log with
  | Done w => Writer.written w
  | _ => []
  end.

(** ** NBLog::Merger *)

Module Merger.

(** Items of the priority queue: a timestamp and the index of the snapshot
    it came from. *)
Record MergeItem : Type := MkMergeItem { ts : timespec; index : nat }.

(** [operator>(const struct timespec &, const struct timespec &)] *)
Definition timespec_gt (t1 t2 : timespec) : bool :=
  (tv_sec t2 <? tv_sec t1)
  || ((tv_sec t1 =? tv_sec t2) && (tv_nsec t2 <? tv_nsec t1)).

(** [operator>(const struct MergeItem &, const struct MergeItem &)] *)
Definition MergeItem_gt (i1 i2 : MergeItem) : bool :=
  timespec_gt (ts i1) (ts i2)
  || ((tv_sec (ts i1) =? tv_sec (ts i2))
      && (tv_nsec (ts i1) =? tv_nsec (ts i2))
      && (index i2 <? index i1)%nat).

(** [std::priority_queue<MergeItem, std::vector<MergeItem>,
    std::greater<MergeItem>>]: the queue is the collection of its items;
    [top] is an item that is not greater than any other and [pop] removes
    it.  [extract_min] gives both. *)
Definition priority_queue : Type := list MergeItem.

Fixpoint extract_min (q : priority_queue) : option (MergeItem * priority_queue) :=
  match q with
  | [] => None
  | x :: r =>
      match extract_min r with
      | None => Some (x, [])
      | Some (y, r') =>
          if MergeItem_gt x y then Some (y, x :: r') else Some (x, r)
      end
  end.

Definition emplace (t : timespec) (i : nat) (q : priority_queue) : priority_queue :=
  MkMergeItem t i :: q.

(** [AbstractEntry::buildEntry(offsets[i])], dereferenced. *)
Definition entry_at (m : list Z) (off : Z) : outcome AbstractEntry.t :=
  if negb (in_buffer m off) then Undefined
  else
    match AbstractEntry.buildEntry m off with
    | Some e => Done e
    | None => Undefined        (* the null pointer is dereferenced *)
    end.

(** [if (offsets[i] != snapshots[i]->end()) timestamps.emplace(ts, i);] *)
Definition push_next (snap : Reader.Snapshot) (off : Z) (i : nat)
    (timestamps : priority_queue) : outcome priority_queue :=
  if negb (off =? Reader.mEnd snap) then
    let* e := entry_at (Reader.mData snap) off in
    Done (emplace (AbstractEntry.timestamp (Reader.mData snap) e) i timestamps)
  else Done timestamps.

(** The loop that fills the queue, from index [i] on. *)
Fixpoint init_loop (snaps : list Reader.Snapshot) (i : nat)
    (timestamps : priority_queue) : outcome priority_queue :=
  match snaps with
  | [] => Done timestamps
  | snap :: rest =>
      let* q := push_next snap (Reader.mBegin snap) i timestamps in
      init_loop rest (S i) q
  end.

(** [while (!timestamps.empty())]; every round consumes one record of the
    snapshots, so their total size bounds the number of rounds. *)
Fixpoint merge_loop (fuel : nat) (snapshots : list Reader.Snapshot)
    (offsets : list Z) (timestamps : priority_queue) (dst : list Z)
  : outcome (list Z) :=
  match fuel with
  | O => Undefined
  | S fuel' =>
      match extract_min timestamps with
      | None => Done dst
      | Some (top, popped) =>
          let index := index top in
          match snapshots !! index, offsets !! index with
          | Some snap, Some off =>
              let* e := entry_at (Reader.mData snap) off in
              let* r := AbstractEntry.copyWithAuthor (Reader.mData snap) e dst
                          (Z.of_nat index) in
              let '(off', dst') := r in
              let offsets' := <[index := off']> offsets in
              let* q := push_next snap off' index popped in
              merge_loop fuel' snapshots offsets' q dst'
          | _, _ => Undefined
          end
      end
  end.

Definition total_size (snapshots : list Reader.Snapshot) : nat :=
  foldr (fun s n => (length (Reader.mData s) + n)%nat) O snapshots.

(** [merge()], after the snapshots have been taken; [dst] is what the
    merged FIFO holds already, the result what it holds afterwards. *)
Definition merge_snapshots (snapshots : list Reader.Snapshot) (dst : list Z)
  : outcome (list Z) :=
  let offsets := Reader.mBegin <$> snapshots in
  let* timestamps := init_loop snapshots O [] in
  merge_loop (S (total_size snapshots)) snapshots offsets timestamps dst.

Definition merge (readers : list (option Reader.obtained)) (dst : list Z)
  : outcome (list Z) :=
  merge_snapshots ((fun r => fst (Reader.getSnapshot r)) <$> readers) dst.

End Merger.

(** ** Logical records, as the specification describes them *)

Inductive record : Type :=
| RFormat (fmt : list Z) (ts : timespec) (hash : Z) (args : list frame)
| RHist (flush : bool) (hash : Z) (ts : timespec).

Definition rec_ts (r : record) : timespec :=
  match r with
  | RFormat _ ts _ _ => ts
  | RHist _ _ ts => ts
  end.

Definition hist_type (flush : bool) : Z :=
  if flush then EVENT_HISTOGRAM_FLUSH else EVENT_HISTOGRAM_ENTRY_TS.

(** The frames of a record as a writer emits it. *)
Definition rec_frames (r : record) : list frame :=
  match r with
  | RFormat fmt ts hash args =>
      Frame EVENT_START_FMT fmt
        :: Frame EVENT_TIMESTAMP (timespec_bytes ts)
        :: Frame EVENT_HASH (le_bytes 8 hash)
        :: args ++ [Frame EVENT_END_FMT []]
  | RHist flush hash ts =>
      [Frame (hist_type flush) (Writer.HistTsEntry_bytes hash ts)]
  end.

(** The frames of a record once the merger has tagged it with [author]. *)
Definition authored (author : Z) (r : record) : list frame :=
  match r with
  | RFormat fmt ts hash args =>
      Frame EVENT_START_FMT fmt
        :: Frame EVENT_TIMESTAMP (timespec_bytes ts)
        :: Frame EVENT_HASH (le_bytes 8 hash)
        :: Frame EVENT_AUTHOR (le_bytes 4 author)
        :: args ++ [Frame EVENT_END_FMT []]
  | RHist flush hash ts =>
      [Frame (hist_type flush)
             (Writer.HistTsEntry_bytes hash ts ++ le_bytes 4 author)]
  end.

Definition timespec_ok (ts : timespec) : Prop :=
  - 2 ^ 63 <= tv_sec ts < 2 ^ 63 /\ - 2 ^ 63 <= tv_nsec ts < 2 ^ 63.

(** An argument frame of a record that carries no author tag. *)
Definition arg_ok (f : frame) : Prop :=
  frame_ok f /\ ftype f <> EVENT_END_FMT /\ ftype f <> EVENT_AUTHOR.

Definition record_ok (r : record) : Prop :=
  match r with
  | RFormat fmt ts hash args =>
      bytes fmt /\ Z.of_nat (length fmt) <= kMaxLength
      /\ timespec_ok ts /\ 0 <= hash < 2 ^ 64 /\ Forall arg_ok args
  | RHist _ hash ts => timespec_ok ts /\ 0 <= hash < 2 ^ 64
  end.

#[global] Instance timespec_ok_dec (ts : timespec) : Decision (timespec_ok ts).
Proof. unfold timespec_ok. apply _. Defined.

#[global] Instance arg_ok_dec (f : frame) : Decision (arg_ok f).
Proof. unfold arg_ok. apply _. Defined.

#[global] Instance record_ok_dec (r : record) : Decision (record_ok r).
Proof. destruct r; unfold record_ok; apply _. Defined.

Definition encode_record (r : record) : list Z := encode_all (rec_frames r).
Definition encode_records (rs : list record) : list Z :=
  concat (encode_record <$> rs).

(** The merged stream that holds the records [l], each with its author. *)
Definition encode_merged (l : list (nat * record)) : list Z :=
  concat ((fun ir => encode_all (authored (Z.of_nat ir.1) ir.2)) <$> l).

(** From the offset [off] to [mEnd], which is the end of the data, the
    snapshot holds the encoding of the well-formed records [rs]. *)
Definition cursor_at (s : Reader.Snapshot) (off : Z) (rs : list record) : Prop :=
  Forall record_ok rs /\
  exists pre, Reader.mData s = pre ++ encode_records rs
              /\ off = Z.of_nat (length pre)
              /\ Reader.mEnd s = Z.of_nat (length (Reader.mData s)).

(** A well-formed snapshot of the records [rs]. *)
Definition snapshot_of (s : Reader.Snapshot) (rs : list record) : Prop :=
  cursor_at s (Reader.mBegin s) rs.

(** Timestamps compare by seconds, then nanoseconds. *)
Definition timespec_le (t1 t2 : timespec) : Prop :=
  tv_sec t1 < tv_sec t2 \/ (tv_sec t1 = tv_sec t2 /\ tv_nsec t1 <= tv_nsec t2).

#[global] Instance timespec_le_dec (t1 t2 : timespec) : Decision (timespec_le t1 t2).
Proof. unfold timespec_le. apply _. Defined.

(** The order of the merged stream: timestamps do not decrease, and equal
    timestamps come in ascending stream index. *)
Definition merged_le (a b : nat * record) : Prop :=
  timespec_le (rec_ts a.2) (rec_ts b.2)
  /\ (rec_ts a.2 = rec_ts b.2 -> (a.1 <= b.1)%nat).

Definition merged_sorted (l : list (nat * record)) : Prop :=
  StronglySorted merged_le l.

(** The records of a stream carry non-decreasing timestamps. *)
Definition stream_sorted (rs : list record) : Prop :=
  StronglySorted (fun a b => timespec_le (rec_ts a) (rec_ts b)) rs.

(** All records of the streams, each tagged with its stream index. *)
Fixpoint tagged (i : nat) (streams : list (list record)) : list (nat * record) :=
  match streams with
  | [] => []
  | rs :: rest => ((fun r => (i, r)) <$> rs) ++ tagged (S i) rest
  end.

(** *** The timestamp-ordered merge, as the specification describes it *)

(** The order of the queue items: by timestamp, then by stream index. *)
Definition item_le (x y : Merger.MergeItem) : Prop :=
  tv_sec (Merger.ts x) < tv_sec (Merger.ts y)
  \/ (tv_sec (Merger.ts x) = tv_sec (Merger.ts y)
      /\ (tv_nsec (Merger.ts x) < tv_nsec (Merger.ts y)
          \/ (tv_nsec (Merger.ts x) = tv_nsec (Merger.ts y)
              /\ (Merger.index x <= Merger.index y)%nat))).

(** The heads of the streams that are not exhausted, each with its stream
    index, counted from [i]. *)
Fixpoint heads (i : nat) (streams : list (list record)) : list Merger.MergeItem :=
  match streams with
  | [] => []
  | [] :: rest => heads (S i) rest
  | (r :: _) :: rest => Merger.MkMergeItem (rec_ts r) i :: heads (S i) rest
  end.

Definition records_left (streams : list (list record)) : nat :=
  foldr (fun rs n => (length rs + n)%nat) O streams.

(** Repeatedly take the record with the least (timestamp, stream index)
    among the heads of the streams. *)
Fixpoint kmerge (fuel : nat) (streams : list (list record)) : list (nat * record) :=
  match fuel with
  | O => []
  | S fuel' =>
      match Merger.extract_min (heads O streams) with
      | None => []
      | Some (top, _) =>
          let i := Merger.index top in
          match streams !! i with
          | Some (r :: rs) => (i, r) :: kmerge fuel' (<[i := rs]> streams)
          | _ => []
          end
      end
  end.

Definition merge_order (streams : list (list record)) : list (nat * record) :=
  kmerge (records_left streams) streams.

(** *** Merge scenarios *)

(** The snapshot a reader takes of a FIFO that holds exactly [rs]. *)
Definition snapshot_for (rs : list record) : Reader.Snapshot :=
  {| Reader.mData := encode_records rs;
     Reader.mBegin := 0;
     Reader.mEnd := Z.of_nat (length (encode_records rs));
     Reader.mLost := 0 |}.

(** Stream A logs at 1.000 and 3.000, stream B at 0.999. *)
Definition stream_a : list record :=
  [RFormat (bytes_of_string "a=%d") (Timespec 1 0) 17
     [Frame EVENT_INTEGER (le_bytes 4 5)];
   RHist false 9 (Timespec 3 0)].

Definition stream_b : list record :=
  [RFormat (bytes_of_string "b") (Timespec 0 999000000) 18 []].

(** A stream whose second record carries the earlier timestamp: the
    producer passed its own timestamps to [logTimestamp(ts)]. *)
Definition late_record : record :=
  RFormat (bytes_of_string "late") (Timespec 2 0) 1 [].
Definition early_record : record :=
  RFormat (bytes_of_string "early") (Timespec 1 0) 2 [].
Definition stream_unsorted : list record := [late_record; early_record].

(** The calls that emit one record with a timestamp of the caller's. *)
Definition log_record_at (w : Writer.t) (fmt : list Z) (ts : timespec) (hash : Z)
  : outcome Writer.t :=
  let* w1 := Writer.logStart w (Some fmt) in
  let* w2 := Writer.logTimestamp_ts w1 ts in
  let* w3 := Writer.logHash w2 hash in
  Writer.logEnd w3.

Definition unsorted_log : outcome Writer.t :=
  let* w := log_record_at scenario_writer (bytes_of_string "late") (Timespec 2 0) 1 in
  log_record_at w (bytes_of_string "early") (Timespec 1 0) 2.

(* Decimal numerals, for the text that the printed lines are compared with. *)
From stdpp Require Import pretty.
Local Open Scope Z_scope.

(** ** The writer's public operations, as one type

    A call of a logging operation, with what the environment supplies to
    it: the result of the clock read where the operation reads the clock. *)

Inductive writer_op : Type :=
| OpLogString (s : option (list Z))
| OpLogTimestamp (clock : option timespec)
| OpLogTimestampTs (ts : timespec)
| OpLogInteger (x : Z)
| OpLogFloat (x : Z)
| OpLogPID
| OpLogStart (fmt : option (list Z))
| OpLogEnd
| OpLogHash (hash : Z)
| OpLogHistTS (clock : option timespec) (hash : Z)
| OpLogHistFlush (clock : option timespec) (hash : Z)
| OpLogFormat (clock : option timespec) (fmt : option (list Z)) (hash : Z)
    (args : list va_arg)
| OpSetEnabled (enabled : bool).

Section WriterOps.

Variable float_of_double : Z -> Z.

Definition run_op (w : Writer.t) (op : writer_op) : outcome Writer.t :=
  match op with
  | OpLogString s => Writer.log_string w s
  | OpLogTimestamp clock => Writer.logTimestamp w clock
  | OpLogTimestampTs ts => Writer.logTimestamp_ts w ts
  | OpLogInteger x => Writer.logInteger w x
  | OpLogFloat x => Writer.logFloat w x
  | OpLogPID => Writer.logPID w
  | OpLogStart fmt => Writer.logStart w fmt
  | OpLogEnd => Writer.logEnd w
  | OpLogHash hash => Writer.logHash w hash
  | OpLogHistTS clock hash => Writer.logHistTS w clock hash
  | OpLogHistFlush clock hash => Writer.logHistFlush w clock hash
  | OpLogFormat clock fmt hash args =>
      Writer.logFormat float_of_double w clock fmt hash args
  | OpSetEnabled enabled => Done (Writer.setEnabled w enabled).2
  end.

(** A sequence of calls on one writer, in program order. *)
Fixpoint run_ops (w : Writer.t) (ops : list writer_op) : outcome Writer.t :=
  match ops with
  | [] => Done w
  | op :: ops' => let* w' := run_op w op in run_ops w' ops'
  end.

End WriterOps.

(** The strings a call passes are made of bytes. *)
Definition op_ok (op : writer_op) : Prop :=
  match op with
  | OpLogString (Some s) => bytes s
  | OpLogStart (Some fmt) => bytes fmt
  | OpLogFormat _ (Some fmt) _ args => bytes fmt /\ Forall va_arg_ok args
  | _ => True
  end.

(** A writer as a constructor leaves it: [Writer()], or
    [Writer(shared, size)] in a process whose name, as
    prctl(PR_GET_NAME) gives it, has at most 15 characters. *)
Inductive constructed : Writer.t -> Prop :=
| constructed_default : constructed Writer.Writer_default
| constructed_shared (shared : bool) (pid : Z) (procName : list Z) :
    bytes procName -> strlen procName <= 15 ->
    constructed (Writer.Writer_shared shared pid procName).

(** The frames of one formatted record when the clock read may fail: the
    TIMESTAMP frame is there only if the read succeeded. *)
Definition format_frames_clock (fmt : list Z) (clock : option timespec)
    (hash : Z) (args : list frame) : list frame :=
  Frame EVENT_START_FMT (string_payload fmt)
    :: match clock with
       | Some ts => [Frame EVENT_TIMESTAMP (timespec_bytes ts)]
       | None => []
       end
    ++ Frame EVENT_HASH (le_bytes 8 hash) :: args ++ [Frame EVENT_END_FMT []].

(** What the calls on a writer keep true: it is enabled only over shared
    memory, and over shared memory its FIFO holds whole well-formed frames
    and its pid tag fits a frame. *)
Definition writer_inv (w : Writer.t) : Prop :=
  (Writer.mEnabled w = true -> Writer.mShared w = true)
  /\ (Writer.mShared w = false -> Writer.mFifoWriter w = None)
  /\ (Writer.mShared w = true ->
      exists (fs : list frame) (pidTag : list Z),
        Writer.mFifoWriter w = Some (encode_all fs)
        /\ Forall frame_ok fs
        /\ Writer.mPidTag w = Some pidTag
        /\ Writer.mPidTagSize w = Z.of_nat (length pidTag)
        /\ Z.of_nat (length pidTag) <= kMaxLength
        /\ bytes pidTag).

(** ** Snapshots of whole records *)

(** A histogram flush record. *)
Definition is_flush (r : record) : bool :=
  match r with
  | RHist true _ _ => true
  | _ => false
  end.

(** Where the frames of [fs] start when they are laid out from [p] on. *)
Fixpoint frame_starts (p : Z) (fs : list frame) : list Z :=
  match fs with
  | [] => []
  | f :: fs' => p :: frame_starts (p + Z.of_nat (length (encode f))) fs'
  end.

(** The frames of a sequence of records. *)
Definition all_frames (rs : list record) : list frame :=
  concat (rec_frames <$> rs).

(** The records [rs] do not begin with a flush record. *)
Definition starts_unflushed (rs : list record) : Prop :=
  match rs with
  | [] => True
  | r :: _ => is_flush r = false
  end.

(** What a reader finds in its FIFO, and what its snapshot keeps of it:
    flush records at the head, which the snapshot leaves out; then the
    well-formed records [rs], which the snapshot holds; then the frames of a
    record that is still being written, which stay in the FIFO.  A reader
    without FIFO finds nothing. *)
Definition reader_holds (reader : option Reader.obtained) (rs : list record) : Prop :=
  match reader with
  | None => rs = []
  | Some o =>
      exists (flushes : list record) (partial : list frame),
        Forall (fun r => is_flush r = true) flushes
        /\ starts_unflushed rs
        /\ Forall record_ok (flushes ++ rs)
        /\ Forall frame_ok partial
        /\ Forall (fun f => ftype f ∉ Reader.endingTypes) partial
        /\ Reader.iovec0 o ++ Reader.iovec1 o
           = encode_records (flushes ++ rs) ++ encode_all partial
  end.

(** From the offset [off] to [mEnd] the snapshot holds the encoding of the
    well-formed records [rs].  Before [off] lie the bytes [pre] that the
    iterator has passed or that the snapshot leaves out, and behind [mEnd]
    the bytes [tail] of a record that was not complete when the snapshot
    was taken. *)
Definition records_at (s : Reader.Snapshot) (off : Z) (rs : list record) : Prop :=
  Forall record_ok rs /\
  exists pre tail : list Z,
    Reader.mData s = pre ++ encode_records rs ++ tail
    /\ off = Z.of_nat (length pre)
    /\ Reader.mEnd s = Z.of_nat (length pre)
                       + Z.of_nat (length (encode_records rs)).

(** A snapshot that holds the records [rs] between [mBegin] and [mEnd]. *)
Definition snapshot_holds (s : Reader.Snapshot) (rs : list record) : Prop :=
  records_at s (Reader.mBegin s) rs.

(** ** NBLog::Merger and its FIFO writer

    [mFifoWriter] is a pointer.  The constructor leaves it NULL when the
    merger is given no shared memory, and [copyWithAuthor] writes through
    it.  [None] is the null pointer, [Some dst] a FIFO writer that has
    written the bytes [dst]. *)

Module MergerFifo.

(** [Merger(shared, size)]: the [mFifoWriter] it leaves. *)
Definition Merger (shared : bool) : option (list Z) :=
  if shared then Some [] else None.

(** [buildEntry(offsets[index])->copyWithAuthor(mFifoWriter, index)]: both
    kinds of entry call [dst->write]. *)
Definition copyWithAuthor (m : list Z) (e : AbstractEntry.t)
    (mFifoWriter : option (list Z)) (author : Z) : outcome (Z * option (list Z)) :=
  match mFifoWriter with
  | None => Undefined          (* the null pointer is dereferenced *)
  | Some dst =>
      let* r := AbstractEntry.copyWithAuthor m e dst author in
      Done (r.1, Some r.2)
  end.

(** [while (!timestamps.empty())]; every round consumes one record of the
    snapshots, so their total size bounds the number of rounds. *)
Fixpoint merge_loop (fuel : nat) (snapshots : list Reader.Snapshot)
    (offsets : list Z) (timestamps : Merger.priority_queue)
    (mFifoWriter : option (list Z)) : outcome (option (list Z)) :=
  match fuel with
  | O => Undefined
  | S fuel' =>
      match Merger.extract_min timestamps with
      | None => Done mFifoWriter
      | Some (top, popped) =>
          let index := Merger.index top in
          match snapshots !! index, offsets !! index with
          | Some snap, Some off =>
              let* e := Merger.entry_at (Reader.mData snap) off in
              let* r := copyWithAuthor (Reader.mData snap) e mFifoWriter
                          (Z.of_nat index) in
              let '(off', mFifoWriter') := r in
              let offsets' := <[index := off']> offsets in
              let* q := Merger.push_next snap off' index popped in
              merge_loop fuel' snapshots offsets' q mFifoWriter'
          | _, _ => Undefined
          end
      end
  end.

(** [merge()], after the snapshots have been taken. *)
Definition merge_snapshots (snapshots : list Reader.Snapshot)
    (mFifoWriter : option (list Z)) : outcome (option (list Z)) :=
  let offsets := Reader.mBegin <$> snapshots in
  let* timestamps := Merger.init_loop snapshots O [] in
  merge_loop (S (Merger.total_size snapshots)) snapshots offsets timestamps
    mFifoWriter.

(** [merge()]: [readers] is what the FIFO readers of [mNamedReaders]
    obtain. *)
Definition merge (readers : list (option Reader.obtained))
    (mFifoWriter : option (list Z)) : outcome (option (list Z)) :=
  merge_snapshots ((fun r => fst (Reader.getSnapshot r)) <$> readers) mFifoWriter.

End MergerFifo.

(** ** Histogram helpers of the reader *)

(** A value of type [long], or undefined behaviour on overflow. *)
Definition long_value (v : Z) : outcome Z :=
  if (- 2 ^ 63 <=? v) && (v <? 2 ^ 63) then Done v else Undefined.

(** [deltaMs(t1, t2)]: the arithmetic is done on [long], [/] truncates, and
    the result is converted to [int]. *)
Definition deltaMs (t1 t2 : timespec) : outcome Z :=
  let* d := long_value (tv_sec t2 - tv_sec t1) in
  let* ms := long_value (d * 1000) in
  let* a := long_value (ms + tv_nsec t2 ÷ 1000000) in
  let* b := long_value (a - tv_nsec t1 ÷ 1000000) in
  Done (to_signed 32 b).

(** A timestamp as the clock gives it. *)
Definition timespec_normal (ts : timespec) : Prop :=
  0 <= tv_nsec ts < 1000000000.

#[global] Instance timespec_normal_dec (ts : timespec) : Decision (timespec_normal ts).
Proof. unfold timespec_normal. apply _. Defined.

(** The nanoseconds a timestamp stands for. *)
Definition timespec_ns (ts : timespec) : Z :=
  tv_sec ts * 1000000000 + tv_nsec ts.

(** The loop of [widthOf]; every round divides a positive [x] by ten, so
    [x] itself bounds the number of rounds. *)
Fixpoint widthOf_loop (fuel : nat) (x width : Z) : Z :=
  match fuel with
  | O => width
  | S fuel' =>
      if 0 <? x then widthOf_loop fuel' (x ÷ 10) (width + 1) else width
  end.

Definition widthOf (x : Z) : Z := widthOf_loop (Z.to_nat x) x 0.

(** [buildBuckets]: [++buckets[x]] on a [std::map<int, int>]; a count that
    would pass [INT_MAX] is a signed overflow. *)
Fixpoint buildBuckets_loop (samples : list Z) (buckets : gmap Z Z)
  : outcome (gmap Z Z) :=
  match samples with
  | [] => Done buckets
  | x :: rest =>
      let n := default 0 (buckets !! x) in
      if n <? 2 ^ 31 - 1 then buildBuckets_loop rest (<[x := n + 1]> buckets)
      else Undefined
  end.

Definition buildBuckets (samples : list Z) : outcome (gmap Z Z) :=
  buildBuckets_loop samples ∅.

(** How often [x] occurs among the samples. *)
Definition occurrences (x : Z) (samples : list Z) : Z :=
  Z.of_nat (length (filter (fun y => y = x) samples)).

(** ** The reader's text output *)

(** The text of a run of bytes. *)
Definition string_of_bytes (bs : list Z) : string :=
  String.string_of_list_ascii ((fun b => Ascii.ascii_of_N (Z.to_N b)) <$> bs).

(** The [n] bytes from [p] on lie inside the buffer. *)
Definition readable (m : list Z) (p n : Z) : bool :=
  (0 <=? p) && (p + n <=? Z.of_nat (length m)).

(** The characters [printf] takes for [%.*s] from an argument that points at
    the bytes [s], the rest of the buffer: up to the terminator, and at most
    [prec] of them ([None] is a negative precision, which counts as omitted).
    A read that leaves the buffer is undefined. *)
Fixpoint c_chars (s : list Z) (prec : option nat) : outcome (list Z) :=
  match prec with
  | Some O => Done []
  | _ =>
      match s with
      | [] => Undefined
      | c :: s' =>
          if c =? 0 then Done []
          else let* r := c_chars s' (Nat.pred <$> prec) in Done (c :: r)
      end
  end.

Module Dump.

(** printf's [%0<width>d] *)
Definition fmt_0d (width : nat) (v : Z) : string :=
  let ds := if v =? 0 then "0" else Format.digits 32 10 (Z.abs v) "" in
  if v <? 0 then "-" +:+ Format.zeros (width - 1 - String.length ds) +:+ ds
  else Format.zeros (width - String.length ds) +:+ ds.

(** [appendFormat("[%d.%03d]", (int) ts.tv_sec, (int) (ts.tv_nsec / 1000000))] *)
Definition fmt_timestamp (ts : timespec) : string :=
  "[" +:+ Format.fmt_d (Format.int_of (tv_sec ts)) +:+ "."
      +:+ fmt_0d 3 (Format.int_of (tv_nsec ts ÷ 1000000)) +:+ "]".

Definition appendTimestamp (m : list Z) (body : string) (data : Z) : outcome string :=
  if readable m data sizeof_timespec
  then Done (body +:+ fmt_timestamp (timespec_read m data))
  else Undefined.

Definition appendInt (m : list Z) (body : string) (data : Z) : outcome string :=
  if readable m data sizeof_int
  then Done (body +:+ "<" +:+ Format.fmt_d (int_read m data) +:+ ">")
  else Undefined.

(** [length - sizeof(pid_t)] is computed on [size_t] and converted to [int]
    for the precision of [%.*s]. *)
Definition appendPID (m : list Z) (body : string) (data length : Z) : outcome string :=
  if readable m data sizeof_pid_t then
    let id := int_read m data in
    let name := data + sizeof_pid_t in
    let prec := Format.int_of ((length - sizeof_pid_t) `mod` 2 ^ 64) in
    let* chars := c_chars (drop (Z.to_nat name) m)
                    (if prec <? 0 then None else Some (Z.to_nat prec)) in
    Done (body +:+ "<PID: " +:+ Format.fmt_d id +:+ ", name: "
               +:+ string_of_bytes chars +:+ ">")
  else Undefined.

Section Formatter.

(** printf's [%f] of a [float], given by its bit pattern. *)
Variable render_float : Z -> string.

(** The virtual [handleAuthor] of the reader at hand. *)
Variable handleAuthor : list Z -> AbstractEntry.t -> string -> outcome string.

Definition appendFloat (m : list Z) (body : string) (data : Z) : outcome string :=
  if readable m data sizeof_float
  then Done (body +:+ "<" +:+ render_float (le_value (rd_range m data sizeof_float))
                  +:+ ">")
  else Undefined.

(** The [switch] of [handleFormat] on the conversion character [c], for the
    argument frame whose payload of [length] bytes is at [datum]. *)
Definition handleFormat_conversion (m : list Z) (c : Z) (body : string)
    (datum length : Z) : outcome string :=
  if c =? chr "s" then
    if readable m datum length
    then Done (body +:+ string_of_bytes (rd_range m datum length))
    else Undefined
  else if c =? chr "t" then appendTimestamp m body datum
  else if c =? chr "d" then appendInt m body datum
  else if c =? chr "f" then appendFloat m body datum
  else if c =? chr "p" then appendPID m body datum length
  else Done body.

(** The loop of [handleFormat] over the format string at [fmt]; the result
    is the position of [arg] and the body when the loop is left.  Every
    round moves [fmt_offset] up, so [fmt_length] bounds the rounds. *)
Fixpoint handleFormat_loop (fuel : nat) (m : list Z) (fmt fmt_length fmt_offset : Z)
    (arg : Z) (body : string) : outcome (Z * string) :=
  match fuel with
  | O => Undefined
  | S fuel' =>
      if negb (fmt_offset <? fmt_length) then Done (arg, body)
      else if negb (rd m (fmt + fmt_offset) =? chr "%") then
        handleFormat_loop fuel' m fmt fmt_length (fmt_offset + 1) arg
          (body +:+ string_of_bytes [rd m (fmt + fmt_offset)])
      else
        let fmt_offset := fmt_offset + 1 in
        if rd m (fmt + fmt_offset) =? chr "%" then
          handleFormat_loop fuel' m fmt fmt_length (fmt_offset + 1) arg (body +:+ "%")
        else if fmt_offset =? fmt_length then
          handleFormat_loop fuel' m fmt fmt_length (fmt_offset + 1) arg body
        else if negb (in_buffer m arg && in_buffer m (arg + offsetof_length))
        then Undefined
        else
          let event := EntryIterator.type m arg in
          let length := EntryIterator.length m arg in
          if event =? EVENT_END_FMT then Done (arg, body)
          else
            let datum := EntryIterator.data arg in
            let* body :=
              handleFormat_conversion m (rd m (fmt + fmt_offset)) body datum length in
            handleFormat_loop fuel' m fmt fmt_length (fmt_offset + 1)
              (EntryIterator.next m arg) body
  end.

(** [handleFormat(fmtEntry, timestamp, body)]: the result is the returned
    iterator, the timestamp text and the body. *)
Definition handleFormat (m : list Z) (fmtEntry : Z) (body : string)
  : outcome (Z * string * string) :=
  let ts := FormatEntry.timestamp m fmtEntry in
  let timestamp := fmt_timestamp ts in
  let body := Format.handleFormat_hash m fmtEntry body in
  let* body := handleAuthor m (AbstractEntry.FormatEntry fmtEntry) body in
  let arg := FormatEntry.args m fmtEntry in
  let fmt := fmtEntry + offsetof_data in
  let fmt_length := rd m (fmtEntry + offsetof_length) in
  let* r := handleFormat_loop (S (Z.to_nat fmt_length)) m fmt fmt_length 0 arg body in
  let '(arg, body) := r in
  if negb (in_buffer m arg && in_buffer m (arg + offsetof_length)) then Undefined
  else Done (EntryIterator.next m arg, timestamp, body).

End Formatter.

(** Modelled from the spec: the plain reader omits the author field. *)
Definition Reader_handleAuthor (m : list Z) (entry : AbstractEntry.t) (body : string)
  : outcome string :=
  Done body.

(** [MergeReader::handleAuthor]: [names] are the names of the merger's
    readers; an index outside of them is undefined. *)
Definition MergeReader_handleAuthor (names : list string) (m : list Z)
    (entry : AbstractEntry.t) (body : string) : outcome string :=
  let author := AbstractEntry.author m entry in
  if author <? 0 then Undefined
  else
    match names !! Z.to_nat author with
    | Some name => Done (body +:+ name +:+ ": ")
    | None => Undefined
    end.

(** *** [printf] conversions of the histogram and of [dumpLine] *)

Definition nl : string := String (Ascii.ascii_of_nat 10) "".

Fixpoint blanks (n : nat) : string :=
  match n with
  | O => ""
  | S n' => " " +:+ blanks n'
  end.

(** A field of the given width, [%*s] or [%*d]: a negative width asks for
    left justification. *)
Definition pad (width : Z) (s : string) : string :=
  if width <? 0 then s +:+ blanks (Z.to_nat (- width) - String.length s)
  else blanks (Z.to_nat width - String.length s) +:+ s.

(** [%.*s]: a negative precision counts as omitted. *)
Definition precision (prec : Z) (s : string) : string :=
  if prec <? 0 then s else String.substring 0 (Z.to_nat prec) s.

(** [%zu] *)
Definition fmt_zu (v : Z) : string :=
  if v =? 0 then "0" else Format.digits 32 10 v "".

(** A value of type [int], or undefined behaviour on overflow. *)
Definition int_value (v : Z) : outcome Z :=
  if (- 2 ^ 31 <=? v) && (v <? 2 ^ 31) then Done v else Undefined.

Definition isEmpty (s : string) : bool :=
  match s with
  | EmptyString => true
  | String _ _ => false
  end.

(** *** [drawHistogram] *)

Definition underscores : string := "________________".
Definition spaces : string := "                ".

(** The buckets in the order a [std::map<int, int>] is walked in: by
    ascending key. *)
Definition bucket_le (x y : Z * Z) : Prop := x.1 <= y.1.

#[global] Instance bucket_le_dec : RelDecision bucket_le.
Proof. intros x y. unfold bucket_le. apply _. Defined.

#[global] Instance bucket_le_trans : Transitive bucket_le.
Proof. intros x y z. unfold bucket_le. lia. Defined.

#[global] Instance bucket_le_total : Total bucket_le.
Proof. intros x y. unfold bucket_le. lia. Defined.

Definition bucket_list (buckets : gmap Z Z) : list (Z * Z) :=
  merge_sort bucket_le (map_to_list buckets).

(** [if (height > maxHeight) { scalingFactor = (height + maxHeight) /
    maxHeight; height /= scalingFactor; }]: the height and the scaling
    factor it leaves. *)
Definition drawHistogram_scale (maxVal maxHeight : Z) : outcome (Z * Z) :=
  if maxHeight <? maxVal then
    let* sum := int_value (maxVal + maxHeight) in
    if maxHeight =? 0 then Undefined
    else
      let scalingFactor := sum ÷ maxHeight in
      if scalingFactor =? 0 then Undefined
      else Done (maxVal ÷ scalingFactor, scalingFactor)
  else Done (maxVal, 1).

(** One row of bars. *)
Definition drawHistogram_row (buckets : list (Z * Z))
    (leftPadding colWidth scalingFactor row : Z) (body : string) : string :=
  let body := body +:+ pad leftPadding (Format.fmt_d row) +:+ "|" in
  let body :=
    foldl (fun (b : string) (x : Z * Z) =>
             b +:+ precision (colWidth - 2)
                     (if row =? scalingFactor then underscores else spaces)
               +:+ (if x.2 <? row
                    then (if row =? scalingFactor then "__" else "  ")
                    else "[]"))
      body buckets in
  body +:+ nl.

(** [for (int row = height * scalingFactor; row > 0; row -= scalingFactor)];
    with a positive scaling factor [row] bounds the rounds, with another one
    [row] grows until it overflows. *)
Fixpoint drawHistogram_rows (fuel : nat) (buckets : list (Z * Z))
    (leftPadding colWidth scalingFactor row : Z) (body : string) : outcome string :=
  match fuel with
  | O => if 0 <? row then Undefined else Done body
  | S fuel' =>
      if 0 <? row then
        let body := drawHistogram_row buckets leftPadding colWidth scalingFactor
                      row body in
        let* row := int_value (row - scalingFactor) in
        drawHistogram_rows fuel' buckets leftPadding colWidth scalingFactor row body
      else Done body
  end.

(** [drawHistogram(body, samples, maxHeight)]; without samples the first
    bucket that is read does not exist. *)
Definition drawHistogram (body : string) (samples : list Z) (maxHeight : Z)
  : outcome string :=
  let* buckets := buildBuckets samples in
  let buckets := bucket_list buckets in
  match buckets with
  | [] => Undefined
  | first :: rest =>
      let maxLabel := foldl (fun (a : Z) (x : Z * Z) => if a <? x.1 then x.1 else a)
                        first.1 rest in
      let maxVal := foldl (fun (a : Z) (x : Z * Z) => if a <? x.2 then x.2 else a)
                      first.2 rest in
      let leftPadding := widthOf maxVal in
      let colWidth := Z.max (Z.max (widthOf maxLabel + 1) 3) (leftPadding + 2) in
      let* hs := drawHistogram_scale maxVal maxHeight in
      let '(height, scalingFactor) := hs in
      let body := body +:+ nl in
      let body := body +:+ pad (leftPadding + 2) " " in
      let body :=
        foldl (fun (b : string) (x : Z * Z) =>
                 b +:+ "[" +:+ pad (colWidth - 2) (Format.fmt_d x.2) +:+ "]")
          body buckets in
      let body := body +:+ nl in
      let* top := int_value (height * scalingFactor) in
      let* body := drawHistogram_rows (Z.to_nat top) buckets leftPadding colWidth
                     scalingFactor top body in
      let body := body +:+ pad (leftPadding + 1) " " in
      let body :=
        foldl (fun (b : string) (x : Z * Z) => b +:+ pad colWidth (Format.fmt_d x.1))
          body buckets in
      Done (body +:+ nl)
  end.

(** *** [dump] *)

(** [dumpLine(timestamp, body)]: the text given to [dprintf] when there is a
    file descriptor, and to the log otherwise.  The indentation is printed
    as [%.*s] of the empty string. *)
Definition dumpLine (fd indent : Z) (timestamp body : string) : string :=
  let line := precision (Format.int_of indent) "" +:+ timestamp +:+ " " +:+ body in
  if 0 <=? fd then line +:+ nl else line.

(** The histograms in the order the [std::map] of [dump] is walked in: by
    hash, then by author. *)
Definition hist_le (a b : Z * Z * list Z) : Prop :=
  a.1.1 < b.1.1 \/ (a.1.1 = b.1.1 /\ a.1.2 <= b.1.2).

#[global] Instance hist_le_dec : RelDecision hist_le.
Proof. intros a b. unfold hist_le. apply _. Defined.

#[global] Instance hist_le_trans : Transitive hist_le.
Proof. intros x y z. unfold hist_le. lia. Defined.

#[global] Instance hist_le_total : Total hist_le.
Proof. intros x y. unfold hist_le. lia. Defined.

Definition hist_list (hists : gmap (Z * Z) (list Z)) : list (Z * Z * list Z) :=
  merge_sort hist_le (map_to_list hists).

Section Dumper.

Variable render_float : Z -> string.
Variable handleAuthor : list Z -> AbstractEntry.t -> string -> outcome string.

(** Modelled from the spec: the height that [dump] lets [drawHistogram]
    take by default is the implementer's choice. *)
Variable maxHeight : Z.

(** The histograms of a HISTOGRAM_FLUSH. *)
Fixpoint dump_hists (m : list Z) (entry : Z) (hists : list (Z * Z * list Z))
    (body : string) : outcome string :=
  match hists with
  | [] => Done body
  | hist :: rest =>
      let body := body +:+ "Histogram " +:+ Format.fmt_X 1 hist.1.1 +:+ " - " in
      let* body := handleAuthor m (AbstractEntry.HistogramEntry entry) body in
      let* body := drawHistogram body hist.2 maxHeight in
      dump_hists m entry rest body
  end.

(** The state of the loop of [dump] beside the output. *)
Record dump_state : Type := DumpState {
  d_entry : Z;
  d_timestamp : string;
  d_body : string;
  d_hists : gmap (Z * Z) (list Z);
  d_lastTSs : gmap (Z * Z) timespec
}.

(** The [switch] of the loop on the type of the entry. *)
Definition dump_entry (m : list Z) (st : dump_state) : outcome dump_state :=
  let entry := d_entry st in
  let type := EntryIterator.type m entry in
  if type =? EVENT_START_FMT then
    let* r := handleFormat render_float handleAuthor m entry (d_body st) in
    let '(next, timestamp, body) := r in
    Done (DumpState next timestamp body (d_hists st) (d_lastTSs st))
  else if type =? EVENT_HISTOGRAM_ENTRY_TS then
    let data := EntryIterator.data entry in
    if negb (readable m data sizeof_HistTsEntryWithAuthor) then Undefined
    else
      let hash := hash_read m data in
      let key := (hash, int_read m (data + offsetof_Hist_author)) in
      let ts2 := timespec_read m (data + offsetof_Hist_ts) in
      let* hists :=
        match d_lastTSs st !! key with
        | Some ts1 =>
            let* delta := deltaMs ts1 ts2 in
            Done (<[key := default [] (d_hists st !! key) ++ [delta]]> (d_hists st))
        | None => Done (d_hists st)
        end in
      Done (DumpState (EntryIterator.next m entry) (d_timestamp st) (d_body st) hists
              (<[key := ts2]> (d_lastTSs st)))
  else if type =? EVENT_HISTOGRAM_FLUSH then
    let body := d_body st +:+ "Histograms:" +:+ nl in
    let* body := dump_hists m entry (hist_list (d_hists st)) body in
    Done (DumpState (EntryIterator.next m entry) (d_timestamp st) body ∅ ∅)
  else if type =? EVENT_END_FMT then
    Done (DumpState (EntryIterator.next m entry) (d_timestamp st)
            (d_body st +:+ "warning: got to end format event")
            (d_hists st) (d_lastTSs st))
  else
    Done (DumpState (EntryIterator.next m entry) (d_timestamp st)
            (d_body st +:+ "warning: unexpected event " +:+ Format.fmt_d type)
            (d_hists st) (d_lastTSs st)).

(** [for (auto entry = snapshot.begin(); entry != snapshot.end();)]: the
    lines given to [dumpLine] are collected in [out].  Every round moves
    [entry] up by at least [kOverhead]. *)
Fixpoint dump_loop (fuel : nat) (fd indent : Z) (m : list Z) (last : Z)
    (st : dump_state) (out : list string) : outcome (list string) :=
  match fuel with
  | O => if d_entry st =? last then Done out else Undefined
  | S fuel' =>
      if d_entry st =? last then Done out
      else if negb (in_buffer m (d_entry st)
                    && in_buffer m (d_entry st + offsetof_length))
      then Undefined
      else
        let* st := dump_entry m st in
        if isEmpty (d_body st) then dump_loop fuel' fd indent m last st out
        else
          dump_loop fuel' fd indent m last
            (DumpState (d_entry st) (d_timestamp st) "" (d_hists st) (d_lastTSs st))
            (out ++ [dumpLine fd indent (d_timestamp st) (d_body st)])
  end.

(** [dump(fd, indent, snapshot)]: the lines it prints. *)
Definition dump (fd indent : Z) (snapshot : Reader.Snapshot)
  : outcome (list string) :=
  let m := Reader.mData snapshot in
  let lost := (Reader.mLost snapshot + (Reader.mBegin snapshot - 0)) `mod` 2 ^ 64 in
  let out :=
    if 0 <? lost
    then [dumpLine fd indent ""
            ("warning: lost " +:+ fmt_zu lost +:+ " bytes worth of events")]
    else [] in
  dump_loop (S (length m)) fd indent m (Reader.mEnd snapshot)
    (DumpState (Reader.mBegin snapshot) "" "" ∅ ∅) out.

(** [dump(fd, indent)]: a snapshot is taken and dumped; the result holds
    the count released to the FIFO too. *)
Definition dump_reader (fd indent : Z) (reader : option Reader.obtained)
  : outcome (list string) * Z :=
  let snap := Reader.getSnapshot reader in
  (dump fd indent snap.1, snap.2).

End Dumper.

End Dump.

(** ** NBLog::MergeThread *)

Module MergeThread.

Section Thread.

(** Modelled from the spec: the two periods are constants of the header. *)
Variable kThreadSleepPeriodUs : Z.
Variable kThreadWakeupPeriodUs : Z.

(** The merger, and what [mMerger.merge()] does to it. *)
Variable merger : Type.
Variable merge : merger -> outcome merger.

Record t : Type := Build { mMerger : merger; mTimeoutUs : Z }.

(** [setTimeoutUs(time)] *)
Definition setTimeoutUs (th : t) (time : Z) : t :=
  {| mMerger := mMerger th; mTimeoutUs := time |}.

(** [wakeup()] *)
Definition wakeup (th : t) : t := setTimeoutUs th kThreadWakeupPeriodUs.

(** One pass of [threadLoop], from the return of the wait on the condition
    variable on: the result is what it returns and the state it leaves. *)
Definition threadLoop (th : t) : outcome (bool * t) :=
  let doMerge := 0 <? mTimeoutUs th in
  let* timeout := Dump.int_value (mTimeoutUs th - kThreadSleepPeriodUs) in
  let* m := if doMerge then merge (mMerger th) else Done (mMerger th) in
  Done (true, {| mMerger := m; mTimeoutUs := timeout |}).

(** [n] passes in a row, with no call of [setTimeoutUs] between them. *)
Fixpoint passes (n : nat) (th : t) : outcome t :=
  match n with
  | O => Done th
  | S n' => let* r := threadLoop th in passes n' r.2
  end.

End Thread.

End MergeThread.

(** *** What a formatted record should read as *)

(** Every [%] of the format string is followed by one of the conversion
    characters of the grammar. *)
Fixpoint known_specifiers (fmt : list Z) : bool :=
  match fmt with
  | [] => true
  | c :: r =>
      if c =? chr "%" then
        match r with
        | [] => false
        | c1 :: r' =>
            bool_decide (c1 ∈ [chr "s"; chr "t"; chr "d"; chr "f"; chr "p"; chr "%"])
            && known_specifiers r'
        end
      else known_specifiers r
  end.

(** The arguments hold values of their C types. *)
Definition va_arg_typed (a : va_arg) : Prop :=
  match a with
  | VaString (Some s) => bytes s
  | VaTimespec ts => timespec_ok ts
  | _ => True
  end.

#[global] Instance va_arg_typed_dec (a : va_arg) : Decision (va_arg_typed a).
Proof. destruct a as [[s|]| | |]; unfold va_arg_typed; apply _. Defined.

Section Rendering.

Variable render_float : Z -> string.
Variable float_of_double : Z -> Z.
Variable pid : Z.
Variable procName : list Z.

(** The text of the arguments [args] laid into the format string [fmt], as
    the caller of [logFormat] means it. *)
Fixpoint rendered (fmt : list Z) (args : list va_arg) : string :=
  match fmt with
  | [] => ""
  | c :: r =>
      if negb (c =? chr "%") then string_of_bytes [c] +:+ rendered r args
      else
        match r with
        | [] => ""
        | c1 :: r' =>
            if c1 =? chr "%" then "%" +:+ rendered r' args
            else if c1 =? chr "s" then
              match args with
              | VaString (Some s) :: args' =>
                  string_of_bytes (string_payload s) +:+ rendered r' args'
              | _ => ""
              end
            else if c1 =? chr "t" then
              match args with
              | VaTimespec ts :: args' => Dump.fmt_timestamp ts +:+ rendered r' args'
              | _ => ""
              end
            else if c1 =? chr "d" then
              match args with
              | VaInt i :: args' =>
                  "<" +:+ Format.fmt_d (Format.int_of i) +:+ ">" +:+ rendered r' args'
              | _ => ""
              end
            else if c1 =? chr "f" then
              match args with
              | VaDouble d :: args' =>
                  "<" +:+ render_float (float_of_double d `mod` 2 ^ 32) +:+ ">"
                      +:+ rendered r' args'
              | _ => ""
              end
            else if c1 =? chr "p" then
              "<PID: " +:+ Format.fmt_d (Format.int_of pid) +:+ ", name: "
                       +:+ string_of_bytes procName +:+ ">" +:+ rendered r' args
            else rendered r' args
        end
  end.

End Rendering.

(** *** The lines of a dump, as the specification words them *)

(** The character 10. *)
Definition line_feed : string := String (Ascii.ascii_of_N 10) "".

(** A timestamp that prints as it is: the seconds fit an [int], and the
    nanoseconds are those of a clock. *)
Definition timespec_prints (ts : timespec) : Prop :=
  - 2 ^ 31 <= tv_sec ts < 2 ^ 31 /\ 0 <= tv_nsec ts < 1000000000.

#[global] Instance timespec_prints_dec (ts : timespec) : Decision (timespec_prints ts).
Proof. unfold timespec_prints. apply _. Defined.

(** [[sec.msec]]: the seconds in decimal, then the milliseconds in three
    digits. *)
Definition timestamp_text (ts : timespec) : string :=
  let ms := tv_nsec ts `div` 1000000 in
  "[" +:+ pretty (tv_sec ts) +:+ "."
      +:+ pretty (ms `div` 100) +:+ pretty ((ms `div` 10) `mod` 10)
      +:+ pretty (ms `mod` 10) +:+ "]".

(** A line of the dump: the time, a space and the text; a line that goes
    to a file descriptor ends with a line feed, a line that goes to the
    log does not. *)
Definition line_text (fd : Z) (time text : string) : string :=
  time +:+ " " +:+ text +:+ (if bool_decide (0 <= fd) then line_feed else "").

(** *** The chart of a histogram, as the specification words it *)

(** [n] copies of [s]. *)
Fixpoint fill (n : nat) (s : string) : string :=
  match n with
  | O => ""
  | S n' => s +:+ fill n' s
  end.

(** The text [s] at the right end of a field of [width] characters. *)
Definition right_justified (width : Z) (s : string) : string :=
  fill (Z.to_nat width - String.length s) " " +:+ s.

(** The texts of the elements of a list, one after the other. *)
Definition texts {A} (f : A -> string) (l : list A) : string :=
  foldr (fun x s => f x +:+ s) "" l.

(** The buckets of a histogram: the values that occur among the samples,
    in ascending order, each with the number of its occurrences. *)
Definition sample_buckets (samples : list Z) : list (Z * Z) :=
  (fun x => (x, occurrences x samples)) <$> merge_sort Z.le (remove_dups samples).

(** The number of counts that one row of bars stands for: 1 when the
    largest count fits the height limit. *)
Definition chart_scale (maxVal maxHeight : Z) : Z :=
  if bool_decide (maxHeight < maxVal) then (maxVal + maxHeight) `div` maxHeight
  else 1.

(** One row of bars, for the count [row]: a bucket has a bar in it when
    its count reaches [row]; the bottom row is drawn on a line of
    underscores. *)
Definition chart_row (buckets : list (Z * Z)) (leftPadding colWidth scale row : Z)
  : string :=
  let gap := if bool_decide (row = scale) then "_" else " " in
  right_justified leftPadding (pretty row) +:+ "|"
  +:+ texts (fun b : Z * Z =>
               fill (Z.to_nat (colWidth - 2)) gap
               +:+ (if bool_decide (b.2 < row) then gap +:+ gap else "[]"))
        buckets
  +:+ line_feed.

(** The chart: a line feed; the row of the counts; the rows of bars from
    the top one down; the row of the values. *)
Definition chart_text (samples : list Z) (maxHeight : Z) : string :=
  let buckets := sample_buckets samples in
  let maxLabel := foldr Z.max 0 (buckets.*1) in
  let maxVal := foldr Z.max 0 (buckets.*2) in
  let leftPadding := widthOf maxVal in
  let colWidth := Z.max (Z.max (widthOf maxLabel + 1) 3) (leftPadding + 2) in
  let scale := chart_scale maxVal maxHeight in
  let height := maxVal `div` scale in
  line_feed
  +:+ fill (Z.to_nat (leftPadding + 2)) " "
  +:+ texts (fun b : Z * Z =>
               "[" +:+ right_justified (colWidth - 2) (pretty b.2) +:+ "]") buckets
  +:+ line_feed
  +:+ texts (fun k : Z => chart_row buckets leftPadding colWidth scale (k * scale))
        (reverse (seqZ 1 height))
  +:+ fill (Z.to_nat (leftPadding + 1)) " "
  +:+ texts (fun b : Z * Z => right_justified colWidth (pretty b.1)) buckets
  +:+ line_feed.

(** A sample that is a value of type [int]. *)
Definition int_sample (x : Z) : Prop := - 2 ^ 31 <= x < 2 ^ 31.

#[global] Instance int_sample_dec (x : Z) : Decision (int_sample x).
Proof. unfold int_sample. apply _. Defined.

(** *** Calls of [logFormat], and the lines they should print *)

(** One call of [logFormat(fmt, hash, args...)], with the time its clock
    read gave. *)
Record format_call : Type := FormatCall {
  c_ts : timespec;
  c_fmt : list Z;
  c_hash : Z;
  c_args : list va_arg
}.

Section Calls.

Variable render_float : Z -> string.
Variable float_of_double : Z -> Z.
Variable pid : Z.
Variable procName : list Z.

(** A call whose format string has at most 255 characters and conversions
    of the grammar only, with arguments as the conversions ask for, made at
    a time that prints as it is. *)
Definition call_ok (c : format_call) : Prop :=
  bytes (c_fmt c)
  /\ Forall (fun x => x <> 0) (c_fmt c)
  /\ Z.of_nat (length (c_fmt c)) <= kMaxLength
  /\ known_specifiers (c_fmt c) = true
  /\ Forall va_arg_typed (c_args c)
  /\ timespec_prints (c_ts c)
  /\ 0 <= c_hash c < 2 ^ 64
  /\ is_Some (arg_frames float_of_double (le_bytes 4 pid ++ procName)
                (specifiers (c_fmt c)) (c_args c)).

(** The record a call leaves in the FIFO. *)
Definition call_record (c : format_call) : record :=
  RFormat (c_fmt c) (c_ts c) (c_hash c)
    (default [] (arg_frames float_of_double (le_bytes 4 pid ++ procName)
                   (specifiers (c_fmt c)) (c_args c))).

(** The calls, one after the other. *)
Fixpoint run_calls (w : Writer.t) (calls : list format_call) : outcome Writer.t :=
  match calls with
  | [] => Done w
  | c :: rest =>
      let* w' := Writer.logFormat float_of_double w (Some (c_ts c)) (Some (c_fmt c))
                   (c_hash c) (c_args c) in
      run_calls w' rest
  end.

(** The line a call should print: the time, the hash, the name of the
    reader if there is one, and the text. *)
Definition call_line (fd : Z) (author : string) (c : format_call) : string :=
  line_text fd (timestamp_text (c_ts c))
    (Format.appendHash "" (c_hash c) +:+ author
     +:+ rendered render_float float_of_double pid procName (c_fmt c) (c_args c)).

End Calls.

#[global] Instance call_ok_dec (float_of_double : Z -> Z) (pid : Z)
    (procName : list Z) (c : format_call) :
  Decision (call_ok float_of_double pid procName c).
Proof. unfold call_ok. apply _. Defined.

(** The frames of a record, before ([None]) or after the merger has tagged
    it with an author. *)
Definition record_frames (author : option Z) (r : record) : list frame :=
  match author with
  | None => rec_frames r
  | Some i => authored i r
  end.

(** A formatted record of a dumped FIFO: the call that logged it, the
    process that made the call, and the author the merger has tagged it
    with, if it has. *)
Record dump_item : Type := DumpItem {
  i_author : option nat;
  i_pid : Z;
  i_procName : list Z;
  i_call : format_call
}.

Definition item_record (float_of_double : Z -> Z) (it : dump_item) : record :=
  call_record float_of_double (i_pid it) (i_procName it) (i_call it).

Definition item_frames (float_of_double : Z -> Z) (it : dump_item) : list frame :=
  record_frames (Z.of_nat <$> i_author it) (item_record float_of_double it).

Definition item_ok (float_of_double : Z -> Z) (it : dump_item) : Prop :=
  call_ok float_of_double (i_pid it) (i_procName it) (i_call it)
  /\ bytes (i_procName it)
  /\ Forall (fun x => x <> 0) (i_procName it)
  /\ Z.of_nat (length (i_procName it)) + 4 <= kMaxLength
  /\ match i_author it with
     | Some i => Z.of_nat i < 2 ^ 31
     | None => True
     end.

(** The FIFO that holds the records of the items. *)
Definition encode_items (float_of_double : Z -> Z) (items : list dump_item) : list Z :=
  concat ((fun it => encode_all (item_frames float_of_double it)) <$> items).

(** *** Several writers, merged and dumped *)

(** A logging process and the name the merger knows its reader by. *)
Record proc : Type := Proc {
  p_pid : Z;
  p_procName : list Z;
  p_name : string
}.

Definition proc_ok (p : proc) : Prop :=
  bytes (p_procName p)
  /\ Forall (fun x => x <> 0) (p_procName p)
  /\ Z.of_nat (length (p_procName p)) + 4 <= kMaxLength.

#[global] Instance proc_ok_dec (p : proc) : Decision (proc_ok p).
Proof. unfold proc_ok. apply _. Defined.

(** The records the calls of a process leave in its FIFO. *)
Definition proc_stream (float_of_double : Z -> Z) (p : proc)
    (calls : list format_call) : list record :=
  call_record float_of_double (p_pid p) (p_procName p) <$> calls.

(** The item of the merged FIFO for the call [ic.2] of process [ic.1]. *)
Definition logged_item (procs : list proc) (ic : nat * format_call) : dump_item :=
  let p := default (Proc 0 [] "") (procs !! ic.1) in
  DumpItem (Some ic.1) (p_pid p) (p_procName p) ic.2.

(** The calls in the order given by the process indices [idxs]: the calls
    of each process come in the order in which it made them. *)
Fixpoint calls_in_order (idxs : list nat) (logs : list (list format_call))
  : list (nat * format_call) :=
  match idxs with
  | [] => []
  | i :: rest =>
      match logs !! i with
      | Some (c :: cs) => (i, c) :: calls_in_order rest (<[i := cs]> logs)
      | _ => []
      end
  end.

(** The calls of the processes in the merge order of their records. *)
Definition merged_calls (float_of_double : Z -> Z) (procs : list proc)
    (logs : list (list format_call)) : list (nat * format_call) :=
  calls_in_order
    (merge_order (zip_with (proc_stream float_of_double) procs logs)).*1 logs.

(** The line it should print. *)
Definition logged_line (render_float : Z -> string) (float_of_double : Z -> Z)
    (fd : Z) (procs : list proc) (ic : nat * format_call) : string :=
  let p := default (Proc 0 [] "") (procs !! ic.1) in
  call_line render_float float_of_double (p_pid p) (p_procName p) fd
    (p_name p +:+ ": ") ic.2.

(** The reader obtains all the bytes [written] to its FIFO, in one region
    or in two, and the FIFO reports nothing lost: the writes have not
    overrun the FIFO, and the reader has released nothing yet. *)
Definition obtains_all (o : Reader.obtained) (written : list Z) : Prop :=
  Reader.iovec0 o ++ Reader.iovec1 o = written /\ Reader.lost o = 0.

(** ** Scenarios of the further properties *)

(** One formatted record, one histogram entry, then the writer is disabled
    and a last call is ignored. *)
Definition scenario_ops : list writer_op :=
  [OpLogFormat (Some (Timespec 5 7000000)) (Some (bytes_of_string "x=%d")) 17
     [VaInt 7];
   OpLogHistTS (Some (Timespec 6 0)) 9;
   OpSetEnabled false;
   OpLogPID].

Definition flush_record : record := RHist true 3 (Timespec 0 5).

(** A FIFO that begins with a flush record and ends within a record. *)
Definition scenario_data : list Z :=
  encode_records ([flush_record] ++ stream_a)
  ++ encode_all [Frame EVENT_START_FMT (bytes_of_string "hi")].

(** The snapshot a reader takes of it: the flush record at the head and
    the frame of the record still being written are left out. *)
Definition scenario_trimmed : Reader.Snapshot :=
  (Reader.getSnapshot (Some (Reader.MkObtained scenario_data [] 0))).1.

(** Three readers: the FIFO of the first ends within a record, the second
    has no FIFO, the FIFO of the third wraps around and begins with a flush
    record. *)
Definition scenario_readers : list (option Reader.obtained) :=
  [Some (Reader.MkObtained
           (encode_records stream_a
            ++ encode_all [Frame EVENT_START_FMT (bytes_of_string "hi")]) [] 0);
   None;
   Some (Reader.MkObtained
           (take 7 (encode_records (flush_record :: stream_unsorted)))
           (drop 7 (encode_records (flush_record :: stream_unsorted))) 2)].

(** Two processes: the first makes two calls of [logFormat], the second
    one, between them in time. *)
Definition scenario_calls : list format_call :=
  [FormatCall (Timespec 5 7000000) (bytes_of_string "x=%d pid=%p") scenario_hash
     [VaInt 7];
   FormatCall (Timespec 9 0) (bytes_of_string "%s!") 3
     [VaString (Some (bytes_of_string "bye"))]].

Definition scenario_mixer : Writer.t :=
  Writer.Writer_shared true 77 (bytes_of_string "mixer").

Definition scenario_procs : list proc :=
  [Proc 1234 (bytes_of_string "audio") "fast";
   Proc 77 (bytes_of_string "mixer") "normal"].

Definition scenario_logs : list (list format_call) :=
  [scenario_calls; [FormatCall (Timespec 2 0) (bytes_of_string "late") 1 []]].

(** *** Histogram records of a merged FIFO *)

(** A timestamp logged with [logHistTS] or [logHistFlush] under the hash
    [h_hash] by the writer of the reader [h_author], as the merger copies
    it. *)
Record hist_item : Type := HistItem {
  h_author : nat;
  h_hash : Z;
  h_ts : timespec
}.

Definition hist_record (flush : bool) (it : hist_item) : nat * record :=
  (h_author it, RHist flush (h_hash it) (h_ts it)).

(** The frame of the merged FIFO that holds it. *)
Definition hist_frame (flush : bool) (it : hist_item) : frame :=
  Frame (hist_type flush)
    (Writer.HistTsEntry_bytes (h_hash it) (h_ts it)
     ++ le_bytes 4 (Z.of_nat (h_author it))).

(** The key [dump] files it under. *)
Definition hist_key (it : hist_item) : Z * Z :=
  (h_hash it, Z.of_nat (h_author it)).

(** The fields hold values of their types, and the seconds are far enough
    from the ends of [long] for [deltaMs] not to overflow. *)
Definition hist_item_ok (it : hist_item) : Prop :=
  timespec_ok (h_ts it)
  /\ - 2 ^ 51 <= tv_sec (h_ts it) < 2 ^ 51
  /\ 0 <= h_hash it < 2 ^ 64
  /\ Z.of_nat (h_author it) < 2 ^ 31.

#[global] Instance hist_item_ok_dec (it : hist_item) : Decision (hist_item_ok it).
Proof. unfold hist_item_ok. apply _. Defined.

(** The timestamps logged under [key], in the order of the FIFO. *)
Definition key_times (key : Z * Z) (items : list hist_item) : list timespec :=
  h_ts <$> filter (fun it => hist_key it = key) items.

(** The intervals between consecutive timestamps, as [deltaMs] gives
    them. *)
Fixpoint intervals (times : list timespec) : outcome (list Z) :=
  match times with
  | [] => Done []
  | t1 :: rest =>
      match rest with
      | [] => Done []
      | t2 :: _ =>
          let* d := deltaMs t1 t2 in
          let* ds := intervals rest in
          Done (d :: ds)
      end
  end.

(** The maps of [dump] hold what the histogram entries [items] leave in
    them: under every key the intervals between its timestamps, if there
    are any, and the last of its timestamps. *)
Definition hists_hold (items : list hist_item) (hists : gmap (Z * Z) (list Z))
    (lastTSs : gmap (Z * Z) timespec) : Prop :=
  forall key : Z * Z,
    exists samples : list Z,
      intervals (key_times key items) = Done samples
      /\ hists !! key = (if decide (samples = []) then None else Some samples)
      /\ lastTSs !! key = last (key_times key items).

(** The order in which the histograms come: by hash, then by writer. *)
Definition key_le (a b : Z * Z) : Prop :=
  a.1 < b.1 \/ (a.1 = b.1 /\ a.2 <= b.2).

#[global] Instance key_le_dec : RelDecision key_le.
Proof. intros a b. unfold key_le. apply _. Defined.

#[global] Instance key_le_trans : Transitive key_le.
Proof. intros x y z. unfold key_le. lia. Defined.

#[global] Instance key_le_total : Total key_le.
Proof. intros x y. unfold key_le. lia. Defined.

#[global] Instance key_le_antisymm : AntiSymm (=) key_le.
Proof.
  intros [x1 x2] [y1 y2]. unfold key_le. cbn. intros H1 H2. f_equal; lia.
Defined.

(** The keys of the histograms that a flush prints: the pairs of a hash and
    a writer under which two timestamps or more were logged, in that
    order. *)
Definition histogram_keys (items : list hist_item) : list (Z * Z) :=
  merge_sort key_le
    (remove_dups
       (filter (fun key => (2 <= length (key_times key items))%nat)
          (hist_key <$> items))).

(** The samples of the histogram of [key]: the intervals between its
    timestamps. *)
Definition key_samples (key : Z * Z) (items : list hist_item) : list Z :=
  match intervals (key_times key items) with
  | Done samples => samples
  | _ => []
  end.

(** The histograms that a flush prints. *)
Definition histograms (items : list hist_item) : list (Z * Z * list Z) :=
  (fun key => (key, key_samples key items)) <$> histogram_keys items.

(** The text of one histogram: its heading, with the low 32 bits of the
    hash in hexadecimal and the text [author] that names a writer, and the
    chart of its samples. *)
Definition histogram_text (author : string) (maxHeight : Z) (h : Z * Z * list Z)
  : string :=
  "Histogram " +:+ Format.fmt_X 1 h.1.1 +:+ " - " +:+ author
  +:+ chart_text h.2 maxHeight.

(** Timestamps of two writers under two hashes, then a flush. *)
Definition scenario_hists : list hist_item :=
  [HistItem 0 9 (Timespec 1 0);
   HistItem 1 9 (Timespec 1 500000000);
   HistItem 0 9 (Timespec 1 20000000);
   HistItem 0 4 (Timespec 2 0);
   HistItem 0 9 (Timespec 1 40000000);
   HistItem 1 9 (Timespec 1 530000000);
   HistItem 0 9 (Timespec 1 65000000)].

Definition scenario_flush : hist_item := HistItem 1 0 (Timespec 3 0).

(** *** Histogram records of a FIFO that no merger has written *)

(** A timestamp whose seconds are far enough from the ends of [long] for
    [deltaMs] not to overflow. *)
Definition hist_time_ok (ts : timespec) : Prop :=
  timespec_ok ts /\ - 2 ^ 51 <= tv_sec ts < 2 ^ 51.

#[global] Instance hist_time_ok_dec (ts : timespec) : Decision (hist_time_ok ts).
Proof. unfold hist_time_ok. apply _. Defined.

(** The author that [dump] reads from a histogram entry that carries none:
    the four bytes behind the [HistTsEntry], which are the length that ends
    the entry, then the type, the length and the first byte of the payload
    of the entry that follows. *)
Definition trailing_author (next_type next_length next_byte : Z) : Z :=
  to_signed 32 (le_value [sizeof_HistTsEntry; next_type; next_length; next_byte]).

(** * Properties *)

(** ** Reading bytes *)

Lemma rd_lookup (m : list Z) (p : Z) (x : Z) :
  0 <= p -> m !! Z.to_nat p = Some x -> rd m p = x.
Proof.
  intros Hp Hx. unfold rd.
  destruct (Z.ltb_spec p 0); [lia|].
  by rewrite (list_lookup_total_correct _ _ _ Hx).
Qed.

Lemma rd_app_l (a b : list Z) (p : Z) :
  0 <= p < Z.of_nat (length a) -> rd (a ++ b) p = rd a p.
Proof.
  intros Hp. unfold rd. destruct (Z.ltb_spec p 0); [lia|].
  rewrite !list_lookup_total_alt, lookup_app_l by lia. done.
Qed.

Lemma rd_app_r (a b : list Z) (p : Z) :
  Z.of_nat (length a) <= p -> rd (a ++ b) p = rd b (p - Z.of_nat (length a)).
Proof.
  intros Hp. unfold rd.
  destruct (Z.ltb_spec p 0); [lia|].
  destruct (Z.ltb_spec (p - Z.of_nat (length a)) 0); [lia|].
  rewrite !list_lookup_total_alt, lookup_app_r by lia.
  do 2 f_equal. lia.
Qed.

Lemma rd_byte (m : list Z) (p : Z) : bytes m -> is_byte (rd m p).
Proof.
  intros Hm. unfold rd. destruct (p <? 0); [red; lia|].
  rewrite list_lookup_total_alt.
  destruct (m !! Z.to_nat p) as [x|] eqn:E; simpl; [|red; lia].
  eapply Forall_lookup_1 in E; eauto.
Qed.

Lemma rd_range_length (m : list Z) (p n : Z) :
  length (rd_range m p n) = Z.to_nat n.
Proof. unfold rd_range. by rewrite length_fmap, length_seqZ. Qed.

(** Reading back a block that sits at offset [|pre|]. *)
Lemma rd_range_mid (pre xs post : list Z) :
  rd_range (pre ++ xs ++ post) (Z.of_nat (length pre)) (Z.of_nat (length xs)) = xs.
Proof.
  apply list_eq. intros i. unfold rd_range.
  rewrite list_lookup_fmap.
  destruct (decide (i < length xs)%nat) as [Hi|Hi].
  - rewrite lookup_seqZ_lt by lia. simpl.
    destruct (lookup_lt_is_Some_2 xs i Hi) as [x Hx]. rewrite Hx. f_equal.
    apply rd_lookup; [lia|].
    rewrite lookup_app_r by lia.
    replace (Z.to_nat (Z.of_nat (length pre) + Z.of_nat i) - length pre)%nat
      with i by lia.
    by rewrite lookup_app_l.
  - rewrite lookup_seqZ_ge by lia. simpl.
    symmetry. apply lookup_ge_None. lia.
Qed.

Lemma rd_range_shift (pre m : list Z) (p n : Z) :
  0 <= p ->
  rd_range (pre ++ m) (Z.of_nat (length pre) + p) n = rd_range m p n.
Proof.
  intros Hp. unfold rd_range. apply list_eq. intros i.
  rewrite !list_lookup_fmap.
  destruct (decide (Z.of_nat i < n)) as [Hi|Hi].
  - rewrite !lookup_seqZ_lt by lia. simpl. f_equal.
    rewrite rd_app_r by lia. f_equal. lia.
  - rewrite !lookup_seqZ_ge by lia. done.
Qed.

Lemma rd_range_prefix (xs post : list Z) :
  rd_range (xs ++ post) 0 (Z.of_nat (length xs)) = xs.
Proof. apply (rd_range_mid [] xs post). Qed.

(** ** Little-endian integers *)

Lemma le_bytes_length (n : nat) (v : Z) : length (le_bytes n v) = n.
Proof. revert v. induction n; intros; simpl; auto. Qed.

Lemma le_bytes_bytes (n : nat) (v : Z) : bytes (le_bytes n v).
Proof.
  unfold bytes. revert v. induction n; intros v; simpl.
  - constructor.
  - constructor; [|apply IHn]. red. apply Z.mod_pos_bound. lia.
Qed.

Lemma le_value_bytes (n : nat) (v : Z) :
  le_value (le_bytes n v) = v `mod` 2 ^ (8 * Z.of_nat n).
Proof.
  revert v. induction n; intros v.
  - simpl. by rewrite Z.mod_1_r.
  - cbn [le_bytes le_value]. rewrite IHn.
    replace (8 * Z.of_nat (S n)) with (8 + 8 * Z.of_nat n) by lia.
    rewrite Z.pow_add_r by lia. change (2 ^ 8) with 256.
    rewrite Z.rem_mul_r by lia. lia.
Qed.

Lemma to_signed_id (w v : Z) :
  0 < w -> - 2 ^ (w - 1) <= v < 2 ^ (w - 1) -> to_signed w (v `mod` 2 ^ w) = v.
Proof.
  intros Hw Hv. unfold to_signed.
  assert (H2 : 2 ^ w = 2 * 2 ^ (w - 1)).
  { replace w with (1 + (w - 1)) at 1 by lia. rewrite Z.pow_add_r by lia. lia. }
  assert (H3 : 0 < 2 ^ (w - 1)) by (apply Z.pow_pos_nonneg; lia).
  rewrite Z.mod_mod by lia.
  destruct (Z_lt_dec v 0).
  - replace (v `mod` 2 ^ w) with (v + 2 ^ w).
    + destruct (Z.ltb_spec (v + 2 ^ w) (2 ^ (w - 1))); lia.
    + apply Z.mod_unique with (q := -1); lia.
  - rewrite Z.mod_small by lia.
    destruct (Z.ltb_spec v (2 ^ (w - 1))); lia.
Qed.

(** ** Encoded frames in memory *)

Lemma rd_mid (pre xs post : list Z) (i : nat) (x : Z) :
  xs !! i = Some x -> rd (pre ++ xs ++ post) (Z.of_nat (length pre) + Z.of_nat i) = x.
Proof.
  intros Hx. apply rd_lookup; [lia|].
  rewrite lookup_app_r by lia.
  replace (Z.to_nat (Z.of_nat (length pre) + Z.of_nat i) - length pre)%nat
    with i by lia.
  rewrite lookup_app_l; [done|]. by eapply lookup_lt_Some.
Qed.

Lemma encode_length (f : frame) :
  Z.of_nat (length (encode f)) = Z.of_nat (length (fpayload f)) + kOverhead.
Proof.
  unfold encode, kOverhead. simpl. rewrite length_app. simpl. lia.
Qed.

Lemma encode_bytes (f : frame) : frame_ok f -> bytes (encode f).
Proof.
  intros (Ht & Hp & Hl). unfold encode, bytes, kMaxLength in *.
  assert (is_byte (Z.of_nat (length (fpayload f)))) by (red; lia).
  apply Forall_cons_2; [done|]. apply Forall_cons_2; [done|].
  apply Forall_app. split; [done|]. by apply Forall_singleton.
Qed.

Section EncodedFrame.
Variables (pre post : list Z) (f : frame).
Let m := pre ++ encode f ++ post.
Let p := Z.of_nat (length pre).
Let L := Z.of_nat (length (fpayload f)).

Lemma rd_frame_type : rd m p = ftype f.
Proof.
  replace p with (p + Z.of_nat 0) by lia. apply rd_mid. done.
Qed.

Lemma rd_frame_length : rd m (p + 1) = L.
Proof. apply (rd_mid pre (encode f) post 1). done. Qed.

Lemma rd_frame_trailer : rd m (p + L + 2) = L.
Proof.
  replace (p + L + 2) with (p + Z.of_nat (2 + length (fpayload f))) by lia.
  apply rd_mid. unfold encode.
  rewrite lookup_cons_ne_0 by lia. rewrite lookup_cons_ne_0 by lia.
  rewrite lookup_app_r by lia.
  replace (Init.Nat.pred (Init.Nat.pred (2 + length (fpayload f)))
           - length (fpayload f))%nat with O by lia.
  done.
Qed.

Lemma rd_frame_payload : rd_range m (p + 2) L = fpayload f.
Proof.
  subst m p L. unfold encode.
  replace (pre ++ (ftype f :: Z.of_nat (length (fpayload f)) :: fpayload f
                     ++ [Z.of_nat (length (fpayload f))]) ++ post)
    with ((pre ++ [ftype f; Z.of_nat (length (fpayload f))]) ++ fpayload f
            ++ ([Z.of_nat (length (fpayload f))] ++ post)).
  - replace (Z.of_nat (length pre) + 2)
      with (Z.of_nat (length (pre ++ [ftype f; Z.of_nat (length (fpayload f))]))).
    + apply rd_range_mid.
    + rewrite length_app. simpl. lia.
  - rewrite <- !app_assoc. simpl. rewrite <- app_assoc. done.
Qed.

Lemma rd_frame_whole : rd_range m p (L + kOverhead) = encode f.
Proof.
  subst m p L. rewrite <- encode_length. apply rd_range_mid.
Qed.

Lemma next_frame : EntryIterator.next m p = p + Z.of_nat (length (encode f)).
Proof.
  unfold EntryIterator.next, offsetof_length. rewrite rd_frame_length.
  rewrite encode_length. lia.
Qed.

Lemma type_frame : EntryIterator.type m p = ftype f.
Proof.
  unfold EntryIterator.type, offsetof_type. rewrite Z.add_0_r.
  apply rd_frame_type.
Qed.

Lemma length_frame : EntryIterator.length m p = L.
Proof. unfold EntryIterator.length, offsetof_length. apply rd_frame_length. Qed.

Lemma prev_frame :
  EntryIterator.prev m (p + Z.of_nat (length (encode f))) = p.
Proof.
  unfold EntryIterator.prev, kPreviousLengthOffset.
  rewrite encode_length. unfold kOverhead.
  replace (p + (Z.of_nat (length (fpayload f)) + 3) + -1) with (p + L + 2)
    by (subst L; lia).
  rewrite rd_frame_trailer. subst L. lia.
Qed.

Lemma hasConsistentLength_frame : EntryIterator.hasConsistentLength m p = true.
Proof.
  unfold EntryIterator.hasConsistentLength, offsetof_length,
    kPreviousLengthOffset, kOverhead.
  rewrite rd_frame_length.
  replace (p + (L + 3 + -1)) with (p + L + 2) by lia.
  rewrite rd_frame_trailer. apply Z.eqb_refl.
Qed.

Lemma copyTo_frame (dst : list Z) :
  EntryIterator.copyTo m p dst = dst ++ encode f.
Proof.
  unfold EntryIterator.copyTo, offsetof_length.
  rewrite rd_frame_length, rd_frame_whole. done.
Qed.
End EncodedFrame.

(** ** The writer's frame codec *)

Lemma readAt_frame (e : Entry.t) :
  is_byte (Entry.mEvent e) ->
  0 <= Entry.mLength e <= kMaxLength ->
  Entry.mLength e <= Z.of_nat (length (default [] (Entry.mData e))) ->
  bytes (default [] (Entry.mData e)) ->
  (fun i => Entry.readAt e i `mod` 256) <$> seqZ 0 (Entry.mLength e + kOverhead)
  = encode (Frame (Entry.mEvent e) (Entry.payload e)).
Proof.
  intros Hev HL Hd Hb. unfold kOverhead, kMaxLength in *.
  set (L := Entry.mLength e) in *.
  assert (Hlen : Z.of_nat (length (Entry.payload e)) = L).
  { unfold Entry.payload. rewrite length_take. fold L. lia. }
  unfold encode. simpl. rewrite Hlen.
  replace (L + 3) with (1 + (1 + (L + 1))) by lia.
  rewrite seqZ_cons by lia. rewrite fmap_cons.
  replace (Z.pred (1 + (1 + (L + 1)))) with (1 + (L + 1)) by lia.
  rewrite seqZ_cons by lia. rewrite fmap_cons.
  replace (Z.pred (1 + (L + 1))) with (L + 1) by lia.
  rewrite seqZ_app by lia. rewrite fmap_app.
  change (Z.succ (Z.succ 0)) with 2.
  f_equal.
  { unfold Entry.readAt. simpl. rewrite Z.mod_small; [done|apply Hev]. }
  f_equal.
  { unfold Entry.readAt. simpl. fold L. rewrite Z.mod_small; [done|lia]. }
  f_equal.
  - apply list_eq. intros i. rewrite list_lookup_fmap.
    unfold Entry.payload. fold L.
    destruct (decide (Z.of_nat i < L)) as [Hi|Hi].
    + rewrite lookup_seqZ_lt by lia. simpl.
      rewrite lookup_take_lt by lia.
      destruct (lookup_lt_is_Some_2 (default [] (Entry.mData e)) i) as [x Hx]; [lia|].
      rewrite Hx. f_equal.
      unfold Entry.readAt. fold L.
      destruct (Z.eqb_spec (2 + Z.of_nat i) 0); [lia|].
      destruct (Z.eqb_spec (2 + Z.of_nat i) 1); [lia|].
      destruct (Z.ltb_spec (2 + Z.of_nat i) (L + 2)); [|lia].
      unfold Entry.data_at.
      destruct (Entry.mData e) as [d|] eqn:Ed; simpl in *.
      * replace (2 + Z.of_nat i - 2) with (Z.of_nat i) by lia.
        assert (Hr : rd d (Z.of_nat i) = x).
        { apply rd_lookup; [lia|]. by rewrite Nat2Z.id. }
        rewrite Hr. apply Z.mod_small.
        exact (Forall_lookup_1 _ _ _ _ Hb Hx).
      * by rewrite lookup_nil in Hx.
    + rewrite lookup_seqZ_ge by lia. simpl.
      symmetry. apply lookup_ge_None. rewrite length_take. lia.
  - simpl. f_equal. unfold Entry.readAt. fold L.
    replace (Z.of_nat 0 + (2 + L)) with (2 + L) by lia.
    destruct (Z.eqb_spec (2 + L) 0); [lia|].
    destruct (Z.eqb_spec (2 + L) 1); [lia|].
    destruct (Z.ltb_spec (2 + L) (L + 2)); [lia|].
    destruct (Z.eqb_spec (2 + L) (L + 2)); [|lia].
    apply Z.mod_small. lia.
Qed.

(** C6: a frame committed by the writer is [tag, L, payload, L]; its
    leading and trailing length bytes agree, so [hasConsistentLength]
    holds where the frame starts in the FIFO. *)
Theorem log_entry_emits_frame (w : Writer.t) (e : Entry.t) (fifo : list Z) :
  Writer.mEnabled w = true ->
  Writer.mFifoWriter w = Some fifo ->
  is_byte (Entry.mEvent e) ->
  0 <= Entry.mLength e <= kMaxLength ->
  Entry.mLength e <= Z.of_nat (length (default [] (Entry.mData e))) ->
  bytes (default [] (Entry.mData e)) ->
  exists w',
    Writer.log_entry w e true = Done w'
    /\ Writer.written w'
       = fifo ++ [Entry.mEvent e; Entry.mLength e] ++ Entry.payload e
              ++ [Entry.mLength e]
    /\ Z.of_nat (length (Entry.payload e)) = Entry.mLength e
    /\ EntryIterator.hasConsistentLength (Writer.written w')
         (Z.of_nat (length fifo)) = true.
Proof.
  intros Hen Hf Hev HL Hd Hb.
  assert (Hlen : Z.of_nat (length (Entry.payload e)) = Entry.mLength e).
  { unfold Entry.payload. rewrite length_take. lia. }
  unfold Writer.log_entry, Writer.log_trusted, Writer.fifo_write.
  rewrite Hen, Hf. simpl.
  rewrite readAt_frame by assumption.
  eexists. split; [reflexivity|].
  unfold Writer.written. simpl.
  split; [|split; [exact Hlen|]].
  - unfold encode. simpl. by rewrite Hlen.
  - pose proof (hasConsistentLength_frame fifo [] (Frame (Entry.mEvent e) (Entry.payload e))) as H.
    by rewrite app_nil_r in H.
Qed.

(** ** The writer *)

Lemma strlen_bounds (s : list Z) : 0 <= strlen s <= Z.of_nat (length s).
Proof.
  induction s as [|c r IH]; simpl; [lia|].
  destruct (c =? 0); lia.
Qed.

Lemma set_fifo_ok (w : Writer.t) (fifo pidTag fifo' : list Z) :
  writer_ok w fifo pidTag -> writer_ok (Writer.set_fifo w fifo') fifo' pidTag.
Proof. intros (?&?&?&?&?&?). by repeat split. Qed.

Lemma set_fifo_set_fifo (w : Writer.t) (f f' : list Z) :
  Writer.set_fifo (Writer.set_fifo w f) f' = Writer.set_fifo w f'.
Proof. done. Qed.

(** A valid event with a valid payload is committed as one frame. *)
Lemma log_event_emits (w : Writer.t) (fifo : list Z) (ev : Z) (d : list Z) (len : Z) :
  Writer.mEnabled w = true ->
  Writer.mFifoWriter w = Some fifo ->
  EVENT_RESERVED < ev < EVENT_UPPER_BOUND ->
  0 <= len <= kMaxLength ->
  len <= Z.of_nat (length d) ->
  bytes d ->
  Writer.log_event w ev (Some d) len
  = Done (Writer.set_fifo w (fifo ++ encode (Frame ev (take (Z.to_nat len) d)))).
Proof.
  intros Hen Hf Hev Hlen Hd Hb.
  unfold EVENT_RESERVED, EVENT_UPPER_BOUND, kMaxLength in *.
  unfold Writer.log_event. rewrite Hen. cbn [negb].
  rewrite bool_decide_eq_false_2 by done.
  unfold kMaxLength, EVENT_RESERVED, EVENT_UPPER_BOUND.
  destruct (Z.ltb_spec 255 len); [lia|].
  destruct (Z.eqb_spec ev 0); [lia|].
  destruct (Z.leb_spec 12 ev); [lia|]. cbn [orb].
  unfold Writer.log_trusted. rewrite Hen. cbn [negb].
  rewrite (readAt_frame (Entry.Build ev (Some d) len)).
  - unfold Writer.fifo_write. rewrite Hf. reflexivity.
  - red; simpl; lia.
  - unfold kMaxLength; simpl; lia.
  - simpl; lia.
  - done.
Qed.

Lemma logEnd_emits (w : Writer.t) (fifo : list Z) :
  Writer.mEnabled w = true ->
  Writer.mFifoWriter w = Some fifo ->
  Writer.logEnd w
  = Done (Writer.set_fifo w (fifo ++ encode (Frame EVENT_END_FMT []))).
Proof.
  intros Hen Hf.
  unfold Writer.logEnd, Writer.log_entry, Writer.log_trusted, Writer.fifo_write.
  rewrite Hen, Hf. reflexivity.
Qed.

Lemma log_string_emits (w : Writer.t) (fifo : list Z) (s : list Z) :
  Writer.mEnabled w = true ->
  Writer.mFifoWriter w = Some fifo ->
  bytes s ->
  Writer.log_string w (Some s)
  = Done (Writer.set_fifo w (fifo ++ encode (Frame EVENT_STRING (string_payload s)))).
Proof.
  intros Hen Hf Hb. unfold Writer.log_string. rewrite Hen. simpl.
  pose proof (strlen_bounds s) as Hs.
  unfold string_payload.
  replace (if kMaxLength <? strlen s then kMaxLength else strlen s)
    with (Z.min kMaxLength (strlen s))
    by (destruct (Z.ltb_spec kMaxLength (strlen s)); lia).
  apply log_event_emits; auto; unfold kMaxLength, EVENT_STRING,
    EVENT_RESERVED, EVENT_UPPER_BOUND in *; lia.
Qed.

Lemma logStart_emits (w : Writer.t) (fifo : list Z) (s : list Z) :
  Writer.mEnabled w = true ->
  Writer.mFifoWriter w = Some fifo ->
  bytes s ->
  Writer.logStart w (Some s)
  = Done (Writer.set_fifo w (fifo ++ encode (Frame EVENT_START_FMT (string_payload s)))).
Proof.
  intros Hen Hf Hb. unfold Writer.logStart. rewrite Hen. simpl.
  pose proof (strlen_bounds s) as Hs.
  unfold string_payload.
  replace (if kMaxLength <? strlen s then kMaxLength else strlen s)
    with (Z.min kMaxLength (strlen s))
    by (destruct (Z.ltb_spec kMaxLength (strlen s)); lia).
  apply log_event_emits; auto; unfold kMaxLength, EVENT_START_FMT,
    EVENT_RESERVED, EVENT_UPPER_BOUND in *; lia.
Qed.

(** Fixed-size payloads. *)
Lemma log_event_fixed (w : Writer.t) (fifo : list Z) (ev : Z) (n : nat) (v : Z) :
  Writer.mEnabled w = true ->
  Writer.mFifoWriter w = Some fifo ->
  EVENT_RESERVED < ev < EVENT_UPPER_BOUND ->
  (n <= 255)%nat ->
  Writer.log_event w ev (Some (le_bytes n v)) (Z.of_nat n)
  = Done (Writer.set_fifo w (fifo ++ encode (Frame ev (le_bytes n v)))).
Proof.
  intros Hen Hf Hev Hn.
  rewrite (log_event_emits w fifo)
    by (auto; try (unfold kMaxLength; lia); try (rewrite le_bytes_length; lia);
        try apply le_bytes_bytes).
  rewrite Nat2Z.id, take_ge; [done|]. by rewrite le_bytes_length.
Qed.

Lemma timespec_bytes_length (ts : timespec) : length (timespec_bytes ts) = 16%nat.
Proof. unfold timespec_bytes. by rewrite length_app, !le_bytes_length. Qed.

Lemma timespec_bytes_bytes (ts : timespec) : bytes (timespec_bytes ts).
Proof. apply Forall_app. split; apply le_bytes_bytes. Qed.

Lemma logTimestamp_ts_emits (w : Writer.t) (fifo : list Z) (ts : timespec) :
  Writer.mEnabled w = true ->
  Writer.mFifoWriter w = Some fifo ->
  Writer.logTimestamp_ts w ts
  = Done (Writer.set_fifo w (fifo ++ encode (Frame EVENT_TIMESTAMP (timespec_bytes ts)))).
Proof.
  intros Hen Hf. unfold Writer.logTimestamp_ts. rewrite Hen. cbn [negb].
  rewrite (log_event_emits w fifo)
    by (auto; try done; try (by rewrite timespec_bytes_length);
        try apply timespec_bytes_bytes).
  rewrite take_ge; [done|]. by rewrite timespec_bytes_length.
Qed.

Lemma logPID_emits (w : Writer.t) (fifo pidTag : list Z) :
  writer_ok w fifo pidTag ->
  Writer.logPID w
  = Done (Writer.set_fifo w (fifo ++ encode (Frame EVENT_PID pidTag))).
Proof.
  intros (Hen & Hf & Ht & Hs & Hl & Hb). unfold Writer.logPID.
  rewrite Hen, Ht, Hs. cbn [negb].
  rewrite (log_event_emits w fifo) by (auto; try done; lia).
  rewrite Nat2Z.id, take_ge; done.
Qed.

Section FormatLoop.
Variable float_of_double : Z -> Z.
Variable pidTag : list Z.

(** The loop of [logVFormat] emits the argument frames of the grammar. *)
Lemma logVFormat_loop_emits (n : nat) :
  forall (p : list Z) (args : list va_arg) (frames : list frame)
         (w : Writer.t) (fifo : list Z),
    (length p <= n)%nat ->
    writer_ok w fifo pidTag ->
    Forall va_arg_ok args ->
    arg_frames float_of_double pidTag (specifiers p) args = Some frames ->
    Writer.logVFormat_loop float_of_double w p args
    = Done (Writer.set_fifo w (fifo ++ encode_all frames)).
Proof.
  induction n as [|n IH]; intros p args frames w fifo Hn Hw Hargs Hfr.
  { destruct p; simpl in Hn; [|lia]. simpl in *. injection Hfr as <-.
    unfold encode_all. simpl. rewrite app_nil_r.
    destruct Hw as (_ & Hf & _). destruct w; simpl in *. by subst. }
  assert (Hnil : Writer.set_fifo w (fifo ++ encode_all []) = w).
  { unfold encode_all. simpl. rewrite app_nil_r.
    destruct Hw as (_ & Hf & _). destruct w; simpl in *. by subst. }
  destruct p as [|c p1]; simpl in *.
  { injection Hfr as <-. by rewrite Hnil. }
  destruct (Z.eqb_spec c 0).
  { injection Hfr as <-. by rewrite Hnil. }
  destruct (Z.eqb_spec c (chr "%")); simpl.
  2: { apply IH; auto. lia. }
  destruct p1 as [|c1 p2].
  { injection Hfr as <-. by rewrite Hnil. }
  simpl in Hn.
  assert (Hstep : forall (f : frame) w' args' frames',
    w' = Writer.set_fifo w (fifo ++ encode f) ->
    Forall va_arg_ok args' ->
    arg_frames float_of_double pidTag (specifiers p2) args' = Some frames' ->
    Writer.logVFormat_loop float_of_double w' p2 args'
    = Done (Writer.set_fifo w (fifo ++ encode_all (f :: frames')))).
  { intros f w' args' frames' -> Hargs' Hfr'.
    rewrite (IH p2 args' frames' _ (fifo ++ encode f)); auto; [|lia|].
    - rewrite set_fifo_set_fifo. unfold encode_all.
      rewrite fmap_cons. cbn [concat]. by rewrite <- app_assoc.
    - eapply set_fifo_ok; eauto. }
  pose proof Hw as (Hen & Hf & _).
  destruct (Z.eqb_spec c1 0).
  { subst c1. change (0 =? chr "s") with false. change (0 =? chr "t") with false.
    change (0 =? chr "d") with false. change (0 =? chr "f") with false.
    change (0 =? chr "p") with false. cbn [Z.eqb].
    injection Hfr as <-. by rewrite Hnil. }
  cbn [arg_frames] in Hfr.
  destruct (Z.eqb_spec c1 (chr "s")).
  { destruct args as [|[[s|]| | |] args']; try discriminate.
    destruct (arg_frames _ _ _ args') as [fr|] eqn:E; [|discriminate].
    injection Hfr as <-.
    apply Forall_cons in Hargs as [Hs Hargs].
    rewrite (log_string_emits w fifo) by auto. simpl.
    eapply Hstep; eauto. }
  destruct (Z.eqb_spec c1 (chr "t")).
  { destruct args as [|[| ts | |] args']; try discriminate.
    destruct (arg_frames _ _ _ args') as [fr|] eqn:E; [|discriminate].
    injection Hfr as <-.
    apply Forall_cons in Hargs as [Hs Hargs].
    rewrite (logTimestamp_ts_emits w fifo) by auto. simpl.
    eapply Hstep; eauto. }
  destruct (Z.eqb_spec c1 (chr "d")).
  { destruct args as [|[| | i |] args']; try discriminate.
    destruct (arg_frames _ _ _ args') as [fr|] eqn:E; [|discriminate].
    injection Hfr as <-.
    apply Forall_cons in Hargs as [Hs Hargs].
    unfold Writer.logInteger. rewrite Hen. cbn [negb].
    change sizeof_int with (Z.of_nat 4).
    rewrite (log_event_fixed w fifo _ 4) by (auto; try done; lia). simpl.
    eapply Hstep; eauto. }
  destruct (Z.eqb_spec c1 (chr "f")).
  { destruct args as [|[| | | d] args']; try discriminate.
    destruct (arg_frames _ _ _ args') as [fr|] eqn:E; [|discriminate].
    injection Hfr as <-.
    apply Forall_cons in Hargs as [Hs Hargs].
    unfold Writer.logFloat. rewrite Hen. cbn [negb].
    change sizeof_float with (Z.of_nat 4).
    rewrite (log_event_fixed w fifo _ 4) by (auto; try done; lia). simpl.
    eapply Hstep; eauto. }
  destruct (Z.eqb_spec c1 (chr "p")).
  { destruct (arg_frames _ _ _ args) as [fr|] eqn:E; [|discriminate].
    injection Hfr as <-.
    rewrite (logPID_emits w fifo pidTag) by auto. simpl.
    eapply Hstep; eauto. }
  destruct (Z.eqb_spec c1 (chr "%")); apply IH; auto; lia.
Qed.

End FormatLoop.

(** C1: on an enabled writer, with a successful clock read and no null
    string argument, [logFormat] emits START_FMT (the format cut at
    kMaxLength), TIMESTAMP, HASH, the argument frames of the grammar in
    format order, END_FMT, and nothing else. *)
Theorem logFormat_emits (float_of_double : Z -> Z) (w : Writer.t)
    (fifo pidTag : list Z) (ts : timespec) (fmt : list Z) (hash : Z)
    (args : list va_arg) (frames : list frame) :
  writer_ok w fifo pidTag ->
  bytes fmt ->
  Forall va_arg_ok args ->
  arg_frames float_of_double pidTag (specifiers fmt) args = Some frames ->
  exists w',
    Writer.logFormat float_of_double w (Some ts) (Some fmt) hash args = Done w'
    /\ Writer.written w'
       = fifo ++ encode_all (format_frames fmt ts hash frames).
Proof.
  intros Hw Hfmt Hargs Hfr.
  pose proof Hw as (Hen & Hf & _).
  unfold Writer.logFormat, Writer.logVFormat. rewrite Hen. cbn [negb].
  rewrite (logStart_emits w fifo) by auto. cbn [obind].
  unfold Writer.logTimestamp.
  set (w1 := Writer.set_fifo w _).
  change (Writer.mEnabled w1) with (Writer.mEnabled w). rewrite Hen. cbn [negb].
  assert (Hw1 : writer_ok w1 _ pidTag) by (eapply set_fifo_ok; eauto).
  pose proof Hw1 as (Hen1 & Hf1 & _).
  rewrite (log_event_emits w1 _ _ _ _ Hen1 Hf1);
    [|done|done|by rewrite timespec_bytes_length|apply timespec_bytes_bytes].
  cbn [obind]. unfold Writer.logHash.
  set (w2 := Writer.set_fifo w1 _).
  change (Writer.mEnabled w2) with (Writer.mEnabled w). rewrite Hen. cbn [negb].
  change sizeof_hash with (Z.of_nat 8).
  assert (Hw2 : writer_ok w2 _ pidTag) by (eapply set_fifo_ok; eauto).
  pose proof Hw2 as (Hen2 & Hf2 & _).
  rewrite (log_event_fixed w2 _ _ 8 hash Hen2 Hf2); [|done|lia].
  cbn [obind]. change (default [] (Some fmt)) with fmt.
  set (w3 := Writer.set_fifo w2 _).
  assert (Hw3 : writer_ok w3 _ pidTag) by (eapply set_fifo_ok; eauto).
  rewrite (logVFormat_loop_emits float_of_double pidTag (length fmt) fmt args
             frames w3 _ (Nat.le_refl _) Hw3 Hargs Hfr).
  cbn [obind].
  set (w4 := Writer.set_fifo w3 _).
  assert (Hw4 : writer_ok w4 _ pidTag) by (eapply set_fifo_ok; eauto).
  pose proof Hw4 as (Hen4 & Hf4 & _).
  rewrite (logEnd_emits w4 _ Hen4 Hf4).
  eexists. split; [reflexivity|].
  unfold Writer.written. simpl.
  subst w4 w3 w2 w1. cbn [Writer.set_fifo Writer.mFifoWriter].
  unfold format_frames, encode_all.
  rewrite !fmap_cons, fmap_app. cbn [concat]. rewrite concat_app.
  cbn [fmap list_fmap concat]. rewrite app_nil_r.
  rewrite <- !app_assoc. reflexivity.
Qed.

(** C8, as the code has it: an invalid event tag, a null payload or an
    overlong payload makes [log(event, data, length)] return without
    writing, also when it is reached through an untrusted entry; a null
    string passed to [log(string)] is fatal on an enabled writer and
    ignored on a disabled one. *)
Theorem log_invalid_dropped (w : Writer.t) (event : Z) (data : option (list Z))
    (length : Z) :
  event = EVENT_RESERVED \/ EVENT_UPPER_BOUND <= event
  \/ data = None \/ kMaxLength < length ->
  Writer.log_event w event data length = Done w
  /\ Writer.log_entry w (Entry.Build event data length) false = Done w
  /\ Writer.log_string w None = (if Writer.mEnabled w then Fatal else Done w).
Proof.
  intros H.
  assert (He : Writer.log_event w event data length = Done w).
  { unfold Writer.log_event. destruct (Writer.mEnabled w); simpl; [|done].
    destruct data as [d|]; simpl.
    - destruct (Z.ltb_spec kMaxLength length); [done|].
      destruct (Z.eqb_spec event EVENT_RESERVED); [done|].
      destruct (Z.leb_spec EVENT_UPPER_BOUND event); [done|].
      exfalso. destruct H as [?|[?|[?|?]]]; try done; lia.
    - done. }
  split; [exact He|]. split.
  - unfold Writer.log_entry. simpl. rewrite He. by destruct (Writer.mEnabled w).
  - unfold Writer.log_string. by destruct (Writer.mEnabled w).
Qed.

(** ** Iterating over emitted frames *)

Lemma encode_all_cons (f : frame) (fs : list frame) :
  encode_all (f :: fs) = encode f ++ encode_all fs.
Proof. done. Qed.

Lemma encode_all_app (fs gs : list frame) :
  encode_all (fs ++ gs) = encode_all fs ++ encode_all gs.
Proof. unfold encode_all. by rewrite fmap_app, concat_app. Qed.

Lemma encode_all_snoc (fs : list frame) (f : frame) :
  encode_all (fs ++ [f]) = encode_all fs ++ encode f.
Proof.
  rewrite encode_all_app. unfold encode_all at 2. simpl. by rewrite app_nil_r.
Qed.

Lemma boundaries_snoc (p : Z) (fs : list frame) (f : frame) :
  boundaries p (fs ++ [f])
  = boundaries p fs
      ++ [p + Z.of_nat (length (encode_all fs)) + Z.of_nat (length (encode f))].
Proof.
  revert p. induction fs as [|g fs IH]; intros p.
  - simpl. do 2 f_equal. lia.
  - cbn [app boundaries]. rewrite IH. rewrite encode_all_cons, length_app.
    simpl. do 3 f_equal. lia.
Qed.

Lemma forward_boundaries (fs : list frame) :
  forall pre post : list Z,
    EntryIterator.forward (length fs) (pre ++ encode_all fs ++ post)
      (Z.of_nat (length pre))
    = boundaries (Z.of_nat (length pre)) fs.
Proof.
  induction fs as [|f fs IH]; intros pre post; [done|].
  cbn [length EntryIterator.forward boundaries]. f_equal.
  rewrite encode_all_cons, <- app_assoc.
  rewrite next_frame.
  replace (Z.of_nat (length pre) + Z.of_nat (length (encode f)))
    with (Z.of_nat (length (pre ++ encode f))) by (rewrite length_app; lia).
  rewrite <- IH with (post := post). by rewrite <- !app_assoc.
Qed.

Lemma backward_boundaries (fs : list frame) :
  forall pre post : list Z,
    EntryIterator.backward (length fs) (pre ++ encode_all fs ++ post)
      (Z.of_nat (length pre) + Z.of_nat (length (encode_all fs)))
    = rev (boundaries (Z.of_nat (length pre)) fs).
Proof.
  induction fs as [|f fs IH] using rev_ind; intros pre post.
  { simpl. f_equal. unfold encode_all. simpl. lia. }
  rewrite boundaries_snoc, rev_app_distr. cbn [rev app].
  rewrite length_app, Nat.add_1_r. cbn [EntryIterator.backward].
  rewrite encode_all_snoc, length_app. f_equal; [lia|].
  replace (pre ++ (encode_all fs ++ encode f) ++ post)
    with ((pre ++ encode_all fs) ++ encode f ++ post)
    by (by rewrite <- !app_assoc).
  replace (Z.of_nat (length pre)
           + Z.of_nat (length (encode_all fs) + length (encode f)))
    with (Z.of_nat (length (pre ++ encode_all fs)) + Z.of_nat (length (encode f)))
    by (rewrite length_app; lia).
  rewrite prev_frame. rewrite length_app, Nat2Z.inj_add, <- app_assoc.
  apply IH.
Qed.

Lemma boundaries_lookup (l1 l2 : list frame) :
  forall start : Z,
    boundaries start (l1 ++ l2) !! length l1
    = Some (start + Z.of_nat (length (encode_all l1))).
Proof.
  induction l1 as [|g l1 IH]; intros start.
  - destruct l2; simpl; f_equal; unfold encode_all; simpl; lia.
  - cbn [app boundaries length]. rewrite lookup_cons_ne_0 by lia.
    cbn [Nat.pred]. rewrite IH. f_equal.
    rewrite encode_all_cons, length_app. lia.
Qed.

(** C7: over the frames a writer emitted into a contiguous region, [--]
    undoes [++] at every frame start, and walking back from the end meets
    the boundaries of the forward walk in reverse order. *)
Theorem iterator_round_trip (pre post : list Z) (fs : list frame) :
  Forall frame_ok fs ->
  let m := pre ++ encode_all fs ++ post in
  let start := Z.of_nat (length pre) in
  let finish := start + Z.of_nat (length (encode_all fs)) in
  (forall (i : nat) (p : Z),
      (i < length fs)%nat -> boundaries start fs !! i = Some p ->
      EntryIterator.prev m (EntryIterator.next m p) = p
      /\ boundaries start fs !! S i = Some (EntryIterator.next m p))
  /\ EntryIterator.forward (length fs) m start = boundaries start fs
  /\ EntryIterator.backward (length fs) m finish = rev (boundaries start fs)
  /\ EntryIterator.backward (length fs) m finish
     = rev (EntryIterator.forward (length fs) m start).
Proof.
  intros _ m start finish.
  assert (Hf := forward_boundaries fs pre post).
  assert (Hb := backward_boundaries fs pre post).
  fold m start in Hf. fold m start finish in Hb.
  split; [|split; [exact Hf|split; [exact Hb|by rewrite Hf]]].
  intros i p Hi Hp.
  destruct (lookup_lt_is_Some_2 fs i Hi) as [f Hfi].
  apply take_drop_middle in Hfi.
  assert (Hlen : length (take i fs) = i) by (rewrite length_take; lia).
  assert (Hpi : p = start + Z.of_nat (length (encode_all (take i fs)))).
  { pose proof (boundaries_lookup (take i fs) (f :: drop (S i) fs) start) as HB.
    rewrite Hlen, Hfi in HB. rewrite HB in Hp. by injection Hp as <-. }
  assert (Hm : m = (pre ++ encode_all (take i fs)) ++ encode f
                     ++ (encode_all (drop (S i) fs) ++ post)).
  { subst m. rewrite <- Hfi at 1.
    rewrite encode_all_app, encode_all_cons. by rewrite <- !app_assoc. }
  assert (Hp' : p = Z.of_nat (length (pre ++ encode_all (take i fs)))).
  { rewrite length_app. lia. }
  split.
  - rewrite Hm, Hp'. rewrite next_frame. apply prev_frame.
  - rewrite Hm, Hp', next_frame. rewrite <- Hp', Hpi.
    pose proof (boundaries_lookup (take i fs ++ [f]) (drop (S i) fs) start) as HB.
    rewrite <- app_assoc in HB. cbn [app] in HB. rewrite Hfi in HB.
    rewrite length_app, Hlen, Nat.add_1_r in HB. rewrite HB. f_equal.
    rewrite encode_all_snoc, length_app. lia.
Qed.

Section ReaderScan.
Import Reader.

(** ** The reader's backward scan *)


Lemma back_step_Some (m : list Z) (front back prev : Z) :
  back_step m front back = Some prev <->
  front <= back - 1 /\ prev = back - rd m (back - 1) - kOverhead
  /\ front <= prev /\ prev + rd m (prev + 1) + kOverhead = back.
Proof.
  unfold back_step.
  destruct (Z.leb_spec front (back - 1)); simpl.
  2: { split; [discriminate|lia]. }
  destruct (Z.leb_spec front (back - rd m (back - 1) - kOverhead)); simpl.
  2: { split; [discriminate|lia]. }
  destruct (Z.eqb_spec (back - rd m (back - 1) - kOverhead
                        + rd m (back - rd m (back - 1) - kOverhead + 1) + kOverhead) back).
  - split; [intros [= <-]; lia|]. intros (_ & -> & _). done.
  - split; [discriminate|]. intros (_ & -> & _ & ?). lia.
Qed.

Lemma back_step_None (m : list Z) (front back : Z) :
  back_step m front back = None <->
  back - 1 < front \/ violation m front back.
Proof.
  unfold back_step, violation.
  destruct (Z.leb_spec front (back - 1)); simpl.
  2: { split; [lia|done]. }
  destruct (Z.leb_spec front (back - rd m (back - 1) - kOverhead)); simpl.
  2: { split; [lia|done]. }
  destruct (Z.eqb_spec (back - rd m (back - 1) - kOverhead
                        + rd m (back - rd m (back - 1) - kOverhead + 1) + kOverhead) back).
  - split; [discriminate|]. intros [?|(_ & [?|?])]; lia.
  - split; [|done]. intros _. right. split; [lia|]. by right.
Qed.

(** A consistent step moves down by at least [kOverhead]. *)
Lemma back_step_lt (m : list Z) (front back prev : Z) :
  bytes m -> back_step m front back = Some prev -> front <= prev <= back - kOverhead.
Proof.
  intros Hm (Hb & -> & Hf & Hc)%back_step_Some.
  pose proof (rd_byte m (back - 1) Hm) as [? ?]. unfold kOverhead in *. lia.
Qed.

(** One round of the loop, in terms of [back_step]. *)
Lemma findLast_loop_S (fuel : nat) (m : list Z) (front back : Z) (types : gset Z) :
  findLast_loop (S fuel) m front back types
  = match back_step m front back with
    | None => None
    | Some prev =>
        if bool_decide (rd m prev ∈ types) then Some prev
        else findLast_loop fuel m front prev types
    end.
Proof.
  cbn [findLast_loop]. unfold back_step, kPreviousLengthOffset, offsetof_length,
    offsetof_type.
  replace (back + -1) with (back - 1) by lia.
  set (prev := back - rd m (back - 1) - kOverhead).
  rewrite Z.add_0_r.
  destruct (Z.leb_spec front (back - 1)); simpl; [|done].
  destruct (Z.ltb_spec prev front), (Z.leb_spec front prev); try lia; simpl; [done|].
  by destruct (prev + rd m (prev + 1) + kOverhead =? back).
Qed.

(** The loop returns the nearest frame of the wanted types on the chain. *)
Lemma findLast_loop_chain (fuel : nat) (m : list Z) (front : Z) (types : gset Z) :
  forall back : Z,
    findLast_loop fuel m front back types
    = head (of_types m types (back_chain fuel m front back)).
Proof.
  induction fuel as [|fuel IH]; intros back; [done|].
  rewrite findLast_loop_S. cbn [back_chain].
  destruct (back_step m front back) as [prev|]; [|done].
  unfold of_types. rewrite filter_cons.
  destruct (decide (rd m prev ∈ types)) as [Hin|Hin].
  - by rewrite bool_decide_eq_true_2.
  - rewrite bool_decide_eq_false_2 by done. apply IH.
Qed.

(** The fuel does not matter once it covers the distance to [front]. *)
Lemma back_chain_fuel (m : list Z) (front : Z) :
  bytes m ->
  forall (n1 n2 : nat) (back : Z),
    (Z.to_nat (back - front) <= n1)%nat -> (Z.to_nat (back - front) <= n2)%nat ->
    back_chain n1 m front back = back_chain n2 m front back.
Proof.
  intros Hm. induction n1 as [|n1 IH]; intros n2 back H1 H2.
  - destruct n2; [done|]. cbn [back_chain].
    destruct (back_step m front back) as [prev|] eqn:E; [|done].
    apply back_step_Some in E. lia.
  - destruct n2.
    + cbn [back_chain].
      destruct (back_step m front back) as [prev|] eqn:E; [|done].
      apply back_step_Some in E. lia.
    + cbn [back_chain].
      destruct (back_step m front back) as [prev|] eqn:E; [|done].
      f_equal. pose proof (back_step_lt _ _ _ _ Hm E). unfold kOverhead in *.
      apply IH; lia.
Qed.

Lemma reachable_step (m : list Z) (front back : Z) :
  bytes m ->
  reachable m front back
  = match back_step m front back with
    | Some prev => prev :: reachable m front prev
    | None => []
    end.
Proof.
  intros Hm. unfold reachable.
  destruct (back_step m front back) as [prev|] eqn:E.
  - pose proof (back_step_lt _ _ _ _ Hm E). unfold kOverhead in *.
    destruct (Z.to_nat (back - front)) as [|n] eqn:En; [lia|].
    cbn [back_chain]. rewrite E. f_equal.
    apply back_chain_fuel; [done|lia|lia].
  - destruct (Z.to_nat (back - front)); [done|]. cbn [back_chain]. by rewrite E.
Qed.

Lemma findLast_reachable (m : list Z) (front back : Z) (types : gset Z) :
  findLastEntryOfTypes m front back types
  = head (of_types m types (reachable m front back)).
Proof. apply findLast_loop_chain. Qed.

(** What lies on the chain behind one of its frames is the chain of that
    frame. *)
Lemma reachable_suffix (m : list Z) (front : Z) :
  bytes m ->
  forall (l1 : list Z) (back p : Z) (l2 : list Z),
    reachable m front back = l1 ++ p :: l2 -> reachable m front p = l2.
Proof.
  intros Hm. induction l1 as [|q l1 IH]; intros back p l2 H.
  - rewrite reachable_step in H by done.
    destruct (back_step m front back) as [prev|]; [|done].
    simpl in H. by injection H as -> <-.
  - rewrite reachable_step in H by done.
    destruct (back_step m front back) as [prev|]; [|done].
    simpl in H. injection H as -> H. by eapply IH.
Qed.

Lemma reachable_bound (m : list Z) (front : Z) :
  bytes m ->
  forall (n : nat) (back : Z),
    front <= back ->
    3 * Z.of_nat (length (back_chain n m front back)) <= back - front.
Proof.
  intros Hm. induction n as [|n IH]; intros back Hb; [simpl; lia|].
  cbn [back_chain].
  destruct (back_step m front back) as [prev|] eqn:E; [|simpl; lia].
  pose proof (back_step_lt _ _ _ _ Hm E). unfold kOverhead in *.
  cbn [length]. specialize (IH prev). lia.
Qed.

(** [scanned] walks along the chain. *)
Lemma findLast_loop_violation (m : list Z) (front : Z) (types : gset Z) :
  bytes m ->
  forall back b : Z,
    scanned m front types back b -> violation m front b ->
    forall fuel : nat,
      (Z.to_nat (back - front) <= fuel)%nat ->
      findLast_loop fuel m front back types = None.
Proof.
  intros Hm back b Hs Hv. induction Hs as [b|back prev b Hstep Hty Hs IH];
    intros fuel Hfuel.
  - destruct fuel as [|fuel]; [done|]. rewrite findLast_loop_S.
    assert (E : back_step m front b = None) by (apply back_step_None; by right).
    by rewrite E.
  - pose proof (back_step_lt _ _ _ _ Hm Hstep). unfold kOverhead in *.
    destruct fuel as [|fuel]; [done|]. rewrite findLast_loop_S, Hstep.
    rewrite bool_decide_eq_false_2 by done. apply IH; [done|lia].
Qed.

Lemma findLast_loop_found (m : list Z) (front : Z) (types : gset Z) :
  forall (fuel : nat) (back p : Z),
    findLast_loop fuel m front back types = Some p ->
    exists b, scanned m front types back b
              /\ back_step m front b = Some p /\ rd m p ∈ types.
Proof.
  induction fuel as [|fuel IH]; intros back p H; [done|].
  rewrite findLast_loop_S in H.
  destruct (back_step m front back) as [prev|] eqn:E; [|done].
  destruct (decide (rd m prev ∈ types)) as [Hin|Hin].
  - rewrite bool_decide_eq_true_2 in H by done. injection H as <-.
    exists back. split; [constructor|done].
  - rewrite bool_decide_eq_false_2 in H by done.
    destruct (IH _ _ H) as (b & Hs & Hb & Ht).
    exists b. split; [|done]. econstructor; eauto.
Qed.

(** C3: the scan answers not-found as soon as the step from the boundary
    it has reached is a violation, and a frame it returns was reached over
    consistent steps only. *)
Theorem findLastEntryOfTypes_aborts (m : list Z) (front back : Z) (types : gset Z) :
  bytes m ->
  (forall b, scanned m front types back b -> violation m front b ->
             findLastEntryOfTypes m front back types = None)
  /\ (forall p, findLastEntryOfTypes m front back types = Some p ->
                exists b, scanned m front types back b
                          /\ back_step m front b = Some p /\ rd m p ∈ types).
Proof.
  intros Hm. split.
  - intros b Hs Hv. eapply findLast_loop_violation; eauto.
  - intros p H. eapply findLast_loop_found; eauto.
Qed.

End ReaderScan.

Section SnapshotTrim.
Import Reader.


(** ** Snapshot trimming *)

Lemma filter_cons_split {A} (P : A -> Prop) `{forall x, Decision (P x)}
    (l : list A) (p : A) (rest : list A) :
  filter P l = p :: rest ->
  exists l1 l2, l = l1 ++ p :: l2 /\ filter P l2 = rest.
Proof.
  induction l as [|x l IH]; [done|]. rewrite filter_cons.
  destruct (decide (P x)).
  - intros [= -> <-]. by exists [], l.
  - intros (l1 & l2 & -> & <-)%IH. by exists (x :: l1), l2.
Qed.

(** The head-trimming loop ends on the farthest starting frame of the
    chain. *)
Lemma firstStart_loop_last (m : list Z) (front : Z) :
  bytes m ->
  forall (fuel : nat) (tmp : Z) (acc : option Z),
    (length (of_types m startingTypes (reachable m front tmp)) < fuel)%nat ->
    firstStart_loop fuel m front tmp acc
    = match last (of_types m startingTypes (reachable m front tmp)) with
      | Some q => Some q
      | None => acc
      end.
Proof.
  intros Hm. induction fuel as [|fuel IH]; intros tmp acc Hfuel; [lia|].
  cbn [firstStart_loop]. rewrite findLast_reachable.
  destruct (of_types m startingTypes (reachable m front tmp)) as [|p rest] eqn:E;
    [done|].
  cbn [head]. unfold of_types in E.
  destruct (filter_cons_split _ _ _ _ E) as (l1 & l2 & Hl & Hrest).
  apply (reachable_suffix m front Hm) in Hl.
  assert (E2 : of_types m startingTypes (reachable m front p) = rest).
  { unfold of_types. by rewrite Hl. }
  rewrite IH; rewrite E2; [|simpl in Hfuel; lia].
  rewrite last_cons. by destruct (last rest).
Qed.

(** C2: [getSnapshot] leaves the snapshot empty at [front] when the
    backward chain from the end of the data holds no frame of an ending
    type; otherwise [mEnd] is just past the nearest such frame and [mBegin]
    is the farthest frame of a starting type on the backward chain from
    [mEnd], or [mEnd] when there is none. *)
Theorem getSnapshot_trims (o : obtained) :
  let data := iovec0 o ++ iovec1 o in
  let s := (getSnapshot (Some o)).1 in
  bytes data ->
  match head (of_types data endingTypes (reachable data 0 (Z.of_nat (length data)))) with
  | None => mBegin s = 0 /\ mEnd s = 0
  | Some lastEnd =>
      mEnd s = lastEnd + rd data (lastEnd + 1) + kOverhead
      /\ mBegin s
         = default (mEnd s)
             (last (of_types data startingTypes (reachable data 0 (mEnd s))))
  end.
Proof.
  intros data s Hm. subst s. unfold getSnapshot.
  rewrite <- length_app. fold data.
  destruct (Z.leb_spec (Z.of_nat (length data)) 0) as [Hz|Hz].
  { assert (data = []) as -> by (destruct data; [done|simpl in Hz; lia]). done. }
  cbn [fst]. rewrite Z.add_0_l, findLast_reachable.
  destruct (head _) as [lastEnd|] eqn:E; [|done].
  cbn [fst mEnd mBegin].
  unfold EntryIterator.next, offsetof_length.
  set (e := lastEnd + (rd data (lastEnd + 1) + kOverhead)).
  assert (He : lastEnd + rd data (lastEnd + 1) + kOverhead = e) by (subst e; lia).
  rewrite He. split; [done|].
  rewrite firstStart_loop_last; [by destruct (last _)|done|].
  assert (Hge : 0 <= lastEnd /\ lastEnd + 3 <= e).
  { apply head_Some_elem_of in E. unfold of_types in E.
    apply list_elem_of_filter in E as [_ E].
    pose proof (rd_byte data (lastEnd + 1) Hm) as [? ?].
    assert (0 <= lastEnd); [|subst e; unfold kOverhead; lia].
    clear -E Hm. unfold reachable in E.
    revert E. generalize (Z.to_nat (Z.of_nat (length data) - 0)).
    generalize (Z.of_nat (length data)). intros b n. revert b.
    induction n as [|n IH]; intros b E; [by apply elem_of_nil in E|].
    cbn [back_chain] in E.
    destruct (back_step data 0 b) as [prev|] eqn:Es; [|by apply elem_of_nil in E].
    apply elem_of_cons in E as [->|E]; [|by eapply IH].
    apply back_step_Some in Es. lia. }
  pose proof (length_filter (fun p => rd data p ∈ startingTypes)
                (reachable data (e - e + 0) e)) as Hlen.
  replace (e - e + 0) with 0 in Hlen by lia.
  pose proof (reachable_bound data 0 Hm (Z.to_nat (e - 0)) e ltac:(lia)) as Hb.
  unfold of_types. unfold reachable in *. rewrite Z.sub_0_r in *. lia.
Qed.

End SnapshotTrim.

Section Entries.
Import EntryIterator.

(** ** Entries over encoded frames *)


Lemma frame_at_intro (pre post : list Z) (f : frame) :
  frame_at (pre ++ encode f ++ post) (Z.of_nat (List.length pre)) f.
Proof.
  split.
  - apply type_frame.
  - apply length_frame.
  - apply next_frame.
  - apply rd_frame_payload.
  - apply copyTo_frame.
  - unfold in_buffer. rewrite !length_app.
    pose proof (encode_length f). unfold kOverhead in *.
    apply andb_true_intro. split; [apply Z.leb_le|apply Z.ltb_lt]; lia.
Qed.

Lemma frame_at_seq (pre post : list Z) (fs1 : list frame) (f : frame)
    (fs2 : list frame) :
  frame_at (pre ++ encode_all (fs1 ++ f :: fs2) ++ post)
    (Z.of_nat (List.length pre) + Z.of_nat (List.length (encode_all fs1))) f.
Proof.
  replace (pre ++ encode_all (fs1 ++ f :: fs2) ++ post)
    with ((pre ++ encode_all fs1) ++ encode f ++ (encode_all fs2 ++ post)).
  - replace (Z.of_nat (List.length pre) + Z.of_nat (List.length (encode_all fs1)))
      with (Z.of_nat (List.length (pre ++ encode_all fs1)))
      by (rewrite length_app; lia).
    apply frame_at_intro.
  - rewrite encode_all_app, encode_all_cons. by rewrite <- !app_assoc.
Qed.

(** A payload prefix read through the iterator. *)
Lemma frame_at_payload_take (m : list Z) (p : Z) (f : frame) (n : nat) :
  frame_at m p f -> (n <= List.length (fpayload f))%nat ->
  rd_range m (data p) (Z.of_nat n) = take n (fpayload f).
Proof.
  intros H Hn. rewrite <- (at_payload _ _ _ H).
  unfold rd_range. rewrite <- fmap_take. f_equal.
  apply list_eq. intros i. rewrite lookup_take.
  destruct (decide (i < n)%nat).
  - rewrite !lookup_seqZ_lt by lia. done.
  - rewrite lookup_seqZ_ge by lia. done.
Qed.

Lemma frame_at_payload_drop (m : list Z) (p : Z) (f : frame) (k n : nat) :
  frame_at m p f -> (k + n <= List.length (fpayload f))%nat ->
  rd_range m (data p + Z.of_nat k) (Z.of_nat n) = take n (drop k (fpayload f)).
Proof.
  intros H Hn. rewrite <- (at_payload _ _ _ H).
  unfold rd_range. rewrite <- fmap_drop, <- fmap_take. f_equal.
  apply list_eq. intros i. rewrite lookup_take.
  destruct (decide (i < n)%nat).
  - rewrite lookup_drop. rewrite !lookup_seqZ_lt by lia. f_equal. lia.
  - rewrite lookup_seqZ_ge by lia. done.
Qed.

Lemma timespec_read_bytes (m : list Z) (p : Z) (f : frame) (k : nat) (ts : timespec) :
  frame_at m p f -> timespec_ok ts ->
  take 16 (drop k (fpayload f)) = timespec_bytes ts ->
  timespec_read m (data p + Z.of_nat k) = ts.
Proof.
  intros H [Hs Hn] Hts.
  assert (Hlen : (k + 16 <= List.length (fpayload f))%nat).
  { apply (f_equal List.length) in Hts.
    rewrite length_take, length_drop, timespec_bytes_length in Hts. lia. }
  unfold timespec_read.
  change 8 with (Z.of_nat 8) at 1 3.
  rewrite (frame_at_payload_drop m p f k 8 H) by lia.
  replace (data p + Z.of_nat k + 8) with (data p + Z.of_nat (k + 8)) by lia.
  rewrite (frame_at_payload_drop m p f (k + 8) 8 H) by lia.
  replace (take 8 (drop k (fpayload f))) with (le_bytes 8 (tv_sec ts)).
  2: { change 8%nat with (8 `min` 16)%nat. rewrite <- take_take, Hts.
       unfold timespec_bytes. rewrite take_app_length'; [done|].
       by rewrite le_bytes_length. }
  replace (take 8 (drop (k + 8) (fpayload f))) with (le_bytes 8 (tv_nsec ts)).
  2: { rewrite <- drop_drop, take_drop_commute.
       change (8 + 8)%nat with 16%nat.
       rewrite Hts. unfold timespec_bytes. rewrite drop_app_length'; [done|].
       by rewrite le_bytes_length. }
  rewrite !le_value_bytes. change (8 * Z.of_nat 8) with 64.
  rewrite !to_signed_id by (try done; lia). by destruct ts.
Qed.

(** The first frames of a sequence, as the entry accessors reach them. *)
Lemma first_frames (pre post : list Z) (f1 f2 f3 : frame) (rest : list frame) :
  let m := pre ++ encode_all (f1 :: f2 :: f3 :: rest) ++ post in
  let p0 := Z.of_nat (List.length pre) in
  frame_at m p0 f1
  /\ frame_at m (next m p0) f2
  /\ frame_at m (next m (next m p0)) f3
  /\ next m (next m (next m p0))
     = p0 + Z.of_nat (List.length (encode_all [f1; f2; f3]))
  /\ forall f4 rest', rest = f4 :: rest' ->
       frame_at m (next m (next m (next m p0))) f4.
Proof.
  intros m p0.
  pose proof (frame_at_seq pre post [] f1 (f2 :: f3 :: rest)) as H1.
  pose proof (frame_at_seq pre post [f1] f2 (f3 :: rest)) as H2.
  pose proof (frame_at_seq pre post [f1; f2] f3 rest) as H3.
  cbn [app] in H1, H2, H3. fold m p0 in H1, H2, H3.
  assert (E1 : next m p0 = p0 + Z.of_nat (List.length (encode_all [f1]))).
  { replace p0 with (p0 + Z.of_nat (List.length (encode_all []))) at 1
      by (unfold encode_all; simpl; lia).
    rewrite (at_next _ _ _ H1). unfold encode_all. simpl.
    rewrite !length_app. simpl. lia. }
  assert (E2 : next m (next m p0)
               = p0 + Z.of_nat (List.length (encode_all [f1; f2]))).
  { rewrite E1, (at_next _ _ _ H2).
    change (encode_all [f1; f2]) with (encode_all ([f1] ++ [f2])).
    rewrite (encode_all_snoc [f1] f2), length_app. lia. }
  assert (E3 : next m (next m (next m p0))
               = p0 + Z.of_nat (List.length (encode_all [f1; f2; f3]))).
  { rewrite E2, (at_next _ _ _ H3).
    change (encode_all [f1; f2; f3]) with (encode_all ([f1; f2] ++ [f3])).
    rewrite (encode_all_snoc [f1; f2] f3), length_app. lia. }
  split.
  { replace p0 with (p0 + Z.of_nat (List.length (encode_all []))) at 1
      by (unfold encode_all; simpl; lia). exact H1. }
  split; [by rewrite E1|]. split; [by rewrite E2|]. split; [exact E3|].
  intros f4 rest' ->. rewrite E3.
  apply (frame_at_seq pre post [f1; f2; f3] f4 rest').
Qed.

Lemma hash_read_bytes (m : list Z) (p : Z) (f : frame) (h : Z) :
  frame_at m p f -> 0 <= h < 2 ^ 64 ->
  take 8 (fpayload f) = le_bytes 8 h ->
  hash_read m (data p) = h.
Proof.
  intros H Hh Hp.
  assert (Hlen : (8 <= List.length (fpayload f))%nat).
  { apply (f_equal List.length) in Hp. rewrite length_take, le_bytes_length in Hp. lia. }
  unfold hash_read. change sizeof_hash with (Z.of_nat 8).
  rewrite (frame_at_payload_take m p f 8 H Hlen), Hp, le_value_bytes.
  apply Z.mod_small. exact Hh.
Qed.

Lemma int_read_bytes (m : list Z) (p : Z) (f : frame) (k : nat) :
  frame_at m p f -> (k + 4 <= List.length (fpayload f))%nat ->
  int_read m (data p + Z.of_nat k)
  = to_signed 32 (le_value (take 4 (drop k (fpayload f)))).
Proof.
  intros H Hk. unfold int_read. change sizeof_int with (Z.of_nat 4).
  by rewrite (frame_at_payload_drop m p f k 4 H Hk).
Qed.

Lemma int_read_le_bytes (a : Z) :
  - 2 ^ 31 <= a < 2 ^ 31 -> to_signed 32 (le_value (le_bytes 4 a)) = a.
Proof.
  intros Ha. rewrite le_value_bytes. change (8 * Z.of_nat 4) with 32.
  apply to_signed_id; [lia|exact Ha].
Qed.

(** A formatted record in memory. *)
Section FormatRecord.
Variables (pre post : list Z) (fmt : list Z) (ts : timespec) (hash : Z)
          (args : list frame).
Let r := RFormat fmt ts hash args.
Let m := pre ++ encode_record r ++ post.
Let p0 := Z.of_nat (List.length pre).

Lemma FormatEntry_type : type m p0 = EVENT_START_FMT.
Proof.
  destruct (first_frames pre post (Frame EVENT_START_FMT fmt)
              (Frame EVENT_TIMESTAMP (timespec_bytes ts))
              (Frame EVENT_HASH (le_bytes 8 hash))
              (args ++ [Frame EVENT_END_FMT []])) as (H1 & _).
  exact (at_type _ _ _ H1).
Qed.

Lemma FormatEntry_timestamp : timespec_ok ts -> FormatEntry.timestamp m p0 = ts.
Proof.
  intros Hts.
  destruct (first_frames pre post (Frame EVENT_START_FMT fmt)
              (Frame EVENT_TIMESTAMP (timespec_bytes ts))
              (Frame EVENT_HASH (le_bytes 8 hash))
              (args ++ [Frame EVENT_END_FMT []])) as (_ & H2 & _).
  unfold FormatEntry.timestamp.
  pose proof (timespec_read_bytes _ _ _ 0 ts H2 Hts) as H.
  change (Z.of_nat 0) with 0 in H. rewrite Z.add_0_r in H. apply H. reflexivity.
Qed.

Lemma FormatEntry_hash : 0 <= hash < 2 ^ 64 -> FormatEntry.hash m p0 = hash.
Proof.
  intros Hh.
  destruct (first_frames pre post (Frame EVENT_START_FMT fmt)
              (Frame EVENT_TIMESTAMP (timespec_bytes ts))
              (Frame EVENT_HASH (le_bytes 8 hash))
              (args ++ [Frame EVENT_END_FMT []])) as (_ & _ & H3 & _).
  unfold FormatEntry.hash. eapply hash_read_bytes; eauto.
Qed.
End FormatRecord.

(** A histogram record in memory. *)
Lemma HistogramEntry_timestamp (pre post : list Z) (f : frame) (hash : Z)
    (ts : timespec) (extra : list Z) :
  timespec_ok ts ->
  fpayload f = Writer.HistTsEntry_bytes hash ts ++ extra ->
  HistogramEntry.timestamp (pre ++ encode f ++ post) (Z.of_nat (List.length pre)) = ts.
Proof.
  intros Hts Hp. unfold HistogramEntry.timestamp, offsetof_Hist_ts.
  change sizeof_hash with (Z.of_nat 8).
  eapply timespec_read_bytes; [apply frame_at_intro|done|].
  rewrite Hp. unfold Writer.HistTsEntry_bytes. rewrite <- app_assoc.
  rewrite drop_app_length' by (by rewrite le_bytes_length).
  apply take_app_length'. by rewrite timespec_bytes_length.
Qed.

Lemma FormatEntry_author_frames (pre post : list Z) (f1 f2 f3 f4 : frame)
    (rest : list frame) :
  let m := pre ++ encode_all (f1 :: f2 :: f3 :: f4 :: rest) ++ post in
  let p := Z.of_nat (List.length pre) in
  (ftype f4 <> EVENT_AUTHOR -> FormatEntry.author m p = -1)
  /\ (ftype f4 = EVENT_AUTHOR -> (4 <= List.length (fpayload f4))%nat ->
      FormatEntry.author m p = to_signed 32 (le_value (take 4 (fpayload f4)))).
Proof.
  intros m p.
  destruct (first_frames pre post f1 f2 f3 (f4 :: rest)) as (_ & _ & _ & _ & H4).
  specialize (H4 f4 rest eq_refl). fold m p in H4.
  unfold FormatEntry.author. rewrite (at_type _ _ _ H4). split.
  - intros E. by destruct (Z.eqb_spec (ftype f4) EVENT_AUTHOR).
  - intros E Hlen. rewrite E, Z.eqb_refl.
    pose proof (int_read_bytes _ _ _ 0 H4 ltac:(lia)) as H.
    change (Z.of_nat 0) with 0 in H. rewrite Z.add_0_r in H. by rewrite H.
Qed.

Lemma HistogramEntry_author_frame (pre post : list Z) (f : frame) :
  let m := pre ++ encode f ++ post in
  let p := Z.of_nat (List.length pre) in
  (Z.of_nat (List.length (fpayload f)) <> sizeof_HistTsEntryWithAuthor ->
   HistogramEntry.author m p = -1)
  /\ (Z.of_nat (List.length (fpayload f)) = sizeof_HistTsEntryWithAuthor ->
      HistogramEntry.author m p
      = to_signed 32
          (le_value (take 4 (drop (Z.to_nat offsetof_Hist_author) (fpayload f))))).
Proof.
  intros m p. pose proof (frame_at_intro pre post f) as H. fold m p in H.
  unfold HistogramEntry.author. rewrite (at_length _ _ _ H). split.
  - intros E.
    by destruct (Z.eqb_spec (Z.of_nat (List.length (fpayload f)))
                   sizeof_HistTsEntryWithAuthor).
  - intros E. rewrite E, Z.eqb_refl.
    change offsetof_Hist_author with (Z.of_nat 24).
    rewrite (int_read_bytes _ _ _ 24 H); [done|].
    unfold sizeof_HistTsEntryWithAuthor, sizeof_HistTsEntry, sizeof_hash,
      sizeof_timespec, sizeof_int in E. lia.
Qed.

(** C10: [author()] answers -1 for a formatted entry whose fourth frame is
    not an AUTHOR frame and for a histogram entry whose payload is not of
    the size of [HistTsEntryWithAuthor]; otherwise it answers the integer
    held by that frame, respectively by the author field. *)
Theorem author_sentinel (pre post : list Z) :
  (forall (f1 f2 f3 f4 : frame) (rest : list frame),
      let m := pre ++ encode_all (f1 :: f2 :: f3 :: f4 :: rest) ++ post in
      let p := Z.of_nat (List.length pre) in
      (ftype f4 <> EVENT_AUTHOR -> FormatEntry.author m p = -1)
      /\ (ftype f4 = EVENT_AUTHOR -> (4 <= List.length (fpayload f4))%nat ->
          FormatEntry.author m p
          = to_signed 32 (le_value (take 4 (fpayload f4)))))
  /\ (forall f : frame,
      let m := pre ++ encode f ++ post in
      let p := Z.of_nat (List.length pre) in
      (Z.of_nat (List.length (fpayload f)) <> sizeof_HistTsEntryWithAuthor ->
       HistogramEntry.author m p = -1)
      /\ (Z.of_nat (List.length (fpayload f)) = sizeof_HistTsEntryWithAuthor ->
          HistogramEntry.author m p
          = to_signed 32
              (le_value (take 4 (drop (Z.to_nat offsetof_Hist_author) (fpayload f)))))).
Proof.
  split.
  - intros f1 f2 f3 f4 rest. apply FormatEntry_author_frames.
  - intros f. apply HistogramEntry_author_frame.
Qed.

End Entries.

(** ** The rendering of the hash *)

Lemma to_signed_mod (x : Z) : to_signed 32 x `mod` 2 ^ 16 = x `mod` 2 ^ 16.
Proof.
  unfold to_signed.
  assert (H : (x `mod` 2 ^ 32) `mod` 2 ^ 16 = x `mod` 2 ^ 16).
  { change (2 ^ 32) with (2 ^ 16 * 2 ^ 16).
    set (B := 2 ^ 16). assert (0 < B) by (subst B; lia).
    rewrite Z.rem_mul_r by lia.
    rewrite (Z.mul_comm B), Z_mod_plus_full. apply Z.mod_mod. lia. }
  destruct (x `mod` 2 ^ 32 <? 2 ^ (32 - 1)); [exact H|].
  rewrite <- H.
  replace (x `mod` 2 ^ 32 - 2 ^ 32) with (x `mod` 2 ^ 32 + (- 2 ^ 16) * 2 ^ 16) by lia.
  apply Z_mod_plus_full.
Qed.

Lemma land_int_of (x : Z) : Z.land (Format.int_of x) 65535 = x `mod` 2 ^ 16.
Proof.
  change 65535 with (Z.ones 16). rewrite Z.land_ones by lia.
  apply to_signed_mod.
Qed.

Lemma appendHash_bits (body : string) (hash : Z) :
  Format.appendHash body hash
  = body +:+ Format.fmt_X 4 ((hash `div` 2 ^ 16) `mod` 2 ^ 16)
         +:+ "-" +:+ Format.fmt_d (hash `mod` 2 ^ 16) +:+ " ".
Proof.
  unfold Format.appendHash. rewrite !land_int_of.
  by rewrite Z.shiftr_div_pow2 by lia.
Qed.

(** C9, as the code has it: the hash of a formatted record is rendered as
    the bits 16 to 31 of the hash (the low 16 bits of [hash >> 16]) in
    hexadecimal, a dash and the low 16 bits in decimal; the record of
    [logFormat("x=%d pid=%p", 0xDEADBEEFCAFEBABE, 7)] gives CAFE-47806. *)
Theorem hash_rendering (pre post : list Z) (fmt : list Z) (ts : timespec)
    (hash : Z) (args : list frame) (body : string) :
  0 <= hash < 2 ^ 64 ->
  Format.handleFormat_hash
    (pre ++ encode_record (RFormat fmt ts hash args) ++ post)
    (Z.of_nat (length pre)) body
  = body +:+ Format.fmt_X 4 ((hash `div` 2 ^ 16) `mod` 2 ^ 16)
         +:+ "-" +:+ Format.fmt_d (hash `mod` 2 ^ 16) +:+ " "
  /\ Format.handleFormat_hash scenario_fifo 0 "" = "CAFE-47806 ".
Proof.
  intros Hh. split; [|by vm_compute].
  unfold Format.handleFormat_hash.
  rewrite FormatEntry_hash by done. apply appendHash_bits.
Qed.

Lemma hash_rendering_witness :
  Format.handleFormat_hash
    ([] ++ encode_record (RFormat (bytes_of_string "n=%d") (Timespec 1 0)
                            scenario_hash [Frame EVENT_INTEGER (le_bytes 4 3)])
        ++ [])
    (Z.of_nat (length (@nil Z))) ""
  = "" +:+ Format.fmt_X 4 ((scenario_hash `div` 2 ^ 16) `mod` 2 ^ 16)
       +:+ "-" +:+ Format.fmt_d (scenario_hash `mod` 2 ^ 16) +:+ " "
  /\ Format.handleFormat_hash scenario_fifo 0 "" = "CAFE-47806 ".
Proof.
  apply (hash_rendering [] [] (bytes_of_string "n=%d") (Timespec 1 0)
           scenario_hash [Frame EVENT_INTEGER (le_bytes 4 3)] "").
  unfold scenario_hash. lia.
Defined.

(** The specification's rendering DEAD-51390 of the scenario is not what
    the formatter produces. *)
Lemma hash_rendering_counterexample :
  scenario_hash = 0xDEADBEEFCAFEBABE
  /\ (exists w, scenario_log = Done w /\ Writer.written w = scenario_fifo)
  /\ Format.handleFormat_hash scenario_fifo 0 "" <> "DEAD-51390 ".
Proof.
  split; [reflexivity|]. split.
  - eexists. split; reflexivity.
  - by vm_compute.
Qed.

Section CopyWithAuthor.
Import EntryIterator.

(** ** Tagging a record with its author *)

Lemma authorEntry_frame (author : Z) :
  FormatEntry.authorEntry author = encode (Frame EVENT_AUTHOR (le_bytes 4 author)).
Proof. reflexivity. Qed.

Lemma encode_all_length_ge (fs : list frame) :
  (List.length fs <= List.length (encode_all fs))%nat.
Proof.
  induction fs as [|f fs IH]; [done|].
  rewrite encode_all_cons, length_app. pose proof (encode_length f).
  unfold kOverhead in *. simpl. lia.
Qed.

(** The loop that copies the argument frames stops on END_FMT. *)
Lemma copy_rest_args (post : list Z) :
  forall (args : list frame) (pre : list Z) (g : frame) (dst : list Z) (fuel : nat),
    Forall arg_ok args ->
    (List.length args < fuel)%nat ->
    FormatEntry.copy_rest fuel
      (pre ++ encode g ++ encode_all args ++ encode (Frame EVENT_END_FMT []) ++ post)
      (Z.of_nat (List.length pre)) dst
    = Done (Z.of_nat (List.length pre) + Z.of_nat (List.length (encode g))
            + Z.of_nat (List.length (encode_all args)),
            dst ++ encode_all args).
Proof.
  induction args as [|a args IH]; intros pre g dst fuel Hok Hfuel.
  - destruct fuel as [|fuel]; [simpl in Hfuel; lia|].
    cbn [FormatEntry.copy_rest].
    change (encode_all []) with (@nil Z). cbn [app].
    rewrite next_frame.
    pose proof (frame_at_intro (pre ++ encode g) post (Frame EVENT_END_FMT [])) as H.
    rewrite length_app, Nat2Z.inj_add, <- app_assoc in H.
    rewrite (at_inside _ _ _ H), (at_type _ _ _ H). cbn [negb ftype].
    rewrite Z.eqb_refl. cbn [negb]. rewrite app_nil_r. do 2 f_equal. simpl. lia.
  - destruct fuel as [|fuel]; [simpl in Hfuel; lia|].
    apply Forall_cons in Hok as [(Hfa & Hend & Hauth) Hok].
    cbn [FormatEntry.copy_rest]. rewrite next_frame.
    rewrite encode_all_cons.
    pose proof (frame_at_intro (pre ++ encode g)
                  (encode_all args ++ encode (Frame EVENT_END_FMT []) ++ post) a) as H.
    rewrite length_app, Nat2Z.inj_add in H.
    rewrite <- !app_assoc in H. rewrite <- !app_assoc.
    rewrite (at_inside _ _ _ H), (at_type _ _ _ H). cbn [negb].
    destruct (Z.eqb_spec (ftype a) EVENT_END_FMT); [done|]. cbn [negb].
    rewrite (at_copyTo _ _ _ H).
    pose proof (IH (pre ++ encode g) a (dst ++ encode a) fuel Hok) as IH'.
    rewrite length_app, Nat2Z.inj_add in IH'. rewrite <- !app_assoc in IH'.
    rewrite IH' by (simpl in Hfuel; lia).
    rewrite length_app. do 2 f_equal. lia.
Qed.

Lemma FormatEntry_copyWithAuthor (pre post dst : list Z) (fmt : list Z)
    (ts : timespec) (hash : Z) (args : list frame) (author : Z) :
  Forall arg_ok args ->
  let r := RFormat fmt ts hash args in
  FormatEntry.copyWithAuthor (pre ++ encode_record r ++ post)
    (Z.of_nat (List.length pre)) dst author
  = Done (Z.of_nat (List.length pre) + Z.of_nat (List.length (encode_record r)),
          dst ++ encode_all (authored author r)).
Proof.
  intros Hargs r.
  set (f1 := Frame EVENT_START_FMT fmt).
  set (f2 := Frame EVENT_TIMESTAMP (timespec_bytes ts)).
  set (f3 := Frame EVENT_HASH (le_bytes 8 hash)).
  pose (fe := Frame EVENT_END_FMT []).
  set (m := pre ++ encode_record r ++ post).
  assert (Hm : m = pre ++ encode_all (f1 :: f2 :: f3 :: args ++ [fe]) ++ post) by done.
  destruct (first_frames pre post f1 f2 f3 (args ++ [fe])) as (H1 & H2 & H3 & E3 & _).
  rewrite <- Hm in H1, H2, H3, E3.
  unfold FormatEntry.copyWithAuthor.
  rewrite (at_copyTo _ _ _ H1), (at_copyTo _ _ _ H2), (at_copyTo _ _ _ H3).
  rewrite authorEntry_frame.
  assert (Hm2 : m = (pre ++ encode f1 ++ encode f2) ++ encode f3
                      ++ encode_all args ++ encode (Frame EVENT_END_FMT []) ++ post).
  { rewrite Hm. rewrite !encode_all_cons, encode_all_snoc.
    by rewrite <- !app_assoc. }
  assert (Hp2 : next m (next m (Z.of_nat (List.length pre)))
                = Z.of_nat (List.length (pre ++ encode f1 ++ encode f2))).
  { rewrite (at_next _ _ _ H2), (at_next _ _ _ H1). rewrite !length_app. lia. }
  rewrite Hp2.
  assert (Hfuel : (List.length args < S (List.length m))%nat).
  { pose proof (encode_all_length_ge args). rewrite Hm2, !length_app. lia. }
  pose proof (copy_rest_args post args (pre ++ encode f1 ++ encode f2) f3
                (((dst ++ encode f1) ++ encode f2) ++ encode f3
                 ++ encode (Frame EVENT_AUTHOR (le_bytes 4 author)))
                _ Hargs Hfuel) as Hcr.
  rewrite <- Hm2 in Hcr. rewrite <- !app_assoc in Hcr |- *.
  rewrite <- !app_assoc in Hcr. rewrite Hcr. clear Hcr.
  cbn [obind].
  pose proof (frame_at_seq pre post (f1 :: f2 :: f3 :: args) fe []) as He.
  cbn [app] in He. rewrite <- Hm in He.
  replace (Z.of_nat (List.length (pre ++ encode f1 ++ encode f2))
           + Z.of_nat (List.length (encode f3))
           + Z.of_nat (List.length (encode_all args)))
    with (Z.of_nat (List.length pre)
          + Z.of_nat (List.length (encode_all (f1 :: f2 :: f3 :: args))))
    by (rewrite !encode_all_cons, !length_app; lia).
  rewrite (at_copyTo _ _ _ He), (at_next _ _ _ He).
  f_equal. f_equal.
  - unfold r, encode_record. cbn [rec_frames]. fold f1 f2 f3.
    change (f1 :: f2 :: f3 :: args ++ [Frame EVENT_END_FMT []])
      with ((f1 :: f2 :: f3 :: args) ++ [fe]).
    rewrite encode_all_snoc, length_app. lia.
  - unfold r. cbn [authored]. fold f1 f2 f3.
    rewrite !encode_all_cons, encode_all_snoc. by rewrite <- !app_assoc.
Qed.

Lemma HistTsEntry_bytes_length (hash : Z) (ts : timespec) :
  List.length (Writer.HistTsEntry_bytes hash ts) = 24%nat.
Proof.
  unfold Writer.HistTsEntry_bytes.
  by rewrite length_app, le_bytes_length, timespec_bytes_length.
Qed.

Lemma HistogramEntry_copyWithAuthor (pre post dst : list Z) (flush : bool)
    (hash : Z) (ts : timespec) (author : Z) :
  let r := RHist flush hash ts in
  HistogramEntry.copyWithAuthor (pre ++ encode_record r ++ post)
    (Z.of_nat (List.length pre)) dst author
  = Done (Z.of_nat (List.length pre) + Z.of_nat (List.length (encode_record r)),
          dst ++ encode_all (authored author r)).
Proof.
  intros r. unfold HistogramEntry.copyWithAuthor.
  set (f := Frame (hist_type flush) (Writer.HistTsEntry_bytes hash ts)).
  assert (Hr : encode_record r = encode f).
  { unfold encode_record, encode_all. simpl. by rewrite ?app_nil_r. }
  rewrite Hr, next_frame.
  assert (Hrd : rd_range (pre ++ encode f ++ post) (Z.of_nat (List.length pre))
                  (sizeof_entry + sizeof_HistTsEntry)
                = hist_type flush :: 24 :: Writer.HistTsEntry_bytes hash ts).
  { replace (pre ++ encode f ++ post)
      with (pre ++ (hist_type flush :: 24 :: Writer.HistTsEntry_bytes hash ts)
                ++ ([24] ++ post)).
    - change (sizeof_entry + sizeof_HistTsEntry) with (Z.of_nat 26).
      replace 26%nat
        with (List.length (hist_type flush :: 24 :: Writer.HistTsEntry_bytes hash ts))
        by reflexivity.
      apply rd_range_mid.
    - unfold encode, f. cbn [fpayload ftype].
      rewrite HistTsEntry_bytes_length. cbn [app]. by rewrite <- ?app_assoc. }
  rewrite Hrd. reflexivity.
Qed.

(** The author read back from a tagged record. *)
Lemma authored_author (pre post : list Z) (r : record) (i : Z) :
  - 2 ^ 31 <= i < 2 ^ 31 ->
  let m := pre ++ encode_all (authored i r) ++ post in
  exists e, AbstractEntry.buildEntry m (Z.of_nat (List.length pre)) = Some e
            /\ AbstractEntry.author m e = i.
Proof.
  intros Hi m. destruct r as [fmt ts hash args|flush hash ts].
  - exists (AbstractEntry.FormatEntry (Z.of_nat (List.length pre))). split.
    + unfold AbstractEntry.buildEntry.
      pose proof (frame_at_seq pre post [] (Frame EVENT_START_FMT fmt)
                    (Frame EVENT_TIMESTAMP (timespec_bytes ts)
                     :: Frame EVENT_HASH (le_bytes 8 hash)
                     :: Frame EVENT_AUTHOR (le_bytes 4 i)
                     :: args ++ [Frame EVENT_END_FMT []])) as H.
      change (encode_all []) with (@nil Z) in H. cbn [app List.length] in H.
      rewrite Z.add_0_r in H. subst m. cbn [authored].
      by rewrite (at_type _ _ _ H).
    + cbn [AbstractEntry.author]. subst m. cbn [authored].
      destruct (FormatEntry_author_frames pre post (Frame EVENT_START_FMT fmt)
                  (Frame EVENT_TIMESTAMP (timespec_bytes ts))
                  (Frame EVENT_HASH (le_bytes 8 hash))
                  (Frame EVENT_AUTHOR (le_bytes 4 i))
                  (args ++ [Frame EVENT_END_FMT []])) as [_ H].
      rewrite H; [|done|cbn [fpayload]; by rewrite le_bytes_length].
      cbn [fpayload]. rewrite take_ge by (by rewrite le_bytes_length).
      by apply int_read_le_bytes.
  - exists (AbstractEntry.HistogramEntry (Z.of_nat (List.length pre))).
    set (f := Frame (hist_type flush) (Writer.HistTsEntry_bytes hash ts ++ le_bytes 4 i)).
    assert (Hm : m = pre ++ encode f ++ post).
    { subst m. unfold authored, encode_all. simpl. by rewrite ?app_nil_r. }
    split.
    + unfold AbstractEntry.buildEntry. rewrite Hm, type_frame.
      by destruct flush.
    + cbn [AbstractEntry.author]. rewrite Hm.
      destruct (HistogramEntry_author_frame pre post f) as [_ H].
      assert (Hlen : List.length (fpayload f) = 28%nat).
      { unfold f. cbn [fpayload].
        by rewrite length_app, HistTsEntry_bytes_length, le_bytes_length. }
      rewrite H by (by rewrite Hlen).
      unfold f. cbn [fpayload]. change (Z.to_nat offsetof_Hist_author) with 24%nat.
      rewrite drop_app_length' by (by rewrite HistTsEntry_bytes_length).
      rewrite take_ge by (by rewrite le_bytes_length).
      by apply int_read_le_bytes.
Qed.

Lemma args_no_author (args : list frame) :
  Forall arg_ok args -> filter (fun f => ftype f = EVENT_AUTHOR) args = [].
Proof.
  induction 1 as [|a args (_ & _ & Ha) _ IH]; [done|].
  rewrite filter_cons. by destruct (decide (ftype a = EVENT_AUTHOR)).
Qed.

(** A record as a writer emits it carries no author. *)
Lemma record_author (pre post : list Z) (r : record) :
  record_ok r ->
  let m := pre ++ encode_record r ++ post in
  exists e, AbstractEntry.buildEntry m (Z.of_nat (List.length pre)) = Some e
            /\ AbstractEntry.author m e = -1
            /\ e = match r with
                   | RFormat _ _ _ _ =>
                       AbstractEntry.FormatEntry (Z.of_nat (List.length pre))
                   | RHist _ _ _ =>
                       AbstractEntry.HistogramEntry (Z.of_nat (List.length pre))
                   end.
Proof.
  intros Hok m. destruct r as [fmt ts hash args|flush hash ts].
  - eexists. split; [|split; [|reflexivity]].
    + unfold AbstractEntry.buildEntry. subst m.
      by rewrite FormatEntry_type.
    + cbn [AbstractEntry.author]. destruct Hok as (_ & _ & _ & _ & Hargs).
      destruct args as [|a args].
      * destruct (FormatEntry_author_frames pre post (Frame EVENT_START_FMT fmt)
                    (Frame EVENT_TIMESTAMP (timespec_bytes ts))
                    (Frame EVENT_HASH (le_bytes 8 hash))
                    (Frame EVENT_END_FMT []) []) as [H _].
        by apply H.
      * apply Forall_cons in Hargs as [(_ & _ & Ha) _].
        destruct (FormatEntry_author_frames pre post (Frame EVENT_START_FMT fmt)
                    (Frame EVENT_TIMESTAMP (timespec_bytes ts))
                    (Frame EVENT_HASH (le_bytes 8 hash))
                    a (args ++ [Frame EVENT_END_FMT []])) as [H _].
        by apply H.
  - set (f := Frame (hist_type flush) (Writer.HistTsEntry_bytes hash ts)).
    assert (Hm : m = pre ++ encode f ++ post).
    { subst m. unfold encode_record, encode_all. simpl. by rewrite ?app_nil_r. }
    eexists. split; [|split; [|reflexivity]].
    + unfold AbstractEntry.buildEntry. rewrite Hm, type_frame. by destruct flush.
    + cbn [AbstractEntry.author]. rewrite Hm.
      destruct (HistogramEntry_author_frame pre post f) as [H _]. apply H.
      unfold f. cbn [fpayload]. by rewrite HistTsEntry_bytes_length.
Qed.

(** C5: [copyWithAuthor(dst, i)] on a well-formed record that carries no
    author writes the record tagged with [i]: for a formatted record
    START_FMT, TIMESTAMP, HASH, a new AUTHOR frame holding [i], then the
    remaining frames up to END_FMT; for a histogram record one frame whose
    payload is the source payload followed by [i], with both length bytes
    equal to the size of [HistTsEntryWithAuthor].  The written record holds
    exactly one author, [i]. *)
Theorem copyWithAuthor_tags (pre post dst : list Z) (r : record) (i : Z) :
  record_ok r ->
  - 2 ^ 31 <= i < 2 ^ 31 ->
  let m := pre ++ encode_record r ++ post in
  let p := Z.of_nat (List.length pre) in
  let out := dst ++ encode_all (authored i r) in
  exists e,
    AbstractEntry.buildEntry m p = Some e
    /\ AbstractEntry.author m e = -1
    /\ AbstractEntry.copyWithAuthor m e dst i
       = Done (p + Z.of_nat (List.length (encode_record r)), out)
    /\ (exists e', AbstractEntry.buildEntry out (Z.of_nat (List.length dst)) = Some e'
                   /\ AbstractEntry.author out e' = i)
    /\ match r with
       | RFormat fmt ts hash args =>
           authored i r
           = [Frame EVENT_START_FMT fmt; Frame EVENT_TIMESTAMP (timespec_bytes ts);
              Frame EVENT_HASH (le_bytes 8 hash); Frame EVENT_AUTHOR (le_bytes 4 i)]
             ++ args ++ [Frame EVENT_END_FMT []]
           /\ List.length (filter (fun f => ftype f = EVENT_AUTHOR) (authored i r))
              = 1%nat
       | RHist flush hash ts =>
           let payload := Writer.HistTsEntry_bytes hash ts ++ le_bytes 4 i in
           encode_all (authored i r)
           = [hist_type flush; sizeof_HistTsEntryWithAuthor] ++ payload
             ++ [sizeof_HistTsEntryWithAuthor]
           /\ Z.of_nat (List.length payload) = sizeof_HistTsEntryWithAuthor
       end.
Proof.
  intros Hok Hi m p out.
  destruct (record_author pre post r Hok) as (e & Hb & Ha & He).
  fold m p in Hb, Ha, He.
  exists e. split; [exact Hb|]. split; [exact Ha|]. split; [|split].
  - rewrite He. destruct r as [fmt ts hash args|flush hash ts].
    + destruct Hok as (_ & _ & _ & _ & Hargs).
      by apply FormatEntry_copyWithAuthor.
    + apply HistogramEntry_copyWithAuthor.
  - pose proof (authored_author dst [] r i Hi) as H.
    cbn zeta in H. rewrite app_nil_r in H. exact H.
  - destruct r as [fmt ts hash args|flush hash ts].
    + split; [done|]. cbn [authored].
      destruct Hok as (_ & _ & _ & _ & Hargs).
      rewrite !filter_cons. cbn [ftype].
      rewrite filter_app, (args_no_author args Hargs). reflexivity.
    + cbn zeta. split.
      * unfold authored, encode_all, encode. cbn [fmap list_fmap concat ftype fpayload].
        rewrite app_nil_r, length_app, HistTsEntry_bytes_length, le_bytes_length.
        reflexivity.
      * by rewrite length_app, HistTsEntry_bytes_length, le_bytes_length.
Qed.

End CopyWithAuthor.

Section MergeOrder.
Import Merger.

(** ** The merge order *)

Lemma MergeItem_gt_false (x y : MergeItem) :
  MergeItem_gt x y = false <-> item_le x y.
Proof.
  unfold MergeItem_gt, timespec_gt, item_le.
  destruct (Z.ltb_spec (tv_sec (ts y)) (tv_sec (ts x))),
    (Z.eqb_spec (tv_sec (ts x)) (tv_sec (ts y))),
    (Z.ltb_spec (tv_nsec (ts y)) (tv_nsec (ts x))),
    (Z.eqb_spec (tv_nsec (ts x)) (tv_nsec (ts y))),
    (Nat.ltb_spec (index y) (index x)); simpl; split; try done; try lia.
Qed.

Lemma MergeItem_gt_true (x y : MergeItem) :
  MergeItem_gt x y = true -> item_le y x.
Proof.
  unfold MergeItem_gt, timespec_gt, item_le.
  destruct (Z.ltb_spec (tv_sec (ts y)) (tv_sec (ts x))),
    (Z.eqb_spec (tv_sec (ts x)) (tv_sec (ts y))),
    (Z.ltb_spec (tv_nsec (ts y)) (tv_nsec (ts x))),
    (Z.eqb_spec (tv_nsec (ts x)) (tv_nsec (ts y))),
    (Nat.ltb_spec (index y) (index x)); simpl; try done; lia.
Qed.

Lemma item_le_refl (x : MergeItem) : item_le x x.
Proof. unfold item_le. lia. Qed.

Lemma item_le_trans (x y z : MergeItem) : item_le x y -> item_le y z -> item_le x z.
Proof. unfold item_le. lia. Qed.

Lemma item_le_antisym (x y : MergeItem) : item_le x y -> item_le y x -> x = y.
Proof.
  unfold item_le. destruct x as [[s1 n1] i1], y as [[s2 n2] i2]. simpl.
  intros H1 H2. assert (s1 = s2 /\ n1 = n2 /\ i1 = i2) as (-> & -> & ->) by lia.
  done.
Qed.

(** [top] and [pop] of the queue. *)
Lemma extract_min_None (q : priority_queue) : extract_min q = None <-> q = [].
Proof.
  destruct q as [|x r]; [done|]. simpl.
  destruct (extract_min r) as [[y r']|]; [|done].
  by destruct (MergeItem_gt x y).
Qed.

Lemma extract_min_Some (q : priority_queue) (x : MergeItem) (q' : priority_queue) :
  extract_min q = Some (x, q') ->
  q ≡ₚ x :: q' /\ Forall (item_le x) q.
Proof.
  revert x q'. induction q as [|a r IH]; intros x q' H; [done|].
  simpl in H. destruct (extract_min r) as [[y r']|] eqn:E.
  - destruct (IH _ _ eq_refl) as [Hp Hle].
    destruct (MergeItem_gt a y) eqn:G; injection H as <- <-.
    + split.
      * rewrite Hp. apply Permutation_swap.
      * constructor; [by apply MergeItem_gt_true|done].
    + apply MergeItem_gt_false in G. split; [done|].
      constructor; [apply item_le_refl|].
      eapply Forall_impl; [exact Hle|]. intros z Hz. by eapply item_le_trans.
  - injection H as <- <-. apply extract_min_None in E as ->.
    split; [done|]. constructor; [apply item_le_refl|constructor].
Qed.

(** Two queues with the same items have the same top. *)
Lemma extract_min_perm (q1 q2 : priority_queue) (x : MergeItem) (q1' : priority_queue) :
  q1 ≡ₚ q2 -> extract_min q1 = Some (x, q1') ->
  exists q2', extract_min q2 = Some (x, q2') /\ q1' ≡ₚ q2'.
Proof.
  intros Hp H1. destruct (extract_min q2) as [[y q2']|] eqn:H2.
  - destruct (extract_min_Some _ _ _ H1) as [P1 L1].
    destruct (extract_min_Some _ _ _ H2) as [P2 L2].
    assert (x = y) as <-.
    { apply item_le_antisym.
      - eapply Forall_forall in L1; [exact L1|].
        rewrite Hp, P2. apply elem_of_cons. by left.
      - eapply Forall_forall in L2; [exact L2|].
        rewrite <- Hp, P1. apply elem_of_cons. by left. }
    exists q2'. split; [done|].
    apply (Permutation_cons_inv (a := x)). by rewrite <- P1, Hp, P2.
  - apply extract_min_None in H2 as ->. apply Permutation_nil_r in Hp as ->.
    done.
Qed.

(** The items of [heads]. *)
Lemma elem_of_heads (streams : list (list record)) :
  forall (i : nat) (it : MergeItem),
    it ∈ heads i streams <->
    exists (j : nat) (r : record) (rs : list record),
      index it = (i + j)%nat /\ streams !! j = Some (r :: rs) /\ ts it = rec_ts r.
Proof.
  induction streams as [|rs0 streams IH]; intros i it.
  - simpl. split; [by intros ?%elem_of_nil|]. by intros (j & r & rs & _ & ? & _).
  - assert (Htl : it ∈ heads (S i) streams <->
                  exists j r rs, index it = (i + S j)%nat
                                 /\ (rs0 :: streams) !! S j = Some (r :: rs)
                                 /\ ts it = rec_ts r).
    { rewrite IH. split; intros (j & r & rs & ? & ? & ?); exists j, r, rs;
        (split; [lia|done]). }
    destruct rs0 as [|r0 rs0]; cbn [heads].
    + rewrite Htl. split.
      * intros (j & r & rs & ? & ? & ?). by exists (S j), r, rs.
      * intros ([|j] & r & rs & ? & ? & ?); [done|]. by exists j, r, rs.
    + rewrite elem_of_cons, Htl. split.
      * intros [->|(j & r & rs & ? & ? & ?)].
        -- exists O, r0, rs0. simpl. split; [lia|done].
        -- by exists (S j), r, rs.
      * intros ([|j] & r & rs & Hi & Hl & Ht).
        -- left. simpl in Hl. injection Hl as <- <-.
           destruct it as [t k]. simpl in *. f_equal; [done|lia].
        -- right. by exists j, r, rs.
Qed.

Lemma heads_app (l1 l2 : list (list record)) :
  forall i : nat,
    heads i (l1 ++ l2) = heads i l1 ++ heads (i + List.length l1) l2.
Proof.
  induction l1 as [|rs l1 IH]; intros i.
  - simpl. by rewrite Nat.add_0_r.
  - cbn [app heads List.length]. rewrite IH.
    replace (S i + List.length l1)%nat with (i + S (List.length l1))%nat by lia.
    by destruct rs.
Qed.

(** Taking the head record of stream [i] replaces its item in [heads] by the
    item of the next record, if there is one. *)
Lemma heads_insert (streams : list (list record)) (i : nat) (r : record)
    (rs : list record) :
  streams !! i = Some (r :: rs) ->
  heads O streams ≡ₚ MkMergeItem (rec_ts r) i :: heads O (<[i := []]> streams)
  /\ heads O (<[i := rs]> streams)
     ≡ₚ match rs with
        | [] => []
        | r' :: _ => [MkMergeItem (rec_ts r') i]
        end ++ heads O (<[i := []]> streams).
Proof.
  intros Hi. pose proof (take_drop_middle _ _ _ Hi) as Hs.
  assert (Hlen : List.length (take i streams) = i).
  { rewrite length_take. apply lookup_lt_Some in Hi. lia. }
  assert (Hins : forall x, <[i := x]> streams = take i streams ++ x :: drop (S i) streams).
  { intros x. apply insert_take_drop. by eapply lookup_lt_Some. }
  rewrite !Hins. rewrite <- Hs at 1. rewrite !heads_app, Hlen. cbn [heads].
  split.
  - symmetry. apply Permutation_middle.
  - destruct rs as [|r' rs']; [done|]. cbn [app].
    symmetry. apply Permutation_middle.
Qed.

Lemma records_left_insert (streams : list (list record)) (i : nat) (r : record)
    (rs : list record) :
  streams !! i = Some (r :: rs) ->
  records_left streams = S (records_left (<[i := rs]> streams)).
Proof.
  revert i. induction streams as [|rs0 streams IH]; intros i Hi; [done|].
  destruct i as [|i]; simpl in *.
  - by injection Hi as ->.
  - rewrite (IH i Hi). lia.
Qed.

Lemma records_left_0 (streams : list (list record)) :
  records_left streams = O -> forall i : nat, heads i streams = [].
Proof.
  induction streams as [|rs streams IH]; intros H i; [done|].
  simpl in H. destruct rs; [|simpl in H; lia]. simpl. apply IH. simpl in H. lia.
Qed.

End MergeOrder.

Section MergeSpec.
Import Merger.

(** One step of the merge order. *)
Lemma kmerge_step (streams : list (list record)) (top : MergeItem)
    (popped : priority_queue) :
  extract_min (heads O streams) = Some (top, popped) ->
  exists (r : record) (rs : list record),
    streams !! index top = Some (r :: rs)
    /\ top = MkMergeItem (rec_ts r) (index top)
    /\ forall n : nat,
         kmerge (S n) streams
         = (index top, r) :: kmerge n (<[index top := rs]> streams).
Proof.
  intros H. destruct (extract_min_Some _ _ _ H) as [Hp _].
  assert (Hin : top ∈ heads O streams).
  { rewrite Hp. apply elem_of_cons. by left. }
  apply elem_of_heads in Hin as (j & r & rs & Hj & Hl & Ht).
  simpl in Hj. subst j. exists r, rs. split; [done|]. split.
  - destruct top as [t i]. simpl in *. by subst.
  - intros n. cbn [kmerge]. by rewrite H, Hl.
Qed.

Lemma kmerge_elem (n : nat) :
  forall (streams : list (list record)) (j : nat) (r' : record),
    (j, r') ∈ kmerge n streams ->
    exists rs, streams !! j = Some rs /\ r' ∈ rs.
Proof.
  induction n as [|n IH]; intros streams j r' H; [by apply elem_of_nil in H|].
  destruct (extract_min (heads O streams)) as [[top popped]|] eqn:E.
  2: { cbn [kmerge] in H. rewrite E in H. by apply elem_of_nil in H. }
  destruct (kmerge_step _ _ _ E) as (r & rs & Hl & _ & Hk).
  rewrite Hk in H. apply elem_of_cons in H as [[= -> ->]|H].
  - exists (r :: rs). split; [done|]. apply elem_of_cons. by left.
  - apply IH in H as (rs' & Hl' & Hr').
    destruct (decide (j = index top)) as [->|Hne].
    + rewrite list_lookup_insert_eq in Hl' by (by eapply lookup_lt_Some).
      injection Hl' as <-. exists (r :: rs). split; [done|].
      apply elem_of_cons. by right.
    + rewrite list_lookup_insert_ne in Hl' by done. by exists rs'.
Qed.

Lemma timespec_le_refl (t : timespec) : timespec_le t t.
Proof. unfold timespec_le. lia. Qed.

(** The least head is below every record still in the streams. *)
Lemma top_below (top : MergeItem) (h r' : record) (j : nat) :
  item_le top (MkMergeItem (rec_ts h) j) ->
  timespec_le (rec_ts h) (rec_ts r') ->
  timespec_le (ts top) (rec_ts r')
  /\ (ts top = rec_ts r' -> (index top <= j)%nat).
Proof.
  unfold item_le, timespec_le. cbn [ts index].
  destruct top as [[s1 n1] i], (rec_ts h) as [s2 n2], (rec_ts r') as [s3 n3].
  cbn [ts index tv_sec tv_nsec]. intros H1 H2. split; [lia|].
  intros [= -> ->]. lia.
Qed.

Lemma stream_sorted_head (r : record) (rs : list record) (r' : record) :
  stream_sorted (r :: rs) -> r' ∈ r :: rs -> timespec_le (rec_ts r) (rec_ts r').
Proof.
  intros Hs Hin. apply StronglySorted_inv in Hs as [_ Hall].
  apply elem_of_cons in Hin as [->|Hin]; [apply timespec_le_refl|].
  eapply Forall_forall in Hall; eauto.
Qed.

(** The merge order of sorted streams is sorted: timestamps do not
    decrease and equal timestamps come by ascending stream index. *)
Lemma kmerge_sorted (n : nat) :
  forall streams : list (list record),
    Forall stream_sorted streams -> merged_sorted (kmerge n streams).
Proof.
  induction n as [|n IH]; intros streams Hs; [constructor|].
  destruct (extract_min (heads O streams)) as [[top popped]|] eqn:E.
  2: { cbn [kmerge]. rewrite E. constructor. }
  destruct (kmerge_step _ _ _ E) as (r & rs & Hl & Htop & Hk).
  destruct (extract_min_Some _ _ _ E) as [_ Hmin].
  rewrite Hk.
  assert (Hsr : stream_sorted (r :: rs)).
  { eapply Forall_lookup_1 in Hs; eauto. }
  assert (Hs' : Forall stream_sorted (<[index top := rs]> streams)).
  { apply Forall_insert; [done|]. by apply StronglySorted_inv in Hsr as [? _]. }
  constructor; [by apply IH|].
  apply Forall_forall. intros [j r'] Hin.
  apply kmerge_elem in Hin as (rs' & Hl' & Hr').
  unfold merged_le. cbn [fst snd].
  destruct (decide (j = index top)) as [->|Hne].
  - rewrite list_lookup_insert_eq in Hl' by (by eapply lookup_lt_Some).
    injection Hl' as <-. split; [|done].
    eapply stream_sorted_head; [exact Hsr|]. apply elem_of_cons. by right.
  - rewrite list_lookup_insert_ne in Hl' by done.
    destruct rs' as [|h t]; [by apply elem_of_nil in Hr'|].
    assert (Hh : MkMergeItem (rec_ts h) j ∈ heads O streams).
    { apply elem_of_heads. by exists j, h, t. }
    eapply Forall_forall in Hmin; [|exact Hh].
    assert (Hhr : timespec_le (rec_ts h) (rec_ts r')).
    { eapply stream_sorted_head; [|exact Hr'].
      eapply Forall_lookup_1 in Hs; eauto. }
    destruct (top_below _ _ _ _ Hmin Hhr) as [H1 H2].
    rewrite Htop in H1, H2. cbn [ts index] in H1, H2. done.
Qed.

Lemma tagged_app (l1 l2 : list (list record)) :
  forall i : nat,
    tagged i (l1 ++ l2) = tagged i l1 ++ tagged (i + List.length l1) l2.
Proof.
  induction l1 as [|rs l1 IH]; intros i.
  - simpl. by rewrite Nat.add_0_r.
  - cbn [app tagged List.length]. rewrite IH, <- app_assoc.
    by replace (S i + List.length l1)%nat with (i + S (List.length l1))%nat by lia.
Qed.

Lemma tagged_insert (streams : list (list record)) (i : nat) (r : record)
    (rs : list record) :
  streams !! i = Some (r :: rs) ->
  tagged O streams ≡ₚ (i, r) :: tagged O (<[i := rs]> streams).
Proof.
  intros Hi. pose proof (take_drop_middle _ _ _ Hi) as Hs.
  assert (Hlen : List.length (take i streams) = i).
  { rewrite length_take. apply lookup_lt_Some in Hi. lia. }
  rewrite (insert_take_drop streams i rs) by (by eapply lookup_lt_Some).
  rewrite <- Hs at 1. rewrite !tagged_app, Hlen. cbn [tagged fmap list_fmap app].
  symmetry. apply Permutation_middle.
Qed.

Lemma heads_nil_tagged (streams : list (list record)) :
  forall i j : nat, heads i streams = [] -> tagged j streams = [].
Proof.
  induction streams as [|rs streams IH]; intros i j H; [done|].
  destruct rs; [|done]. simpl in *. by eapply IH.
Qed.

(** The merge order holds every record of every stream, once. *)
Lemma kmerge_perm (n : nat) :
  forall streams : list (list record),
    (records_left streams <= n)%nat -> kmerge n streams ≡ₚ tagged O streams.
Proof.
  induction n as [|n IH]; intros streams Hn.
  - simpl. rewrite (heads_nil_tagged streams O O); [done|].
    apply records_left_0. lia.
  - destruct (extract_min (heads O streams)) as [[top popped]|] eqn:E.
    + destruct (kmerge_step _ _ _ E) as (r & rs & Hl & _ & Hk).
      rewrite Hk, (tagged_insert _ _ _ _ Hl). constructor.
      apply IH. rewrite (records_left_insert _ _ _ _ Hl) in Hn. lia.
    + cbn [kmerge]. rewrite E. apply extract_min_None in E.
      by rewrite (heads_nil_tagged streams O O).
Qed.

End MergeSpec.

Section MergeRefinement.
Import Merger.

(** ** The merger follows the merge order *)

Lemma encode_records_cons (r : record) (rs : list record) :
  encode_records (r :: rs) = encode_record r ++ encode_records rs.
Proof. done. Qed.

Lemma encode_record_length (r : record) : (3 <= length (encode_record r))%nat.
Proof.
  unfold encode_record.
  destruct r; cbn [rec_frames]; rewrite encode_all_cons, length_app;
    match goal with |- context [encode ?f] => pose proof (encode_length f) end;
    unfold kOverhead in *; lia.
Qed.

Lemma encode_records_nil_inv (rs : list record) :
  length (encode_records rs) = O -> rs = [].
Proof.
  destruct rs as [|r rs]; [done|].
  rewrite encode_records_cons, length_app. pose proof (encode_record_length r). lia.
Qed.

Lemma records_length_le (rs : list record) :
  (length rs <= length (encode_records rs))%nat.
Proof.
  induction rs as [|r rs IH]; [done|].
  rewrite encode_records_cons, length_app. pose proof (encode_record_length r).
  simpl. lia.
Qed.

(** The entry under a cursor: its timestamp, and what copying it does. *)
Lemma records_at_entry (snap : Reader.Snapshot) (off : Z) (r : record)
    (rs : list record) (i : Z) (dst : list Z) :
  records_at snap off (r :: rs) ->
  exists e,
    entry_at (Reader.mData snap) off = Done e
    /\ AbstractEntry.timestamp (Reader.mData snap) e = rec_ts r
    /\ AbstractEntry.copyWithAuthor (Reader.mData snap) e dst i
       = Done (off + Z.of_nat (length (encode_record r)),
               dst ++ encode_all (authored i r))
    /\ records_at snap (off + Z.of_nat (length (encode_record r))) rs.
Proof.
  intros (Hok & pre & tail & Hd & -> & He).
  apply Forall_cons in Hok as [Hr Hrs].
  rewrite encode_records_cons, <- app_assoc in Hd.
  destruct (record_author pre (encode_records rs ++ tail) r Hr)
    as (e & Hb & _ & Hshape).
  rewrite <- Hd in Hb.
  exists e. split; [|split; [|split]].
  - unfold entry_at.
    assert (Hin : in_buffer (Reader.mData snap) (Z.of_nat (length pre)) = true).
    { unfold in_buffer. rewrite Hd, !length_app.
      pose proof (encode_record_length r).
      apply andb_true_intro. split; [apply Z.leb_le|apply Z.ltb_lt]; lia. }
    by rewrite Hin, Hb.
  - rewrite Hshape, Hd. destruct r as [fmt ts hash args|flush hash ts].
    + destruct Hr as (_ & _ & Hts & _).
      cbn [AbstractEntry.timestamp rec_ts]. by apply FormatEntry_timestamp.
    + destruct Hr as [Hts _]. cbn [AbstractEntry.timestamp rec_ts].
      replace (encode_record (RHist flush hash ts))
        with (encode (Frame (hist_type flush) (Writer.HistTsEntry_bytes hash ts ++ [])))
        by (unfold encode_record, encode_all; simpl; by rewrite ?app_nil_r).
      by eapply HistogramEntry_timestamp.
  - rewrite Hshape, Hd. destruct r as [fmt ts hash args|flush hash ts].
    + destruct Hr as (_ & _ & _ & _ & Hargs).
      by apply FormatEntry_copyWithAuthor.
    + apply HistogramEntry_copyWithAuthor.
  - split; [done|]. exists (pre ++ encode_record r), tail.
    split; [by rewrite <- app_assoc|]. split; [rewrite length_app; lia|].
    rewrite He, encode_records_cons, !length_app. lia.
Qed.

(** [push_next] queues the record under the cursor, if there is one. *)
Lemma push_next_spec (snap : Reader.Snapshot) (off : Z) (rs : list record)
    (i : nat) (q : priority_queue) :
  records_at snap off rs ->
  push_next snap off i q
  = Done (match rs with
          | [] => q
          | r :: _ => MkMergeItem (rec_ts r) i :: q
          end).
Proof.
  intros Hc. unfold push_next. destruct rs as [|r rs].
  - destruct Hc as (_ & pre & tail & Hd & -> & He).
    rewrite He. change (encode_records []) with (@nil Z). cbn [length].
    by rewrite Z.add_0_r, Z.eqb_refl.
  - destruct (records_at_entry snap off r rs 0 [] Hc) as (e & He & Hts & _).
    destruct Hc as (_ & pre & tail & Hd & -> & Hend).
    rewrite Hend, encode_records_cons, length_app.
    pose proof (encode_record_length r).
    destruct (Z.eqb_spec (Z.of_nat (length pre))
                (Z.of_nat (length pre)
                 + Z.of_nat (length (encode_record r) + length (encode_records rs))));
      [lia|].
    cbn [negb]. rewrite He. cbn [obind].
    by rewrite Hts.
Qed.

Lemma Forall3_insert_mr {A B C} (P : A -> B -> C -> Prop) (l : list A)
    (k : list B) (k' : list C) (i : nat) (x : A) (y : B) (z : C) :
  Forall3 P l k k' -> l !! i = Some x -> P x y z ->
  Forall3 P l (<[i := y]> k) (<[i := z]> k').
Proof.
  intros H. revert i. induction H as [|a b c l k k' Habc H IH]; intros i Hi Hp.
  - done.
  - destruct i as [|i]; simpl in *.
    + injection Hi as ->. by constructor.
    + constructor; [done|]. by apply IH.
Qed.

Lemma encode_merged_cons (i : nat) (r : record) (l : list (nat * record)) :
  encode_merged ((i, r) :: l)
  = encode_all (authored (Z.of_nat i) r) ++ encode_merged l.
Proof. done. Qed.

(** The loop of [merge] writes the records in the merge order through the
    FIFO writer. *)
Lemma merge_loop_refines (n : nat) :
  forall (fuel : nat) (snaps : list Reader.Snapshot) (offsets : list Z)
         (q : priority_queue) (streams : list (list record)) (dst : list Z),
    (records_left streams <= n)%nat -> (n < fuel)%nat ->
    Forall3 records_at snaps offsets streams ->
    q ≡ₚ heads O streams ->
    MergerFifo.merge_loop fuel snaps offsets q (Some dst)
    = Done (Some (dst ++ encode_merged (kmerge n streams))).
Proof.
  induction n as [|n IH]; intros fuel snaps offsets q streams dst Hn Hfuel H3 Hq.
  - destruct fuel as [|fuel]; [lia|]. cbn [MergerFifo.merge_loop kmerge].
    rewrite (records_left_0 streams) in Hq by lia.
    apply Permutation_nil_r in Hq as ->. simpl.
    unfold encode_merged. simpl. by rewrite app_nil_r.
  - destruct fuel as [|fuel]; [lia|]. cbn [MergerFifo.merge_loop].
    destruct (extract_min q) as [[top popped]|] eqn:E.
    2: { apply extract_min_None in E as ->. symmetry in Hq.
         apply Permutation_nil_r in Hq. cbn [kmerge]. rewrite Hq. simpl.
         unfold encode_merged. simpl. by rewrite app_nil_r. }
    destruct (extract_min_perm _ _ _ _ Hq E) as (popped' & E' & Hpop).
    destruct (kmerge_step _ _ _ E') as (r & rs & Hl & Htop & Hk).
    destruct (Forall3_lookup_r _ _ _ _ _ _ H3 Hl) as (snap & off & Hs & Ho & Hc).
    rewrite Hs, Ho.
    destruct (records_at_entry snap off r rs (Z.of_nat (index top)) dst Hc)
      as (e & He & _ & Hcopy & Hc').
    rewrite He. cbn [obind MergerFifo.copyWithAuthor]. rewrite Hcopy.
    cbn [obind fst snd].
    rewrite (push_next_spec _ _ rs _ _ Hc'). cbn [obind].
    rewrite Hk, encode_merged_cons, app_assoc.
    apply IH.
    + rewrite (records_left_insert _ _ _ _ Hl) in Hn. lia.
    + lia.
    + by eapply Forall3_insert_mr.
    + destruct (heads_insert _ _ _ _ Hl) as [Hh1 Hh2].
      destruct (extract_min_Some _ _ _ E') as [Hp' _].
      assert (Hrest : popped ≡ₚ heads O (<[index top := []]> streams)).
      { rewrite Hpop. apply (Permutation_cons_inv (a := top)).
        rewrite <- Hp', Hh1. by rewrite <- Htop. }
      rewrite Hh2. destruct rs as [|r' rs']; simpl; by rewrite Hrest.
Qed.

Lemma init_loop_heads (snaps : list Reader.Snapshot) (streams : list (list record)) :
  Forall2 snapshot_holds snaps streams ->
  forall (i : nat) (q : priority_queue),
    exists q', init_loop snaps i q = Done q' /\ q' ≡ₚ heads i streams ++ q.
Proof.
  induction 1 as [|snap rs snaps streams Hs _ IH]; intros i q.
  - exists q. by split.
  - cbn [init_loop]. rewrite (push_next_spec _ _ rs _ _ Hs). cbn [obind].
    destruct (IH (S i) (match rs with
                        | [] => q
                        | r :: _ => MkMergeItem (rec_ts r) i :: q
                        end)) as (q' & Hq' & Hp).
    exists q'. split; [done|]. rewrite Hp. destruct rs as [|r rs']; [done|].
    cbn [heads app]. symmetry. apply Permutation_middle.
Qed.

Lemma snapshots_cursors (snaps : list Reader.Snapshot) (streams : list (list record)) :
  Forall2 snapshot_holds snaps streams ->
  Forall3 records_at snaps (Reader.mBegin <$> snaps) streams
  /\ (records_left streams <= total_size snaps)%nat.
Proof.
  induction 1 as [|snap rs snaps streams Hs _ [IH1 IH2]]; [by split; [constructor|]|].
  split.
  - by constructor.
  - destruct Hs as (_ & pre & tail & Hd & _). simpl. rewrite Hd, !length_app.
    pose proof (records_length_le rs). lia.
Qed.

(** The merge of snapshots that hold whole records writes their records in
    the merge order. *)
Lemma merge_snapshots_refines (snaps : list Reader.Snapshot)
    (streams : list (list record)) (dst : list Z) :
  Forall2 snapshot_holds snaps streams ->
  MergerFifo.merge_snapshots snaps (Some dst)
  = Done (Some (dst ++ encode_merged (merge_order streams))).
Proof.
  intros H. unfold MergerFifo.merge_snapshots.
  destruct (init_loop_heads _ _ H O []) as (q & Hq & Hp).
  rewrite app_nil_r in Hp. rewrite Hq. cbn [obind].
  destruct (snapshots_cursors _ _ H) as [H3 Hsz].
  unfold merge_order.
  eapply merge_loop_refines; eauto. lia.
Qed.

(** With no FIFO writer the merge returns only when no snapshot holds a
    record: the first record to copy is written through the null
    pointer. *)
Lemma merge_snapshots_null (snaps : list Reader.Snapshot)
    (streams : list (list record)) :
  Forall2 snapshot_holds snaps streams ->
  MergerFifo.merge_snapshots snaps None
  = (if decide (tagged O streams = []) then Done None else Undefined).
Proof.
  intros H. unfold MergerFifo.merge_snapshots.
  destruct (init_loop_heads _ _ H O []) as (q & Hq & Hp).
  rewrite app_nil_r in Hp. rewrite Hq. cbn [obind].
  destruct (snapshots_cursors _ _ H) as [H3 _].
  cbn [MergerFifo.merge_loop].
  destruct (extract_min q) as [[top popped]|] eqn:E.
  - destruct (extract_min_perm _ _ _ _ Hp E) as (popped' & E' & _).
    destruct (kmerge_step _ _ _ E') as (r & rs & Hl & _ & _).
    destruct (Forall3_lookup_r _ _ _ _ _ _ H3 Hl) as (snap & off & Hs & Ho & Hc).
    rewrite Hs, Ho.
    destruct (records_at_entry snap off r rs (Z.of_nat (index top)) [] Hc)
      as (e & He & _).
    rewrite He. cbn [obind MergerFifo.copyWithAuthor].
    destruct (decide (tagged O streams = [])) as [Ht|]; [|done].
    exfalso. pose proof (tagged_insert _ _ _ _ Hl) as Hperm. rewrite Ht in Hperm.
    by apply Permutation_nil_cons in Hperm.
  - apply extract_min_None in E as ->. symmetry in Hp. apply Permutation_nil_r in Hp.
    by rewrite (heads_nil_tagged streams O O Hp), decide_True.
Qed.

(** A snapshot whose end is the end of its data is one with no bytes behind
    its end. *)
Lemma snapshot_of_holds (s : Reader.Snapshot) (rs : list record) :
  snapshot_of s rs -> snapshot_holds s rs.
Proof.
  intros (Hok & pre & Hd & Hb & He). split; [done|]. exists pre, [].
  split; [by rewrite app_nil_r|]. split; [done|].
  rewrite He, Hd, length_app. lia.
Qed.

(** With a FIFO writer at hand the loop of [merge] is the loop over the
    bytes written. *)
Lemma merge_loop_fifo (fuel : nat) :
  forall (snaps : list Reader.Snapshot) (offsets : list Z) (q : priority_queue)
         (dst : list Z),
    MergerFifo.merge_loop fuel snaps offsets q (Some dst)
    = let* out := merge_loop fuel snaps offsets q dst in Done (Some out).
Proof.
  induction fuel as [|fuel IH]; intros snaps offsets q dst; [done|].
  cbn [MergerFifo.merge_loop merge_loop].
  destruct (extract_min q) as [[top popped]|]; [|done].
  destruct (snaps !! index top) as [snap|]; [|done].
  destruct (offsets !! index top) as [off|]; [|done].
  destruct (entry_at (Reader.mData snap) off) as [e| |]; [|done|done].
  cbn [obind MergerFifo.copyWithAuthor].
  destruct (AbstractEntry.copyWithAuthor (Reader.mData snap) e dst
              (Z.of_nat (index top))) as [[off' dst']| |]; [|done|done].
  cbn [obind fst snd].
  destruct (push_next snap off' (index top) popped) as [q'| |]; [|done|done].
  cbn [obind]. apply IH.
Qed.

(** With a FIFO writer at hand [merge] is the merge over the bytes
    written. *)
Lemma merge_fifo (readers : list (option Reader.obtained)) (dst : list Z) :
  MergerFifo.merge readers (Some dst)
  = let* out := merge readers dst in Done (Some out).
Proof.
  unfold MergerFifo.merge, merge, MergerFifo.merge_snapshots, merge_snapshots.
  destruct (init_loop _ O []) as [q| |]; [|done|done].
  cbn [obind]. apply merge_loop_fifo.
Qed.

End MergeRefinement.

Section MergedStream.
Import Merger.

(** ** Reading the merged stream *)

(** The timestamp and the author read back from a tagged record. *)
Lemma authored_entry (pre post : list Z) (r : record) (i : Z) :
  record_ok r -> - 2 ^ 31 <= i < 2 ^ 31 ->
  let m := pre ++ encode_all (authored i r) ++ post in
  exists e, AbstractEntry.buildEntry m (Z.of_nat (length pre)) = Some e
            /\ AbstractEntry.timestamp m e = rec_ts r
            /\ AbstractEntry.author m e = i.
Proof.
  intros Hok Hi m.
  destruct (authored_author pre post r i Hi) as (e & Hb & Ha). fold m in Hb, Ha.
  exists e. split; [done|]. split; [|done].
  destruct r as [fmt ts hash args|flush hash ts].
  - destruct Hok as (_ & _ & Hts & _).
    assert (e = AbstractEntry.FormatEntry (Z.of_nat (length pre))) as ->.
    { unfold AbstractEntry.buildEntry in Hb.
      destruct (EntryIterator.type m _ =? EVENT_START_FMT) eqn:E1; [congruence|].
      exfalso. subst m. cbn [authored] in E1.
      pose proof (frame_at_seq pre post [] (Frame EVENT_START_FMT fmt)
                    (Frame EVENT_TIMESTAMP (timespec_bytes ts)
                     :: Frame EVENT_HASH (le_bytes 8 hash)
                     :: Frame EVENT_AUTHOR (le_bytes 4 i)
                     :: args ++ [Frame EVENT_END_FMT []])) as H.
      change (encode_all []) with (@nil Z) in H. cbn [app length] in H.
      rewrite Z.add_0_r in H. by rewrite (at_type _ _ _ H) in E1. }
    cbn [AbstractEntry.timestamp rec_ts]. subst m. cbn [authored].
    destruct (first_frames pre post (Frame EVENT_START_FMT fmt)
                (Frame EVENT_TIMESTAMP (timespec_bytes ts))
                (Frame EVENT_HASH (le_bytes 8 hash))
                (Frame EVENT_AUTHOR (le_bytes 4 i)
                 :: args ++ [Frame EVENT_END_FMT []])) as (_ & H2 & _).
    unfold FormatEntry.timestamp.
    pose proof (timespec_read_bytes _ _ _ 0 ts H2 Hts) as H.
    change (Z.of_nat 0) with 0 in H. rewrite Z.add_0_r in H. apply H. reflexivity.
  - destruct Hok as [Hts _].
    set (f := Frame (hist_type flush) (Writer.HistTsEntry_bytes hash ts ++ le_bytes 4 i)).
    assert (Hm : m = pre ++ encode f ++ post).
    { subst m. unfold authored, encode_all. simpl. by rewrite ?app_nil_r. }
    assert (e = AbstractEntry.HistogramEntry (Z.of_nat (length pre))) as ->.
    { unfold AbstractEntry.buildEntry in Hb. rewrite Hm, type_frame in Hb.
      destruct flush; cbn in Hb; congruence. }
    cbn [AbstractEntry.timestamp rec_ts]. rewrite Hm.
    by eapply HistogramEntry_timestamp.
Qed.

Lemma encode_merged_app (l1 l2 : list (nat * record)) :
  encode_merged (l1 ++ l2) = encode_merged l1 ++ encode_merged l2.
Proof. unfold encode_merged. by rewrite fmap_app, concat_app. Qed.

(** The [k]-th record of the merged stream, found where the records before
    it end. *)
Lemma merged_record_at (dst : list Z) (l : list (nat * record)) (k i : nat)
    (r : record) :
  l !! k = Some (i, r) -> record_ok r -> Z.of_nat i < 2 ^ 31 ->
  let out := dst ++ encode_merged l in
  let p := Z.of_nat (length dst) + Z.of_nat (length (encode_merged (take k l))) in
  exists e, AbstractEntry.buildEntry out p = Some e
            /\ AbstractEntry.timestamp out e = rec_ts r
            /\ AbstractEntry.author out e = Z.of_nat i.
Proof.
  intros Hk Hok Hi out p.
  pose proof (take_drop_middle _ _ _ Hk) as Hl.
  assert (Hout : out = (dst ++ encode_merged (take k l))
                       ++ encode_all (authored (Z.of_nat i) r)
                       ++ encode_merged (drop (S k) l)).
  { subst out. rewrite <- Hl at 1.
    rewrite encode_merged_app, encode_merged_cons. by rewrite <- !app_assoc. }
  assert (Hp : p = Z.of_nat (length (dst ++ encode_merged (take k l)))).
  { subst p. rewrite length_app. lia. }
  rewrite Hout, Hp. apply authored_entry; [done|lia].
Qed.

Lemma elem_of_tagged (streams : list (list record)) :
  forall (i0 i : nat) (r : record),
    (i, r) ∈ tagged i0 streams ->
    exists (j : nat) (rs : list record),
      i = (i0 + j)%nat /\ streams !! j = Some rs /\ r ∈ rs.
Proof.
  induction streams as [|rs streams IH]; intros i0 i r H.
  - by apply elem_of_nil in H.
  - cbn [tagged] in H. apply elem_of_app in H as [H|H].
    + apply list_elem_of_fmap in H as (r' & [= -> ->] & Hr).
      exists O, rs. split; [lia|done].
    + apply IH in H as (j & rs' & -> & Hl & Hr).
      exists (S j), rs'. split; [lia|done].
Qed.

(** C4, as the code has it: a merge pass over snapshots as [getSnapshot]
    leaves them, each of which holds whole records with non-decreasing
    timestamps between its begin and its end, whatever bytes lie before and
    behind them, writes every record of every snapshot once through the
    FIFO writer, tagged with its stream index, and the records of the merged
    FIFO have non-decreasing timestamps, equal timestamps coming by
    ascending stream index. *)
Theorem merge_sorted (snaps : list Reader.Snapshot) (streams : list (list record))
    (dst : list Z) :
  Forall2 snapshot_holds snaps streams ->
  Forall stream_sorted streams ->
  Z.of_nat (length snaps) < 2 ^ 31 ->
  exists l : list (nat * record),
    MergerFifo.merge_snapshots snaps (Some dst) = Done (Some (dst ++ encode_merged l))
    /\ l ≡ₚ tagged O streams
    /\ merged_sorted l
    /\ forall (k i : nat) (r : record),
         l !! k = Some (i, r) ->
         let out := dst ++ encode_merged l in
         let p := Z.of_nat (length dst)
                  + Z.of_nat (length (encode_merged (take k l))) in
         exists e, AbstractEntry.buildEntry out p = Some e
                   /\ AbstractEntry.timestamp out e = rec_ts r
                   /\ AbstractEntry.author out e = Z.of_nat i.
Proof.
  intros Hs Hsorted Hn. exists (merge_order streams).
  assert (Hperm : merge_order streams ≡ₚ tagged O streams).
  { by apply kmerge_perm. }
  split; [by apply merge_snapshots_refines|]. split; [exact Hperm|].
  split; [by apply kmerge_sorted|].
  intros k i r Hk.
  assert (Hin : (i, r) ∈ tagged O streams).
  { rewrite <- Hperm. by eapply list_elem_of_lookup_2. }
  apply elem_of_tagged in Hin as (j & rs & -> & Hl & Hr).
  apply merged_record_at; [done| |].
  - destruct (Forall2_lookup_r _ _ _ _ _ Hs Hl) as (snap & _ & Hok & _).
    eapply Forall_forall in Hok; eauto.
  - apply lookup_lt_Some in Hl. apply Forall2_length in Hs. simpl. lia.
Qed.

End MergedStream.

(** ** The properties at concrete inputs *)

Ltac by_decide := apply (bool_decide_unpack _); vm_compute; exact I.

Lemma scenario_writer_ok :
  writer_ok scenario_writer [] (le_bytes 4 1234 ++ bytes_of_string "audio").
Proof.
  unfold writer_ok. split; [reflexivity|]. split; [reflexivity|].
  split; [reflexivity|]. split; [reflexivity|]. split; [by_decide|by_decide].
Defined.

Lemma logFormat_emits_witness :
  arg_frames (fun d => d) (le_bytes 4 1234 ++ bytes_of_string "audio")
    (specifiers (bytes_of_string "x=%d pid=%p")) [VaInt 7]
  = Some [Frame EVENT_INTEGER (le_bytes 4 7);
          Frame EVENT_PID (le_bytes 4 1234 ++ bytes_of_string "audio")]
  /\ exists w',
       scenario_log = Done w'
       /\ Writer.written w'
          = [] ++ encode_all
                    (format_frames (bytes_of_string "x=%d pid=%p")
                       (Timespec 5 7000000) scenario_hash
                       [Frame EVENT_INTEGER (le_bytes 4 7);
                        Frame EVENT_PID (le_bytes 4 1234 ++ bytes_of_string "audio")]).
Proof.
  split; [reflexivity|].
  apply (logFormat_emits (fun d => d) scenario_writer []
           (le_bytes 4 1234 ++ bytes_of_string "audio") (Timespec 5 7000000)
           (bytes_of_string "x=%d pid=%p") scenario_hash [VaInt 7]).
  - exact scenario_writer_ok.
  - by_decide.
  - by_decide.
  - reflexivity.
Defined.

Lemma getSnapshot_trims_witness :
  bytes scenario_fifo
  /\ Reader.mEnd (Reader.getSnapshot (Some (Reader.MkObtained scenario_fifo [] 0))).1
     = 63 + rd scenario_fifo (63 + 1) + kOverhead
  /\ Reader.mBegin (Reader.getSnapshot (Some (Reader.MkObtained scenario_fifo [] 0))).1
     = 0.
Proof.
  split; [by_decide|].
  assert (Hb : bytes (Reader.iovec0 (Reader.MkObtained scenario_fifo [] 0)
                      ++ Reader.iovec1 (Reader.MkObtained scenario_fifo [] 0)))
    by by_decide.
  exact (getSnapshot_trims (Reader.MkObtained scenario_fifo [] 0) Hb).
Defined.

Lemma findLastEntryOfTypes_aborts_witness :
  bytes (scenario_fifo ++ [3; 4; 1; 2])
  /\ Reader.findLastEntryOfTypes (scenario_fifo ++ [3; 4; 1; 2]) 0 70
       Reader.endingTypes = None.
Proof.
  split; [by_decide|].
  assert (Hb : bytes (scenario_fifo ++ [3; 4; 1; 2])) by by_decide.
  apply (proj1 (findLastEntryOfTypes_aborts (scenario_fifo ++ [3; 4; 1; 2]) 0 70
                  Reader.endingTypes Hb) 70).
  - constructor.
  - split; [lia|]. right. by vm_compute.
Defined.

Lemma snapshot_for_holds (rs : list record) :
  Forall record_ok rs -> snapshot_holds (snapshot_for rs) rs.
Proof.
  intros H. split; [done|]. exists [], []. split; [by rewrite app_nil_r|].
  by split.
Defined.

(** The snapshot that [getSnapshot] takes of a FIFO that begins with a
    flush record and ends within a record: it begins at byte 27 and ends
    at byte 101 of 106, and holds the records of stream A between them. *)
Lemma scenario_trimmed_holds : snapshot_holds scenario_trimmed stream_a.
Proof.
  split; [by_decide|].
  exists (encode_records [flush_record]),
         (encode_all [Frame EVENT_START_FMT (bytes_of_string "hi")]).
  split; [vm_compute; reflexivity|]. split; vm_compute; reflexivity.
Defined.

Lemma merge_sorted_witness :
  (Reader.mBegin scenario_trimmed = 27 /\ Reader.mEnd scenario_trimmed = 101
   /\ length (Reader.mData scenario_trimmed) = 106%nat)
  /\ Forall2 snapshot_holds [scenario_trimmed; snapshot_for stream_b]
       [stream_a; stream_b]
  /\ Forall stream_sorted [stream_a; stream_b]
  /\ exists l : list (nat * record),
       MergerFifo.merge_snapshots [scenario_trimmed; snapshot_for stream_b] (Some [])
       = Done (Some ([] ++ encode_merged l))
       /\ l ≡ₚ tagged O [stream_a; stream_b]
       /\ merged_sorted l.
Proof.
  assert (H1 : Forall2 snapshot_holds [scenario_trimmed; snapshot_for stream_b]
                 [stream_a; stream_b]).
  { constructor; [exact scenario_trimmed_holds|].
    constructor; [apply snapshot_for_holds; by_decide|constructor]. }
  assert (H2 : Forall stream_sorted [stream_a; stream_b]).
  { unfold stream_sorted, stream_a, stream_b.
    repeat constructor; unfold timespec_le; simpl; lia. }
  split; [repeat split; vm_compute; reflexivity|].
  split; [exact H1|]. split; [exact H2|].
  destruct (merge_sorted [scenario_trimmed; snapshot_for stream_b]
              [stream_a; stream_b] [] H1 H2) as (l & Hm & Hp & Hs & _).
  - simpl. lia.
  - exists l. split; [exact Hm|]. split; [exact Hp|exact Hs].
Defined.

Lemma copyWithAuthor_tags_witness :
  record_ok late_record
  /\ exists e,
       AbstractEntry.buildEntry (encode_record late_record) 0 = Some e
       /\ AbstractEntry.author (encode_record late_record) e = -1
       /\ AbstractEntry.copyWithAuthor (encode_record late_record) e [] 3
          = Done (Z.of_nat (length (encode_record late_record)),
                  encode_all (authored 3 late_record)).
Proof.
  assert (H : record_ok late_record) by by_decide.
  split; [exact H|].
  destruct (copyWithAuthor_tags [] [] [] late_record 3 H) as (e & Hb & Ha & Hc & _).
  - lia.
  - exists e. rewrite !app_nil_r in Hb, Ha, Hc.
    split; [exact Hb|]. split; [exact Ha|exact Hc].
Defined.

Lemma log_entry_emits_frame_witness :
  exists w',
    Writer.log_entry scenario_writer
      (Entry.Build EVENT_INTEGER (Some (le_bytes 4 42)) 4) true = Done w'
    /\ Writer.written w' = [] ++ [EVENT_INTEGER; 4] ++ le_bytes 4 42 ++ [4]
    /\ EntryIterator.hasConsistentLength (Writer.written w') 0 = true.
Proof.
  destruct (log_entry_emits_frame scenario_writer
              (Entry.Build EVENT_INTEGER (Some (le_bytes 4 42)) 4) [])
    as (w' & H1 & H2 & _ & H4).
  - reflexivity.
  - reflexivity.
  - by_decide.
  - simpl. unfold kMaxLength. lia.
  - simpl. lia.
  - by_decide.
  - exists w'. split; [exact H1|]. split; [exact H2|exact H4].
Defined.

Lemma iterator_round_trip_witness :
  Forall frame_ok [Frame EVENT_INTEGER (le_bytes 4 42); Frame EVENT_END_FMT []]
  /\ EntryIterator.backward 2
       (encode_all [Frame EVENT_INTEGER (le_bytes 4 42); Frame EVENT_END_FMT []]) 10
     = rev (EntryIterator.forward 2
              (encode_all [Frame EVENT_INTEGER (le_bytes 4 42); Frame EVENT_END_FMT []])
              0).
Proof.
  assert (H : Forall frame_ok
                [Frame EVENT_INTEGER (le_bytes 4 42); Frame EVENT_END_FMT []])
    by by_decide.
  split; [exact H|].
  destruct (iterator_round_trip [] []
              [Frame EVENT_INTEGER (le_bytes 4 42); Frame EVENT_END_FMT []] H)
    as (_ & _ & _ & H4).
  rewrite app_nil_r in H4. exact H4.
Defined.

Lemma log_invalid_dropped_witness :
  Writer.log_event scenario_writer EVENT_RESERVED (Some [1; 2]) 2
  = Done scenario_writer
  /\ Writer.log_entry scenario_writer (Entry.Build EVENT_RESERVED (Some [1; 2]) 2) false
     = Done scenario_writer
  /\ Writer.log_string scenario_writer None
     = (if Writer.mEnabled scenario_writer then Fatal else Done scenario_writer).
Proof.
  apply (log_invalid_dropped scenario_writer EVENT_RESERVED (Some [1; 2]) 2).
  left. reflexivity.
Defined.

Lemma author_sentinel_witness :
  FormatEntry.author (encode_all (authored 3 late_record)) 0 = 3
  /\ FormatEntry.author (encode_record late_record) 0 = -1.
Proof.
  destruct (author_sentinel [] []) as [HF _]. split.
  - destruct (HF (Frame EVENT_START_FMT (bytes_of_string "late"))
                (Frame EVENT_TIMESTAMP (timespec_bytes (Timespec 2 0)))
                (Frame EVENT_HASH (le_bytes 8 1))
                (Frame EVENT_AUTHOR (le_bytes 4 3))
                [Frame EVENT_END_FMT []]) as [_ H].
    rewrite app_nil_r in H. apply H; [reflexivity|simpl; lia].
  - destruct (HF (Frame EVENT_START_FMT (bytes_of_string "late"))
                (Frame EVENT_TIMESTAMP (timespec_bytes (Timespec 2 0)))
                (Frame EVENT_HASH (le_bytes 8 1))
                (Frame EVENT_END_FMT [])
                []) as [H _].
    rewrite app_nil_r in H. apply H. discriminate.
Defined.

(** [log(string)] with a null string is fatal on an enabled writer. *)
Lemma log_null_string_counterexample :
  Writer.isEnabled scenario_writer = true
  /\ Writer.log_string scenario_writer None = Fatal
  /\ ~ exists w', Writer.log_string scenario_writer None = Done w'.
Proof.
  split; [reflexivity|]. split; [reflexivity|]. by intros [w' H].
Qed.

(** A snapshot of whole records whose second record carries the earlier
    timestamp is merged in snapshot order: the timestamps of the merged
    FIFO decrease. *)
Lemma merge_unsorted_counterexample :
  (exists w, unsorted_log = Done w
             /\ (Reader.getSnapshot
                   (Some (Reader.MkObtained (Writer.written w) [] 0))).1
                = snapshot_for stream_unsorted)
  /\ snapshot_holds (snapshot_for stream_unsorted) stream_unsorted
  /\ (exists out,
        MergerFifo.merge_snapshots [snapshot_for stream_unsorted] (Some [])
        = Done (Some out)
        /\ out = encode_merged [(O, late_record); (O, early_record)]
        /\ AbstractEntry.buildEntry out 0 = Some (AbstractEntry.FormatEntry 0)
        /\ AbstractEntry.timestamp out (AbstractEntry.FormatEntry 0) = Timespec 2 0
        /\ AbstractEntry.buildEntry out 47 = Some (AbstractEntry.FormatEntry 47)
        /\ AbstractEntry.timestamp out (AbstractEntry.FormatEntry 47) = Timespec 1 0)
  /\ ~ timespec_le (Timespec 2 0) (Timespec 1 0)
  /\ ~ merged_sorted [(O, late_record); (O, early_record)].
Proof.
  split.
  { exists (Writer.set_fifo scenario_writer (encode_records stream_unsorted)).
    split; vm_compute; reflexivity. }
  split; [apply snapshot_for_holds; by_decide|].
  split.
  { exists (encode_merged [(O, late_record); (O, early_record)]).
    repeat split; vm_compute; reflexivity. }
  split.
  - unfold timespec_le. simpl. lia.
  - intros H. apply StronglySorted_inv in H as [_ H].
    apply Forall_cons in H as [[H _] _].
    unfold timespec_le in H. simpl in H. lia.
Qed.

(** * Further properties of the writer *)

(** A logging call on a disabled writer returns and leaves it as it is. *)
Lemma run_op_disabled (float_of_double : Z -> Z) (w : Writer.t) (op : writer_op) :
  Writer.mEnabled w = false -> (forall b, op <> OpSetEnabled b) ->
  run_op float_of_double w op = Done w.
Proof.
  intros Hw Hop. destruct op; cbn [run_op];
    unfold Writer.log_string, Writer.logTimestamp, Writer.logTimestamp_ts,
      Writer.logInteger, Writer.logFloat, Writer.logPID, Writer.logStart,
      Writer.logEnd, Writer.logHash, Writer.logHistTS, Writer.logHistFlush,
      Writer.logFormat; rewrite ?Hw; try reflexivity.
  by destruct (Hop enabled).
Qed.

(** While a writer is disabled, no sequence of logging calls writes, aborts
    or is undefined, whatever the arguments: null strings, a null format
    and arguments that do not match the format included. *)
Theorem disabled_writer_ignores (float_of_double : Z -> Z) (w : Writer.t)
    (ops : list writer_op) :
  Writer.mEnabled w = false ->
  Forall (fun op => forall b, op <> OpSetEnabled b) ops ->
  run_ops float_of_double w ops = Done w.
Proof.
  intros Hw Hops. induction Hops as [|op ops Hop _ IH]; [done|].
  cbn [run_ops]. rewrite (run_op_disabled float_of_double w op Hw Hop).
  exact IH.
Qed.

Lemma disabled_writer_ignores_witness :
  run_ops (fun d => d) Writer.Writer_default
    [OpLogString None; OpLogStart None; OpLogFormat None None 0 [VaInt 1]; OpLogPID]
  = Done Writer.Writer_default.
Proof.
  apply (disabled_writer_ignores (fun d => d) Writer.Writer_default).
  - reflexivity.
  - repeat constructor; discriminate.
Defined.

(** ** Frames of the grammar are well formed *)

Lemma string_payload_ok (s : list Z) :
  bytes s ->
  bytes (string_payload s) /\ Z.of_nat (length (string_payload s)) <= kMaxLength.
Proof.
  intros Hs. unfold string_payload. split.
  - by apply Forall_take.
  - rewrite length_take. unfold kMaxLength. lia.
Qed.

Lemma le_bytes_frame_ok (ev : Z) (n : nat) (v : Z) :
  is_byte ev -> (n <= 255)%nat -> frame_ok (Frame ev (le_bytes n v)).
Proof.
  intros He Hn. split; [done|]. split; [apply le_bytes_bytes|].
  cbn [fpayload]. rewrite le_bytes_length. unfold kMaxLength. lia.
Qed.

Lemma timespec_frame_ok (ev : Z) (ts : timespec) :
  is_byte ev -> frame_ok (Frame ev (timespec_bytes ts)).
Proof.
  intros He. split; [done|]. split; [apply timespec_bytes_bytes|].
  cbn [fpayload]. rewrite timespec_bytes_length. done.
Qed.

Section FormatFrames.
Variable float_of_double : Z -> Z.
Variable pidTag : list Z.
Hypothesis pidTag_bytes : bytes pidTag.
Hypothesis pidTag_length : Z.of_nat (length pidTag) <= kMaxLength.

(** The argument frames are frames of the argument types, well formed. *)
Lemma arg_frames_ok (specs : list Z) :
  forall (args : list va_arg) (frames : list frame),
    Forall va_arg_ok args ->
    arg_frames float_of_double pidTag specs args = Some frames ->
    Forall (fun f => frame_ok f
                     /\ ftype f ∈ [EVENT_STRING; EVENT_TIMESTAMP; EVENT_INTEGER;
                                   EVENT_FLOAT; EVENT_PID]) frames.
Proof.
  induction specs as [|c specs IH]; intros args frames Hargs H.
  { injection H as <-. constructor. }
  cbn [arg_frames] in H.
  destruct (c =? chr "s").
  { destruct args as [|[[s|]| | |] args]; try discriminate.
    destruct (arg_frames _ _ specs args) as [fr|] eqn:E; [|discriminate].
    injection H as <-. apply Forall_cons in Hargs as [Hs Hargs].
    constructor; [|by eapply IH].
    split; [|set_solver]. destruct (string_payload_ok s Hs). by split. }
  destruct (c =? chr "t").
  { destruct args as [|[| ts | |] args]; try discriminate.
    destruct (arg_frames _ _ specs args) as [fr|] eqn:E; [|discriminate].
    injection H as <-. apply Forall_cons in Hargs as [Hs Hargs].
    constructor; [|by eapply IH].
    split; [by apply (timespec_frame_ok EVENT_TIMESTAMP ts)|set_solver]. }
  destruct (c =? chr "d").
  { destruct args as [|[| | i |] args]; try discriminate.
    destruct (arg_frames _ _ specs args) as [fr|] eqn:E; [|discriminate].
    injection H as <-. apply Forall_cons in Hargs as [Hs Hargs].
    constructor; [|by eapply IH].
    split; [apply (le_bytes_frame_ok EVENT_INTEGER 4 i); [done|lia]|set_solver]. }
  destruct (c =? chr "f").
  { destruct args as [|[| | | d] args]; try discriminate.
    destruct (arg_frames _ _ specs args) as [fr|] eqn:E; [|discriminate].
    injection H as <-. apply Forall_cons in Hargs as [Hs Hargs].
    constructor; [|by eapply IH].
    split; [apply (le_bytes_frame_ok EVENT_FLOAT 4 (float_of_double d)); [done|lia]
           |set_solver]. }
  destruct (c =? chr "p").
  { destruct (arg_frames _ _ specs args) as [fr|] eqn:E; [|discriminate].
    injection H as <-. constructor; [|by eapply IH].
    split; [by split|set_solver]. }
  by eapply IH.
Qed.

(** When the grammar gives no frames (an argument is missing or of another
    type, or a string is null), the loop does not return. *)
Lemma logVFormat_loop_fails (n : nat) :
  forall (p : list Z) (args : list va_arg) (w : Writer.t) (fifo : list Z),
    (length p <= n)%nat ->
    writer_ok w fifo pidTag ->
    Forall va_arg_ok args ->
    arg_frames float_of_double pidTag (specifiers p) args = None ->
    forall w', Writer.logVFormat_loop float_of_double w p args <> Done w'.
Proof.
  induction n as [|n IH]; intros p args w fifo Hn Hw Hargs Hfr w'.
  { destruct p; simpl in Hn; [|lia]. discriminate. }
  destruct p as [|c p1]; [discriminate|]. cbn [specifiers] in Hfr.
  cbn [Writer.logVFormat_loop].
  destruct (Z.eqb_spec c 0); [discriminate|].
  destruct (Z.eqb_spec c (chr "%")); cbn [negb].
  2: { eapply IH; eauto. simpl in Hn. lia. }
  destruct p1 as [|c1 p2]; [discriminate|]. simpl in Hn.
  destruct (Z.eqb_spec c1 0) as [->|Hc1]; [discriminate|].
  cbn [arg_frames] in Hfr.
  pose proof Hw as (Hen & Hf & _).
  assert (Hnext : forall (f : frame) args',
    Forall va_arg_ok args' ->
    arg_frames float_of_double pidTag (specifiers p2) args' = None ->
    Writer.logVFormat_loop float_of_double
      (Writer.set_fifo w (fifo ++ encode f)) p2 args' <> Done w').
  { intros f args' Hargs' Hfr'. eapply IH; eauto; [lia|].
    eapply set_fifo_ok; eauto. }
  destruct (Z.eqb_spec c1 (chr "s")).
  { destruct args as [|[[s|]| | |] args']; try discriminate.
    - apply Forall_cons in Hargs as [Hs Hargs].
      rewrite (log_string_emits w fifo) by auto. cbn [obind].
      apply Hnext; [done|].
      by destruct (arg_frames _ _ (specifiers p2) args').
    - unfold Writer.log_string. rewrite Hen. discriminate. }
  destruct (Z.eqb_spec c1 (chr "t")).
  { destruct args as [|[| ts | |] args']; try discriminate.
    apply Forall_cons in Hargs as [Hs Hargs].
    rewrite (logTimestamp_ts_emits w fifo) by auto. cbn [obind].
    apply Hnext; [done|]. by destruct (arg_frames _ _ (specifiers p2) args'). }
  destruct (Z.eqb_spec c1 (chr "d")).
  { destruct args as [|[| | i |] args']; try discriminate.
    apply Forall_cons in Hargs as [Hs Hargs].
    unfold Writer.logInteger. rewrite Hen. cbn [negb].
    change sizeof_int with (Z.of_nat 4).
    rewrite (log_event_fixed w fifo _ 4) by (auto; try done; lia). cbn [obind].
    apply Hnext; [done|]. by destruct (arg_frames _ _ (specifiers p2) args'). }
  destruct (Z.eqb_spec c1 (chr "f")).
  { destruct args as [|[| | | d] args']; try discriminate.
    apply Forall_cons in Hargs as [Hs Hargs].
    unfold Writer.logFloat. rewrite Hen. cbn [negb].
    change sizeof_float with (Z.of_nat 4).
    rewrite (log_event_fixed w fifo _ 4) by (auto; try done; lia). cbn [obind].
    apply Hnext; [done|]. by destruct (arg_frames _ _ (specifiers p2) args'). }
  destruct (Z.eqb_spec c1 (chr "p")).
  { rewrite (logPID_emits w fifo pidTag) by auto. cbn [obind].
    apply Hnext; [done|]. by destruct (arg_frames _ _ (specifiers p2) args). }
  destruct (Z.eqb_spec c1 (chr "%")); eapply IH; eauto; lia.
Qed.

(** [logVFormat] for any outcome of the clock read. *)
Lemma logVFormat_frames (w : Writer.t) (fifo : list Z) (clock : option timespec)
    (fmt : list Z) (hash : Z) (args : list va_arg) :
  writer_ok w fifo pidTag -> bytes fmt -> Forall va_arg_ok args ->
  match arg_frames float_of_double pidTag (specifiers fmt) args with
  | Some frames =>
      Writer.logVFormat float_of_double w clock (Some fmt) hash args
      = Done (Writer.set_fifo w
                (fifo ++ encode_all (format_frames_clock fmt clock hash frames)))
  | None =>
      forall w', Writer.logVFormat float_of_double w clock (Some fmt) hash args
                 <> Done w'
  end.
Proof.
  intros Hw Hfmt Hargs. pose proof Hw as (Hen & Hf & _).
  unfold Writer.logVFormat. rewrite Hen. cbn [negb].
  rewrite (logStart_emits w fifo) by auto. cbn [obind].
  set (w1 := Writer.set_fifo w _).
  assert (Hw1 : writer_ok w1 _ pidTag) by (eapply set_fifo_ok; eauto).
  pose proof Hw1 as (Hen1 & Hf1 & _).
  assert (Hts : exists fifo2,
    Writer.logTimestamp w1 clock = Done (Writer.set_fifo w fifo2)
    /\ fifo2 = (fifo ++ encode (Frame EVENT_START_FMT (string_payload fmt)))
               ++ encode_all match clock with
                             | Some ts => [Frame EVENT_TIMESTAMP (timespec_bytes ts)]
                             | None => []
                             end).
  { unfold Writer.logTimestamp. rewrite Hen1. cbn [negb].
    destruct clock as [ts|].
    - eexists. split; [|reflexivity].
      rewrite (log_event_emits w1 _ _ _ _ Hen1 Hf1);
        [|done|done|by rewrite timespec_bytes_length|apply timespec_bytes_bytes].
      reflexivity.
    - eexists. split; [|reflexivity]. unfold w1.
      unfold encode_all. simpl. by rewrite app_nil_r. }
  destruct Hts as (fifo2 & -> & Hfifo2). cbn [obind].
  set (w2 := Writer.set_fifo w fifo2).
  assert (Hw2 : writer_ok w2 fifo2 pidTag) by (eapply set_fifo_ok; eauto).
  pose proof Hw2 as (Hen2 & Hf2 & _).
  unfold Writer.logHash. rewrite Hen2. cbn [negb].
  change sizeof_hash with (Z.of_nat 8).
  rewrite (log_event_fixed w2 _ _ 8 hash Hen2 Hf2); [|done|lia].
  cbn [obind]. change (default [] (Some fmt)) with fmt.
  set (w3 := Writer.set_fifo w2 _).
  assert (Hw3 : writer_ok w3 _ pidTag) by (eapply set_fifo_ok; eauto).
  destruct (arg_frames float_of_double pidTag (specifiers fmt) args)
    as [frames|] eqn:Hfr.
  - rewrite (logVFormat_loop_emits float_of_double pidTag (length fmt) fmt args
               frames w3 _ (Nat.le_refl _) Hw3 Hargs Hfr).
    cbn [obind].
    set (w4 := Writer.set_fifo w3 _).
    assert (Hw4 : writer_ok w4 _ pidTag) by (eapply set_fifo_ok; eauto).
    pose proof Hw4 as (Hen4 & Hf4 & _).
    rewrite (logEnd_emits w4 _ Hen4 Hf4).
    unfold w4, w3, w2. rewrite !set_fifo_set_fifo. do 2 f_equal.
    rewrite Hfifo2. unfold format_frames_clock.
    rewrite encode_all_cons, encode_all_app, encode_all_cons, encode_all_snoc.
    by rewrite <- !app_assoc.
  - intros w' H.
    destruct (Writer.logVFormat_loop float_of_double w3 fmt args) as [w4| |] eqn:E;
      try discriminate.
    by eapply (logVFormat_loop_fails (length fmt) fmt args w3 _ (Nat.le_refl _)
                 Hw3 Hargs Hfr).
Qed.

End FormatFrames.

(** ** What the writer keeps true *)

Lemma HistTsEntry_bytes_bytes (hash : Z) (ts : timespec) :
  bytes (Writer.HistTsEntry_bytes hash ts).
Proof. apply Forall_app. split; [apply le_bytes_bytes|apply timespec_bytes_bytes]. Qed.

Lemma logHist_emits (w : Writer.t) (fifo : list Z) (ev hash : Z) (ts : timespec) :
  Writer.mEnabled w = true ->
  Writer.mFifoWriter w = Some fifo ->
  EVENT_RESERVED < ev < EVENT_UPPER_BOUND ->
  Writer.log_event w ev (Some (Writer.HistTsEntry_bytes hash ts)) sizeof_HistTsEntry
  = Done (Writer.set_fifo w
            (fifo ++ encode (Frame ev (Writer.HistTsEntry_bytes hash ts)))).
Proof.
  intros Hen Hf Hev.
  rewrite (log_event_emits w fifo)
    by (auto; try done; try (by rewrite HistTsEntry_bytes_length);
        try apply HistTsEntry_bytes_bytes).
  rewrite take_ge; [done|]. by rewrite HistTsEntry_bytes_length.
Qed.

Lemma Hist_frame_ok (ev hash : Z) (ts : timespec) :
  is_byte ev -> frame_ok (Frame ev (Writer.HistTsEntry_bytes hash ts)).
Proof.
  intros He. split; [done|]. split; [apply HistTsEntry_bytes_bytes|].
  cbn [fpayload]. by rewrite HistTsEntry_bytes_length.
Qed.

Lemma format_frames_clock_ok (float_of_double : Z -> Z) (pidTag fmt : list Z)
    (clock : option timespec) (hash : Z) (args : list va_arg) (frames : list frame) :
  bytes pidTag -> Z.of_nat (length pidTag) <= kMaxLength ->
  bytes fmt -> Forall va_arg_ok args ->
  arg_frames float_of_double pidTag (specifiers fmt) args = Some frames ->
  Forall frame_ok (format_frames_clock fmt clock hash frames).
Proof.
  intros Ht Hl Hfmt Hargs Hfr. unfold format_frames_clock.
  constructor.
  { destruct (string_payload_ok fmt Hfmt). by split. }
  apply Forall_app. split.
  { destruct clock as [ts|]; [|constructor].
    constructor; [by apply (timespec_frame_ok EVENT_TIMESTAMP ts)|constructor]. }
  constructor; [apply (le_bytes_frame_ok EVENT_HASH 8 hash); [done|lia]|].
  apply Forall_app. split.
  - pose proof (arg_frames_ok float_of_double pidTag Ht Hl (specifiers fmt) args
                  frames Hargs Hfr) as H.
    eapply Forall_impl; [exact H|]. by intros f [? _].
  - constructor; [|constructor]. split; [done|]. split; [constructor|done].
Qed.

Lemma writer_inv_ok (w : Writer.t) :
  writer_inv w -> Writer.mEnabled w = true ->
  exists (fs : list frame) (pidTag : list Z),
    writer_ok w (encode_all fs) pidTag /\ Forall frame_ok fs
    /\ Writer.mShared w = true.
Proof.
  intros (H1 & _ & H3) Hen. specialize (H1 Hen).
  destruct (H3 H1) as (fs & tag & Hf & Hfs & Ht & Hs & Hl & Hb).
  exists fs, tag. by repeat split.
Qed.

Lemma writer_inv_set_fifo (w : Writer.t) (fs : list frame) :
  writer_inv w -> Writer.mShared w = true -> Forall frame_ok fs ->
  writer_inv (Writer.set_fifo w (encode_all fs)).
Proof.
  intros (H1 & H2 & H3) Hsh Hfs. split; [exact H1|]. split.
  - cbn. intros E. congruence.
  - intros _. destruct (H3 Hsh) as (_ & tag & _ & _ & Ht & Hs & Hl & Hb).
    exists fs, tag. by repeat split.
Qed.

Section WriterInvariant.
Variable float_of_double : Z -> Z.

(** One call: the invariant is kept, the shared memory stays the same and
    the FIFO grows by whole well-formed frames. *)
Lemma run_op_inv (w w' : Writer.t) (op : writer_op) :
  writer_inv w -> op_ok op ->
  run_op float_of_double w op = Done w' ->
  writer_inv w'
  /\ Writer.mShared w' = Writer.mShared w
  /\ exists fs', Forall frame_ok fs'
                 /\ Writer.written w' = Writer.written w ++ encode_all fs'.
Proof.
  intros Hinv Hop Hrun.
  assert (Hsame : w' = w -> writer_inv w' /\ Writer.mShared w' = Writer.mShared w
                  /\ exists fs', Forall frame_ok fs'
                       /\ Writer.written w' = Writer.written w ++ encode_all fs').
  { intros ->. split; [done|]. split; [done|]. exists []. split; [constructor|].
    unfold encode_all. simpl. by rewrite app_nil_r. }
  assert (Hcase : (exists b, op = OpSetEnabled b) \/ forall b, op <> OpSetEnabled b).
  { destruct op; try (by right); left; by eexists. }
  destruct Hcase as [[b ->]|Hlog].
  { cbn in Hrun. injection Hrun as <-. destruct Hinv as (H1 & H2 & H3).
    split; [|split; [done|]].
    - split; [|split; [exact H2|exact H3]]. cbn.
      intros E. by apply andb_true_iff in E as [_ E].
    - exists []. split; [constructor|].
      unfold Writer.written, encode_all. simpl. by rewrite app_nil_r. }
  destruct (Writer.mEnabled w) eqn:Hen.
  2: { apply Hsame.
       pose proof (run_op_disabled float_of_double w op Hen Hlog) as H.
       rewrite Hrun in H. by injection H as ->. }
  destruct (writer_inv_ok w Hinv Hen) as (fs & tag & Hok & Hfs & Hsh).
  pose proof Hok as (_ & Hf & Htag & Hsz & Hlen & Hbytes).
  assert (Hone : forall f, frame_ok f ->
            w' = Writer.set_fifo w (encode_all fs ++ encode f) ->
            writer_inv w' /\ Writer.mShared w' = Writer.mShared w
            /\ exists fs', Forall frame_ok fs'
                 /\ Writer.written w' = Writer.written w ++ encode_all fs').
  { intros f Hfok ->. rewrite <- encode_all_snoc. split; [|split; [done|]].
    - apply writer_inv_set_fifo; [done|done|].
      apply Forall_app. split; [done|by constructor].
    - exists [f]. split; [by constructor|].
      unfold Writer.written. rewrite Hf. apply encode_all_app. }
  destruct op as [[s|]|[ts|]|ts|x|x| |[fmt|]| |hash|[ts|] hash|[ts|] hash
                  |clock [fmt|] hash args|b]; cbn [run_op op_ok] in Hrun, Hop.
  - rewrite (log_string_emits w _ s Hen Hf Hop) in Hrun. injection Hrun as <-.
    eapply Hone; [|reflexivity]. destruct (string_payload_ok s Hop). by split.
  - unfold Writer.log_string in Hrun. rewrite Hen in Hrun. discriminate.
  - unfold Writer.logTimestamp in Hrun. rewrite Hen in Hrun. cbn [negb] in Hrun.
    rewrite (log_event_emits w _ _ _ _ Hen Hf) in Hrun;
      [|done|done|by rewrite timespec_bytes_length|apply timespec_bytes_bytes].
    injection Hrun as <-. eapply Hone; [|reflexivity].
    change (take _ (timespec_bytes ts)) with (timespec_bytes ts).
    by apply timespec_frame_ok.
  - unfold Writer.logTimestamp in Hrun. rewrite Hen in Hrun.
    injection Hrun as <-. by apply Hsame.
  - rewrite (logTimestamp_ts_emits w _ ts Hen Hf) in Hrun. injection Hrun as <-.
    eapply Hone; [|reflexivity]. by apply timespec_frame_ok.
  - unfold Writer.logInteger in Hrun. rewrite Hen in Hrun. cbn [negb] in Hrun.
    change sizeof_int with (Z.of_nat 4) in Hrun.
    rewrite (log_event_fixed w _ _ 4 x Hen Hf) in Hrun by (try done; lia).
    injection Hrun as <-. eapply Hone; [|reflexivity].
    apply (le_bytes_frame_ok EVENT_INTEGER 4 x); [done|lia].
  - unfold Writer.logFloat in Hrun. rewrite Hen in Hrun. cbn [negb] in Hrun.
    change sizeof_float with (Z.of_nat 4) in Hrun.
    rewrite (log_event_fixed w _ _ 4 x Hen Hf) in Hrun by (try done; lia).
    injection Hrun as <-. eapply Hone; [|reflexivity].
    apply (le_bytes_frame_ok EVENT_FLOAT 4 x); [done|lia].
  - rewrite (logPID_emits w _ tag Hok) in Hrun. injection Hrun as <-.
    eapply Hone; [|reflexivity]. by split.
  - rewrite (logStart_emits w _ fmt Hen Hf Hop) in Hrun. injection Hrun as <-.
    eapply Hone; [|reflexivity]. destruct (string_payload_ok fmt Hop). by split.
  - unfold Writer.logStart in Hrun. rewrite Hen in Hrun. discriminate.
  - rewrite (logEnd_emits w _ Hen Hf) in Hrun. injection Hrun as <-.
    eapply Hone; [|reflexivity]. split; [done|]. split; [constructor|done].
  - unfold Writer.logHash in Hrun. rewrite Hen in Hrun. cbn [negb] in Hrun.
    change sizeof_hash with (Z.of_nat 8) in Hrun.
    rewrite (log_event_fixed w _ _ 8 hash Hen Hf) in Hrun by (try done; lia).
    injection Hrun as <-. eapply Hone; [|reflexivity].
    apply (le_bytes_frame_ok EVENT_HASH 8 hash); [done|lia].
  - unfold Writer.logHistTS in Hrun. rewrite Hen in Hrun. cbn [negb] in Hrun.
    rewrite (logHist_emits w _ _ hash ts Hen Hf) in Hrun by done.
    injection Hrun as <-. eapply Hone; [|reflexivity]. by apply Hist_frame_ok.
  - unfold Writer.logHistTS in Hrun. rewrite Hen in Hrun.
    injection Hrun as <-. by apply Hsame.
  - unfold Writer.logHistFlush in Hrun. rewrite Hen in Hrun. cbn [negb] in Hrun.
    rewrite (logHist_emits w _ _ hash ts Hen Hf) in Hrun by done.
    injection Hrun as <-. eapply Hone; [|reflexivity]. by apply Hist_frame_ok.
  - unfold Writer.logHistFlush in Hrun. rewrite Hen in Hrun.
    injection Hrun as <-. by apply Hsame.
  - destruct Hop as [Hfmt Hargs].
    unfold Writer.logFormat in Hrun. rewrite Hen in Hrun. cbn [negb] in Hrun.
    pose proof (logVFormat_frames float_of_double tag w _ clock fmt hash args
                  Hok Hfmt Hargs) as H.
    destruct (arg_frames float_of_double tag (specifiers fmt) args)
      as [frames|] eqn:Hfr; [|by destruct (H w')].
    rewrite H in Hrun. injection Hrun as <-.
    rewrite <- encode_all_app. split; [|split; [done|]].
    + apply writer_inv_set_fifo; [done|done|].
      apply Forall_app. split; [done|]. by eapply format_frames_clock_ok.
    + exists (format_frames_clock fmt clock hash frames).
      split; [by eapply format_frames_clock_ok|].
      unfold Writer.written. rewrite Hf. apply encode_all_app.
  - unfold Writer.logFormat, Writer.logVFormat, Writer.logStart in Hrun.
    rewrite Hen in Hrun. discriminate.
  - by destruct (Hlog b).
Qed.

Lemma constructed_inv (w : Writer.t) : constructed w -> writer_inv w.
Proof.
  intros [|shared pid procName Hb Hl].
  - split; [done|]. split; [done|]. intros [=].
  - split; [done|]. split; [cbn; by intros ->|]. cbn. intros ->.
    pose proof (strlen_bounds procName) as Hs.
    exists [], (le_bytes 4 pid ++ take (Z.to_nat (strlen procName)) procName).
    split; [done|]. split; [constructor|]. split; [done|].
    rewrite length_app, le_bytes_length, length_take.
    split; [unfold sizeof_pid_t; lia|]. split; [unfold kMaxLength; lia|].
    apply Forall_app. split; [apply le_bytes_bytes|by apply Forall_take].
Qed.

Lemma run_ops_inv (ops : list writer_op) :
  forall w w' : Writer.t,
    writer_inv w -> Forall op_ok ops ->
    run_ops float_of_double w ops = Done w' ->
    writer_inv w'
    /\ Writer.mShared w' = Writer.mShared w
    /\ exists fs', Forall frame_ok fs'
                   /\ Writer.written w' = Writer.written w ++ encode_all fs'.
Proof.
  induction ops as [|op ops IH]; intros w w' Hinv Hops Hrun.
  - injection Hrun as <-. split; [done|]. split; [done|].
    exists []. split; [constructor|]. unfold encode_all. simpl. by rewrite app_nil_r.
  - apply Forall_cons in Hops as [Hop Hops]. cbn [run_ops] in Hrun.
    destruct (run_op float_of_double w op) as [w1| |] eqn:E; try discriminate.
    cbn [obind] in Hrun.
    destruct (run_op_inv _ _ _ Hinv Hop E) as (Hinv1 & Hsh1 & fs1 & Hfs1 & Hw1).
    destruct (IH _ _ Hinv1 Hops Hrun) as (Hinv' & Hsh' & fs2 & Hfs2 & Hw2).
    split; [done|]. split; [congruence|].
    exists (fs1 ++ fs2). split; [by apply Forall_app|].
    by rewrite Hw2, Hw1, encode_all_app, app_assoc.
Qed.

(** Whatever calls are made on a writer, as long as they return, the bytes
    it has passed to its FIFO writer since it was constructed are, in the
    order of the writes, a sequence of whole frames, each with a payload of
    at most kMaxLength bytes: no call passes a partial or malformed frame,
    and forward iteration over these bytes visits the frame boundaries.
    This is a statement about what the writer writes; what a reader still
    finds of it once the FIFO, which has a fixed size, has overrun is not
    part of it. *)
Theorem writer_writes_whole_frames (w0 w : Writer.t) (ops : list writer_op) :
  constructed w0 -> Forall op_ok ops ->
  run_ops float_of_double w0 ops = Done w ->
  exists fs : list frame,
    Writer.written w = encode_all fs /\ Forall frame_ok fs
    /\ EntryIterator.forward (length fs) (Writer.written w) 0 = boundaries 0 fs.
Proof.
  intros Hc Hops Hrun.
  destruct (run_ops_inv ops w0 w (constructed_inv _ Hc) Hops Hrun)
    as (_ & _ & fs & Hfs & Hw).
  assert (Hw0 : Writer.written w0 = []).
  { destruct Hc as [|[] pid procName]; reflexivity. }
  rewrite Hw0 in Hw. cbn [app] in Hw.
  exists fs. split; [done|]. split; [done|]. rewrite Hw.
  pose proof (forward_boundaries fs [] []) as H. by rewrite app_nil_r in H.
Qed.

(** A writer constructed without shared memory can never be enabled and
    never writes, whatever is called on it. *)
Theorem writer_without_memory_stays_disabled (w0 w : Writer.t)
    (ops : list writer_op) :
  constructed w0 -> Writer.mShared w0 = false -> Forall op_ok ops ->
  run_ops float_of_double w0 ops = Done w ->
  Writer.isEnabled w = false /\ Writer.written w = []
  /\ forall b, (Writer.setEnabled w b).1 = false
               /\ Writer.isEnabled (Writer.setEnabled w b).2 = false.
Proof.
  intros Hc Hsh Hops Hrun.
  destruct (run_ops_inv ops w0 w (constructed_inv _ Hc) Hops Hrun)
    as ((H1 & H2 & _) & Hsh' & _).
  rewrite Hsh in Hsh'.
  assert (Hen : Writer.mEnabled w = false).
  { destruct (Writer.mEnabled w); [|done]. rewrite H1 in Hsh'; done. }
  split; [exact Hen|]. split.
  - unfold Writer.written. by rewrite (H2 Hsh').
  - intros b. cbn. rewrite Hsh'. split; [done|]. apply andb_false_r.
Qed.

End WriterInvariant.

(** ** What the writer writes, the entries read back *)

Lemma arg_frames_arg_ok (float_of_double : Z -> Z) (pidTag : list Z)
    (specs : list Z) (args : list va_arg) (frames : list frame) :
  bytes pidTag -> Z.of_nat (length pidTag) <= kMaxLength ->
  Forall va_arg_ok args ->
  arg_frames float_of_double pidTag specs args = Some frames ->
  Forall arg_ok frames.
Proof.
  intros Ht Hl Hargs Hfr.
  pose proof (arg_frames_ok float_of_double pidTag Ht Hl specs args frames
                Hargs Hfr) as H.
  eapply Forall_impl; [exact H|]. intros f [Hf Hty]. split; [done|].
  split; intros E; rewrite E in Hty; vm_compute in Hty;
    repeat (apply elem_of_cons in Hty as [Hty|Hty]; [discriminate|]);
    by apply elem_of_nil in Hty.
Qed.

(** With a successful clock read, [logFormat] appends one well-formed
    record, and the accessors of [FormatEntry] at its start give back the
    clock's timestamp and the hash, and no author. *)
Theorem logFormat_read_back (float_of_double : Z -> Z) (w : Writer.t)
    (fifo pidTag : list Z) (ts : timespec) (fmt : list Z) (hash : Z)
    (args : list va_arg) (frames : list frame) :
  writer_ok w fifo pidTag -> bytes fmt -> Forall va_arg_ok args ->
  timespec_ok ts -> 0 <= hash < 2 ^ 64 ->
  arg_frames float_of_double pidTag (specifiers fmt) args = Some frames ->
  let r := RFormat (string_payload fmt) ts hash frames in
  let p := Z.of_nat (length fifo) in
  exists w',
    Writer.logFormat float_of_double w (Some ts) (Some fmt) hash args = Done w'
    /\ Writer.written w' = fifo ++ encode_record r
    /\ record_ok r
    /\ AbstractEntry.buildEntry (Writer.written w') p
       = Some (AbstractEntry.FormatEntry p)
    /\ FormatEntry.timestamp (Writer.written w') p = ts
    /\ FormatEntry.hash (Writer.written w') p = hash
    /\ FormatEntry.author (Writer.written w') p = -1.
Proof.
  intros Hw Hfmt Hargs Hts Hh Hfr r p.
  pose proof Hw as (Hen & Hf & _ & _ & Hl & Hb).
  pose proof (logVFormat_frames float_of_double pidTag w fifo (Some ts)
                fmt hash args Hw Hfmt Hargs) as H.
  rewrite Hfr in H.
  assert (Hok : record_ok r).
  { destruct (string_payload_ok fmt Hfmt) as [H1 H2].
    split; [done|]. split; [done|]. split; [done|]. split; [done|].
    exact (arg_frames_arg_ok float_of_double pidTag _ args frames Hb Hl Hargs Hfr). }
  exists (Writer.set_fifo w (fifo ++ encode_record r)).
  split.
  { unfold Writer.logFormat. rewrite Hen. cbn [negb]. exact H. }
  split; [reflexivity|]. split; [exact Hok|].
  change (Writer.written (Writer.set_fifo w (fifo ++ encode_record r)))
    with (fifo ++ encode_record r).
  pose proof (FormatEntry_timestamp fifo [] (string_payload fmt) ts hash frames Hts)
    as E1.
  pose proof (FormatEntry_hash fifo [] (string_payload fmt) ts hash frames Hh) as E2.
  destruct (record_author fifo [] r Hok) as (e & Hb' & Ha & ->).
  rewrite app_nil_r in E1, E2, Hb', Ha. by repeat split.
Qed.

(** [logHistTS] and [logHistFlush] with a successful clock read append one
    histogram record, and the accessors of [HistogramEntry] give back the
    clock's timestamp and the hash, and no author. *)
Theorem logHist_read_back (w : Writer.t) (fifo pidTag : list Z) (flush : bool)
    (ts : timespec) (hash : Z) :
  writer_ok w fifo pidTag -> timespec_ok ts -> 0 <= hash < 2 ^ 64 ->
  let r := RHist flush hash ts in
  let p := Z.of_nat (length fifo) in
  exists w',
    (if flush then Writer.logHistFlush w (Some ts) hash
     else Writer.logHistTS w (Some ts) hash) = Done w'
    /\ Writer.written w' = fifo ++ encode_record r
    /\ record_ok r
    /\ AbstractEntry.buildEntry (Writer.written w') p
       = Some (AbstractEntry.HistogramEntry p)
    /\ HistogramEntry.timestamp (Writer.written w') p = ts
    /\ HistogramEntry.hash (Writer.written w') p = hash
    /\ HistogramEntry.author (Writer.written w') p = -1.
Proof.
  intros Hw Hts Hh r p. pose proof Hw as (Hen & Hf & _).
  assert (Hok : record_ok r) by done.
  set (f := Frame (hist_type flush) (Writer.HistTsEntry_bytes hash ts)).
  assert (Hr : encode_record r = encode f).
  { unfold encode_record, encode_all. simpl. by rewrite ?app_nil_r. }
  exists (Writer.set_fifo w (fifo ++ encode_record r)).
  split.
  { rewrite Hr. destruct flush.
    - unfold Writer.logHistFlush. rewrite Hen. cbn [negb].
      by apply logHist_emits.
    - unfold Writer.logHistTS. rewrite Hen. cbn [negb].
      by apply logHist_emits. }
  split; [reflexivity|]. split; [exact Hok|].
  change (Writer.written (Writer.set_fifo w (fifo ++ encode_record r)))
    with (fifo ++ encode_record r).
  destruct (record_author fifo [] r Hok) as (e & Hb' & Ha & ->).
  rewrite app_nil_r in Hb', Ha. split; [exact Hb'|].
  split; [|split; [|exact Ha]].
  - rewrite Hr.
    pose proof (HistogramEntry_timestamp fifo [] f hash ts [] Hts) as E.
    rewrite !app_nil_r in E. by apply E.
  - rewrite Hr. unfold HistogramEntry.hash.
    pose proof (frame_at_intro fifo [] f) as Hat. rewrite app_nil_r in Hat.
    eapply hash_read_bytes; [exact Hat|exact Hh|].
    unfold f, Writer.HistTsEntry_bytes. cbn [fpayload].
    apply take_app_length'. by rewrite le_bytes_length.
Qed.

(** When the clock read fails, [logFormat] still emits the record, but
    without its TIMESTAMP frame: the frame after START_FMT is the HASH. *)
Theorem logFormat_clock_failure (float_of_double : Z -> Z) (w : Writer.t)
    (fifo pidTag : list Z) (fmt : list Z) (hash : Z)
    (args : list va_arg) (frames : list frame) :
  writer_ok w fifo pidTag -> bytes fmt -> Forall va_arg_ok args ->
  arg_frames float_of_double pidTag (specifiers fmt) args = Some frames ->
  exists w',
    Writer.logFormat float_of_double w None (Some fmt) hash args = Done w'
    /\ Writer.written w'
       = fifo ++ encode_all (Frame EVENT_START_FMT (string_payload fmt)
                             :: Frame EVENT_HASH (le_bytes 8 hash)
                             :: frames ++ [Frame EVENT_END_FMT []])
    /\ EntryIterator.type (Writer.written w')
         (EntryIterator.next (Writer.written w') (Z.of_nat (length fifo)))
       = EVENT_HASH.
Proof.
  intros Hw Hfmt Hargs Hfr.
  pose proof Hw as (Hen & Hf & _ & _ & Hl & Hb).
  pose proof (logVFormat_frames float_of_double pidTag w fifo None
                fmt hash args Hw Hfmt Hargs) as H.
  rewrite Hfr in H.
  eexists. split.
  { unfold Writer.logFormat. rewrite Hen. cbn [negb]. exact H. }
  split; [reflexivity|].
  change (Writer.written (Writer.set_fifo w ?x)) with x.
  unfold format_frames_clock. cbn [app].
  pose proof (frame_at_seq fifo [] [] (Frame EVENT_START_FMT (string_payload fmt))
                (Frame EVENT_HASH (le_bytes 8 hash)
                 :: frames ++ [Frame EVENT_END_FMT []])) as H1.
  pose proof (frame_at_seq fifo [] [Frame EVENT_START_FMT (string_payload fmt)]
                (Frame EVENT_HASH (le_bytes 8 hash))
                (frames ++ [Frame EVENT_END_FMT []])) as H2.
  cbn [app] in H1, H2. rewrite app_nil_r in H1, H2.
  change (encode_all []) with (@nil Z) in H1. cbn [length] in H1.
  rewrite Z.add_0_r in H1.
  rewrite (at_next _ _ _ H1).
  replace (encode_all [Frame EVENT_START_FMT (string_payload fmt)])
    with (encode (Frame EVENT_START_FMT (string_payload fmt))) in H2
    by (unfold encode_all; simpl; by rewrite app_nil_r).
  exact (at_type _ _ _ H2).
Qed.

(** ** Snapshots of a FIFO that holds whole frames *)

Section SnapshotFrames.
Import Reader.

Lemma encode_all_bytes (fs : list frame) : Forall frame_ok fs -> bytes (encode_all fs).
Proof.
  induction 1 as [|f fs Hf _ IH]; [constructor|].
  rewrite encode_all_cons. apply Forall_app. split; [by apply encode_bytes|done].
Qed.

Lemma frame_starts_app (fs gs : list frame) :
  forall p : Z,
    frame_starts p (fs ++ gs)
    = frame_starts p fs ++ frame_starts (p + Z.of_nat (length (encode_all fs))) gs.
Proof.
  induction fs as [|f fs IH]; intros p.
  - cbn [app]. change (encode_all []) with (@nil Z). cbn [length].
    by rewrite Z.add_0_r.
  - cbn [app frame_starts]. rewrite IH, encode_all_cons, length_app.
    by rewrite Nat2Z.inj_add, Z.add_assoc.
Qed.

(** The byte at the start of each frame is its type. *)
Lemma starts_types (fs : list frame) :
  forall pre post : list Z,
    Forall2 (fun p f => rd (pre ++ encode_all fs ++ post) p = ftype f)
      (frame_starts (Z.of_nat (length pre)) fs) fs.
Proof.
  induction fs as [|f fs IH]; intros pre post; [constructor|].
  cbn [frame_starts]. rewrite encode_all_cons, <- app_assoc. constructor.
  - apply rd_frame_type.
  - specialize (IH (pre ++ encode f) post).
    rewrite length_app, Nat2Z.inj_add, <- app_assoc in IH. exact IH.
Qed.

Lemma of_types_none (m : list Z) (types : gset Z) (ps : list Z) (fs : list frame) :
  Forall2 (fun p f => rd m p = ftype f) ps fs ->
  Forall (fun f => ftype f ∉ types) fs ->
  of_types m types ps = [] /\ of_types m types (rev ps) = [].
Proof.
  intros H2 Hn.
  assert (H : Forall (fun p => rd m p ∉ types) ps).
  { induction H2 as [|p f ps fs Hp _ IH]; [constructor|].
    apply Forall_cons in Hn as [Hf Hn]. constructor; [by rewrite Hp|by apply IH]. }
  unfold of_types. split.
  - clear H2. induction H as [|p ps Hp _ IH]; [done|].
    rewrite filter_cons_False by done. exact IH.
  - apply Forall_rev in H. clear H2. induction H as [|p ps' Hp _ IH]; [done|].
    rewrite filter_cons_False by done. exact IH.
Qed.

Lemma back_step_frame (pre post : list Z) (f : frame) :
  back_step (pre ++ encode f ++ post) 0
    (Z.of_nat (length pre) + Z.of_nat (length (encode f)))
  = Some (Z.of_nat (length pre)).
Proof.
  apply back_step_Some. rewrite encode_length. unfold kOverhead.
  replace (Z.of_nat (length pre) + (Z.of_nat (length (fpayload f)) + 3) - 1)
    with (Z.of_nat (length pre) + Z.of_nat (length (fpayload f)) + 2) by lia.
  rewrite rd_frame_trailer.
  split; [lia|]. split; [lia|]. split; [lia|].
  rewrite rd_frame_length. lia.
Qed.

(** The backward chain over whole frames visits every frame start. *)
Lemma reachable_frames (fs : list frame) :
  forall post : list Z,
    bytes (encode_all fs ++ post) ->
    reachable (encode_all fs ++ post) 0 (Z.of_nat (length (encode_all fs)))
    = rev (frame_starts 0 fs).
Proof.
  induction fs as [|f fs IH] using rev_ind; intros post Hm.
  - done.
  - rewrite reachable_step by done.
    rewrite encode_all_snoc, <- app_assoc in Hm |- *.
    rewrite length_app, Nat2Z.inj_add, back_step_frame.
    rewrite frame_starts_app, rev_app_distr. cbn [frame_starts rev app].
    rewrite Z.add_0_l. f_equal. by apply IH.
Qed.

Lemma last_filter_rev {A} (P : A -> Prop) `{forall x, Decision (P x)} (l : list A) :
  last (filter P (rev l)) = head (filter P l).
Proof.
  induction l as [|x l IH]; [done|].
  cbn [rev]. rewrite filter_app.
  destruct (decide (P x)) as [Hx|Hx].
  - rewrite !filter_cons_True by done. rewrite filter_nil. by rewrite last_snoc.
  - rewrite !filter_cons_False by done. rewrite filter_nil. by rewrite app_nil_r.
Qed.

(** [getSnapshot] over whole frames: [skipped] holds no frame of a starting
    type, [partial] none of an ending type, and between them [body] starts
    with a frame of a starting type; what precedes [partial] ends with a
    frame of an ending type. *)
Lemma getSnapshot_frames (o : obtained) (skipped body partial : list frame) :
  iovec0 o ++ iovec1 o = encode_all (skipped ++ body ++ partial) ->
  Forall frame_ok (skipped ++ body ++ partial) ->
  Forall (fun f => ftype f ∉ startingTypes) skipped ->
  Forall (fun f => ftype f ∉ endingTypes) partial ->
  match body with
  | [] => True
  | f :: _ => ftype f ∈ startingTypes
  end ->
  match last (skipped ++ body) with
  | None => True
  | Some f => ftype f ∈ endingTypes
  end ->
  let s := (getSnapshot (Some o)).1 in
  mData s = iovec0 o ++ iovec1 o
  /\ mBegin s = Z.of_nat (length (encode_all skipped))
  /\ mEnd s = Z.of_nat (length (encode_all (skipped ++ body)))
  /\ (getSnapshot (Some o)).2 = mEnd s.
Proof.
  intros Hd Hok Hsk Hpa Hhead Hlast.
  set (data := iovec0 o ++ iovec1 o) in *.
  assert (Hm : bytes data) by (rewrite Hd; by apply encode_all_bytes).
  cbv zeta. destruct (getSnapshot (Some o)) as [s released] eqn:Hg.
  cbn [fst snd]. unfold getSnapshot in Hg.
  rewrite <- length_app in Hg. fold data in Hg.
  destruct (Z.leb_spec (Z.of_nat (length data)) 0) as [Hz|Hz].
  { assert (E : data = []) by (destruct data; [done|simpl in Hz; lia]).
    injection Hg as <- <-. cbn. rewrite E in Hd |- *.
    rewrite app_assoc, encode_all_app in Hd. symmetry in Hd.
    apply app_eq_nil in Hd as [Hd _]. rewrite Hd.
    rewrite encode_all_app in Hd. apply app_eq_nil in Hd as [-> _]. done. }
  set (F := skipped ++ body) in *.
  assert (HdF : data = encode_all F ++ encode_all partial).
  { rewrite Hd. unfold F. by rewrite app_assoc, encode_all_app. }
  rewrite Z.add_0_l, findLast_reachable in Hg.
  assert (Hchain : reachable data 0 (Z.of_nat (length data))
                   = rev (frame_starts (Z.of_nat (length (encode_all F))) partial)
                     ++ rev (frame_starts 0 F)).
  { pose proof (reachable_frames (F ++ partial) []) as H.
    rewrite app_nil_r, encode_all_app, <- HdF in H.
    rewrite H by done. by rewrite frame_starts_app, rev_app_distr, Z.add_0_l. }
  assert (Htail : of_types data endingTypes
                    (rev (frame_starts (Z.of_nat (length (encode_all F))) partial)) = []).
  { pose proof (starts_types partial (encode_all F) []) as H.
    rewrite app_nil_r, <- HdF in H.
    by destruct (of_types_none data endingTypes _ _ H Hpa). }
  assert (Hends : of_types data endingTypes (reachable data 0 (Z.of_nat (length data)))
                  = of_types data endingTypes (rev (frame_starts 0 F))).
  { rewrite Hchain. unfold of_types in *. by rewrite filter_app, Htail. }
  rewrite Hends in Hg. clear Hends Htail Hchain.
  destruct (decide (F = [])) as [HF|HF].
  { rewrite HF in Hg. cbn in Hg. injection Hg as <- <-. cbn.
    rewrite HF. unfold F in HF. apply app_eq_nil in HF as [-> _]. done. }
  destruct (exists_last HF) as (F' & l & HFl). rewrite HFl in Hlast.
  rewrite last_snoc in Hlast.
  assert (Hat : frame_at data (Z.of_nat (length (encode_all F'))) l).
  { pose proof (frame_at_seq [] (encode_all partial) F' l []) as H.
    cbn [app length] in H. rewrite Z.add_0_l, <- HFl, <- HdF in H. exact H. }
  assert (Hl : rd data (Z.of_nat (length (encode_all F'))) = ftype l).
  { rewrite <- (at_type _ _ _ Hat). unfold EntryIterator.type, offsetof_type.
    by rewrite Z.add_0_r. }
  assert (Hhd : head (of_types data endingTypes (rev (frame_starts 0 F)))
                = Some (Z.of_nat (length (encode_all F')))).
  { rewrite HFl, frame_starts_app, rev_app_distr.
    cbn [frame_starts rev app]. rewrite Z.add_0_l. unfold of_types.
    by rewrite filter_cons_True by (by rewrite Hl). }
  rewrite Hhd, (at_next _ _ _ Hat) in Hg.
  assert (He : Z.of_nat (length (encode_all F')) + Z.of_nat (length (encode l))
               = Z.of_nat (length (encode_all F))).
  { rewrite HFl, encode_all_snoc, length_app. lia. }
  rewrite He in Hg. set (e := Z.of_nat (length (encode_all F))) in *.
  assert (Hreach : reachable data 0 e = rev (frame_starts 0 F)).
  { rewrite HdF. by apply reachable_frames; rewrite <- HdF. }
  assert (Hge : 3 <= e).
  { pose proof (encode_length l). unfold kOverhead in *. lia. }
  rewrite firstStart_loop_last in Hg; [|done|].
  2: { pose proof (length_filter (fun p => rd data p ∈ startingTypes)
                     (reachable data 0 e)) as Hlen.
       pose proof (reachable_bound data 0 Hm (Z.to_nat (e - 0)) e ltac:(lia)) as Hb.
       unfold of_types. fold (reachable data 0 e) in Hb. lia. }
  assert (Hfirst : last (of_types data startingTypes (reachable data 0 e))
                   = match body with
                     | [] => None
                     | _ :: _ => Some (Z.of_nat (length (encode_all skipped)))
                     end).
  { rewrite Hreach. unfold of_types. rewrite last_filter_rev.
    unfold F. rewrite frame_starts_app, filter_app, Z.add_0_l.
    assert (Hskip : of_types data startingTypes (frame_starts 0 skipped) = []).
    { pose proof (starts_types skipped [] (encode_all (body ++ partial))) as H.
      cbn [app length] in H. rewrite <- encode_all_app, <- Hd in H.
      by destruct (of_types_none data startingTypes _ _ H Hsk). }
    unfold of_types in Hskip. rewrite Hskip. cbn [app].
    destruct body as [|f body']; [done|].
    cbn [frame_starts].
    pose proof (frame_at_seq [] [] skipped f (body' ++ partial)) as H.
    cbn [app length] in H, Hd. rewrite Z.add_0_l, app_nil_r, <- Hd in H.
    rewrite filter_cons_True; [done|].
    rewrite <- (at_type _ _ _ H) in Hhead.
    unfold EntryIterator.type, offsetof_type in Hhead.
    by rewrite Z.add_0_r in Hhead. }
  rewrite Hfirst in Hg. injection Hg as <- <-. cbn [mData mBegin mEnd].
  split; [done|]. split; [|split; [done|lia]].
  destruct body as [|f body']; [|done].
  subst e. unfold F. by rewrite app_nil_r.
Qed.

End SnapshotFrames.

(** ** Snapshots of a FIFO that holds whole records *)

Section SnapshotRecords.
Import Reader.

Lemma all_frames_app (rs1 rs2 : list record) :
  all_frames (rs1 ++ rs2) = all_frames rs1 ++ all_frames rs2.
Proof. unfold all_frames. by rewrite fmap_app, concat_app. Qed.

Lemma encode_records_frames (rs : list record) :
  encode_records rs = encode_all (all_frames rs).
Proof.
  induction rs as [|r rs IH]; [done|].
  rewrite encode_records_cons, IH. unfold all_frames. cbn [fmap list_fmap concat].
  by rewrite encode_all_app.
Qed.

Lemma rec_frames_ok (r : record) : record_ok r -> Forall frame_ok (rec_frames r).
Proof.
  destruct r as [fmt ts hash args|flush hash ts]; cbn [record_ok rec_frames].
  - intros (Hb & Hl & Hts & Hh & Hargs).
    constructor; [split; [by_decide|done]|].
    constructor; [apply timespec_frame_ok; by_decide|].
    constructor; [apply le_bytes_frame_ok; [by_decide|lia]|].
    apply Forall_app. split.
    + eapply Forall_impl; [exact Hargs|]. by intros f [Hf _].
    + constructor; [|constructor]. split; [by_decide|]. split; [constructor|].
      cbn. unfold kMaxLength. lia.
  - intros _. constructor; [|constructor].
    apply Hist_frame_ok. destruct flush; by_decide.
Qed.

Lemma all_frames_ok (rs : list record) :
  Forall record_ok rs -> Forall frame_ok (all_frames rs).
Proof.
  induction 1 as [|r rs Hr _ IH]; [constructor|].
  unfold all_frames. cbn [fmap list_fmap concat].
  apply Forall_app. split; [by apply rec_frames_ok|exact IH].
Qed.

(** The last frame of a sequence of records is of an ending type. *)
Lemma all_frames_last (rs : list record) :
  match last (all_frames rs) with
  | None => True
  | Some f => ftype f ∈ endingTypes
  end.
Proof.
  destruct rs as [|r0 rs0] using rev_ind; [done|].
  rewrite all_frames_app. unfold all_frames at 2. cbn [fmap list_fmap concat].
  rewrite app_nil_r.
  destruct r0 as [fmt ts hash args|flush hash ts]; cbn [rec_frames].
  - rewrite !app_comm_cons, app_assoc, last_snoc. by_decide.
  - rewrite last_snoc. destruct flush; by_decide.
Qed.

Lemma flush_frames (flushes : list record) :
  Forall (fun r => is_flush r = true) flushes ->
  Forall (fun f => ftype f ∉ startingTypes) (all_frames flushes).
Proof.
  induction 1 as [|r rs Hr _ IH]; [constructor|].
  unfold all_frames. cbn [fmap list_fmap concat].
  destruct r as [|[|] hash ts]; try discriminate.
  cbn [rec_frames app]. constructor; [by_decide|exact IH].
Qed.

Lemma unflushed_head (rs : list record) :
  starts_unflushed rs ->
  match all_frames rs with
  | [] => True
  | f :: _ => ftype f ∈ startingTypes
  end.
Proof.
  destruct rs as [|r rs]; [done|].
  unfold all_frames. cbn [fmap list_fmap concat starts_unflushed].
  destruct r as [|[|] hash ts]; try discriminate; intros _; cbn; by_decide.
Qed.

End SnapshotRecords.

(** A snapshot holds the whole records of the FIFO: [getSnapshot] skips the
    flush records that come before the first other record, ends after the
    last whole record, and releases the FIFO up to there, so that the frames
    of a record still being written stay for the next snapshot. *)
Theorem getSnapshot_whole_records (o : Reader.obtained) (flushes rs : list record)
    (partial : list frame) :
  Reader.iovec0 o ++ Reader.iovec1 o
  = encode_records (flushes ++ rs) ++ encode_all partial ->
  Forall record_ok (flushes ++ rs) ->
  Forall (fun r => is_flush r = true) flushes ->
  starts_unflushed rs ->
  Forall frame_ok partial ->
  Forall (fun f => ftype f ∉ Reader.endingTypes) partial ->
  let s := (Reader.getSnapshot (Some o)).1 in
  Reader.mData s = Reader.iovec0 o ++ Reader.iovec1 o
  /\ Reader.mBegin s = Z.of_nat (length (encode_records flushes))
  /\ Reader.mEnd s = Z.of_nat (length (encode_records (flushes ++ rs)))
  /\ (Reader.getSnapshot (Some o)).2 = Reader.mEnd s.
Proof.
  intros Hd Hok Hfl Hrs Hp Hpe.
  rewrite !encode_records_frames, all_frames_app.
  apply (getSnapshot_frames o (all_frames flushes) (all_frames rs) partial).
  - rewrite Hd, encode_records_frames, all_frames_app.
    by rewrite <- encode_all_app, <- app_assoc.
  - rewrite app_assoc, <- all_frames_app. apply Forall_app.
    split; [by apply all_frames_ok|done].
  - by apply flush_frames.
  - done.
  - by apply unflushed_head.
  - rewrite <- all_frames_app. apply all_frames_last.
Qed.

(** The snapshot of a reader holds the whole records of its FIFO that follow
    the leading flush records. *)
Lemma getSnapshot_holds (reader : option Reader.obtained) (rs : list record) :
  reader_holds reader rs ->
  snapshot_holds (Reader.getSnapshot reader).1 rs.
Proof.
  destruct reader as [o|]; cbn [reader_holds].
  - intros (flushes & partial & Hfl & Hrs & Hok & Hp & Hpe & Hd).
    destruct (getSnapshot_frames o (all_frames flushes) (all_frames rs) partial)
      as (H1 & H2 & H3 & _).
    + rewrite Hd, encode_records_frames, all_frames_app.
      by rewrite <- encode_all_app, <- app_assoc.
    + rewrite app_assoc, <- all_frames_app. apply Forall_app.
      split; [by apply all_frames_ok|done].
    + by apply flush_frames.
    + done.
    + by apply unflushed_head.
    + rewrite <- all_frames_app. apply all_frames_last.
    + split; [by apply Forall_app in Hok as [_ ?]|].
      exists (encode_records flushes), (encode_all partial).
      rewrite H1, H2, H3, Hd.
      rewrite <- all_frames_app, <- !encode_records_frames.
      unfold encode_records. rewrite fmap_app, concat_app, length_app.
      split; [by rewrite <- app_assoc|]. split; [done|lia].
  - intros ->. split; [constructor|]. by exists [], [].
Qed.

(** ** A merge pass, from the readers' FIFOs to the merged FIFO *)

Section MergePass.
Import Merger.

Lemma heads_nil_streams (streams : list (list record)) (i : nat) (rs : list record) :
  heads O streams = [] -> streams !! i = Some rs -> rs = [].
Proof.
  intros Hh Hi. destruct rs as [|r rs]; [done|].
  assert (Hin : MkMergeItem (rec_ts r) i ∈ heads O streams).
  { apply elem_of_heads. by exists i, r, rs. }
  rewrite Hh in Hin. by apply elem_of_nil in Hin.
Qed.

(** The merge order keeps the records of each stream in their order. *)
Lemma kmerge_stable (n : nat) :
  forall (streams : list (list record)) (i : nat),
    (records_left streams <= n)%nat ->
    (filter (fun x : nat * record => x.1 = i) (kmerge n streams)).*2
    = default [] (streams !! i).
Proof.
  induction n as [|n IH]; intros streams i Hn.
  - cbn [kmerge]. rewrite filter_nil. cbn.
    destruct (streams !! i) as [rs|] eqn:E; [|done]. cbn. symmetry.
    eapply heads_nil_streams; [|exact E]. apply records_left_0. lia.
  - destruct (extract_min (heads O streams)) as [[top popped]|] eqn:E.
    + destruct (kmerge_step _ _ _ E) as (r & rs & Hl & _ & Hk).
      rewrite Hk. rewrite (records_left_insert _ _ _ _ Hl) in Hn.
      specialize (IH (<[index top := rs]> streams) i ltac:(lia)).
      destruct (decide (index top = i)) as [<-|Hne].
      * rewrite filter_cons_True by done. cbn [fmap list_fmap snd].
        rewrite list_lookup_insert_eq in IH by (by eapply lookup_lt_Some).
        change (list_fmap _ _ snd ?l) with (l.*2). rewrite IH, Hl. done.
      * rewrite filter_cons_False by done.
        rewrite list_lookup_insert_ne in IH by done. exact IH.
    + cbn [kmerge]. rewrite E, filter_nil. cbn.
      apply extract_min_None in E.
      destruct (streams !! i) as [rs|] eqn:Ei; [|done]. cbn. symmetry.
      by eapply heads_nil_streams.
Qed.

Lemma readers_snapshots (readers : list (option Reader.obtained))
    (streams : list (list record)) :
  Forall2 reader_holds readers streams ->
  Forall2 snapshot_holds ((fun r => (Reader.getSnapshot r).1) <$> readers) streams.
Proof.
  intros H. apply Forall2_fmap_l. eapply Forall2_impl; [exact H|].
  intros r rs Hr. by apply getSnapshot_holds.
Qed.

End MergePass.

(** A merge pass takes a snapshot of every reader and merges what the
    snapshots hold: of each FIFO the whole records that follow the flush
    records at its head, up to the frames of a record still being written.
    Given a FIFO writer, the pass returns and has written each of those
    records once with the reader's index as author, the records of each
    reader in the order they were logged, whatever their timestamps are;
    the flush records at the head of a FIFO are not among them.  Without a
    FIFO writer, as in a merger built without shared memory, the pass
    returns only when no snapshot holds a record; the first record to copy
    is written through the null pointer.  The statement is about the bytes
    written: the author goes into the copy as its four bytes, and the
    alignment of that store is not modelled. *)
Theorem merge_keeps_snapshot_records (readers : list (option Reader.obtained))
    (streams : list (list record)) (dst : list Z) :
  Forall2 reader_holds readers streams ->
  (exists l : list (nat * record),
     MergerFifo.merge readers (Some dst) = Done (Some (dst ++ encode_merged l))
     /\ l ≡ₚ tagged O streams
     /\ forall (i : nat) (rs : list record),
          streams !! i = Some rs ->
          (filter (fun x : nat * record => x.1 = i) l).*2 = rs)
  /\ MergerFifo.merge readers None
     = (if decide (tagged O streams = []) then Done None else Undefined).
Proof.
  intros H. split.
  - exists (merge_order streams). split.
    + unfold MergerFifo.merge. apply merge_snapshots_refines.
      by apply readers_snapshots.
    + split; [by apply kmerge_perm|].
      intros i rs Hi. unfold merge_order. rewrite kmerge_stable by done.
      by rewrite Hi.
  - unfold MergerFifo.merge. apply merge_snapshots_null. by apply readers_snapshots.
Qed.

(** ** The histogram helpers *)

Lemma long_value_Done (v : Z) : - 2 ^ 63 <= v < 2 ^ 63 -> long_value v = Done v.
Proof.
  intros [H1 H2]. unfold long_value.
  destruct (Z.leb_spec (- 2 ^ 63) v); [|lia].
  destruct (Z.ltb_spec v (2 ^ 63)); [done|lia].
Qed.

(** For two clock readings in order and less than 2147483 seconds apart,
    [deltaMs] is not negative and less than a millisecond away from their
    distance. *)
Theorem deltaMs_accuracy (t1 t2 : timespec) :
  timespec_normal t1 -> timespec_normal t2 -> timespec_le t1 t2 ->
  tv_sec t2 - tv_sec t1 < 2147483 ->
  exists d : Z,
    deltaMs t1 t2 = Done d
    /\ 0 <= d
    /\ timespec_ns t2 - timespec_ns t1 - 1000000 < d * 1000000
       < timespec_ns t2 - timespec_ns t1 + 1000000.
Proof.
  unfold timespec_normal, timespec_le, timespec_ns.
  destruct t1 as [s1 n1], t2 as [s2 n2]. cbn [tv_sec tv_nsec].
  intros Hn1 Hn2 Hle Hgap.
  pose proof (Z.mul_div_le n1 1000000 ltac:(lia)) as A1.
  pose proof (Z.mul_succ_div_gt n1 1000000 ltac:(lia)) as A2.
  pose proof (Z.mul_div_le n2 1000000 ltac:(lia)) as B1.
  pose proof (Z.mul_succ_div_gt n2 1000000 ltac:(lia)) as B2.
  set (q1 := n1 `div` 1000000) in *. set (q2 := n2 `div` 1000000) in *.
  exists ((s2 - s1) * 1000 + q2 - q1).
  assert (Hd : 0 <= (s2 - s1) * 1000 + q2 - q1 < 2 ^ 31) by lia.
  split; [|lia].
  unfold deltaMs. cbn [tv_sec tv_nsec].
  rewrite (Z.quot_div_nonneg n1 1000000) by lia.
  rewrite (Z.quot_div_nonneg n2 1000000) by lia.
  fold q1 q2.
  rewrite (long_value_Done (s2 - s1)) by lia. cbn [obind].
  rewrite (long_value_Done ((s2 - s1) * 1000)) by lia. cbn [obind].
  rewrite (long_value_Done ((s2 - s1) * 1000 + q2)) by lia. cbn [obind].
  rewrite (long_value_Done ((s2 - s1) * 1000 + q2 - q1)) by lia. cbn [obind].
  f_equal. unfold to_signed. rewrite Z.mod_small by lia.
  change (2 ^ (32 - 1)) with (2 ^ 31).
  destruct (Z.ltb_spec ((s2 - s1) * 1000 + q2 - q1) (2 ^ 31)); [done|lia].
Qed.

Lemma widthOf_loop_spec (fuel : nat) :
  forall x width : Z,
    x <= Z.of_nat fuel ->
    let r := widthOf_loop fuel x width in
    if 0 <? x then width < r /\ 10 ^ (r - width - 1) <= x < 10 ^ (r - width)
    else r = width.
Proof.
  induction fuel as [|fuel IH]; intros x width Hx; cbv zeta.
  - cbn [widthOf_loop]. destruct (Z.ltb_spec 0 x); [lia|done].
  - cbn [widthOf_loop]. destruct (Z.ltb_spec 0 x) as [Hpos|Hneg]; [|done].
    rewrite Z.quot_div_nonneg by lia.
    pose proof (Z.mul_div_le x 10 ltac:(lia)) as A1.
    pose proof (Z.mul_succ_div_gt x 10 ltac:(lia)) as A2.
    specialize (IH (x `div` 10) (width + 1) ltac:(lia)). cbv zeta in IH.
    set (r := widthOf_loop fuel (x `div` 10) (width + 1)) in *.
    destruct (Z.ltb_spec 0 (x `div` 10)) as [Hq|Hq].
    + destruct IH as (Hr & Hlo & Hhi). split; [lia|].
      replace (r - width - 1) with (Z.succ (r - (width + 1) - 1)) by lia.
      replace (r - width) with (Z.succ (r - (width + 1))) by lia.
      rewrite !Z.pow_succ_r by lia. lia.
    + rewrite IH. split; [lia|].
      replace (width + 1 - width - 1) with 0 by lia.
      replace (width + 1 - width) with 1 by lia.
      change (10 ^ 0) with 1. change (10 ^ 1) with 10. lia.
Qed.

(** [widthOf x] is the number of decimal digits of a positive [x], and 0
    for every other [x]. *)
Theorem widthOf_digits (x : Z) :
  if 0 <? x then 10 ^ (widthOf x - 1) <= x < 10 ^ widthOf x
  else widthOf x = 0.
Proof.
  pose proof (widthOf_loop_spec (Z.to_nat x) x 0 ltac:(lia)) as H.
  cbv zeta in H. fold (widthOf x) in H.
  destruct (0 <? x); [|done].
  destruct H as (_ & H). by rewrite !Z.sub_0_r in H.
Qed.

Lemma occurrences_cons (x y : Z) (samples : list Z) :
  occurrences x (y :: samples)
  = (if bool_decide (y = x) then 1 else 0) + occurrences x samples.
Proof.
  unfold occurrences. case_bool_decide.
  - rewrite filter_cons_True by done. cbn [length]. lia.
  - rewrite filter_cons_False by done. lia.
Qed.

Lemma occurrences_nonneg (x : Z) (samples : list Z) : 0 <= occurrences x samples.
Proof. unfold occurrences. lia. Qed.

Lemma buildBuckets_loop_counts (samples : list Z) :
  forall buckets : gmap Z Z,
    (forall x, 0 <= default 0 (buckets !! x)) ->
    (forall x, default 0 (buckets !! x) + occurrences x samples < 2 ^ 31) ->
    exists b : gmap Z Z,
      buildBuckets_loop samples buckets = Done b
      /\ forall x, b !! x = if occurrences x samples =? 0 then buckets !! x
                           else Some (default 0 (buckets !! x)
                                      + occurrences x samples).
Proof.
  induction samples as [|y samples IH]; intros buckets Hpos Hsum.
  - exists buckets. split; [done|]. intros x. done.
  - cbn [buildBuckets_loop].
    pose proof (Hsum y) as Hy. rewrite occurrences_cons in Hy.
    rewrite bool_decide_eq_true_2 in Hy by done.
    pose proof (occurrences_nonneg y samples).
    destruct (Z.ltb_spec (default 0 (buckets !! y)) (2 ^ 31 - 1)); [|lia].
    destruct (IH (<[y := default 0 (buckets !! y) + 1]> buckets)) as (b & Hb & Hx).
    + intros x. destruct (decide (x = y)) as [->|Hne].
      * rewrite lookup_insert_eq. cbn. specialize (Hpos y). lia.
      * rewrite lookup_insert_ne by done. apply Hpos.
    + intros x. destruct (decide (x = y)) as [->|Hne].
      * rewrite lookup_insert_eq. cbn. lia.
      * rewrite lookup_insert_ne by done. specialize (Hsum x).
        rewrite occurrences_cons, bool_decide_eq_false_2 in Hsum by done. lia.
    + exists b. split; [done|]. intros x. rewrite Hx, occurrences_cons.
      pose proof (occurrences_nonneg x samples).
      destruct (decide (x = y)) as [->|Hne].
      * rewrite lookup_insert_eq, bool_decide_eq_true_2 by done. cbn.
        destruct (Z.eqb_spec (occurrences y samples) 0) as [E|E];
          destruct (Z.eqb_spec (1 + occurrences y samples) 0); try lia;
          f_equal; lia.
      * rewrite lookup_insert_ne, bool_decide_eq_false_2 by done.
        by rewrite Z.add_0_l.
Qed.

(** [buildBuckets] of fewer than 2^31 samples gives every value that occurs
    among the samples the number of its occurrences, and no bucket to any
    other value. *)
Theorem buildBuckets_counts (samples : list Z) :
  Z.of_nat (length samples) < 2 ^ 31 ->
  exists b : gmap Z Z,
    buildBuckets samples = Done b
    /\ forall x, b !! x = if occurrences x samples =? 0 then None
                         else Some (occurrences x samples).
Proof.
  intros Hlen.
  destruct (buildBuckets_loop_counts samples ∅) as (b & Hb & Hx).
  - intros x. by rewrite lookup_empty.
  - intros x. rewrite lookup_empty. cbn. unfold occurrences.
    pose proof (length_filter (fun y => y = x) samples). lia.
  - exists b. split; [done|]. intros x. rewrite Hx, lookup_empty. done.
Qed.

(** ** The formatter reads what the writer wrote *)

Lemma append_nil_r (s : string) : s +:+ "" = s.
Proof.
  induction s as [|a s IH]; [done|].
  change (String a (s +:+ "") = String a s). by rewrite IH.
Qed.

Lemma append_assoc (s1 s2 s3 : string) : (s1 +:+ s2) +:+ s3 = s1 +:+ s2 +:+ s3.
Proof.
  induction s1 as [|a s1 IH]; [done|].
  change (String a ((s1 +:+ s2) +:+ s3) = String a (s1 +:+ s2 +:+ s3)).
  by rewrite IH.
Qed.

(** *** The text of numbers and of lines *)

Lemma digit_char_pretty (d : Z) (acc : string) :
  0 <= d < 10 ->
  Format.digit_char d +:+ acc = String (pretty_N_char (Z.to_N d)) acc.
Proof.
  intros Hd.
  assert (d = 0 \/ d = 1 \/ d = 2 \/ d = 3 \/ d = 4 \/ d = 5 \/ d = 6 \/ d = 7
          \/ d = 8 \/ d = 9) as H by lia.
  repeat (destruct H as [->|H]; [reflexivity|]). by subst d.
Qed.

(** The digits that the formatter prints are those of the decimal
    notation. *)
Lemma digits_pretty (fuel : nat) :
  forall (v : Z) (acc : string),
    0 <= v < 10 ^ Z.of_nat fuel ->
    Format.digits fuel 10 v acc = pretty_N_go (Z.to_N v) acc.
Proof.
  induction fuel as [|fuel IH]; intros v acc Hv.
  - change (10 ^ Z.of_nat 0) with 1 in Hv. by replace v with 0 by lia.
  - cbn [Format.digits]. destruct (Z.leb_spec v 0) as [H0|H0].
    { by replace v with 0 by lia. }
    rewrite pretty_N_go_step by lia.
    rewrite Nat2Z.inj_succ, Z.pow_succ_r in Hv by lia.
    rewrite IH by (split; [apply Z.div_pos; lia|apply Z.div_lt_upper_bound; lia]).
    rewrite digit_char_pretty by (apply Z.mod_pos_bound; lia).
    f_equal; [|f_equal; f_equal].
    + change 10%N with (Z.to_N 10). rewrite <- Z2N.inj_div by lia. done.
    + change 10%N with (Z.to_N 10). rewrite <- Z2N.inj_mod by lia. done.
Qed.

Lemma pretty_pos (p : positive) : pretty (Z.pos p) = pretty_N_go (N.pos p) "".
Proof. done. Qed.

Lemma pretty_neg (p : positive) :
  pretty (Z.neg p) = "-" +:+ pretty_N_go (N.pos p) "".
Proof. done. Qed.

Lemma fmt_d_pretty (v : Z) : - 2 ^ 31 <= v < 2 ^ 31 -> Format.fmt_d v = pretty v.
Proof.
  intros Hv. unfold Format.fmt_d. destruct (Z.eqb_spec v 0) as [->|Hne]; [done|].
  destruct (Z.ltb_spec v 0) as [Hneg|Hpos].
  - rewrite digits_pretty by (change (10 ^ Z.of_nat 32) with (10 ^ 32); lia).
    destruct v as [|p|p]; try lia. by rewrite pretty_neg.
  - rewrite digits_pretty by (change (10 ^ Z.of_nat 32) with (10 ^ 32); lia).
    destruct v as [|p|p]; try lia. by rewrite pretty_pos.
Qed.

Lemma fmt_zu_pretty (v : Z) : 0 <= v < 2 ^ 64 -> Dump.fmt_zu v = pretty v.
Proof.
  intros Hv. unfold Dump.fmt_zu. destruct (Z.eqb_spec v 0) as [->|Hne]; [done|].
  rewrite digits_pretty by (change (10 ^ Z.of_nat 32) with (10 ^ 32); lia).
  destruct v as [|p|p]; try lia. by rewrite pretty_pos.
Qed.

Lemma to_signed_small (w v : Z) :
  0 < w -> - 2 ^ (w - 1) <= v < 2 ^ (w - 1) -> to_signed w v = v.
Proof.
  intros Hw Hv. rewrite <- (to_signed_id w v Hw Hv) at 2.
  unfold to_signed. by rewrite Z.mod_mod by (apply Z.pow_nonzero; lia).
Qed.

(** [%03d] of a number of milliseconds prints its three digits. *)
Lemma fmt_0d_three (ms : Z) :
  0 <= ms < 1000 ->
  Dump.fmt_0d 3 ms
  = pretty (ms `div` 100) +:+ pretty ((ms `div` 10) `mod` 10) +:+ pretty (ms `mod` 10).
Proof.
  intros Hms.
  assert (H : Forall (fun ms => Dump.fmt_0d 3 ms
                                = pretty (ms `div` 100)
                                  +:+ pretty ((ms `div` 10) `mod` 10)
                                  +:+ pretty (ms `mod` 10)) (seqZ 0 1000)).
  { apply (bool_decide_unpack _). vm_compute. exact I. }
  rewrite Forall_forall in H. apply H. apply elem_of_seqZ. lia.
Qed.

(** The formatter prints a timestamp as [[sec.msec]]. *)
Lemma fmt_timestamp_text (ts : timespec) :
  timespec_prints ts -> Dump.fmt_timestamp ts = timestamp_text ts.
Proof.
  intros [Hs Hn]. unfold Dump.fmt_timestamp, timestamp_text, Format.int_of.
  rewrite Z.quot_div_nonneg by lia.
  assert (Hms : 0 <= tv_nsec ts `div` 1000000 < 1000).
  { split; [apply Z.div_pos; lia|apply Z.div_lt_upper_bound; lia]. }
  rewrite !to_signed_small by lia.
  rewrite fmt_d_pretty by lia. rewrite fmt_0d_three by done.
  cbv zeta. by rewrite !append_assoc.
Qed.

Lemma precision_empty (prec : Z) : Dump.precision prec "" = "".
Proof. unfold Dump.precision. destruct (prec <? 0); [done|]. by destruct (Z.to_nat prec). Qed.

(** [dumpLine] prints the time, a space and the text, whatever the
    indentation is, and ends the line when it goes to a file descriptor. *)
Lemma dumpLine_text (fd indent : Z) (time text : string) :
  Dump.dumpLine fd indent time text = line_text fd time text.
Proof.
  unfold Dump.dumpLine, line_text. rewrite precision_empty.
  change ("" +:+ ?s) with s.
  destruct (Z.leb_spec 0 fd).
  - rewrite bool_decide_true by done. by rewrite !append_assoc.
  - rewrite bool_decide_false by lia. by rewrite append_nil_r.
Qed.

Lemma c_chars_exact (name rest : list Z) :
  Forall (fun c => c <> 0) name ->
  c_chars (name ++ rest) (Some (length name)) = Done name.
Proof.
  induction 1 as [|c name Hc _ IH]; [by destruct rest|].
  cbn [app length c_chars]. destruct (Z.eqb_spec c 0); [done|].
  cbn [fmap option_fmap option_map Nat.pred]. by rewrite IH.
Qed.

Lemma readable_frame (A B : list Z) (f : frame) (n : Z) :
  0 <= n <= Z.of_nat (length (fpayload f)) + 1 ->
  readable (A ++ encode f ++ B) (EntryIterator.data (Z.of_nat (length A))) n = true.
Proof.
  intros Hn. unfold readable, EntryIterator.data, offsetof_data.
  rewrite !length_app. pose proof (encode_length f). unfold kOverhead in *.
  apply andb_true_intro. split; [apply Z.leb_le; lia|apply Z.leb_le; lia].
Qed.

Lemma in_buffer_frame (A B : list Z) (f : frame) (k : Z) :
  0 <= k < 3 ->
  in_buffer (A ++ encode f ++ B) (Z.of_nat (length A) + k) = true.
Proof.
  intros Hk. unfold in_buffer. rewrite !length_app.
  pose proof (encode_length f). unfold kOverhead in *.
  apply andb_true_intro. split; [apply Z.leb_le; lia|apply Z.ltb_lt; lia].
Qed.

Section LoopSteps.
Import Dump.
Variable render_float : Z -> string.
Variables (m : list Z) (fmt fmt_length : Z).

Lemma handleFormat_loop_end (n : nat) (off arg : Z) (body : string) :
  fmt_length <= off ->
  handleFormat_loop render_float (S n) m fmt fmt_length off arg body
  = Done (arg, body).
Proof.
  intros H. cbn [handleFormat_loop].
  by destruct (Z.ltb_spec off fmt_length); [lia|].
Qed.

Lemma handleFormat_loop_char (n : nat) (off arg : Z) (body : string) :
  off < fmt_length -> rd m (fmt + off) <> chr "%" ->
  handleFormat_loop render_float (S n) m fmt fmt_length off arg body
  = handleFormat_loop render_float n m fmt fmt_length (off + 1) arg
      (body +:+ string_of_bytes [rd m (fmt + off)]).
Proof.
  intros H Hc. cbn [handleFormat_loop].
  destruct (Z.ltb_spec off fmt_length); [|lia]. cbn [negb].
  by destruct (Z.eqb_spec (rd m (fmt + off)) (chr "%")).
Qed.

Lemma handleFormat_loop_percent (n : nat) (off arg : Z) (body : string) :
  off < fmt_length -> rd m (fmt + off) = chr "%" ->
  rd m (fmt + (off + 1)) = chr "%" ->
  handleFormat_loop render_float (S n) m fmt fmt_length off arg body
  = handleFormat_loop render_float n m fmt fmt_length (off + 1 + 1) arg
      (body +:+ "%").
Proof.
  intros H Hc Hc1. cbn [handleFormat_loop].
  destruct (Z.ltb_spec off fmt_length); [|lia]. cbn [negb].
  rewrite Hc, Z.eqb_refl. cbn [negb]. by rewrite Hc1, Z.eqb_refl.
Qed.

Lemma handleFormat_loop_conversion (n : nat) (off arg : Z) (body : string) :
  off + 1 < fmt_length -> rd m (fmt + off) = chr "%" ->
  rd m (fmt + (off + 1)) <> chr "%" ->
  in_buffer m arg = true -> in_buffer m (arg + offsetof_length) = true ->
  EntryIterator.type m arg <> EVENT_END_FMT ->
  handleFormat_loop render_float (S n) m fmt fmt_length off arg body
  = let* body :=
      handleFormat_conversion render_float m (rd m (fmt + (off + 1))) body
        (EntryIterator.data arg) (EntryIterator.length m arg) in
    handleFormat_loop render_float n m fmt fmt_length (off + 1 + 1)
      (EntryIterator.next m arg) body.
Proof.
  intros H Hc Hc1 Hb1 Hb2 Hty. cbn [handleFormat_loop].
  destruct (Z.ltb_spec off fmt_length); [|lia]. cbn [negb].
  rewrite Hc, Z.eqb_refl. cbn [negb].
  destruct (Z.eqb_spec (rd m (fmt + (off + 1))) (chr "%")); [done|].
  destruct (Z.eqb_spec (off + 1) fmt_length); [lia|].
  rewrite Hb1, Hb2. cbn [andb negb].
  by destruct (Z.eqb_spec (EntryIterator.type m arg) EVENT_END_FMT).
Qed.

End LoopSteps.

Ltac eqb_eval :=
  repeat match goal with
         | |- context [Z.eqb ?a ?b] =>
             let v := eval vm_compute in (Z.eqb a b) in
             match v with
             | true => change (Z.eqb a b) with true
             | false => change (Z.eqb a b) with false
             end
         end.

Ltac eqb_eval_in H :=
  repeat match type of H with
         | context [Z.eqb ?a ?b] =>
             let v := eval vm_compute in (Z.eqb a b) in
             match v with
             | true => change (Z.eqb a b) with true in H
             | false => change (Z.eqb a b) with false in H
             end
         end.

Lemma specifiers_char (c : Z) (r : list Z) :
  c <> 0 -> c <> chr "%" -> specifiers (c :: r) = specifiers r.
Proof.
  intros H0 Hp. cbn [specifiers].
  destruct (Z.eqb_spec c 0); [done|]. by destruct (Z.eqb_spec c (chr "%")).
Qed.

Lemma specifiers_conversion (c1 : Z) (r : list Z) :
  c1 <> 0 -> specifiers (chr "%" :: c1 :: r) = c1 :: specifiers r.
Proof.
  intros H0. cbn [specifiers]. eqb_eval. cbn match.
  by destruct (Z.eqb_spec c1 0).
Qed.

Lemma int_of_le_bytes (v : Z) :
  to_signed 32 (le_value (le_bytes 4 v)) = Format.int_of v.
Proof.
  rewrite le_value_bytes. change (8 * Z.of_nat 4) with 32.
  unfold Format.int_of, to_signed. by rewrite Z.mod_mod.
Qed.

Section Renders.
Import Dump.
Variable render_float : Z -> string.
Variable float_of_double : Z -> Z.
Variable pid : Z.
Variable procName : list Z.
Hypothesis procName_chars : Forall (fun c => c <> 0) procName.
Hypothesis procName_length : Z.of_nat (length procName) + 4 <= kMaxLength.

Variables (m : list Z) (fmtp : Z) (fmt : list Z) (post : list Z).
Hypothesis fmt_at :
  forall (i : nat) (c : Z), fmt !! i = Some c -> rd m (fmtp + Z.of_nat i) = c.
Hypothesis fmt_chars : Forall (fun c => c <> 0) fmt.

Lemma handleFormat_loop_renders (n : nat) :
  forall (seen rest : list Z) (args : list va_arg) (fs : list frame) (A : list Z)
         (body : string),
    fmt = seen ++ rest ->
    m = A ++ encode_all (fs ++ [Frame EVENT_END_FMT []]) ++ post ->
    known_specifiers rest = true ->
    arg_frames float_of_double (le_bytes 4 pid ++ procName) (specifiers rest) args
    = Some fs ->
    Forall va_arg_typed args ->
    (length rest < n)%nat ->
    handleFormat_loop render_float n m fmtp (Z.of_nat (length fmt))
      (Z.of_nat (length seen)) (Z.of_nat (length A)) body
    = Done (Z.of_nat (length A) + Z.of_nat (length (encode_all fs)),
            body +:+ rendered render_float float_of_double pid procName rest args).
Proof.
  induction n as [|n IH]; intros seen rest args fs A body Hfmt Hm Hk Hfs Hargs Hn;
    [lia|].
  destruct rest as [|c rest].
  { rewrite handleFormat_loop_end by (rewrite Hfmt, app_nil_r; lia).
    cbn in Hfs. injection Hfs as <-. cbn [rendered].
    rewrite append_nil_r. change (encode_all []) with (@nil Z). cbn [length].
    by rewrite Z.add_0_r. }
  assert (Hc : rd m (fmtp + Z.of_nat (length seen)) = c).
  { apply fmt_at. rewrite Hfmt. by rewrite list_lookup_middle. }
  assert (Hc0 : c <> 0).
  { rewrite Hfmt in fmt_chars. apply Forall_app in fmt_chars as [_ H].
    by apply Forall_cons in H as [H _]. }
  assert (Hlen : Z.of_nat (length fmt)
                 = Z.of_nat (length seen) + 1 + Z.of_nat (length rest)).
  { rewrite Hfmt, length_app. cbn [length]. lia. }
  destruct (Z.eqb_spec c (chr "%")) as [Ec|Ec].
  2: { rewrite handleFormat_loop_char by (rewrite ?Hc; first [lia|done]).
       rewrite Hc. rewrite specifiers_char in Hfs by done.
       cbn [known_specifiers] in Hk.
       destruct (Z.eqb_spec c (chr "%")) as [|_] in Hk; [done|].
       replace (Z.of_nat (length seen) + 1) with (Z.of_nat (length (seen ++ [c])))
         by (rewrite length_app; cbn [length]; lia).
       rewrite (IH (seen ++ [c]) rest args fs A); try done.
       - cbn [rendered]. destruct (Z.eqb_spec c (chr "%")); [done|]. cbn [negb].
         by rewrite append_assoc.
       - by rewrite <- app_assoc.
       - cbn [length] in Hn. lia. }
  revert Hc. subst c. intros Hc. cbn [known_specifiers] in Hk.
  rewrite Z.eqb_refl in Hk.
  destruct rest as [|c1 rest]; [done|].
  apply andb_prop in Hk as [Hmem Hk]. apply bool_decide_eq_true_1 in Hmem.
  assert (Hc1 : rd m (fmtp + (Z.of_nat (length seen) + 1)) = c1).
  { replace (Z.of_nat (length seen) + 1) with (Z.of_nat (S (length seen))) by lia.
    apply fmt_at. rewrite Hfmt.
    change (seen ++ chr "%" :: c1 :: rest) with (seen ++ [chr "%"] ++ c1 :: rest).
    rewrite app_assoc.
    replace (S (length seen)) with (length (seen ++ [chr "%"]))
      by (rewrite length_app; cbn; lia).
    by rewrite list_lookup_middle. }
  assert (Hc10 : c1 <> 0).
  { rewrite Hfmt in fmt_chars. apply Forall_app in fmt_chars as [_ H].
    apply Forall_cons in H as [_ H]. by apply Forall_cons in H as [H _]. }
  rewrite specifiers_conversion in Hfs by done.
  cbn [length] in Hlen, Hn.
  assert (Hseen : forall l : list Z,
             length l = 2%nat ->
             Z.of_nat (length (seen ++ l)) = Z.of_nat (length seen) + 1 + 1).
  { intros l Hl. rewrite length_app, Hl. lia. }
  destruct (Z.eqb_spec c1 (chr "%")) as [E1|E1].
  { revert Hc1. subst c1. intros Hc1.
    rewrite handleFormat_loop_percent by (first [lia|done]).
    cbn [arg_frames] in Hfs. eqb_eval_in Hfs. cbn match in Hfs.
    rewrite <- (Hseen [chr "%"; chr "%"]) by done.
    rewrite (IH (seen ++ [chr "%"; chr "%"]) rest args fs A); try done.
    - cbn [rendered]. eqb_eval. cbn [negb]. cbn match. by rewrite append_assoc.
    - by rewrite <- app_assoc.
    - lia. }
  assert (Hfinish : forall (f : frame) (l : list frame) (args' : list va_arg)
                           (piece : string),
             fs = f :: l ->
             arg_frames float_of_double (le_bytes 4 pid ++ procName)
               (specifiers rest) args' = Some l ->
             Forall va_arg_typed args' ->
             ftype f <> EVENT_END_FMT ->
             (forall B, handleFormat_conversion render_float (A ++ encode f ++ B) c1
                          body (EntryIterator.data (Z.of_nat (length A)))
                          (Z.of_nat (length (fpayload f)))
                        = Done (body +:+ piece)) ->
             rendered render_float float_of_double pid procName
               (chr "%" :: c1 :: rest) args
             = piece +:+ rendered render_float float_of_double pid procName rest args' ->
             handleFormat_loop render_float (S n) m fmtp (Z.of_nat (length fmt))
               (Z.of_nat (length seen)) (Z.of_nat (length A)) body
             = Done (Z.of_nat (length A) + Z.of_nat (length (encode_all fs)),
                     body +:+ rendered render_float float_of_double pid procName
                                (chr "%" :: c1 :: rest) args)).
  { intros f l args' piece -> Hl Hargs' Hty Hsw Hren.
    set (B := encode_all (l ++ [Frame EVENT_END_FMT []]) ++ post).
    assert (Hm' : m = A ++ encode f ++ B).
    { rewrite Hm. cbn [app]. by rewrite encode_all_cons, <- app_assoc. }
    assert (Hat : frame_at m (Z.of_nat (length A)) f).
    { rewrite Hm'. apply frame_at_intro. }
    rewrite handleFormat_loop_conversion.
    - rewrite Hc1, (at_length _ _ _ Hat). rewrite Hm' at 1. rewrite Hsw.
      cbn [obind]. rewrite (at_next _ _ _ Hat).
      rewrite <- (Hseen [chr "%"; c1]) by done.
      replace (Z.of_nat (length A) + Z.of_nat (length (encode f)))
        with (Z.of_nat (length (A ++ encode f))) by (rewrite length_app; lia).
      rewrite (IH (seen ++ [chr "%"; c1]) rest args' l (A ++ encode f)); try done.
      + rewrite Hren, append_assoc, encode_all_cons, !length_app.
        do 2 f_equal. lia.
      + by rewrite <- app_assoc.
      + rewrite Hm'. by rewrite <- app_assoc.
      + lia.
    - lia.
    - done.
    - by rewrite Hc1.
    - rewrite Hm'. pose proof (in_buffer_frame A B f 0 ltac:(lia)) as H.
      by rewrite Z.add_0_r in H.
    - rewrite Hm'. apply in_buffer_frame. unfold offsetof_length. lia.
    - by rewrite (at_type _ _ _ Hat). }
  assert (Hpay : forall (f : frame) (B : list Z),
             rd_range (A ++ encode f ++ B) (EntryIterator.data (Z.of_nat (length A)))
               (Z.of_nat (length (fpayload f))) = fpayload f).
  { intros f B. exact (at_payload _ _ _ (frame_at_intro A B f)). }
  repeat (apply elem_of_cons in Hmem as [Hmem|Hmem]);
    try (by apply elem_of_nil in Hmem); try done;
    revert Hc1 Hfinish; subst c1; intros Hc1 Hfinish;
    cbn [arg_frames] in Hfs; eqb_eval_in Hfs; cbn match in Hfs.
  - (* %s *)
    destruct args as [|[[s0|]| | |] args']; try discriminate.
    destruct (arg_frames _ _ (specifiers rest) args') as [l|] eqn:El;
      [|discriminate].
    cbn [fmap option_fmap option_map] in Hfs. injection Hfs as <-.
    apply Forall_cons in Hargs as [Hs0 Hargs'].
    apply (Hfinish (Frame EVENT_STRING (string_payload s0)) l args'
             (string_of_bytes (string_payload s0))); [done|done|done|done| |].
    + intros B. unfold handleFormat_conversion. eqb_eval. cbn match.
      rewrite readable_frame by lia. by rewrite Hpay.
    + cbn [rendered]. eqb_eval. cbn [negb]. cbn match. by rewrite ?append_assoc.
  - (* %t *)
    destruct args as [|[ |ts0| | ] args']; try discriminate.
    destruct (arg_frames _ _ (specifiers rest) args') as [l|] eqn:El;
      [|discriminate].
    cbn [fmap option_fmap option_map] in Hfs. injection Hfs as <-.
    apply Forall_cons in Hargs as [Hts0 Hargs'].
    apply (Hfinish (Frame EVENT_TIMESTAMP (timespec_bytes ts0)) l args'
             (fmt_timestamp ts0)); [done|done|done|done| |].
    + intros B. unfold handleFormat_conversion. eqb_eval. cbn match.
      unfold appendTimestamp.
      rewrite readable_frame
        by (cbn [fpayload]; rewrite timespec_bytes_length; unfold sizeof_timespec; lia).
      pose proof (timespec_read_bytes _ _ _ 0 ts0
                    (frame_at_intro A B (Frame EVENT_TIMESTAMP (timespec_bytes ts0)))
                    Hts0) as H.
      change (Z.of_nat 0) with 0 in H. rewrite Z.add_0_r in H.
      rewrite H; [done|]. cbn [fpayload drop]. apply take_ge.
      by rewrite timespec_bytes_length.
    + cbn [rendered]. eqb_eval. cbn [negb]. cbn match. by rewrite ?append_assoc.
  - (* %d *)
    destruct args as [|[ | |i| ] args']; try discriminate.
    destruct (arg_frames _ _ (specifiers rest) args') as [l|] eqn:El;
      [|discriminate].
    cbn [fmap option_fmap option_map] in Hfs. injection Hfs as <-.
    apply Forall_cons in Hargs as [_ Hargs'].
    apply (Hfinish (Frame EVENT_INTEGER (le_bytes 4 i)) l args'
             ("<" +:+ Format.fmt_d (Format.int_of i) +:+ ">")); [done|done|done|done| |].
    + intros B. unfold handleFormat_conversion. eqb_eval. cbn match.
      unfold appendInt.
      rewrite readable_frame
        by (cbn [fpayload]; rewrite le_bytes_length; unfold sizeof_int; lia).
      pose proof (int_read_bytes _ _ _ 0
                    (frame_at_intro A B (Frame EVENT_INTEGER (le_bytes 4 i)))) as H.
      change (Z.of_nat 0) with 0 in H. rewrite Z.add_0_r in H.
      rewrite H by (cbn [fpayload]; rewrite le_bytes_length; lia).
      cbn [fpayload]. rewrite drop_0, take_ge by (by rewrite le_bytes_length).
      by rewrite int_of_le_bytes.
    + cbn [rendered]. eqb_eval. cbn [negb]. cbn match. by rewrite ?append_assoc.
  - (* %f *)
    destruct args as [|[ | | |d0] args']; try discriminate.
    destruct (arg_frames _ _ (specifiers rest) args') as [l|] eqn:El;
      [|discriminate].
    cbn [fmap option_fmap option_map] in Hfs. injection Hfs as <-.
    apply Forall_cons in Hargs as [_ Hargs'].
    apply (Hfinish (Frame EVENT_FLOAT (le_bytes 4 (float_of_double d0))) l args'
             ("<" +:+ render_float (float_of_double d0 `mod` 2 ^ 32) +:+ ">"));
      [done|done|done|done| |].
    + intros B. unfold handleFormat_conversion. eqb_eval. cbn match.
      unfold appendFloat.
      rewrite readable_frame
        by (cbn [fpayload]; rewrite le_bytes_length; unfold sizeof_float; lia).
      pose proof (Hpay (Frame EVENT_FLOAT (le_bytes 4 (float_of_double d0))) B) as H.
      cbn [fpayload] in H. rewrite le_bytes_length in H.
      change (Z.of_nat 4) with sizeof_float in H. rewrite H.
      rewrite le_value_bytes. done.
    + cbn [rendered]. eqb_eval. cbn [negb]. cbn match. by rewrite ?append_assoc.
  - (* %p *)
    destruct (arg_frames _ _ (specifiers rest) args) as [l|] eqn:El;
      [|discriminate].
    cbn [fmap option_fmap option_map] in Hfs. injection Hfs as <-.
    apply (Hfinish (Frame EVENT_PID (le_bytes 4 pid ++ procName)) l args
             ("<PID: " +:+ Format.fmt_d (Format.int_of pid) +:+ ", name: "
                       +:+ string_of_bytes procName +:+ ">")); [done|done|done|done| |].
    + intros B. unfold handleFormat_conversion. eqb_eval. cbn match.
      unfold appendPID. cbn [fpayload]. rewrite length_app, le_bytes_length.
      rewrite readable_frame
        by (cbn [fpayload]; rewrite length_app, le_bytes_length;
            unfold sizeof_pid_t; lia).
      pose proof (int_read_bytes _ _ _ 0
                    (frame_at_intro A B (Frame EVENT_PID (le_bytes 4 pid ++ procName))))
        as H.
      change (Z.of_nat 0) with 0 in H. rewrite Z.add_0_r in H.
      rewrite H by (cbn [fpayload]; rewrite length_app, le_bytes_length; lia).
      cbn [fpayload]. rewrite drop_0.
      rewrite take_app_length' by (by rewrite le_bytes_length).
      rewrite int_of_le_bytes.
      assert (Hprec : Format.int_of
                        ((Z.of_nat (4 + length procName) - sizeof_pid_t) `mod` 2 ^ 64)
                      = Z.of_nat (length procName)).
      { unfold sizeof_pid_t, kMaxLength in *.
        replace (Z.of_nat (4 + length procName) - 4)
          with (Z.of_nat (length procName)) by lia.
        rewrite Z.mod_small by lia.
        unfold Format.int_of, to_signed. rewrite Z.mod_small by lia.
        change (2 ^ (32 - 1)) with 2147483648.
        destruct (Z.ltb_spec (Z.of_nat (length procName)) 2147483648); lia. }
      rewrite Hprec.
      destruct (Z.ltb_spec (Z.of_nat (length procName)) 0); [lia|].
      rewrite Nat2Z.id.
      assert (Hdrop : drop (Z.to_nat (EntryIterator.data (Z.of_nat (length A))
                                      + sizeof_pid_t))
                        (A ++ encode (Frame EVENT_PID (le_bytes 4 pid ++ procName)) ++ B)
                      = procName
                          ++ [Z.of_nat (length (le_bytes 4 pid ++ procName))] ++ B).
      { unfold EntryIterator.data, offsetof_data, sizeof_pid_t.
        replace (Z.to_nat (Z.of_nat (length A) + 2 + 4)) with (length A + 6)%nat by lia.
        rewrite drop_app_add'; [|done]. unfold encode. cbn [fpayload le_bytes app drop].
        by rewrite <- app_assoc. }
      rewrite Hdrop, c_chars_exact by done. done.
    + cbn [rendered]. eqb_eval. cbn [negb]. cbn match. by rewrite ?append_assoc.
Qed.

End Renders.

(** ** A formatted record read by [handleFormat] *)

Lemma strlen_chars (s : list Z) :
  Forall (fun c => c <> 0) s -> strlen s = Z.of_nat (length s).
Proof.
  induction 1 as [|c s Hc _ IH]; [done|].
  cbn [strlen length]. destruct (Z.eqb_spec c 0); [done|]. lia.
Qed.

Lemma string_payload_chars (s : list Z) :
  Forall (fun c => c <> 0) s -> Z.of_nat (length s) <= kMaxLength ->
  string_payload s = s.
Proof.
  intros Hs Hl. unfold string_payload. rewrite strlen_chars by done.
  rewrite Z.min_r by lia. rewrite Nat2Z.id. by rewrite take_ge.
Qed.

Section RecordInMemory.
Import Dump.
Variable render_float : Z -> string.
Variable float_of_double : Z -> Z.
Variable handleAuthor : list Z -> AbstractEntry.t -> string -> outcome string.
Variable pid : Z.
Variable procName : list Z.
Hypothesis procName_chars : Forall (fun c => c <> 0) procName.
Hypothesis procName_length : Z.of_nat (length procName) + 4 <= kMaxLength.

Variables (pre post : list Z) (s : list Z) (ts : timespec) (hash : Z)
          (args : list va_arg) (frames : list frame) (author : option Z).
Hypothesis s_chars : Forall (fun c => c <> 0) s.
Hypothesis s_known : known_specifiers s = true.
Hypothesis args_typed : Forall va_arg_typed args.
Hypothesis ts_ok : timespec_ok ts.
Hypothesis hash_ok : 0 <= hash < 2 ^ 64.
Hypothesis args_frames :
  arg_frames float_of_double (le_bytes 4 pid ++ procName) (specifiers s) args
  = Some frames.

Let r := RFormat s ts hash frames.
Let m := pre ++ encode_all (record_frames author r) ++ post.
Let p0 := Z.of_nat (length pre).
Let f1 := Frame EVENT_START_FMT s.
Let f2 := Frame EVENT_TIMESTAMP (timespec_bytes ts).
Let f3 := Frame EVENT_HASH (le_bytes 8 hash).
Let tag : list frame :=
  match author with
  | None => []
  | Some i => [Frame EVENT_AUTHOR (le_bytes 4 i)]
  end.
Let tail := tag ++ frames ++ [Frame EVENT_END_FMT []].

Lemma record_frames_layout : record_frames author r = f1 :: f2 :: f3 :: tail.
Proof. unfold tail, tag, r. by destruct author. Qed.

Lemma record_timestamp : FormatEntry.timestamp m p0 = ts.
Proof.
  unfold m. rewrite record_frames_layout.
  destruct (first_frames pre post f1 f2 f3 tail) as (_ & H2 & _).
  unfold FormatEntry.timestamp.
  pose proof (timespec_read_bytes _ _ _ 0 ts H2 ts_ok) as H.
  change (Z.of_nat 0) with 0 in H. rewrite Z.add_0_r in H. apply H. reflexivity.
Qed.

Lemma record_hash : FormatEntry.hash m p0 = hash.
Proof.
  unfold m. rewrite record_frames_layout.
  destruct (first_frames pre post f1 f2 f3 tail) as (_ & _ & H3 & _).
  unfold FormatEntry.hash. eapply hash_read_bytes; eauto.
Qed.

Lemma arg_frames_types (specs : list Z) :
  forall (a : list va_arg) (fs : list frame),
    arg_frames float_of_double (le_bytes 4 pid ++ procName) specs a = Some fs ->
    Forall (fun f => ftype f <> EVENT_AUTHOR /\ ftype f <> EVENT_END_FMT) fs.
Proof.
  induction specs as [|c specs IH]; intros a fs H.
  - cbn in H. injection H as <-. constructor.
  - cbn [arg_frames] in H.
    destruct (c =? chr "s").
    { destruct a as [|[[s0|]| | |] a']; try discriminate.
      destruct (arg_frames _ _ specs a') as [l|] eqn:E; [|discriminate].
      cbn [fmap option_fmap option_map] in H. injection H as <-.
      constructor; [by split|by eapply IH]. }
    destruct (c =? chr "t").
    { destruct a as [|[ |ts0| | ] a']; try discriminate.
      destruct (arg_frames _ _ specs a') as [l|] eqn:E; [|discriminate].
      cbn [fmap option_fmap option_map] in H. injection H as <-.
      constructor; [by split|by eapply IH]. }
    destruct (c =? chr "d").
    { destruct a as [|[ | |i| ] a']; try discriminate.
      destruct (arg_frames _ _ specs a') as [l|] eqn:E; [|discriminate].
      cbn [fmap option_fmap option_map] in H. injection H as <-.
      constructor; [by split|by eapply IH]. }
    destruct (c =? chr "f").
    { destruct a as [|[ | | |d0] a']; try discriminate.
      destruct (arg_frames _ _ specs a') as [l|] eqn:E; [|discriminate].
      cbn [fmap option_fmap option_map] in H. injection H as <-.
      constructor; [by split|by eapply IH]. }
    destruct (c =? chr "p").
    { destruct (arg_frames _ _ specs a) as [l|] eqn:E; [|discriminate].
      cbn [fmap option_fmap option_map] in H. injection H as <-.
      constructor; [by split|by eapply IH]. }
    by eapply IH.
Qed.

Lemma record_args :
  FormatEntry.args m p0
  = p0 + Z.of_nat (length (encode_all (f1 :: f2 :: f3 :: tag))).
Proof.
  unfold m. rewrite record_frames_layout.
  destruct (first_frames pre post f1 f2 f3 tail) as (_ & _ & _ & E3 & H4).
  unfold FormatEntry.args. fold p0 in E3, H4 |- *.
  unfold tail, tag in *. destruct author as [i|].
  - specialize (H4 _ _ eq_refl). rewrite (at_type _ _ _ H4). cbn [ftype].
    rewrite Z.eqb_refl, (at_next _ _ _ H4), E3.
    change [f1; f2; f3; Frame EVENT_AUTHOR (le_bytes 4 i)]
      with ([f1; f2; f3] ++ [Frame EVENT_AUTHOR (le_bytes 4 i)]).
    rewrite encode_all_snoc, length_app. lia.
  - cbn [app] in *.
    destruct frames as [|f fs] eqn:Ef.
    + specialize (H4 _ _ eq_refl). by rewrite (at_type _ _ _ H4), E3.
    + specialize (H4 _ _ eq_refl). rewrite (at_type _ _ _ H4), E3.
      pose proof (arg_frames_types _ _ _ args_frames) as Hty.
      apply Forall_cons in Hty as [[Hty _] _].
      by destruct (Z.eqb_spec (ftype f) EVENT_AUTHOR).
Qed.

Lemma record_format_chars (i : nat) (c : Z) :
  s !! i = Some c -> rd m (p0 + offsetof_data + Z.of_nat i) = c.
Proof.
  intros Hi. unfold m. rewrite record_frames_layout, encode_all_cons, <- app_assoc.
  replace (p0 + offsetof_data + Z.of_nat i) with (p0 + Z.of_nat (2 + i))
    by (unfold offsetof_data; lia).
  apply rd_mid. unfold encode, f1. cbn [ftype fpayload].
  change (2 + i)%nat with (S (S i)). simpl. by apply lookup_app_l_Some.
Qed.

(** [handleFormat] on the record: the returned iterator stands after the
    record, the timestamp is the record's, and the body holds the hash, what
    [handleAuthor] adds, and the arguments laid into the format string. *)
Lemma handleFormat_record (body : string) :
  Z.of_nat (length s) <= kMaxLength ->
  handleFormat render_float handleAuthor m p0 body
  = let* b := handleAuthor m (AbstractEntry.FormatEntry p0)
                (Format.appendHash body hash) in
    Done (p0 + Z.of_nat (length (encode_all (record_frames author r))),
          fmt_timestamp ts,
          b +:+ rendered render_float float_of_double pid procName s args).
Proof.
  intros Hlen. unfold handleFormat.
  rewrite record_timestamp. unfold Format.handleFormat_hash. rewrite record_hash.
  destruct (handleAuthor m (AbstractEntry.FormatEntry p0)
              (Format.appendHash body hash)) as [b| |]; [|done|done].
  cbn [obind]. rewrite record_args.
  assert (Hflen : rd m (p0 + offsetof_length) = Z.of_nat (length s)).
  { unfold m. rewrite record_frames_layout, encode_all_cons, <- app_assoc.
    exact (length_frame pre _ f1). }
  rewrite Hflen, Nat2Z.id.
  set (A := pre ++ encode_all (f1 :: f2 :: f3 :: tag)).
  assert (Hm : m = A ++ encode_all (frames ++ [Frame EVENT_END_FMT []]) ++ post).
  { unfold m, A. rewrite record_frames_layout. unfold tail.
    change (f1 :: f2 :: f3 :: tag ++ frames ++ [Frame EVENT_END_FMT []])
      with ((f1 :: f2 :: f3 :: tag) ++ frames ++ [Frame EVENT_END_FMT []]).
    by rewrite encode_all_app, <- !app_assoc. }
  replace (p0 + Z.of_nat (length (encode_all (f1 :: f2 :: f3 :: tag))))
    with (Z.of_nat (length A)) by (unfold A, p0; rewrite length_app; lia).
  change 0 with (Z.of_nat (length (@nil Z))).
  rewrite (handleFormat_loop_renders render_float float_of_double pid procName
             procName_chars procName_length m (p0 + offsetof_data) s post
             record_format_chars s_chars (S (length s)) [] s args frames A b);
    [|done|exact Hm|done|done|done|lia].
  cbn [obind].
  set (A' := A ++ encode_all frames).
  assert (Hm' : m = A' ++ encode (Frame EVENT_END_FMT []) ++ post).
  { rewrite Hm. unfold A'. by rewrite encode_all_snoc, <- !app_assoc. }
  replace (Z.of_nat (length A) + Z.of_nat (length (encode_all frames)))
    with (Z.of_nat (length A')) by (unfold A'; rewrite length_app; lia).
  assert (Hb0 : in_buffer m (Z.of_nat (length A')) = true).
  { rewrite Hm'. pose proof (in_buffer_frame A' post (Frame EVENT_END_FMT []) 0
                               ltac:(lia)) as H.
    by rewrite Z.add_0_r in H. }
  assert (Hb1 : in_buffer m (Z.of_nat (length A') + offsetof_length) = true).
  { rewrite Hm'. apply in_buffer_frame. unfold offsetof_length. lia. }
  rewrite Hb0, Hb1. cbn [andb negb].
  rewrite Hm' at 1. rewrite next_frame. do 3 f_equal.
  unfold A', A, p0. rewrite record_frames_layout. unfold tail.
  change (f1 :: f2 :: f3 :: tag ++ frames ++ [Frame EVENT_END_FMT []])
    with ((f1 :: f2 :: f3 :: tag) ++ frames ++ [Frame EVENT_END_FMT []]).
  rewrite !encode_all_app, !length_app.
  change (encode_all [Frame EVENT_END_FMT []])
    with (encode (Frame EVENT_END_FMT []) ++ []).
  rewrite length_app. cbn [length]. lia.
Qed.

End RecordInMemory.

Lemma va_arg_typed_ok (args : list va_arg) :
  Forall va_arg_typed args -> Forall va_arg_ok args.
Proof.
  intros H. eapply Forall_impl; [exact H|]. by intros [[s|]| | |].
Qed.

Lemma timespec_prints_ok (ts : timespec) : timespec_prints ts -> timespec_ok ts.
Proof. intros [H1 H2]. split; lia. Qed.

(** What [logFormat] writes for a format string of at most 255 characters
    whose conversions are those of the grammar, [handleFormat] of the plain
    reader reads to the end of the record: it returns the position after the
    record, the clock's time as [[sec.msec]], seconds in decimal and
    milliseconds in three digits, and the hash followed by the arguments
    laid into the format string. *)
Theorem logFormat_handleFormat (render_float : Z -> string)
    (float_of_double : Z -> Z) (w : Writer.t) (fifo : list Z) (pid : Z)
    (procName : list Z) (ts : timespec) (s : list Z) (hash : Z)
    (args : list va_arg) (body : string) :
  writer_ok w fifo (le_bytes 4 pid ++ procName) ->
  Forall (fun c => c <> 0) procName ->
  bytes s -> Forall (fun c => c <> 0) s -> Z.of_nat (length s) <= kMaxLength ->
  known_specifiers s = true ->
  Forall va_arg_typed args -> timespec_prints ts -> 0 <= hash < 2 ^ 64 ->
  is_Some (arg_frames float_of_double (le_bytes 4 pid ++ procName)
             (specifiers s) args) ->
  exists w',
    Writer.logFormat float_of_double w (Some ts) (Some s) hash args = Done w'
    /\ Dump.handleFormat render_float Dump.Reader_handleAuthor (Writer.written w')
         (Z.of_nat (length fifo)) body
       = Done (Z.of_nat (length (Writer.written w')),
               timestamp_text ts,
               Format.appendHash body hash
               +:+ rendered render_float float_of_double pid procName s args).
Proof.
  intros Hw Hname Hb Hs Hlen Hk Hargs Hpr Hh [frames Hfr].
  pose proof (timespec_prints_ok ts Hpr) as Hts.
  pose proof Hw as (Hen & Hf & _ & _ & Hl & Hbt).
  pose proof (logVFormat_frames float_of_double (le_bytes 4 pid ++ procName) w fifo
                (Some ts) s hash args Hw Hb (va_arg_typed_ok _ Hargs)) as H.
  rewrite Hfr in H.
  eexists. split.
  { unfold Writer.logFormat. rewrite Hen. cbn [negb]. exact H. }
  change (Writer.written (Writer.set_fifo w ?x)) with x.
  unfold format_frames_clock. cbn [app]. rewrite string_payload_chars by done.
  assert (Hpl : Z.of_nat (length procName) + 4 <= kMaxLength).
  { rewrite length_app, le_bytes_length in Hl. lia. }
  pose proof (handleFormat_record render_float float_of_double
                Dump.Reader_handleAuthor pid procName Hname Hpl fifo [] s ts hash
                args frames None Hs Hk Hargs Hts Hh Hfr body Hlen) as HR.
  cbn [record_frames rec_frames] in HR. rewrite app_nil_r in HR.
  rewrite HR. unfold Dump.Reader_handleAuthor. cbn [obind].
  by rewrite length_app, Nat2Z.inj_add, fmt_timestamp_text.
Qed.

(** On a record that the merger has tagged with the author [i],
    [handleFormat] of the merge reader writes the name of reader [i] between
    the hash and the text of the record. *)
Theorem handleFormat_merged (render_float : Z -> string)
    (float_of_double : Z -> Z) (names : list string) (name : string)
    (pre post : list Z) (pid : Z) (procName : list Z) (ts : timespec) (s : list Z)
    (hash : Z) (args : list va_arg) (frames : list frame) (i : nat) (body : string) :
  Forall (fun c => c <> 0) procName ->
  Z.of_nat (length procName) + 4 <= kMaxLength ->
  Forall (fun c => c <> 0) s -> Z.of_nat (length s) <= kMaxLength ->
  known_specifiers s = true ->
  Forall va_arg_typed args -> timespec_ok ts -> 0 <= hash < 2 ^ 64 ->
  arg_frames float_of_double (le_bytes 4 pid ++ procName) (specifiers s) args
  = Some frames ->
  names !! i = Some name -> Z.of_nat i < 2 ^ 31 ->
  let r := RFormat s ts hash frames in
  let m := pre ++ encode_all (authored (Z.of_nat i) r) ++ post in
  Dump.handleFormat render_float (Dump.MergeReader_handleAuthor names) m
    (Z.of_nat (length pre)) body
  = Done (Z.of_nat (length pre)
          + Z.of_nat (length (encode_all (authored (Z.of_nat i) r))),
          Dump.fmt_timestamp ts,
          Format.appendHash body hash +:+ name +:+ ": "
          +:+ rendered render_float float_of_double pid procName s args).
Proof.
  intros Hname Hpl Hs Hlen Hk Hargs Hts Hh Hfr Hi Hi31 r m.
  pose proof (handleFormat_record render_float float_of_double
                (Dump.MergeReader_handleAuthor names) pid procName Hname Hpl pre
                post s ts hash args frames (Some (Z.of_nat i)) Hs Hk Hargs Hts Hh
                Hfr body Hlen) as HR.
  subst r m. cbn [record_frames authored] in HR |- *. rewrite HR.
  unfold Dump.MergeReader_handleAuthor. cbn [AbstractEntry.author].
  destruct (FormatEntry_author_frames pre post (Frame EVENT_START_FMT s)
              (Frame EVENT_TIMESTAMP (timespec_bytes ts))
              (Frame EVENT_HASH (le_bytes 8 hash))
              (Frame EVENT_AUTHOR (le_bytes 4 (Z.of_nat i)))
              (frames ++ [Frame EVENT_END_FMT []])) as [_ Ha].
  rewrite Ha by (first [done|cbn [fpayload]; rewrite le_bytes_length; lia]).
  cbn [fpayload]. rewrite take_ge by (by rewrite le_bytes_length).
  rewrite int_read_le_bytes by lia.
  destruct (Z.ltb_spec (Z.of_nat i) 0); [lia|].
  rewrite Nat2Z.id, Hi. cbn [obind]. by rewrite !append_assoc.
Qed.

(** On a record without author frame, as a writer leaves it, the merge
    reader indexes its table of names with -1: [handleFormat] is undefined. *)
Theorem handleFormat_merge_reader_untagged (render_float : Z -> string)
    (float_of_double : Z -> Z) (names : list string) (pre post : list Z) (pid : Z)
    (procName : list Z) (ts : timespec) (s : list Z) (hash : Z)
    (args : list va_arg) (frames : list frame) (body : string) :
  timespec_ok ts -> 0 <= hash < 2 ^ 64 ->
  arg_frames float_of_double (le_bytes 4 pid ++ procName) (specifiers s) args
  = Some frames ->
  let r := RFormat s ts hash frames in
  let m := pre ++ encode_record r ++ post in
  Dump.handleFormat render_float (Dump.MergeReader_handleAuthor names) m
    (Z.of_nat (length pre)) body
  = Undefined.
Proof.
  intros Hts Hh Hfr r m. unfold Dump.handleFormat, Dump.MergeReader_handleAuthor.
  cbn [AbstractEntry.author].
  assert (Ha : FormatEntry.author m (Z.of_nat (length pre)) = -1).
  { unfold m, r, encode_record. cbn [rec_frames].
    destruct (frames ++ [Frame EVENT_END_FMT []]) as [|f4 rest] eqn:E.
    { by destruct frames. }
    destruct (FormatEntry_author_frames pre post (Frame EVENT_START_FMT s)
                (Frame EVENT_TIMESTAMP (timespec_bytes ts))
                (Frame EVENT_HASH (le_bytes 8 hash)) f4 rest) as [Ha _].
    apply Ha.
    pose proof (arg_frames_types float_of_double pid procName _ _ _ Hfr) as Hty.
    destruct frames as [|f fs]; cbn [app] in E; injection E as <- <-; [done|].
    by apply Forall_cons in Hty as [[Hty _] _]. }
  rewrite Ha. done.
Qed.

(** ** The further properties at concrete inputs *)

Lemma scenario_writer_constructed : constructed scenario_writer.
Proof.
  apply constructed_shared; [by_decide|]. vm_compute. discriminate.
Defined.

Lemma scenario_ops_ok : Forall op_ok scenario_ops.
Proof.
  repeat constructor; by_decide.
Defined.

Lemma writer_writes_whole_frames_witness :
  exists (w : Writer.t) (fs : list frame),
    run_ops (fun d => d) scenario_writer scenario_ops = Done w
    /\ Writer.written w = encode_all fs
    /\ Forall frame_ok fs
    /\ EntryIterator.forward (length fs) (Writer.written w) 0 = boundaries 0 fs.
Proof.
  destruct (run_ops (fun d => d) scenario_writer scenario_ops) as [w| |] eqn:E;
    [|vm_compute in E; discriminate|vm_compute in E; discriminate].
  destruct (writer_writes_whole_frames (fun d => d) scenario_writer w scenario_ops
              scenario_writer_constructed scenario_ops_ok E) as (fs & H1 & H2 & H3).
  exists w, fs. split; [reflexivity|]. split; [exact H1|]. split; [exact H2|exact H3].
Defined.

Lemma writer_without_memory_stays_disabled_witness :
  exists w : Writer.t,
    run_ops (fun d => d) (Writer.Writer_shared false 1234 (bytes_of_string "audio"))
      (OpSetEnabled true :: scenario_ops) = Done w
    /\ Writer.isEnabled w = false
    /\ Writer.written w = [].
Proof.
  destruct (run_ops (fun d => d)
              (Writer.Writer_shared false 1234 (bytes_of_string "audio"))
              (OpSetEnabled true :: scenario_ops)) as [w| |] eqn:E;
    [|vm_compute in E; discriminate|vm_compute in E; discriminate].
  destruct (writer_without_memory_stays_disabled (fun d => d)
              (Writer.Writer_shared false 1234 (bytes_of_string "audio")) w
              (OpSetEnabled true :: scenario_ops)) as (H1 & H2 & _).
  - apply constructed_shared; [by_decide|]. vm_compute. discriminate.
  - reflexivity.
  - constructor; [exact I|exact scenario_ops_ok].
  - exact E.
  - exists w. split; [reflexivity|]. split; [exact H1|exact H2].
Defined.

Lemma logFormat_read_back_witness :
  exists w',
    scenario_log = Done w'
    /\ FormatEntry.timestamp (Writer.written w') 0 = Timespec 5 7000000
    /\ FormatEntry.hash (Writer.written w') 0 = scenario_hash
    /\ FormatEntry.author (Writer.written w') 0 = -1.
Proof.
  destruct (logFormat_read_back (fun d => d) scenario_writer []
              (le_bytes 4 1234 ++ bytes_of_string "audio") (Timespec 5 7000000)
              (bytes_of_string "x=%d pid=%p") scenario_hash [VaInt 7]
              [Frame EVENT_INTEGER (le_bytes 4 7);
               Frame EVENT_PID (le_bytes 4 1234 ++ bytes_of_string "audio")])
    as (w' & H1 & _ & _ & _ & H5 & H6 & H7).
  - exact scenario_writer_ok.
  - by_decide.
  - by_decide.
  - by_decide.
  - unfold scenario_hash. lia.
  - reflexivity.
  - exists w'. split; [exact H1|]. split; [exact H5|]. split; [exact H6|exact H7].
Defined.

Lemma logHist_read_back_witness :
  exists w',
    Writer.logHistTS scenario_writer (Some (Timespec 6 0)) 9 = Done w'
    /\ HistogramEntry.timestamp (Writer.written w') 0 = Timespec 6 0
    /\ HistogramEntry.hash (Writer.written w') 0 = 9
    /\ HistogramEntry.author (Writer.written w') 0 = -1.
Proof.
  destruct (logHist_read_back scenario_writer []
              (le_bytes 4 1234 ++ bytes_of_string "audio") false (Timespec 6 0) 9)
    as (w' & H1 & _ & _ & _ & H5 & H6 & H7).
  - exact scenario_writer_ok.
  - by_decide.
  - lia.
  - exists w'. split; [exact H1|]. split; [exact H5|]. split; [exact H6|exact H7].
Defined.

Lemma logFormat_clock_failure_witness :
  exists w',
    Writer.logFormat (fun d => d) scenario_writer None
      (Some (bytes_of_string "x=%d")) 17 [VaInt 7] = Done w'
    /\ EntryIterator.type (Writer.written w')
         (EntryIterator.next (Writer.written w') 0) = EVENT_HASH.
Proof.
  destruct (logFormat_clock_failure (fun d => d) scenario_writer []
              (le_bytes 4 1234 ++ bytes_of_string "audio")
              (bytes_of_string "x=%d") 17 [VaInt 7]
              [Frame EVENT_INTEGER (le_bytes 4 7)])
    as (w' & H1 & _ & H3).
  - exact scenario_writer_ok.
  - by_decide.
  - by_decide.
  - reflexivity.
  - exists w'. split; [exact H1|exact H3].
Defined.

Lemma getSnapshot_whole_records_witness :
  let o := Reader.MkObtained (take 7 scenario_data) (drop 7 scenario_data) 2 in
  Reader.mBegin (Reader.getSnapshot (Some o)).1
  = Z.of_nat (length (encode_records [flush_record]))
  /\ Reader.mEnd (Reader.getSnapshot (Some o)).1
     = Z.of_nat (length (encode_records ([flush_record] ++ stream_a)))
  /\ (Reader.getSnapshot (Some o)).2
     = Reader.mEnd (Reader.getSnapshot (Some o)).1.
Proof.
  intros o.
  destruct (getSnapshot_whole_records o [flush_record] stream_a
              [Frame EVENT_START_FMT (bytes_of_string "hi")])
    as (_ & H2 & H3 & H4).
  - apply take_drop.
  - by_decide.
  - repeat constructor.
  - reflexivity.
  - by_decide.
  - repeat constructor. by_decide.
  - split; [exact H2|]. split; [exact H3|exact H4].
Defined.

Lemma scenario_readers_hold :
  Forall2 reader_holds scenario_readers [stream_a; []; stream_unsorted].
Proof.
  constructor.
  { exists [], [Frame EVENT_START_FMT (bytes_of_string "hi")].
    split; [constructor|]. split; [reflexivity|]. split; [by_decide|].
    split; [by_decide|]. split; [|reflexivity].
    constructor; [by_decide|constructor]. }
  constructor; [reflexivity|].
  constructor; [|constructor].
  exists [flush_record], []. split; [repeat constructor|]. split; [reflexivity|].
  split; [by_decide|]. split; [constructor|]. split; [constructor|].
  rewrite app_nil_r. apply take_drop.
Defined.

Lemma merge_keeps_snapshot_records_witness :
  (exists l : list (nat * record),
     MergerFifo.merge scenario_readers (Some []) = Done (Some ([] ++ encode_merged l))
     /\ l ≡ₚ tagged O [stream_a; []; stream_unsorted]
     /\ (filter (fun x : nat * record => x.1 = 2%nat) l).*2 = stream_unsorted)
  /\ MergerFifo.merge scenario_readers None = Undefined.
Proof.
  destruct (merge_keeps_snapshot_records scenario_readers
              [stream_a; []; stream_unsorted] [] scenario_readers_hold)
    as [(l & H1 & H2 & H3) H4].
  split; [|exact H4].
  exists l. split; [exact H1|]. split; [exact H2|].
  apply (H3 2%nat stream_unsorted). reflexivity.
Defined.

Lemma deltaMs_accuracy_witness :
  exists d : Z,
    deltaMs (Timespec 5 999000000) (Timespec 6 1500000) = Done d
    /\ 0 <= d
    /\ timespec_ns (Timespec 6 1500000) - timespec_ns (Timespec 5 999000000) - 1000000
       < d * 1000000
       < timespec_ns (Timespec 6 1500000) - timespec_ns (Timespec 5 999000000)
         + 1000000.
Proof.
  apply (deltaMs_accuracy (Timespec 5 999000000) (Timespec 6 1500000)).
  - by_decide.
  - by_decide.
  - by_decide.
  - simpl. lia.
Defined.

Lemma buildBuckets_counts_witness :
  exists b : gmap Z Z,
    buildBuckets [3; 5; 3] = Done b
    /\ forall x, b !! x = if occurrences x [3; 5; 3] =? 0 then None
                         else Some (occurrences x [3; 5; 3]).
Proof.
  apply (buildBuckets_counts [3; 5; 3]). simpl. lia.
Defined.

Lemma logFormat_handleFormat_witness :
  exists w',
    scenario_log = Done w'
    /\ Dump.handleFormat (fun _ => "") Dump.Reader_handleAuthor (Writer.written w')
         0 ""
       = Done (Z.of_nat (length (Writer.written w')),
               "[5.007]",
               "CAFE-47806 x=<7> pid=<PID: 1234, name: audio>").
Proof.
  apply (logFormat_handleFormat (fun _ => "") (fun d => d) scenario_writer [] 1234
           (bytes_of_string "audio") (Timespec 5 7000000)
           (bytes_of_string "x=%d pid=%p") scenario_hash [VaInt 7] "").
  - exact scenario_writer_ok.
  - by_decide.
  - by_decide.
  - by_decide.
  - simpl. unfold kMaxLength. lia.
  - reflexivity.
  - by_decide.
  - by_decide.
  - unfold scenario_hash. lia.
  - eexists. reflexivity.
Defined.

Lemma handleFormat_merged_witness :
  Dump.handleFormat (fun _ => "") (Dump.MergeReader_handleAuthor ["fast"; "normal"])
    (encode_all (authored 1 late_record)) 0 ""
  = Done (Z.of_nat (length (encode_all (authored 1 late_record))),
          Dump.fmt_timestamp (Timespec 2 0),
          Format.appendHash "" 1 +:+ "normal" +:+ ": "
          +:+ rendered (fun _ => "") (fun d => d) 1234 (bytes_of_string "audio")
                (bytes_of_string "late") []).
Proof.
  pose proof (handleFormat_merged (fun _ => "") (fun d => d) ["fast"; "normal"]
                "normal" [] [] 1234 (bytes_of_string "audio") (Timespec 2 0)
                (bytes_of_string "late") 1 [] [] 1 "") as H.
  cbv zeta in H. rewrite app_nil_r in H. apply H.
  - by_decide.
  - simpl. unfold kMaxLength. lia.
  - by_decide.
  - simpl. unfold kMaxLength. lia.
  - reflexivity.
  - constructor.
  - by_decide.
  - lia.
  - reflexivity.
  - reflexivity.
  - simpl. lia.
Defined.

Lemma handleFormat_merge_reader_untagged_witness :
  Dump.handleFormat (fun _ => "") (Dump.MergeReader_handleAuthor ["fast"; "normal"])
    (encode_record late_record) 0 ""
  = Undefined.
Proof.
  pose proof (handleFormat_merge_reader_untagged (fun _ => "") (fun d => d)
                ["fast"; "normal"] [] [] 1234 (bytes_of_string "audio")
                (Timespec 2 0) (bytes_of_string "late") 1 [] [] "") as H.
  cbv zeta in H. rewrite app_nil_r in H. apply H.
  - by_decide.
  - lia.
  - reflexivity.
Defined.

(** ** The merge thread *)

Lemma int_value_Done (v : Z) : - 2 ^ 31 <= v < 2 ^ 31 -> Dump.int_value v = Done v.
Proof.
  intros [H1 H2]. unfold Dump.int_value.
  destruct (Z.leb_spec (- 2 ^ 31) v); [|lia].
  destruct (Z.ltb_spec v (2 ^ 31)); [done|lia].
Qed.

Section Thread.
Import MergeThread.
Variables kThreadSleepPeriodUs kThreadWakeupPeriodUs : Z.
Variable merger : Type.
Variable merge : merger -> outcome merger.
Variable merged : merger -> merger.
Hypothesis merge_returns : forall m, merge m = Done (merged m).
Hypothesis sleep_positive : 0 < kThreadSleepPeriodUs.

(** The passes that merge, among [n] passes that start with the timeout
    [t]. *)
Let merges (n : nat) (t : Z) : nat :=
  Z.to_nat (Z.min (Z.of_nat n)
              ((t + kThreadSleepPeriodUs - 1) `div` kThreadSleepPeriodUs)).

Lemma passes_merges (n : nat) :
  forall th : t merger,
    mTimeoutUs merger th < 2 ^ 31 ->
    - 2 ^ 31 <= mTimeoutUs merger th - Z.of_nat n * kThreadSleepPeriodUs ->
    passes kThreadSleepPeriodUs merger merge n th
    = Done {| mMerger := Nat.iter (merges n (mTimeoutUs merger th)) merged
                           (mMerger merger th);
              mTimeoutUs := mTimeoutUs merger th
                            - Z.of_nat n * kThreadSleepPeriodUs |}.
Proof.
  induction n as [|n IH]; intros [m tm]; cbn [mTimeoutUs mMerger]; intros Hhi Hlo.
  - cbn [passes]. unfold merges.
    assert (E : Z.to_nat (Z.min (Z.of_nat 0)
                            ((tm + kThreadSleepPeriodUs - 1)
                               `div` kThreadSleepPeriodUs)) = O) by lia.
    rewrite E. cbn [Nat.iter]. do 2 f_equal. lia.
  - cbn [passes]. unfold threadLoop. cbn [mTimeoutUs mMerger].
    rewrite int_value_Done by nia. cbn [obind].
    set (m' := if 0 <? tm then merge m else Done m).
    assert (Hm' : m' = Done (if 0 <? tm then merged m else m)).
    { unfold m'. destruct (0 <? tm); [apply merge_returns|done]. }
    rewrite Hm'. cbn [obind snd].
    rewrite IH; cbn [mTimeoutUs mMerger]; [|lia|nia].
    f_equal. f_equal; [|nia].
    unfold merges.
    replace (tm - kThreadSleepPeriodUs + kThreadSleepPeriodUs - 1)
      with (tm - 1) by lia.
    replace (tm + kThreadSleepPeriodUs - 1)
      with (tm - 1 + 1 * kThreadSleepPeriodUs) by lia.
    rewrite Z.div_add by lia.
    pose proof (Z.div_pos (tm - 1) kThreadSleepPeriodUs) as Hq.
    pose proof (Z.div_lt_upper_bound (tm - 1) kThreadSleepPeriodUs 0 sleep_positive)
      as Hneg.
    destruct (Z.ltb_spec 0 tm) as [Ht|Ht].
    + replace (Z.to_nat (Z.min (Z.of_nat (S n))
                           ((tm - 1) `div` kThreadSleepPeriodUs + 1)))
        with (S (Z.to_nat (Z.min (Z.of_nat n)
                             ((tm - 1) `div` kThreadSleepPeriodUs)))) by lia.
      by rewrite Nat.iter_succ_r.
    + replace (Z.to_nat (Z.min (Z.of_nat (S n))
                           ((tm - 1) `div` kThreadSleepPeriodUs + 1)))
        with O by lia.
      replace (Z.to_nat (Z.min (Z.of_nat n) ((tm - 1) `div` kThreadSleepPeriodUs)))
        with O by lia.
      done.
Qed.

(** After [wakeup()], the next passes of [threadLoop] merge for as long as
    the wake-up period lasts: with no other call of [setTimeoutUs], [n]
    passes merge on the first ceil(wake-up period / sleep period) of them
    and on no other. *)
Theorem threadLoop_merges_after_wakeup (n : nat) (th : t merger) :
  kThreadWakeupPeriodUs < 2 ^ 31 ->
  - 2 ^ 31 <= kThreadWakeupPeriodUs - Z.of_nat n * kThreadSleepPeriodUs ->
  passes kThreadSleepPeriodUs merger merge n
    (wakeup kThreadWakeupPeriodUs merger th)
  = Done {| mMerger :=
              Nat.iter
                (Z.to_nat
                   (Z.min (Z.of_nat n)
                      ((kThreadWakeupPeriodUs + kThreadSleepPeriodUs - 1)
                         `div` kThreadSleepPeriodUs)))
                merged (mMerger merger th);
            mTimeoutUs := kThreadWakeupPeriodUs
                          - Z.of_nat n * kThreadSleepPeriodUs |}.
Proof.
  intros Hhi Hlo. apply (passes_merges n (wakeup kThreadWakeupPeriodUs merger th));
    cbn; lia.
Qed.

End Thread.

(** ** The scaling of the histogram *)

(** For a height limit of at least two rows, the scaling leaves between one
    row and the limit, and the tallest bar reaches the top row: the bucket
    of count [maxVal] fills [height] rows of [scalingFactor] samples. *)
Theorem drawHistogram_scale_fits (maxVal maxHeight : Z) :
  1 <= maxVal -> 2 <= maxHeight -> maxVal + maxHeight < 2 ^ 31 ->
  exists height scalingFactor : Z,
    Dump.drawHistogram_scale maxVal maxHeight = Done (height, scalingFactor)
    /\ 1 <= scalingFactor
    /\ 1 <= height <= maxHeight
    /\ height * scalingFactor <= maxVal < (height + 1) * scalingFactor.
Proof.
  intros Hv Hh Hsum. unfold Dump.drawHistogram_scale.
  destruct (Z.ltb_spec maxHeight maxVal) as [Hgt|Hle].
  2: { exists maxVal, 1. split; [done|]. lia. }
  rewrite int_value_Done by lia. cbn [obind].
  destruct (Z.eqb_spec maxHeight 0); [lia|].
  rewrite Z.quot_div_nonneg by lia.
  replace (maxVal + maxHeight) with (maxVal + 1 * maxHeight) by lia.
  rewrite Z.div_add by lia.
  pose proof (Z.mul_div_le maxVal maxHeight ltac:(lia)) as Q1.
  pose proof (Z.mul_succ_div_gt maxVal maxHeight ltac:(lia)) as Q2.
  set (q := maxVal `div` maxHeight) in *.
  assert (Hq : 1 <= q) by nia.
  destruct (Z.eqb_spec (q + 1) 0); [lia|].
  rewrite Z.quot_div_nonneg by lia.
  pose proof (Z.mul_div_le maxVal (q + 1) ltac:(lia)) as R1.
  pose proof (Z.mul_succ_div_gt maxVal (q + 1) ltac:(lia)) as R2.
  set (h := maxVal `div` (q + 1)) in *.
  exists h, (q + 1). split; [done|]. split; [lia|].
  split; [nia|nia].
Qed.

(** ** The dump of formatted records *)

Lemma isEmpty_append (a b : string) :
  Dump.isEmpty (a +:+ b) = Dump.isEmpty a && Dump.isEmpty b.
Proof. by destruct a. Qed.

Lemma appendHash_not_empty (body : string) (hash : Z) (rest : string) :
  Dump.isEmpty (Format.appendHash body hash +:+ rest) = false.
Proof.
  unfold Format.appendHash. rewrite !isEmpty_append.
  change (Dump.isEmpty "-") with false.
  by destruct (Dump.isEmpty body), (Dump.isEmpty (Format.fmt_X 4 _)).
Qed.

Lemma encode_items_cons (float_of_double : Z -> Z) (it : dump_item)
    (items : list dump_item) :
  encode_items float_of_double (it :: items)
  = encode_all (item_frames float_of_double it) ++ encode_items float_of_double items.
Proof. done. Qed.

Lemma item_frames_layout (float_of_double : Z -> Z) (it : dump_item) :
  exists rest : list frame,
    item_frames float_of_double it
    = Frame EVENT_START_FMT (c_fmt (i_call it)) :: rest.
Proof.
  unfold item_frames, item_record, call_record.
  destruct (i_author it); cbn; eauto.
Qed.

Lemma item_frames_length (float_of_double : Z -> Z) (it : dump_item) :
  (3 <= length (encode_all (item_frames float_of_double it)))%nat.
Proof.
  destruct (item_frames_layout float_of_double it) as [rest ->].
  rewrite encode_all_cons, length_app.
  pose proof (encode_length (Frame EVENT_START_FMT (c_fmt (i_call it)))).
  unfold kOverhead in *. lia.
Qed.

Lemma encode_items_length (float_of_double : Z -> Z) (items : list dump_item) :
  (length items <= length (encode_items float_of_double items))%nat.
Proof.
  induction items as [|it items IH]; [done|].
  rewrite encode_items_cons, length_app. cbn [length].
  pose proof (item_frames_length float_of_double it). lia.
Qed.

Section DumpLoop.
Import Dump.
Variable render_float : Z -> string.
Variable float_of_double : Z -> Z.
Variable handleAuthor : list Z -> AbstractEntry.t -> string -> outcome string.
Variable maxHeight : Z.
Variable author_text : dump_item -> string.
Variable named : dump_item -> Prop.
Variables fd indent : Z.
Hypothesis handleAuthor_item :
  forall (it : dump_item) (pre post : list Z) (body : string),
    named it -> item_ok float_of_double it ->
    handleAuthor (pre ++ encode_all (item_frames float_of_double it) ++ post)
      (AbstractEntry.FormatEntry (Z.of_nat (length pre))) body
    = Done (body +:+ author_text it).

Let item_line (it : dump_item) : string :=
  call_line render_float float_of_double (i_pid it) (i_procName it) fd
    (author_text it) (i_call it).

Lemma dump_entry_item (it : dump_item) (pre post : list Z) (st : dump_state) :
  named it -> item_ok float_of_double it ->
  d_entry st = Z.of_nat (length pre) -> d_body st = "" ->
  dump_entry render_float handleAuthor maxHeight
    (pre ++ encode_all (item_frames float_of_double it) ++ post) st
  = Done (DumpState
            (Z.of_nat (length pre)
             + Z.of_nat (length (encode_all (item_frames float_of_double it))))
            (timestamp_text (c_ts (i_call it)))
            (Format.appendHash "" (c_hash (i_call it)) +:+ author_text it
             +:+ rendered render_float float_of_double (i_pid it) (i_procName it)
                   (c_fmt (i_call it)) (c_args (i_call it)))
            (d_hists st) (d_lastTSs st)).
Proof.
  intros Hnamed Hok He Hb. pose proof Hok as (Hc & Hpb & Hpc & Hpl & Ha).
  destruct Hc as (Hfb & Hfc & Hfl & Hk & Hargs & Hpr & Hh & [frames Hfr]).
  pose proof (timespec_prints_ok _ Hpr) as Hts.
  unfold dump_entry. rewrite He, Hb.
  assert (Hty : EntryIterator.type
                  (pre ++ encode_all (item_frames float_of_double it) ++ post)
                  (Z.of_nat (length pre)) = EVENT_START_FMT).
  { destruct (item_frames_layout float_of_double it) as [rest ->].
    pose proof (frame_at_seq pre post []
                  (Frame EVENT_START_FMT (c_fmt (i_call it))) rest) as H.
    cbn [app] in H. change (encode_all []) with (@nil Z) in H.
    cbn [length] in H. rewrite Z.add_0_r in H. exact (at_type _ _ _ H). }
  rewrite Hty, Z.eqb_refl.
  pose proof (handleFormat_record render_float float_of_double handleAuthor
                (i_pid it) (i_procName it) Hpc Hpl pre post (c_fmt (i_call it))
                (c_ts (i_call it)) (c_hash (i_call it)) (c_args (i_call it)) frames
                (Z.of_nat <$> i_author it) Hfc Hk Hargs Hts Hh Hfr "" Hfl) as HR.
  assert (Hfrm : item_frames float_of_double it
                 = record_frames (Z.of_nat <$> i_author it)
                     (RFormat (c_fmt (i_call it)) (c_ts (i_call it))
                        (c_hash (i_call it)) frames)).
  { unfold item_frames, item_record, call_record. by rewrite Hfr. }
  rewrite <- Hfrm in HR. rewrite HR, handleAuthor_item by done.
  cbn [obind]. by rewrite append_assoc, fmt_timestamp_text.
Qed.

Variable m : list Z.
Variable post : list Z.

Lemma dump_loop_items (items : list dump_item) :
  forall (pre : list Z) (st : dump_state) (out : list string) (fuel : nat),
    m = pre ++ encode_items float_of_double items ++ post ->
    Forall named items ->
    Forall (item_ok float_of_double) items ->
    d_entry st = Z.of_nat (length pre) -> d_body st = "" ->
    (length items < fuel)%nat ->
    dump_loop render_float handleAuthor maxHeight fuel fd indent m
      (Z.of_nat (length pre)
       + Z.of_nat (length (encode_items float_of_double items))) st out
    = Done (out ++ (item_line <$> items)).
Proof.
  induction items as [|it items IH];
    intros pre st out fuel Hm Hnamed Hok He Hb Hfuel.
  - change (encode_items float_of_double []) with (@nil Z). cbn [length].
    rewrite Z.add_0_r, app_nil_r.
    destruct fuel; cbn [dump_loop]; rewrite He, Z.eqb_refl; done.
  - destruct fuel as [|fuel]; [cbn [length] in Hfuel; lia|].
    apply Forall_cons in Hok as [Hit Hok].
    apply Forall_cons in Hnamed as [Hnit Hnamed].
    rewrite encode_items_cons, <- app_assoc in Hm.
    cbn [dump_loop]. rewrite He.
    pose proof (item_frames_length float_of_double it) as Hlen.
    rewrite encode_items_cons, length_app.
    destruct (Z.eqb_spec (Z.of_nat (length pre))
                (Z.of_nat (length pre)
                 + Z.of_nat (length (encode_all (item_frames float_of_double it))
                             + length (encode_items float_of_double items))));
      [lia|].
    destruct (item_frames_layout float_of_double it) as [rest Hlay].
    assert (Hm1 : m = pre ++ encode (Frame EVENT_START_FMT (c_fmt (i_call it)))
                        ++ (encode_all rest
                            ++ encode_items float_of_double items ++ post)).
    { rewrite Hm, Hlay, encode_all_cons. by rewrite <- !app_assoc. }
    assert (Hb0 : in_buffer m (Z.of_nat (length pre)) = true).
    { rewrite Hm1. pose proof (in_buffer_frame pre
                                 (encode_all rest
                                  ++ encode_items float_of_double items ++ post)
                                 (Frame EVENT_START_FMT (c_fmt (i_call it))) 0
                                 ltac:(lia)) as H.
      by rewrite Z.add_0_r in H. }
    assert (Hb1 : in_buffer m (Z.of_nat (length pre) + offsetof_length) = true).
    { rewrite Hm1. apply in_buffer_frame. unfold offsetof_length. lia. }
    rewrite Hb0, Hb1. cbn [andb negb].
    rewrite Hm at 1. rewrite (dump_entry_item it pre _ st Hnit Hit He Hb).
    cbn [obind d_body d_entry d_timestamp d_hists d_lastTSs].
    rewrite appendHash_not_empty, dumpLine_text.
    replace (Z.of_nat (length pre)
             + Z.of_nat (length (encode_all (item_frames float_of_double it))
                         + length (encode_items float_of_double items)))
      with (Z.of_nat (length (pre ++ encode_all (item_frames float_of_double it)))
            + Z.of_nat (length (encode_items float_of_double items)))
      by (rewrite length_app; lia).
    rewrite IH.
    + by rewrite <- app_assoc.
    + by rewrite <- app_assoc.
    + done.
    + done.
    + cbn [d_entry]. rewrite length_app. lia.
    + done.
    + cbn [length] in Hfuel. lia.
Qed.

End DumpLoop.

(** ** From the calls of a writer to the lines of the dump *)

Section WriterCalls.
Variable float_of_double : Z -> Z.
Variable pid : Z.
Variable procName : list Z.

Lemma call_frames (c : format_call) :
  call_ok float_of_double pid procName c ->
  exists frames,
    arg_frames float_of_double (le_bytes 4 pid ++ procName) (specifiers (c_fmt c))
      (c_args c) = Some frames
    /\ call_record float_of_double pid procName c
       = RFormat (c_fmt c) (c_ts c) (c_hash c) frames.
Proof.
  intros (_ & _ & _ & _ & _ & _ & _ & [frames Hfr]). exists frames.
  split; [done|]. unfold call_record. by rewrite Hfr.
Qed.

(** The calls leave their records in the FIFO, one after the other. *)
Lemma run_calls_written (calls : list format_call) :
  forall (w : Writer.t) (fifo : list Z),
    writer_ok w fifo (le_bytes 4 pid ++ procName) ->
    Forall (call_ok float_of_double pid procName) calls ->
    exists w',
      run_calls float_of_double w calls = Done w'
      /\ Writer.written w'
         = fifo ++ encode_records (call_record float_of_double pid procName <$> calls).
Proof.
  induction calls as [|c calls IH]; intros w fifo Hw Hok.
  - exists w. split; [done|]. destruct Hw as (_ & Hf & _).
    unfold Writer.written. rewrite Hf. cbn. by rewrite app_nil_r.
  - apply Forall_cons in Hok as [Hc Hok].
    destruct (call_frames c Hc) as (frames & Hfr & Hrec).
    destruct Hc as (Hfb & Hfc & Hfl & Hk & Hargs & Hts & Hh & _).
    pose proof Hw as (Hen & _).
    pose proof (logVFormat_frames float_of_double (le_bytes 4 pid ++ procName) w fifo
                  (Some (c_ts c)) (c_fmt c) (c_hash c) (c_args c) Hw Hfb
                  (va_arg_typed_ok _ Hargs)) as H.
    rewrite Hfr in H. cbn [run_calls]. unfold Writer.logFormat.
    rewrite Hen. cbn [negb]. rewrite H. cbn [obind].
    destruct (IH _ _ (set_fifo_ok w fifo _
                        (fifo ++ encode_all
                                   (format_frames_clock (c_fmt c) (Some (c_ts c))
                                      (c_hash c) frames)) Hw) Hok)
      as (w' & Hrun & Hwr).
    exists w'. split; [exact Hrun|]. rewrite Hwr.
    cbn [fmap list_fmap]. rewrite encode_records_cons, Hrec, <- app_assoc.
    do 2 f_equal. unfold encode_record, format_frames_clock. cbn [rec_frames app].
    by rewrite string_payload_chars.
Qed.

End WriterCalls.

Section ItemsFifo.
Variable float_of_double : Z -> Z.

Lemma item_frames_ok (it : dump_item) :
  item_ok float_of_double it -> Forall frame_ok (item_frames float_of_double it).
Proof.
  intros (Hc & Hpb & Hpc & Hpl & Ha).
  destruct (call_frames float_of_double _ _ _ Hc) as (frames & Hfr & Hrec).
  destruct Hc as (Hfb & Hfc & Hfl & Hk & Hargs & Hts & Hh & _).
  assert (Hfs : Forall frame_ok (frames ++ [Frame EVENT_END_FMT []])).
  { apply Forall_app. split.
    - assert (Hb : bytes (le_bytes 4 (i_pid it) ++ i_procName it)).
      { apply Forall_app. split; [apply le_bytes_bytes|done]. }
      assert (Hl : Z.of_nat (length (le_bytes 4 (i_pid it) ++ i_procName it))
                   <= kMaxLength).
      { rewrite length_app, le_bytes_length. lia. }
      pose proof (arg_frames_arg_ok float_of_double _ _ _ _ Hb Hl
                    (va_arg_typed_ok _ Hargs) Hfr) as H.
      eapply Forall_impl; [exact H|]. by intros f [Hf _].
    - constructor; [|constructor]. split; [by_decide|]. split; [constructor|].
      cbn. unfold kMaxLength. lia. }
  unfold item_frames, item_record. rewrite Hrec.
  assert (H1 : frame_ok (Frame EVENT_START_FMT (c_fmt (i_call it)))).
  { split; [by_decide|]. by split. }
  assert (H2 : frame_ok (Frame EVENT_TIMESTAMP (timespec_bytes (c_ts (i_call it))))).
  { apply timespec_frame_ok. by_decide. }
  assert (H3 : frame_ok (Frame EVENT_HASH (le_bytes 8 (c_hash (i_call it))))).
  { apply le_bytes_frame_ok; [by_decide|lia]. }
  destruct (i_author it) as [i|]; cbn [fmap option_fmap option_map record_frames
                                       rec_frames authored].
  - repeat (constructor; [done|]). constructor; [|done].
    apply le_bytes_frame_ok; [by_decide|lia].
  - by repeat (constructor; [done|]).
Qed.

Lemma encode_items_frames (items : list dump_item) :
  encode_items float_of_double items
  = encode_all (concat (item_frames float_of_double <$> items)).
Proof.
  induction items as [|it items IH]; [done|].
  rewrite encode_items_cons, IH. cbn [fmap list_fmap concat].
  by rewrite encode_all_app.
Qed.

Lemma item_frames_last (it : dump_item) :
  exists front : list frame,
    item_frames float_of_double it = front ++ [Frame EVENT_END_FMT []].
Proof.
  unfold item_frames, item_record, call_record.
  destruct (i_author it); cbn [fmap option_fmap option_map record_frames rec_frames
                               authored].
  - eexists (_ :: _ :: _ :: _ :: _). cbn [app]. reflexivity.
  - eexists (_ :: _ :: _ :: _). cbn [app]. reflexivity.
Qed.

(** The snapshot of a FIFO that holds formatted records holds all of it. *)
Lemma getSnapshot_items (o : Reader.obtained) (items : list dump_item) :
  Reader.iovec0 o ++ Reader.iovec1 o = encode_items float_of_double items ->
  Forall (item_ok float_of_double) items ->
  let s := (Reader.getSnapshot (Some o)).1 in
  Reader.mData s = encode_items float_of_double items
  /\ Reader.mBegin s = 0
  /\ Reader.mEnd s = Z.of_nat (length (encode_items float_of_double items))
  /\ (Reader.getSnapshot (Some o)).2
     = Z.of_nat (length (encode_items float_of_double items)).
Proof.
  intros Hd Hok.
  destruct (getSnapshot_frames o [] (concat (item_frames float_of_double <$> items)) [])
    as (H1 & H2 & H3 & H4).
  - cbn [app]. by rewrite app_nil_r, <- encode_items_frames.
  - cbn [app]. rewrite app_nil_r. apply Forall_concat, Forall_fmap.
    eapply Forall_impl; [exact Hok|]. intros it Hit. by apply item_frames_ok.
  - constructor.
  - constructor.
  - destruct items as [|it items]; [done|]. cbn [fmap list_fmap concat].
    destruct (item_frames_layout float_of_double it) as [rest ->]. cbn [app].
    by_decide.
  - cbn [app]. destruct items as [|it items] using rev_ind; [done|].
    rewrite fmap_app, concat_app. cbn [fmap list_fmap concat].
    destruct (item_frames_last it) as [front ->].
    rewrite app_nil_r, app_assoc, last_snoc. by_decide.
  - cbn [app] in H3. rewrite <- encode_items_frames in H3. cbv zeta.
    rewrite H1, H2, H4, H3, Hd. done.
Qed.

Lemma getSnapshot_lost (o : Reader.obtained) :
  Reader.lost o = 0 -> Reader.mLost (Reader.getSnapshot (Some o)).1 = 0.
Proof.
  intros Hl. unfold Reader.getSnapshot.
  destruct (_ <=? 0); [done|].
  destruct (Reader.findLastEntryOfTypes _ _ _ _); done.
Qed.

End ItemsFifo.

(** The lines of [dump] are the calls of [logFormat]: after any sequence of
    calls with format strings of at most 255 characters and conversions of
    the grammar, on a writer with an empty FIFO, a reader that obtains all
    that was written, with nothing lost to an overrun, takes all of it with
    [dump] and prints one line for each call, in the order of the calls:
    the time as [[sec.msec]], a space, the hash and the arguments laid into
    the format string, and a line feed when the line goes to a file
    descriptor. *)
Theorem dump_prints_calls (render_float : Z -> string) (float_of_double : Z -> Z)
    (maxHeight fd indent : Z) (w : Writer.t) (pid : Z) (procName : list Z)
    (calls : list format_call) :
  writer_ok w [] (le_bytes 4 pid ++ procName) ->
  Forall (fun x => x <> 0) procName ->
  Forall (call_ok float_of_double pid procName) calls ->
  exists w',
    run_calls float_of_double w calls = Done w'
    /\ forall o : Reader.obtained,
         obtains_all o (Writer.written w') ->
         Dump.dump_reader render_float Dump.Reader_handleAuthor maxHeight fd indent
           (Some o)
         = (Done (call_line render_float float_of_double pid procName fd ""
                    <$> calls),
            Z.of_nat (length (Writer.written w'))).
Proof.
  intros Hw Hname Hok.
  destruct (run_calls_written float_of_double pid procName calls w [] Hw Hok)
    as (w' & Hrun & Hwr).
  exists w'. split; [exact Hrun|]. intros o [Ho Hlost]. cbn [app] in Hwr.
  pose proof Hw as (_ & _ & _ & _ & Hl & Hb).
  apply Forall_app in Hb as [_ Hb]. rewrite length_app, le_bytes_length in Hl.
  set (items := DumpItem None pid procName <$> calls).
  assert (Hitems : Forall (item_ok float_of_double) items).
  { unfold items. apply Forall_fmap. eapply Forall_impl; [exact Hok|].
    intros c Hc. split; [exact Hc|]. split; [exact Hb|]. split; [exact Hname|].
    split; [cbn; lia|exact I]. }
  assert (Henc : Writer.written w' = encode_items float_of_double items).
  { rewrite Hwr. unfold items, encode_items, encode_records.
    rewrite <- !list_fmap_compose. done. }
  destruct (getSnapshot_items float_of_double o items) as (H1 & H2 & H3 & H4).
  { by rewrite Ho. }
  { exact Hitems. }
  unfold Dump.dump_reader. rewrite H4, <- Henc. f_equal.
  unfold Dump.dump. rewrite (getSnapshot_lost o Hlost), H1, H2, H3.
  change ((0 + (0 - 0)) `mod` 2 ^ 64) with 0. cbn [Z.ltb Z.compare].
  pose proof (dump_loop_items render_float float_of_double Dump.Reader_handleAuthor
                maxHeight (fun _ => "") (fun _ => True) fd indent) as HL.
  specialize (HL ltac:(intros; unfold Dump.Reader_handleAuthor;
                       by rewrite append_nil_r)).
  specialize (HL (encode_items float_of_double items) [] items []
                (Dump.DumpState 0 "" "" ∅ ∅) []
                (S (length (encode_items float_of_double items)))).
  cbn [length app] in HL. rewrite Z.add_0_l in HL. rewrite HL.
  - f_equal. unfold items. rewrite <- list_fmap_compose. done.
  - by rewrite app_nil_r.
  - by apply Forall_true.
  - exact Hitems.
  - done.
  - done.
  - pose proof (encode_items_length float_of_double items). lia.
Qed.

(** ** Several writers, the merger and the merge reader *)

Section ProcWriters.
Variable float_of_double : Z -> Z.

(** The calls of process [p] are well formed. *)
Let calls_ok (p : proc) (calls : list format_call) : Prop :=
  Forall (call_ok float_of_double (p_pid p) (p_procName p)) calls.

Lemma call_record_ok (p : proc) (c : format_call) :
  proc_ok p -> call_ok float_of_double (p_pid p) (p_procName p) c ->
  record_ok (call_record float_of_double (p_pid p) (p_procName p) c).
Proof.
  intros (Hpb & Hpc & Hpl) Hc.
  destruct (call_frames float_of_double _ _ _ Hc) as (frames & Hfr & ->).
  destruct Hc as (Hfb & Hfc & Hfl & Hk & Hargs & Hts & Hh & _).
  split; [done|]. split; [done|]. split; [by apply timespec_prints_ok|].
  split; [done|].
  eapply (arg_frames_arg_ok float_of_double); [| |by apply va_arg_typed_ok|exact Hfr].
  - apply Forall_app. split; [apply le_bytes_bytes|done].
  - rewrite length_app, le_bytes_length. lia.
Qed.

Lemma proc_reader_holds (p : proc) (calls : list format_call) (o : Reader.obtained) :
  proc_ok p -> calls_ok p calls ->
  obtains_all o (encode_records (proc_stream float_of_double p calls)) ->
  reader_holds (Some o) (proc_stream float_of_double p calls).
Proof.
  intros Hp Hc [Ho _]. exists [], []. split; [constructor|]. split.
  { by destruct calls. }
  split.
  { cbn [app]. unfold proc_stream. apply Forall_fmap.
    eapply Forall_impl; [exact Hc|]. intros c Hcc. by apply call_record_ok. }
  split; [constructor|]. split; [constructor|].
  cbn [app]. by rewrite app_nil_r.
Qed.

(** Every writer runs its calls and has written their records. *)
Lemma run_all_calls :
  forall (ps : list proc) (logs : list (list format_call)) (ws : list Writer.t),
    Forall proc_ok ps ->
    Forall2 calls_ok ps logs ->
    Forall2 (fun p w => writer_ok w [] (le_bytes 4 (p_pid p) ++ p_procName p)) ps ws ->
    exists ws' : list Writer.t,
      Forall3 (fun w calls w' => run_calls float_of_double w calls = Done w')
        ws logs ws'
      /\ forall readers : list Reader.obtained,
           Forall2 (fun o w' => obtains_all o (Writer.written w')) readers ws' ->
           Forall2 reader_holds (Some <$> readers)
             (zip_with (proc_stream float_of_double) ps logs).
Proof.
  induction ps as [|p ps IH]; intros logs ws Hps Hl Hw.
  - apply Forall2_nil_inv_l in Hl as ->. apply Forall2_nil_inv_l in Hw as ->.
    exists []. split; [constructor|]. intros readers Hr.
    apply Forall2_nil_inv_r in Hr as ->. constructor.
  - apply Forall2_cons_inv_l in Hl as (calls & logs' & Hc & Hl & ->).
    apply Forall2_cons_inv_l in Hw as (w & ws' & Hwo & Hw & ->).
    apply Forall_cons in Hps as [Hp Hps].
    destruct (IH logs' ws' Hps Hl Hw) as (rest & H3 & H2).
    destruct (run_calls_written float_of_double (p_pid p) (p_procName p) calls w []
                Hwo Hc) as (w' & Hrun & Hwr).
    exists (w' :: rest). split; [by constructor|]. intros readers Hr.
    apply Forall2_cons_inv_r in Hr as (o & readers' & Ho & Hr & ->).
    cbn [fmap list_fmap zip_with]. constructor; [|by apply H2].
    apply proc_reader_holds; [done|done|]. cbn [app] in Hwr.
    unfold proc_stream. by rewrite <- Hwr.
Qed.

End ProcWriters.

Section Pipeline.
Variable float_of_double : Z -> Z.
Variable procs : list proc.
Hypothesis procs_ok : Forall proc_ok procs.
Hypothesis procs_count : Z.of_nat (length procs) < 2 ^ 31.

Let calls_ok (p : proc) (calls : list format_call) : Prop :=
  Forall (call_ok float_of_double (p_pid p) (p_procName p)) calls.

(** The merge order of the processes' records is made of their calls. *)
Lemma kmerge_logged (n : nat) :
  forall logs : list (list format_call),
    Forall2 calls_ok procs logs ->
    let streams := zip_with (proc_stream float_of_double) procs logs in
    let order := calls_in_order (kmerge n streams).*1 logs in
    kmerge n streams
    = (fun ic => (ic.1, item_record float_of_double (logged_item procs ic)))
        <$> order
    /\ Forall (fun ic => exists p, procs !! ic.1 = Some p
                                   /\ call_ok float_of_double (p_pid p)
                                        (p_procName p) ic.2) order.
Proof.
  induction n as [|n IH]; intros logs Hl; cbv zeta.
  { split; [done|constructor]. }
  destruct (Merger.extract_min
              (heads O (zip_with (proc_stream float_of_double) procs logs)))
    as [[top popped]|] eqn:E.
  2: { cbn [kmerge]. rewrite E. split; [done|constructor]. }
  destruct (kmerge_step _ _ _ E) as (r & rs & Hlk & _ & Hk).
  apply lookup_zip_with_Some in Hlk as (p & calls & Hrs & Hp & Hc).
  destruct calls as [|c calls]; [done|].
  unfold proc_stream in Hrs. cbn [fmap list_fmap] in Hrs.
  injection Hrs as -> ->.
  assert (Hcs : calls_ok p (c :: calls)).
  { eapply Forall2_lookup_lr; [exact Hl|exact Hp|exact Hc]. }
  apply Forall_cons in Hcs as [Hcc Hcs].
  destruct (IH (<[Merger.index top := calls]> logs)) as (Ho & Hf).
  { rewrite <- (list_insert_id procs (Merger.index top) p Hp).
    by apply Forall2_insert. }
  assert (Hins : <[Merger.index top
                   := call_record float_of_double (p_pid p) (p_procName p) <$> calls]>
                   (zip_with (proc_stream float_of_double) procs logs)
                 = zip_with (proc_stream float_of_double) procs
                     (<[Merger.index top := calls]> logs)).
  { change (call_record float_of_double (p_pid p) (p_procName p) <$> calls)
      with (proc_stream float_of_double p calls).
    rewrite insert_zip_with. by rewrite (list_insert_id procs _ p Hp). }
  rewrite Hk, Hins. cbn [fmap list_fmap fst calls_in_order]. rewrite Hc.
  split.
  - cbn [fmap list_fmap]. f_equal.
    + unfold item_record, logged_item. cbn [fst snd i_pid i_procName i_call].
      by rewrite Hp.
    + exact Ho.
  - constructor; [|exact Hf]. by exists p.
Qed.

Lemma encode_merged_items (order : list (nat * format_call)) :
  encode_merged
    ((fun ic => (ic.1, item_record float_of_double (logged_item procs ic))) <$> order)
  = encode_items float_of_double (logged_item procs <$> order).
Proof.
  unfold encode_merged, encode_items. by rewrite <- !list_fmap_compose.
Qed.

Lemma logged_item_ok (ic : nat * format_call) :
  (exists p, procs !! ic.1 = Some p
             /\ call_ok float_of_double (p_pid p) (p_procName p) ic.2) ->
  item_ok float_of_double (logged_item procs ic).
Proof.
  intros (p & Hp & Hc). unfold item_ok, logged_item. rewrite Hp.
  cbn [default i_call i_pid i_procName i_author].
  destruct (Forall_lookup_1 _ _ _ _ procs_ok Hp) as (Hb & Hn & Hl).
  split; [done|]. split; [done|]. split; [done|]. split; [done|].
  apply lookup_lt_Some in Hp. lia.
Qed.

(** [handleAuthor] of the merge reader on a tagged record. *)
Lemma MergeReader_handleAuthor_item (it : dump_item) (pre post : list Z)
    (body : string) (i : nat) (p : proc) :
  i_author it = Some i -> procs !! i = Some p ->
  item_ok float_of_double it ->
  Dump.MergeReader_handleAuthor (p_name <$> procs)
    (pre ++ encode_all (item_frames float_of_double it) ++ post)
    (AbstractEntry.FormatEntry (Z.of_nat (length pre))) body
  = Done (body +:+ p_name p +:+ ": ").
Proof.
  intros Ha Hp (Hc & _ & _ & _ & Hi). rewrite Ha in Hi.
  destruct (call_frames float_of_double _ _ _ Hc) as (frames & _ & Hrec).
  unfold item_frames, item_record. rewrite Hrec, Ha.
  cbn [fmap option_fmap option_map record_frames authored].
  unfold Dump.MergeReader_handleAuthor. cbn [AbstractEntry.author].
  destruct (FormatEntry_author_frames pre post
              (Frame EVENT_START_FMT (c_fmt (i_call it)))
              (Frame EVENT_TIMESTAMP (timespec_bytes (c_ts (i_call it))))
              (Frame EVENT_HASH (le_bytes 8 (c_hash (i_call it))))
              (Frame EVENT_AUTHOR (le_bytes 4 (Z.of_nat i)))
              (frames ++ [Frame EVENT_END_FMT []])) as [_ HA].
  rewrite HA by (first [done|cbn [fpayload]; rewrite le_bytes_length; lia]).
  cbn [fpayload]. rewrite take_ge by (by rewrite le_bytes_length).
  rewrite int_read_le_bytes by lia.
  destruct (Z.ltb_spec (Z.of_nat i) 0); [lia|].
  by rewrite Nat2Z.id, list_lookup_fmap, Hp.
Qed.

End Pipeline.

(** From the writers to the merged dump: after the processes have made
    their calls of [logFormat], each on a writer with an empty FIFO, a
    merge pass of a merger built over shared memory, whose readers obtain
    all that the writers have written, writes the records in their merge
    order; the [dump] of a merge reader that obtains all of that prints one
    line for each call, in that order, the calls of each process in the
    order it made them: the time as [[sec.msec]], a space, the hash, the
    name of the process' reader with a colon and a space, the arguments
    laid into the format string, and a line feed when the line goes to a
    file descriptor.  No FIFO has overrun. *)
Theorem merged_dump_prints_calls (render_float : Z -> string)
    (float_of_double : Z -> Z) (maxHeight fd indent : Z) (procs : list proc)
    (logs : list (list format_call)) (ws : list Writer.t) :
  Forall proc_ok procs ->
  Z.of_nat (length procs) < 2 ^ 31 ->
  Forall2 (fun p calls =>
             Forall (call_ok float_of_double (p_pid p) (p_procName p)) calls)
    procs logs ->
  Forall2 (fun p w => writer_ok w [] (le_bytes 4 (p_pid p) ++ p_procName p))
    procs ws ->
  let merged :=
    encode_merged (merge_order (zip_with (proc_stream float_of_double) procs logs)) in
  let order := merged_calls float_of_double procs logs in
  exists ws' : list Writer.t,
    Forall3 (fun w calls w' => run_calls float_of_double w calls = Done w')
      ws logs ws'
    /\ (fun ic => (ic.1, item_record float_of_double (logged_item procs ic)))
         <$> order
       = merge_order (zip_with (proc_stream float_of_double) procs logs)
    /\ forall readers : list Reader.obtained,
         Forall2 (fun o w' => obtains_all o (Writer.written w')) readers ws' ->
         MergerFifo.merge (Some <$> readers) (MergerFifo.Merger true)
         = Done (Some merged)
         /\ forall o : Reader.obtained,
              obtains_all o merged ->
              Dump.dump_reader render_float
                (Dump.MergeReader_handleAuthor (p_name <$> procs)) maxHeight fd
                indent (Some o)
              = (Done (logged_line render_float float_of_double fd procs <$> order),
                 Z.of_nat (length merged)).
Proof.
  intros Hps Hcount Hlogs Hws merged order.
  destruct (run_all_calls float_of_double procs logs ws Hps Hlogs Hws)
    as (ws' & Hrun & Hread).
  set (streams := zip_with (proc_stream float_of_double) procs logs) in *.
  destruct (kmerge_logged float_of_double procs (records_left streams) logs Hlogs)
    as (Hord & Hfor).
  fold streams in Hord, Hfor. fold (merge_order streams) in Hord, Hfor.
  fold (merged_calls float_of_double procs logs) in Hord, Hfor. fold order in Hord, Hfor.
  set (items := logged_item procs <$> order).
  assert (Hmerged : merged = encode_items float_of_double items).
  { unfold merged. rewrite Hord. apply encode_merged_items. }
  assert (Hitems : Forall (item_ok float_of_double) items).
  { unfold items. apply Forall_fmap. eapply Forall_impl; [exact Hfor|].
    intros ic Hic. by apply (logged_item_ok float_of_double procs Hps Hcount). }
  exists ws'.
  split; [exact Hrun|]. split; [by rewrite Hord|].
  intros readers Hreaders. split.
  { unfold MergerFifo.merge, MergerFifo.Merger.
    rewrite (merge_snapshots_refines _ streams)
      by (apply readers_snapshots; by apply Hread).
    done. }
  rewrite Hmerged. intros o [Ho Hlost].
  destruct (getSnapshot_items float_of_double o items) as (H1 & H2 & H3 & H4).
  { exact Ho. }
  { exact Hitems. }
  unfold Dump.dump_reader. rewrite H4. f_equal.
  unfold Dump.dump. rewrite (getSnapshot_lost o Hlost), H1, H2, H3.
  change ((0 + (0 - 0)) `mod` 2 ^ 64) with 0. cbn [Z.ltb Z.compare].
  pose proof (dump_loop_items render_float float_of_double
                (Dump.MergeReader_handleAuthor (p_name <$> procs)) maxHeight
                (fun it => match i_author it with
                           | Some i => p_name (default (Proc 0 [] "") (procs !! i))
                                       +:+ ": "
                           | None => ""
                           end)
                (fun it => exists i p, i_author it = Some i /\ procs !! i = Some p)
                fd indent) as HL.
  specialize (HL ltac:(intros it pre post body (i & p & Ha & Hp) Hit;
                       rewrite Ha, Hp;
                       exact (MergeReader_handleAuthor_item float_of_double procs
                                it pre post body i p Ha Hp Hit))).
  specialize (HL (encode_items float_of_double items) [] items []
                (Dump.DumpState 0 "" "" ∅ ∅) []
                (S (length (encode_items float_of_double items)))).
  cbn [length app] in HL. rewrite Z.add_0_l in HL. rewrite HL.
  - f_equal. unfold items. rewrite <- list_fmap_compose. done.
  - by rewrite app_nil_r.
  - unfold items. apply Forall_fmap. eapply Forall_impl; [exact Hfor|].
    intros ic (p & Hp & _). by exists ic.1, p.
  - exact Hitems.
  - done.
  - done.
  - pose proof (encode_items_length float_of_double items). lia.
Qed.

(** ** [drawHistogram] returns *)

Section DrawHistogram.
Import Dump.

(** The buckets of a non-empty vector: there is one, and each holds between
    one and all of the samples. *)
Lemma bucket_list_samples (samples : list Z) :
  samples <> [] -> Z.of_nat (length samples) < 2 ^ 31 ->
  exists (b : gmap Z Z) (first : Z * Z) (rest : list (Z * Z)),
    buildBuckets samples = Done b
    /\ bucket_list b = first :: rest
    /\ Forall (fun x => 1 <= x.2 <= Z.of_nat (length samples)) (first :: rest).
Proof.
  intros Hne Hlen.
  destruct (buildBuckets_loop_counts samples ∅) as (b & Hb & Hx).
  { intros x. by rewrite lookup_empty. }
  { intros x. rewrite lookup_empty. cbn. unfold occurrences.
    pose proof (length_filter (fun y => y = x) samples). lia. }
  assert (Hall : Forall (fun x : Z * Z => 1 <= x.2 <= Z.of_nat (length samples))
                   (bucket_list b)).
  { apply Forall_forall. intros [k v] Hin. unfold bucket_list in Hin.
    rewrite merge_sort_Permutation in Hin.
    apply elem_of_map_to_list in Hin. rewrite Hx, lookup_empty in Hin.
    cbn [snd]. unfold occurrences in *.
    pose proof (length_filter (fun y => y = k) samples).
    destruct (Z.eqb_spec (Z.of_nat (length (filter (fun y => y = k) samples))) 0);
      [done|].
    injection Hin as <-. cbn. lia. }
  destruct (bucket_list b) as [|first rest] eqn:Hl.
  - exfalso. destruct samples as [|y samples]; [done|].
    assert (Hy : b !! y = Some (occurrences y (y :: samples))).
    { rewrite Hx, lookup_empty. rewrite occurrences_cons.
      rewrite bool_decide_eq_true_2 by done.
      pose proof (occurrences_nonneg y samples).
      destruct (Z.eqb_spec (1 + occurrences y samples) 0); [lia|done]. }
    apply elem_of_map_to_list in Hy.
    rewrite <- (merge_sort_Permutation bucket_le) in Hy.
    fold (bucket_list b) in Hy. rewrite Hl in Hy. by apply elem_of_nil in Hy.
  - exists b, first, rest. done.
Qed.

(** The largest count lies between the bounds of the counts. *)
Lemma max_count_bounds (rest : list (Z * Z)) (lo hi : Z) :
  forall a : Z,
    lo <= a <= hi -> Forall (fun x : Z * Z => lo <= x.2 <= hi) rest ->
    lo <= foldl (fun (a : Z) (x : Z * Z) => if a <? x.2 then x.2 else a) a rest <= hi.
Proof.
  induction rest as [|x rest IH]; intros a Ha Hall; [done|].
  apply Forall_cons in Hall as [Hx Hall]. cbn [foldl].
  apply IH; [|done]. destruct (a <? x.2); done.
Qed.

(** With a height limit below one row the scaling divides by zero or leaves
    a negative scaling factor under rows to draw. *)
Lemma drawHistogram_scale_low (maxVal maxHeight : Z) :
  1 <= maxVal -> maxHeight <= 0 -> maxVal - maxHeight < 2 ^ 31 ->
  drawHistogram_scale maxVal maxHeight = Undefined
  \/ exists height scalingFactor : Z,
       drawHistogram_scale maxVal maxHeight = Done (height, scalingFactor)
       /\ scalingFactor < 0 /\ 0 < height * scalingFactor.
Proof.
  intros Hv Hh Hsum. unfold drawHistogram_scale.
  destruct (Z.ltb_spec maxHeight maxVal) as [_|Hle]; [|lia].
  rewrite int_value_Done by lia. cbn [obind].
  destruct (Z.eqb_spec maxHeight 0) as [|Hne]; [by left|].
  set (k := - maxHeight). assert (Hk : 0 < k) by lia.
  replace maxHeight with (- k) by lia.
  rewrite Z.quot_opp_r by lia.
  destruct (Z.eqb_spec (- ((maxVal + - k) ÷ k)) 0) as [|Hsf]; [by left|].
  right. eexists _, _. split; [reflexivity|].
  destruct (Z.le_gt_cases (maxVal + - k) 0) as [Hneg|Hpos].
  { exfalso. apply Hsf.
    replace (maxVal + - k) with (- (k - maxVal)) by lia.
    rewrite Z.quot_opp_l by lia. rewrite Z.quot_small by lia. done. }
  rewrite Z.quot_div_nonneg in * by lia.
  pose proof (Z.mul_div_le (maxVal + - k) k Hk) as Q1.
  pose proof (Z.div_pos (maxVal + - k) k ltac:(lia) Hk) as Q2.
  set (q := (maxVal + - k) `div` k) in *.
  assert (Hq : 1 <= q) by lia. split; [lia|].
  rewrite Z.quot_opp_r by lia. rewrite Z.quot_div_nonneg by lia.
  pose proof (Z.mul_div_le maxVal q ltac:(lia)) as R1.
  pose proof (Z.mul_succ_div_gt maxVal q ltac:(lia)) as R2.
  set (h := maxVal `div` q) in *. nia.
Qed.

(** With a negative one, the rows to draw never end: the counter grows
    until it overflows. *)
Lemma drawHistogram_rows_negative (buckets : list (Z * Z))
    (leftPadding colWidth scalingFactor : Z) :
  scalingFactor < 0 ->
  forall (fuel : nat) (row : Z) (body : string),
    0 < row ->
    drawHistogram_rows fuel buckets leftPadding colWidth scalingFactor row body
    = Undefined.
Proof.
  intros Hsf. induction fuel as [|fuel IH]; intros row body Hrow;
    cbn [drawHistogram_rows]; destruct (Z.ltb_spec 0 row); try lia; [done|].
  unfold int_value.
  destruct ((- 2 ^ 31 <=? row - scalingFactor) && (row - scalingFactor <? 2 ^ 31));
    [|done].
  cbn [obind]. apply IH. lia.
Qed.

Lemma occurrences_elem (x : Z) (samples : list Z) :
  occurrences x samples <> 0 <-> x ∈ samples.
Proof.
  unfold occurrences. split.
  - intros H. destruct (filter (fun y => y = x) samples) as [|y l] eqn:E; [done|].
    assert (Hy : y ∈ filter (fun y => y = x) samples) by (rewrite E; left).
    apply list_elem_of_filter in Hy as [-> Hy]. done.
  - intros H Hz.
    assert (Hx : x ∈ filter (fun y => y = x) samples) by (by apply list_elem_of_filter).
    destruct (filter (fun y => y = x) samples); [by apply elem_of_nil in Hx|done].
Qed.

Lemma pairs_of_keys {A B} (f : A -> B) (l : list (A * B)) :
  Forall (fun p => p.2 = f p.1) l -> l = (fun x => (x, f x)) <$> l.*1.
Proof.
  induction 1 as [|[k v] l Hp _ IH]; [done|].
  cbn in *. by rewrite <- IH, Hp.
Qed.

(** The buckets that [buildBuckets] leaves, walked in the order of the map,
    are the values of the samples in ascending order, each with the number
    of its occurrences. *)
Lemma bucket_list_sample_buckets (samples : list Z) (b : gmap Z Z) :
  (forall x, b !! x = if occurrences x samples =? 0 then None
                      else Some (occurrences x samples)) ->
  bucket_list b = sample_buckets samples.
Proof.
  intros Hb.
  assert (Hin : forall k v, (k, v) ∈ bucket_list b <-> b !! k = Some v).
  { intros k v. unfold bucket_list. rewrite merge_sort_Permutation.
    apply elem_of_map_to_list. }
  assert (Hkeys : (bucket_list b).*1 = merge_sort Z.le (remove_dups samples)).
  { apply (StronglySorted_unique Z.le).
    - apply (StronglySorted_fmap fst bucket_le Z.le); [by intros [] []|].
      apply StronglySorted_merge_sort; apply _.
    - apply StronglySorted_merge_sort; apply _.
    - apply NoDup_Permutation.
      + unfold bucket_list. rewrite merge_sort_Permutation.
        apply NoDup_fst_map_to_list.
      + rewrite merge_sort_Permutation. apply NoDup_remove_dups.
      + intros x. rewrite merge_sort_Permutation, elem_of_remove_dups.
        rewrite <- (occurrences_elem x samples). split.
        * intros Hx. apply list_elem_of_fmap in Hx as ([k v] & -> & Hkv).
          apply Hin in Hkv. rewrite Hb in Hkv. cbn.
          by destruct (Z.eqb_spec (occurrences k samples) 0).
        * intros Hx. apply list_elem_of_fmap.
          exists (x, occurrences x samples). split; [done|].
          apply Hin. rewrite Hb.
          by destruct (Z.eqb_spec (occurrences x samples) 0). }
  unfold sample_buckets. rewrite <- Hkeys. apply pairs_of_keys.
  apply Forall_forall. intros [k v] Hkv. apply Hin in Hkv. rewrite Hb in Hkv.
  cbn. destruct (occurrences k samples =? 0); congruence.
Qed.

(** *** The drawing *)

Lemma blanks_fill (n : nat) : blanks n = fill n " ".
Proof. induction n as [|n IH]; [done|]. cbn [blanks fill]. by rewrite IH. Qed.

Lemma fill_snoc (n : nat) (s : string) : fill n s +:+ s = fill (S n) s.
Proof.
  induction n as [|n IH]; cbn [fill].
  - by rewrite append_nil_r.
  - rewrite append_assoc. by rewrite IH.
Qed.

Lemma pad_justified (width : Z) (s : string) :
  0 <= width -> pad width s = right_justified width s.
Proof.
  intros Hw. unfold pad, right_justified.
  destruct (Z.ltb_spec width 0); [lia|]. by rewrite blanks_fill.
Qed.

Lemma pad_blank (width : Z) : 1 <= width -> pad width " " = fill (Z.to_nat width) " ".
Proof.
  intros Hw. rewrite pad_justified by lia. unfold right_justified.
  change (String.length " ") with 1%nat. rewrite fill_snoc. f_equal. lia.
Qed.

Lemma precision_fill (n : Z) :
  0 <= n <= 16 ->
  precision n underscores = fill (Z.to_nat n) "_"
  /\ precision n spaces = fill (Z.to_nat n) " ".
Proof.
  intros Hn. unfold precision. destruct (Z.ltb_spec n 0) as [?|_]; [lia|].
  assert (H : Forall (fun k => String.substring 0 k underscores = fill k "_"
                               /\ String.substring 0 k spaces = fill k " ")
                (seq 0 17)).
  { repeat constructor. }
  rewrite Forall_forall in H. apply H. apply elem_of_seq. lia.
Qed.

Lemma foldl_texts {A} (f : A -> string) (l : list A) :
  forall body : string, foldl (fun b x => b +:+ f x) body l = body +:+ texts f l.
Proof.
  induction l as [|x l IH]; intros body; cbn [foldl texts foldr].
  - by rewrite append_nil_r.
  - rewrite IH. by rewrite append_assoc.
Qed.

Lemma texts_ext {A} (f g : A -> string) (l : list A) :
  Forall (fun x => f x = g x) l -> texts f l = texts g l.
Proof.
  induction 1 as [|x l Hx _ IH]; [done|]. cbn [texts foldr].
  fold (texts f l). fold (texts g l). by rewrite Hx, IH.
Qed.

Lemma texts_cons {A} (f : A -> string) (x : A) (l : list A) :
  texts f (x :: l) = f x +:+ texts f l.
Proof. done. Qed.

(** One row of bars, as the code draws it. *)
Lemma drawHistogram_row_chart (buckets : list (Z * Z))
    (leftPadding colWidth scalingFactor row : Z) (body : string) :
  0 <= leftPadding -> 0 <= colWidth - 2 <= 16 -> - 2 ^ 31 <= row < 2 ^ 31 ->
  drawHistogram_row buckets leftPadding colWidth scalingFactor row body
  = body +:+ chart_row buckets leftPadding colWidth scalingFactor row.
Proof.
  intros Hlp Hcw Hrow. unfold drawHistogram_row, chart_row.
  rewrite (foldl_texts
             (fun x : Z * Z =>
                precision (colWidth - 2)
                  (if row =? scalingFactor then underscores else spaces)
                +:+ (if x.2 <? row
                     then (if row =? scalingFactor then "__" else "  ")
                     else "[]"))).
  rewrite pad_justified, fmt_d_pretty by done.
  destruct (precision_fill (colWidth - 2) Hcw) as [Hu Hs].
  rewrite !append_assoc. do 3 f_equal.
  change nl with line_feed. f_equal.
  apply texts_ext, Forall_forall. intros x _.
  destruct (Z.eqb_spec row scalingFactor) as [E|E].
  - rewrite bool_decide_true by done. rewrite Hu.
    destruct (Z.ltb_spec x.2 row).
    + by rewrite bool_decide_true by done.
    + by rewrite bool_decide_false by lia.
  - rewrite bool_decide_false by done. rewrite Hs.
    destruct (Z.ltb_spec x.2 row).
    + by rewrite bool_decide_true by done.
    + by rewrite bool_decide_false by lia.
Qed.

(** The rows of bars, from the top one down. *)
Lemma drawHistogram_rows_chart (buckets : list (Z * Z))
    (leftPadding colWidth scalingFactor : Z) :
  0 <= leftPadding -> 0 <= colWidth - 2 <= 16 -> 1 <= scalingFactor ->
  forall (height fuel : nat) (body : string),
    (height <= fuel)%nat -> Z.of_nat height * scalingFactor < 2 ^ 31 ->
    drawHistogram_rows fuel buckets leftPadding colWidth scalingFactor
      (Z.of_nat height * scalingFactor) body
    = Done (body +:+ texts (fun k : Z => chart_row buckets leftPadding colWidth
                                           scalingFactor (k * scalingFactor))
                       (reverse (seqZ 1 (Z.of_nat height)))).
Proof.
  intros Hlp Hcw Hsf. induction height as [|height IH]; intros fuel body Hfuel Hhi.
  - change (Z.of_nat 0 * scalingFactor) with 0. cbn. rewrite append_nil_r.
    by destruct fuel.
  - destruct fuel as [|fuel]; [lia|]. cbn [drawHistogram_rows].
    destruct (Z.ltb_spec 0 (Z.of_nat (S height) * scalingFactor)); [|nia].
    rewrite int_value_Done by nia. cbn [obind].
    replace (Z.of_nat (S height) * scalingFactor - scalingFactor)
      with (Z.of_nat height * scalingFactor) by lia.
    rewrite IH by (first [lia|nia]).
    rewrite drawHistogram_row_chart by (first [done|nia]).
    rewrite seqZ_S, reverse_snoc, texts_cons, append_assoc.
    by replace (1 + Z.of_nat height) with (Z.of_nat (S height)) by lia.
Qed.

Lemma foldr_max_shift (l : list Z) (a x : Z) :
  foldr Z.max (Z.max a x) l = Z.max x (foldr Z.max a l).
Proof. induction l as [|y l IH]; cbn [foldr]; [lia|]. rewrite IH. lia. Qed.

Lemma foldl_max_foldr {A} (f : A -> Z) (l : list A) :
  forall a : Z,
    foldl (fun (a : Z) (x : A) => if a <? f x then f x else a) a l
    = foldr Z.max a (f <$> l).
Proof.
  induction l as [|x l IH]; intros a; [done|]. cbn [foldl fmap list_fmap foldr].
  rewrite IH. fold (f <$> l).
  replace (if a <? f x then f x else a) with (Z.max a (f x))
    by (destruct (Z.ltb_spec a (f x)); lia).
  apply foldr_max_shift.
Qed.

Lemma foldr_max_from (l : list Z) (a : Z) :
  foldr Z.max a l = Z.max a (foldr Z.max 0 l) \/ (a < 0 /\ foldr Z.max a l <= 0
                                                   /\ foldr Z.max 0 l = 0).
Proof.
  induction l as [|y l IH]; cbn [foldr]; [lia|].
  destruct IH as [->|(Ha & Hl & ->)]; lia.
Qed.

Lemma widthOf_nonpos (x : Z) : x <= 0 -> widthOf x = 0.
Proof. intros Hx. unfold widthOf. by replace (Z.to_nat x) with O by lia. Qed.

Lemma widthOf_bound (x : Z) : x < 2 ^ 31 -> 0 <= widthOf x <= 10.
Proof.
  intros Hx. pose proof (widthOf_loop_spec (Z.to_nat x) x 0 ltac:(lia)) as H.
  cbv zeta in H. fold (widthOf x) in H.
  destruct (Z.ltb_spec 0 x) as [Hpos|Hneg]; [|lia].
  destruct H as (Hw & Hlo & _). rewrite !Z.sub_0_r in Hlo. split; [lia|].
  destruct (Z.le_gt_cases (widthOf x) 10) as [|Hgt]; [done|]. exfalso.
  assert (10 ^ 10 <= 10 ^ (widthOf x - 1)) by (apply Z.pow_le_mono_r; lia).
  change (10 ^ 10) with 10000000000 in *. lia.
Qed.

(** The scaling, as the specification words it. *)
Lemma drawHistogram_scale_chart (maxVal maxHeight : Z) :
  1 <= maxVal -> 1 <= maxHeight -> maxVal + maxHeight < 2 ^ 31 ->
  let scale := chart_scale maxVal maxHeight in
  drawHistogram_scale maxVal maxHeight = Done (maxVal `div` scale, scale)
  /\ 1 <= scale
  /\ 0 <= maxVal `div` scale
  /\ maxVal `div` scale * scale <= maxVal.
Proof.
  intros Hv Hh Hsum. unfold drawHistogram_scale, chart_scale. cbv zeta.
  destruct (Z.ltb_spec maxHeight maxVal) as [Hgt|Hle].
  2: { rewrite bool_decide_false by lia. rewrite Z.div_1_r. split; [done|]. lia. }
  rewrite bool_decide_true by done.
  rewrite int_value_Done by lia. cbn [obind].
  destruct (Z.eqb_spec maxHeight 0); [lia|].
  rewrite Z.quot_div_nonneg by lia.
  assert (Hq : 1 <= (maxVal + maxHeight) `div` maxHeight).
  { apply Z.div_le_lower_bound; lia. }
  set (q := (maxVal + maxHeight) `div` maxHeight) in *.
  destruct (Z.eqb_spec q 0); [lia|].
  rewrite Z.quot_div_nonneg by lia.
  pose proof (Z.mul_div_le maxVal q ltac:(lia)).
  pose proof (Z.div_pos maxVal q ltac:(lia) ltac:(lia)).
  split; [done|]. lia.
Qed.

(** [drawHistogram] draws the chart of the samples. *)
Lemma drawHistogram_chart (body : string) (samples : list Z) (maxHeight : Z) :
  samples <> [] -> Forall int_sample samples ->
  Z.of_nat (length samples) + maxHeight < 2 ^ 31 -> 1 <= maxHeight ->
  drawHistogram body samples maxHeight
  = Done (body +:+ chart_text samples maxHeight).
Proof.
  intros Hne Hint Hlen Hh.
  destruct (bucket_list_samples samples Hne ltac:(lia))
    as (b & first & rest & Hb & Hl & Hall).
  assert (HB : bucket_list b = sample_buckets samples).
  { apply bucket_list_sample_buckets.
    destruct (buildBuckets_loop_counts samples ∅) as (b' & Hb' & Hx).
    { intros x. by rewrite lookup_empty. }
    { intros x. rewrite lookup_empty. cbn. unfold occurrences.
      pose proof (length_filter (fun y => y = x) samples). lia. }
    unfold buildBuckets in Hb. rewrite Hb in Hb'. injection Hb' as <-.
    intros x. rewrite Hx, lookup_empty. done. }
  unfold drawHistogram, chart_text. rewrite Hb. cbn [obind]. rewrite <- HB, Hl.
  set (buckets := first :: rest) in *.
  assert (Hkeys : Forall (fun x : Z * Z => int_sample x.1) buckets).
  { apply Forall_forall. intros [k v] Hkv.
    rewrite <- Hl, HB in Hkv. unfold sample_buckets in Hkv.
    apply list_elem_of_fmap in Hkv as (x & [= -> ->] & Hx0).
    rewrite merge_sort_Permutation, elem_of_remove_dups in Hx0.
    rewrite Forall_forall in Hint. by apply Hint. }
  rewrite !foldl_max_foldr.
  set (maxVal := foldr Z.max first.2 (snd <$> rest)).
  assert (HmaxVal : foldr Z.max 0 (buckets.*2) = maxVal
                    /\ 1 <= maxVal <= Z.of_nat (length samples)).
  { pose proof (max_count_bounds rest 1 (Z.of_nat (length samples)) first.2) as Hm.
    apply Forall_cons in Hall as [Hfirst Hrest].
    specialize (Hm Hfirst Hrest). rewrite foldl_max_foldr in Hm. fold maxVal in Hm.
    split; [|done]. unfold buckets. cbn [fmap list_fmap foldr].
    destruct (foldr_max_from (snd <$> rest) first.2) as [E|(? & _)]; [|lia].
    fold maxVal in E. lia. }
  destruct HmaxVal as [-> HmaxVal].
  set (maxLabel := foldr Z.max first.1 (fst <$> rest)).
  assert (HmaxLabel : widthOf (foldr Z.max 0 (buckets.*1)) = widthOf maxLabel
                      /\ maxLabel < 2 ^ 31).
  { split.
    - unfold buckets. cbn [fmap list_fmap foldr].
      destruct (foldr_max_from (fst <$> rest) first.1) as [E|(Ha & Hle & E)].
      + fold maxLabel in E.
        destruct (Z.le_gt_cases maxLabel 0) as [Hneg|Hpos].
        * rewrite (widthOf_nonpos maxLabel) by done. apply widthOf_nonpos. lia.
        * f_equal. lia.
      + fold maxLabel in Hle. rewrite E.
        rewrite (widthOf_nonpos maxLabel) by done. apply widthOf_nonpos. lia.
    - assert (Hk : Forall (fun k => k < 2 ^ 31) (buckets.*1)).
      { apply Forall_fmap. eapply Forall_impl; [exact Hkeys|].
        intros x [_ Hx]. exact Hx. }
      unfold buckets in Hk. cbn [fmap list_fmap] in Hk.
      apply Forall_cons in Hk as [Hk1 Hk2]. unfold maxLabel.
      clear -Hk1 Hk2. induction Hk2 as [|y l Hy _ IH]; cbn [foldr]; lia. }
  destruct HmaxLabel as [-> HmaxLabel].
  pose proof (widthOf_bound maxVal ltac:(lia)) as Hlp.
  pose proof (widthOf_bound maxLabel HmaxLabel) as Hlw.
  set (leftPadding := widthOf maxVal) in *.
  set (colWidth := Z.max (Z.max (widthOf maxLabel + 1) 3) (leftPadding + 2)) in *.
  assert (Hcw : 1 <= colWidth - 2 <= 16) by lia.
  destruct (drawHistogram_scale_chart maxVal maxHeight)
    as (-> & Hsf & Hheight & Hfit); [lia|lia|lia|].
  cbn [obind]. set (scale := chart_scale maxVal maxHeight) in *.
  set (height := maxVal `div` scale) in *.
  clearbody height scale colWidth leftPadding maxLabel maxVal.
  assert (Htop : 0 <= height * scale) by (apply Z.mul_nonneg_nonneg; lia).
  assert (Hfuel : (Z.to_nat height <= Z.to_nat (height * scale))%nat).
  { apply Z2Nat.inj_le; [lia|lia|]. nia. }
  rewrite int_value_Done by lia. cbn [obind].
  replace (height * scale) with (Z.of_nat (Z.to_nat height) * scale) at 2 by lia.
  rewrite drawHistogram_rows_chart
    by (first [done|lia|rewrite Z2Nat.id by lia; lia]).
  cbn [obind]. rewrite Z2Nat.id by lia.
  rewrite !pad_blank by lia.
  rewrite (foldl_texts (fun x : Z * Z =>
                          "[" +:+ pad (colWidth - 2) (Format.fmt_d x.2) +:+ "]")).
  rewrite (foldl_texts (fun x : Z * Z => pad colWidth (Format.fmt_d x.1))).
  rewrite (texts_ext (fun x : Z * Z =>
                        "[" +:+ pad (colWidth - 2) (Format.fmt_d x.2) +:+ "]")
             (fun b : Z * Z =>
                "[" +:+ right_justified (colWidth - 2) (pretty b.2) +:+ "]")).
  2: { eapply Forall_impl; [exact Hall|]. intros x Hx. cbv beta in Hx |- *.
       rewrite pad_justified by lia. by rewrite fmt_d_pretty by lia. }
  rewrite (texts_ext (fun x : Z * Z => pad colWidth (Format.fmt_d x.1))
             (fun b : Z * Z => right_justified colWidth (pretty b.1))).
  2: { eapply Forall_impl; [exact Hkeys|]. intros x Hx. cbv beta in Hx |- *.
       rewrite pad_justified by lia. by rewrite fmt_d_pretty by done. }
  change nl with line_feed. by rewrite !append_assoc.
Qed.

End DrawHistogram.

(** [drawHistogram] needs a height limit of at least one row.  For a vector
    that is not empty and holds fewer than 2^31 samples of type [int], less
    the limit, it returns when [maxHeight] is at least one, and has then
    appended the chart of the samples to the body: a line feed; the row of
    the counts of the values that occur, in ascending order of the values;
    the rows of bars from the top one down, each standing for as many
    counts as it takes to fit the height limit; the row of the values.
    With a limit below one its behaviour is undefined. *)
Theorem drawHistogram_returns (body : string) (samples : list Z) (maxHeight : Z) :
  samples <> [] -> Forall int_sample samples ->
  Z.of_nat (length samples) + Z.abs maxHeight < 2 ^ 31 ->
  Dump.drawHistogram body samples maxHeight
  = (if bool_decide (1 <= maxHeight)
     then Done (body +:+ chart_text samples maxHeight)
     else Undefined).
Proof.
  intros Hne Hint Hlen.
  destruct (Z.le_gt_cases 1 maxHeight) as [Hh|Hh].
  { rewrite bool_decide_true by done. apply drawHistogram_chart; [done|done|lia|done]. }
  rewrite bool_decide_false by lia.
  destruct (bucket_list_samples samples Hne ltac:(lia))
    as (b & first & rest & Hb & Hl & Hall).
  unfold Dump.drawHistogram. rewrite Hb. cbn [obind]. rewrite Hl.
  pose proof (max_count_bounds rest 1 (Z.of_nat (length samples)) first.2) as Hmax.
  apply Forall_cons in Hall as [Hfirst Hrest].
  specialize (Hmax Hfirst Hrest).
  set (maxVal := foldl (fun (a : Z) (x : Z * Z) => if a <? x.2 then x.2 else a)
                   first.2 rest) in *.
  destruct (drawHistogram_scale_low maxVal maxHeight)
    as [E|(height & sf & E & Hsf & Htop)]; [lia|lia|lia| |];
    rewrite E; cbn [obind]; [done|].
  unfold Dump.int_value.
  destruct ((- 2 ^ 31 <=? height * sf) && (height * sf <? 2 ^ 31)); [|done].
  cbn [obind]. by rewrite drawHistogram_rows_negative by done.
Qed.

(** ** The histograms of [dump] *)

Lemma obind_Done {A B : Type} (m : outcome A) (k : A -> outcome B) (b : B) :
  obind m k = Done b -> exists a : A, m = Done a /\ k a = Done b.
Proof. destruct m as [a| |]; [|done|done]. intros H. by exists a. Qed.

Lemma quot_million_bounds (n : Z) :
  - 2 ^ 63 <= n < 2 ^ 63 -> - 2 ^ 44 <= n ÷ 1000000 <= 2 ^ 44.
Proof.
  intros Hn. destruct (Z.le_gt_cases 0 n) as [Hpos|Hneg].
  - rewrite Z.quot_div_nonneg by lia.
    pose proof (Z.mul_div_le n 1000000 ltac:(lia)).
    pose proof (Z.div_pos n 1000000 Hpos ltac:(lia)). lia.
  - replace n with (- - n) by lia. rewrite Z.quot_opp_l by lia.
    rewrite Z.quot_div_nonneg by lia.
    pose proof (Z.mul_div_le (- n) 1000000 ltac:(lia)).
    pose proof (Z.div_pos (- n) 1000000 ltac:(lia) ltac:(lia)). lia.
Qed.

(** Between timestamps whose seconds are far from the ends of [long],
    [deltaMs] does not overflow. *)
Lemma deltaMs_Done (t1 t2 : timespec) :
  timespec_ok t1 -> timespec_ok t2 ->
  - 2 ^ 51 <= tv_sec t1 < 2 ^ 51 -> - 2 ^ 51 <= tv_sec t2 < 2 ^ 51 ->
  exists d : Z, deltaMs t1 t2 = Done d.
Proof.
  intros [_ Hn1] [_ Hn2] Hs1 Hs2. unfold deltaMs.
  pose proof (quot_million_bounds _ Hn1). pose proof (quot_million_bounds _ Hn2).
  rewrite (long_value_Done (tv_sec t2 - tv_sec t1)) by lia. cbn [obind].
  rewrite (long_value_Done ((tv_sec t2 - tv_sec t1) * 1000)) by lia. cbn [obind].
  rewrite long_value_Done by lia. cbn [obind].
  rewrite long_value_Done by lia. cbn [obind]. by eexists.
Qed.

(** One more timestamp gives one more interval. *)
Lemma intervals_snoc (times : list timespec) :
  forall (samples : list Z) (t1 t : timespec) (d : Z),
    intervals times = Done samples -> last times = Some t1 ->
    deltaMs t1 t = Done d ->
    intervals (times ++ [t]) = Done (samples ++ [d]).
Proof.
  induction times as [|a times IH]; intros samples t1 t d Hi Hl Hd; [done|].
  destruct times as [|b times].
  - cbn in Hi, Hl. injection Hi as <-. injection Hl as <-.
    cbn [app intervals]. rewrite Hd. done.
  - change (intervals (a :: b :: times))
      with (let* d0 := deltaMs a b in
            let* ds := intervals (b :: times) in Done (d0 :: ds)) in Hi.
    apply obind_Done in Hi as (d0 & Hd0 & Hi).
    apply obind_Done in Hi as (ds & Hds & Hi). injection Hi as <-.
    change (intervals ((a :: b :: times) ++ [t]))
      with (let* d0 := deltaMs a b in
            let* ds := intervals ((b :: times) ++ [t]) in Done (d0 :: ds)).
    rewrite Hd0. cbn [obind].
    rewrite (IH ds t1 t d Hds Hl Hd). done.
Qed.

Lemma last_None_nil {A : Type} (l : list A) : last l = None -> l = [].
Proof.
  destruct l as [|x l] using rev_ind; [done|]. by rewrite last_snoc.
Qed.

Lemma key_times_snoc (key : Z * Z) (items : list hist_item) (it : hist_item) :
  key_times key (items ++ [it])
  = key_times key items ++ (if decide (hist_key it = key) then [h_ts it] else []).
Proof.
  unfold key_times. rewrite filter_app, fmap_app. f_equal.
  destruct (decide (hist_key it = key)).
  - by rewrite filter_cons_True.
  - by rewrite filter_cons_False.
Qed.

Lemma key_times_ok (key : Z * Z) (items : list hist_item) (t : timespec) :
  Forall hist_item_ok items -> last (key_times key items) = Some t ->
  timespec_ok t /\ - 2 ^ 51 <= tv_sec t < 2 ^ 51.
Proof.
  intros Hok Hl. apply last_Some_elem_of in Hl.
  unfold key_times in Hl. apply list_elem_of_fmap in Hl as (it & -> & Hin).
  apply list_elem_of_filter in Hin as [_ Hin].
  rewrite Forall_forall in Hok. destruct (Hok it Hin) as (H1 & H2 & _). done.
Qed.

(** What one more histogram entry does to the maps of [dump]. *)
Lemma hists_hold_snoc (items : list hist_item) (it : hist_item)
    (hists : gmap (Z * Z) (list Z)) (lastTSs : gmap (Z * Z) timespec) :
  hists_hold items hists lastTSs ->
  match lastTSs !! hist_key it with
  | Some ts1 =>
      forall d : Z,
        deltaMs ts1 (h_ts it) = Done d ->
        hists_hold (items ++ [it])
          (<[hist_key it := default [] (hists !! hist_key it) ++ [d]]> hists)
          (<[hist_key it := h_ts it]> lastTSs)
  | None =>
      hists_hold (items ++ [it]) hists (<[hist_key it := h_ts it]> lastTSs)
  end.
Proof.
  intros Hinv. destruct (Hinv (hist_key it)) as (samples & Hs & Hh & Hl).
  destruct (lastTSs !! hist_key it) as [ts1|] eqn:Hlast.
  - intros d Hd key. destruct (decide (key = hist_key it)) as [->|Hne].
    + exists (samples ++ [d]). rewrite key_times_snoc, decide_True by done.
      split; [by apply (intervals_snoc _ _ ts1)|].
      rewrite !lookup_insert_eq, last_snoc. split; [|done].
      rewrite decide_False by (by destruct samples).
      rewrite Hh. by destruct (decide (samples = [])) as [->|].
    + destruct (Hinv key) as (s & H1 & H2 & H3). exists s.
      rewrite key_times_snoc, decide_False by done.
      rewrite app_nil_r, !lookup_insert_ne by done. done.
  - intros key. destruct (decide (key = hist_key it)) as [->|Hne].
    + symmetry in Hl. apply last_None_nil in Hl. rewrite Hl in Hs.
      injection Hs as <-. exists [].
      rewrite key_times_snoc, decide_True, Hl by done. cbn [app].
      split; [done|]. rewrite lookup_insert_eq. done.
    + destruct (Hinv key) as (s & H1 & H2 & H3). exists s.
      rewrite key_times_snoc, decide_False by done.
      rewrite app_nil_r, lookup_insert_ne by done. done.
Qed.

Lemma hist_frame_payload_length (flush : bool) (it : hist_item) :
  length (fpayload (hist_frame flush it)) = 28%nat.
Proof.
  unfold hist_frame. cbn [fpayload].
  by rewrite length_app, HistTsEntry_bytes_length, le_bytes_length.
Qed.

Lemma encode_hist_frame_length (flush : bool) (it : hist_item) :
  length (encode (hist_frame flush it)) = 31%nat.
Proof.
  pose proof (encode_length (hist_frame flush it)) as H.
  rewrite hist_frame_payload_length in H. unfold kOverhead in H. lia.
Qed.

Lemma encode_hist_frames_length (flush : bool) (items : list hist_item) :
  length (encode_all (hist_frame flush <$> items)) = (31 * length items)%nat.
Proof.
  induction items as [|it items IH]; [done|].
  cbn [fmap list_fmap]. rewrite encode_all_cons, length_app, IH.
  rewrite encode_hist_frame_length. cbn [length]. lia.
Qed.

Lemma hist_frame_ok (flush : bool) (it : hist_item) : frame_ok (hist_frame flush it).
Proof.
  split; [destruct flush; by_decide|]. split.
  - unfold hist_frame. cbn [fpayload]. apply Forall_app. split.
    + unfold Writer.HistTsEntry_bytes. apply Forall_app.
      split; [apply le_bytes_bytes|apply timespec_bytes_bytes].
    + apply le_bytes_bytes.
  - rewrite hist_frame_payload_length. unfold kMaxLength. lia.
Qed.

(** The merged FIFO of histogram records is made of their frames. *)
Lemma encode_merged_hist (flush : bool) (items : list hist_item) :
  encode_merged (hist_record flush <$> items)
  = encode_all (hist_frame flush <$> items).
Proof.
  induction items as [|it items IH]; [done|].
  cbn [fmap list_fmap]. unfold hist_record at 1.
  rewrite encode_merged_cons, encode_all_cons, IH.
  f_equal; unfold authored, encode_all; cbn [fmap list_fmap concat];
    by rewrite app_nil_r.
Qed.

(** The fields of a histogram record of the merged FIFO. *)
Lemma hist_frame_fields (pre post : list Z) (flush : bool) (it : hist_item) :
  hist_item_ok it ->
  let m := pre ++ encode (hist_frame flush it) ++ post in
  let data := EntryIterator.data (Z.of_nat (length pre)) in
  hash_read m data = h_hash it
  /\ int_read m (data + offsetof_Hist_author) = Z.of_nat (h_author it)
  /\ timespec_read m (data + offsetof_Hist_ts) = h_ts it.
Proof.
  intros (Hts & _ & Hh & Ha) m data.
  pose proof (frame_at_intro pre post (hist_frame flush it)) as Hf. fold m in Hf.
  split; [|split].
  - apply (hash_read_bytes _ _ _ _ Hf Hh). unfold hist_frame. cbn [fpayload].
    unfold Writer.HistTsEntry_bytes. rewrite <- !app_assoc.
    apply take_app_length'. by rewrite le_bytes_length.
  - change offsetof_Hist_author with (Z.of_nat 24).
    unfold data. rewrite (int_read_bytes _ _ _ 24 Hf)
      by (rewrite hist_frame_payload_length; lia).
    unfold hist_frame. cbn [fpayload].
    rewrite drop_app_length' by (by rewrite HistTsEntry_bytes_length).
    rewrite take_ge by (by rewrite le_bytes_length).
    apply int_read_le_bytes. lia.
  - change offsetof_Hist_ts with (Z.of_nat 8).
    apply (timespec_read_bytes _ _ _ _ _ Hf Hts). unfold hist_frame. cbn [fpayload].
    unfold Writer.HistTsEntry_bytes. rewrite <- !app_assoc.
    rewrite drop_app_length' by (by rewrite le_bytes_length).
    apply take_app_length'. by rewrite timespec_bytes_length.
Qed.

(** The merge reader names the author of a histogram record. *)
Lemma MergeReader_handleAuthor_hist (names : list string) (pre post : list Z)
    (flush : bool) (it : hist_item) (name body : string) :
  hist_item_ok it -> names !! h_author it = Some name ->
  Dump.MergeReader_handleAuthor names (pre ++ encode (hist_frame flush it) ++ post)
    (AbstractEntry.HistogramEntry (Z.of_nat (length pre))) body
  = Done (body +:+ name +:+ ": ").
Proof.
  intros Hok Hn. unfold Dump.MergeReader_handleAuthor. cbn [AbstractEntry.author].
  destruct (HistogramEntry_author_frame pre post (hist_frame flush it)) as [_ H].
  cbv zeta in H. rewrite H by (by rewrite hist_frame_payload_length).
  unfold hist_frame. cbn [fpayload]. change (Z.to_nat offsetof_Hist_author) with 24%nat.
  rewrite drop_app_length' by (by rewrite HistTsEntry_bytes_length).
  rewrite take_ge by (by rewrite le_bytes_length).
  destruct Hok as (_ & _ & _ & Ha). rewrite int_read_le_bytes by lia.
  destruct (Z.ltb_spec (Z.of_nat (h_author it)) 0); [lia|].
  by rewrite Nat2Z.id, Hn.
Qed.

Section HistDump.
Import Dump.
Variable render_float : Z -> string.
Variable handleAuthor : list Z -> AbstractEntry.t -> string -> outcome string.
Variable maxHeight : Z.

(** [dump] at a histogram entry. *)
Lemma dump_entry_hist (pre post : list Z) (it : hist_item) (st : dump_state) :
  hist_item_ok it -> d_entry st = Z.of_nat (length pre) ->
  dump_entry render_float handleAuthor maxHeight
    (pre ++ encode (hist_frame false it) ++ post) st
  = let* hists :=
      match d_lastTSs st !! hist_key it with
      | Some ts1 =>
          let* delta := deltaMs ts1 (h_ts it) in
          Done (<[hist_key it := default [] (d_hists st !! hist_key it) ++ [delta]]>
                  (d_hists st))
      | None => Done (d_hists st)
      end in
    Done (DumpState (Z.of_nat (length pre) + 31) (d_timestamp st) (d_body st) hists
            (<[hist_key it := h_ts it]> (d_lastTSs st))).
Proof.
  intros Hok He. unfold dump_entry. rewrite He, type_frame.
  cbn [ftype hist_frame hist_type].
  change (EVENT_HISTOGRAM_ENTRY_TS =? EVENT_START_FMT) with false.
  change (EVENT_HISTOGRAM_ENTRY_TS =? EVENT_HISTOGRAM_ENTRY_TS) with true.
  cbn match.
  change (Frame EVENT_HISTOGRAM_ENTRY_TS
            (Writer.HistTsEntry_bytes (h_hash it) (h_ts it)
             ++ le_bytes 4 (Z.of_nat (h_author it))))
    with (hist_frame false it).
  rewrite readable_frame
    by (rewrite hist_frame_payload_length;
        unfold sizeof_HistTsEntryWithAuthor, sizeof_HistTsEntry, sizeof_hash,
          sizeof_timespec, sizeof_int; lia).
  cbn [negb].
  destruct (hist_frame_fields pre post false it Hok) as (-> & -> & ->).
  rewrite next_frame, encode_hist_frame_length. done.
Qed.

(** [dump] at a flush. *)
Lemma dump_entry_flush (pre post : list Z) (it : hist_item) (st : dump_state) :
  d_entry st = Z.of_nat (length pre) ->
  dump_entry render_float handleAuthor maxHeight
    (pre ++ encode (hist_frame true it) ++ post) st
  = let* body :=
      dump_hists handleAuthor maxHeight (pre ++ encode (hist_frame true it) ++ post)
        (Z.of_nat (length pre)) (hist_list (d_hists st))
        (d_body st +:+ "Histograms:" +:+ nl) in
    Done (DumpState (Z.of_nat (length pre) + 31) (d_timestamp st) body ∅ ∅).
Proof.
  intros He. unfold dump_entry. rewrite He, type_frame.
  cbn [ftype hist_frame hist_type].
  change (EVENT_HISTOGRAM_FLUSH =? EVENT_START_FMT) with false.
  change (EVENT_HISTOGRAM_FLUSH =? EVENT_HISTOGRAM_ENTRY_TS) with false.
  change (EVENT_HISTOGRAM_FLUSH =? EVENT_HISTOGRAM_FLUSH) with true.
  cbn match.
  change (Frame EVENT_HISTOGRAM_FLUSH
            (Writer.HistTsEntry_bytes (h_hash it) (h_ts it)
             ++ le_bytes 4 (Z.of_nat (h_author it))))
    with (hist_frame true it).
  rewrite next_frame, encode_hist_frame_length. done.
Qed.

(** The histograms of a flush, as text: each is the heading, the text of
    the author and the chart of its samples. *)
Lemma dump_hists_text (m : list Z) (entry : Z) (author : string)
    (hists : list (Z * Z * list Z)) :
  1 <= maxHeight ->
  (forall body : string,
     handleAuthor m (AbstractEntry.HistogramEntry entry) body
     = Done (body +:+ author)) ->
  Forall (fun h : Z * Z * list Z =>
            h.2 <> [] /\ Forall int_sample h.2
            /\ Z.of_nat (length h.2) + maxHeight < 2 ^ 31) hists ->
  forall body : string,
    dump_hists handleAuthor maxHeight m entry hists body
    = Done (body +:+ texts (histogram_text author maxHeight) hists).
Proof.
  intros Hh Hname. induction 1 as [|h hists (Hne & Hint & Hlen) _ IH]; intros body.
  - cbn. by rewrite append_nil_r.
  - cbn [dump_hists]. rewrite Hname. cbn [obind].
    rewrite drawHistogram_chart by done. cbn [obind]. rewrite IH.
    rewrite texts_cons. unfold histogram_text at 2. by rewrite !append_assoc.
Qed.

Variables fd indent : Z.
Variables (m : list Z) (last : Z).

(** One round of the loop of [dump]. *)
Lemma dump_loop_step (fuel : nat) (st st1 : dump_state) (out : list string) :
  d_entry st <> last ->
  in_buffer m (d_entry st) = true ->
  in_buffer m (d_entry st + offsetof_length) = true ->
  dump_entry render_float handleAuthor maxHeight m st = Done st1 ->
  dump_loop render_float handleAuthor maxHeight (S fuel) fd indent m last st out
  = if isEmpty (d_body st1)
    then dump_loop render_float handleAuthor maxHeight fuel fd indent m last st1 out
    else dump_loop render_float handleAuthor maxHeight fuel fd indent m last
           (DumpState (d_entry st1) (d_timestamp st1) "" (d_hists st1)
              (d_lastTSs st1))
           (out ++ [dumpLine fd indent (d_timestamp st1) (d_body st1)]).
Proof.
  intros Hne H0 H1 Hst. cbn [dump_loop].
  destruct (Z.eqb_spec (d_entry st) last); [done|].
  rewrite H0, H1, Hst. done.
Qed.

(** The histogram entries fill the maps and print nothing. *)
Lemma dump_loop_hist_entries (post : list Z) (rest : list hist_item) :
  forall (seen : list hist_item) (pre : list Z) (st : dump_state)
         (out : list string) (fuel : nat),
    m = pre ++ encode_all (hist_frame false <$> rest) ++ post ->
    Forall hist_item_ok seen -> Forall hist_item_ok rest ->
    Z.of_nat (length pre) + Z.of_nat (31 * length rest) <= last ->
    d_entry st = Z.of_nat (length pre) -> d_body st = "" ->
    hists_hold seen (d_hists st) (d_lastTSs st) ->
    exists (hists : gmap (Z * Z) (list Z)) (lastTSs : gmap (Z * Z) timespec),
      hists_hold (seen ++ rest) hists lastTSs
      /\ dump_loop render_float handleAuthor maxHeight (length rest + fuel) fd indent
           m last st out
         = dump_loop render_float handleAuthor maxHeight fuel fd indent m last
             (DumpState (Z.of_nat (length pre) + Z.of_nat (31 * length rest))
                (d_timestamp st) "" hists lastTSs)
             out.
Proof.
  induction rest as [|it rest IH];
    intros seen pre st out fuel Hm Hseen Hrest Hlast He Hb Hinv.
  - exists (d_hists st), (d_lastTSs st). rewrite app_nil_r. split; [done|].
    cbn [length Nat.add]. replace (Z.of_nat (31 * 0)) with 0 by lia.
    rewrite Z.add_0_r, <- He, <- Hb.
    by destruct st.
  - apply Forall_cons in Hrest as [Hit Hrest].
    cbn [fmap list_fmap] in Hm. rewrite encode_all_cons, <- app_assoc in Hm.
    cbn [length] in Hlast.
    pose proof (hists_hold_snoc seen it _ _ Hinv) as Hsnoc.
    assert (Hstep : exists hists,
               dump_entry render_float handleAuthor maxHeight m st
               = Done (DumpState (Z.of_nat (length pre) + 31) (d_timestamp st) ""
                         hists (<[hist_key it := h_ts it]> (d_lastTSs st)))
               /\ hists_hold (seen ++ [it]) hists
                    (<[hist_key it := h_ts it]> (d_lastTSs st))).
    { rewrite Hm, (dump_entry_hist pre _ it st Hit He), Hb.
      destruct (Hinv (hist_key it)) as (samples & _ & _ & Hl).
      destruct (d_lastTSs st !! hist_key it) as [ts1|] eqn:Hlast1.
      - symmetry in Hl. destruct (key_times_ok _ _ _ Hseen Hl) as [Hok1 Hs1].
        destruct Hit as (Hok2 & Hs2 & _).
        destruct (deltaMs_Done ts1 (h_ts it) Hok1 Hok2 Hs1 Hs2) as [d Hd].
        rewrite Hd. cbn [obind]. eexists. split; [reflexivity|]. by apply Hsnoc.
      - cbn [obind]. eexists. split; [reflexivity|]. exact Hsnoc. }
    destruct Hstep as (hists1 & Hstep & Hinv1).
    cbn [length Nat.add].
    rewrite (dump_loop_step _ st
               (DumpState (Z.of_nat (length pre) + 31) (d_timestamp st) "" hists1
                  (<[hist_key it := h_ts it]> (d_lastTSs st))) out);
      [| | | |exact Hstep].
    2: { rewrite He. lia. }
    2: { rewrite He, Hm.
         pose proof (in_buffer_frame pre
                       (encode_all (hist_frame false <$> rest) ++ post)
                       (hist_frame false it) 0 ltac:(lia)) as H.
         by rewrite Z.add_0_r in H. }
    2: { rewrite He, Hm. apply in_buffer_frame. unfold offsetof_length. lia. }
    cbn [d_body isEmpty d_entry d_timestamp d_hists d_lastTSs].
    destruct (IH (seen ++ [it]) (pre ++ encode (hist_frame false it))
                (DumpState (Z.of_nat (length pre) + 31) (d_timestamp st) "" hists1
                   (<[hist_key it := h_ts it]> (d_lastTSs st)))
                out fuel) as (hists & lastTSs & Hinv2 & Hloop).
    + by rewrite <- app_assoc.
    + apply Forall_app. split; [done|]. by constructor.
    + done.
    + rewrite length_app, encode_hist_frame_length. lia.
    + cbn [d_entry]. rewrite length_app, encode_hist_frame_length. lia.
    + done.
    + done.
    + exists hists, lastTSs. rewrite <- app_assoc in Hinv2. split; [done|].
      rewrite Hloop. cbn [d_timestamp]. do 2 f_equal.
      rewrite length_app, encode_hist_frame_length. lia.
Qed.

End HistDump.

(** *** The order of the histograms *)

Lemma to_signed_int (v : Z) : int_sample (to_signed 32 v).
Proof.
  unfold int_sample, to_signed. pose proof (Z.mod_pos_bound v (2 ^ 32) ltac:(lia)).
  change (2 ^ (32 - 1)) with (2 ^ 31).
  destruct (Z.ltb_spec (v `mod` 2 ^ 32) (2 ^ 31)); lia.
Qed.

Lemma deltaMs_int (t1 t2 : timespec) (d : Z) :
  deltaMs t1 t2 = Done d -> int_sample d.
Proof.
  unfold deltaMs. intros H.
  apply obind_Done in H as (x1 & _ & H). apply obind_Done in H as (x2 & _ & H).
  apply obind_Done in H as (x3 & _ & H). apply obind_Done in H as (x4 & _ & H).
  injection H as <-. apply to_signed_int.
Qed.

(** The intervals are values of type [int], one less than the timestamps. *)
Lemma intervals_samples (times : list timespec) :
  forall samples : list Z,
    intervals times = Done samples ->
    Forall int_sample samples /\ length samples = Nat.pred (length times).
Proof.
  induction times as [|a times IH]; intros samples H.
  - injection H as <-. by split.
  - destruct times as [|b times].
    + injection H as <-. by split.
    + change (intervals (a :: b :: times))
        with (let* d0 := deltaMs a b in
              let* ds := intervals (b :: times) in Done (d0 :: ds)) in H.
      apply obind_Done in H as (d0 & Hd0 & H).
      apply obind_Done in H as (ds & Hds & H). injection H as <-.
      destruct (IH ds Hds) as [Hint Hlen]. split.
      * constructor; [by eapply deltaMs_int|done].
      * cbn [length] in *. lia.
Qed.

Lemma key_times_elem (key : Z * Z) (items : list hist_item) :
  key_times key items <> [] -> key ∈ hist_key <$> items.
Proof.
  intros Hne. destruct (key_times key items) as [|t ts] eqn:E; [done|].
  assert (Ht : t ∈ key_times key items) by (rewrite E; left).
  unfold key_times in Ht. apply list_elem_of_fmap in Ht as (it & _ & Hit).
  apply list_elem_of_filter in Hit as [<- Hit].
  apply list_elem_of_fmap. by exists it.
Qed.

(** The histograms that [dump] has gathered, walked in the order of its
    map, are those of the keys with two timestamps or more, by hash and
    then by writer, each with the intervals between its timestamps. *)
Lemma hist_list_histograms (items : list hist_item) (hists : gmap (Z * Z) (list Z))
    (lastTSs : gmap (Z * Z) timespec) :
  hists_hold items hists lastTSs ->
  Dump.hist_list hists = histograms items
  /\ Forall (fun h : Z * Z * list Z =>
               intervals (key_times h.1 items) = Done h.2 /\ h.2 <> [])
       (histograms items).
Proof.
  intros Hinv.
  assert (Hin : forall k v, (k, v) ∈ Dump.hist_list hists <-> hists !! k = Some v).
  { intros k v. unfold Dump.hist_list. rewrite merge_sort_Permutation.
    apply elem_of_map_to_list. }
  assert (Hkeys : (Dump.hist_list hists).*1 = histogram_keys items).
  { apply (StronglySorted_unique key_le).
    - apply (StronglySorted_fmap fst Dump.hist_le key_le); [by intros [] []|].
      apply StronglySorted_merge_sort; apply _.
    - apply StronglySorted_merge_sort; apply _.
    - apply NoDup_Permutation.
      + unfold Dump.hist_list. rewrite merge_sort_Permutation.
        apply NoDup_fst_map_to_list.
      + unfold histogram_keys. rewrite merge_sort_Permutation.
        apply NoDup_remove_dups.
      + intros key. unfold histogram_keys.
        rewrite merge_sort_Permutation, elem_of_remove_dups, list_elem_of_filter.
        destruct (Hinv key) as (samples & Hs & Hh & _).
        destruct (intervals_samples _ _ Hs) as [_ Hlen].
        split.
        * intros Hk. apply list_elem_of_fmap in Hk as ([k v] & -> & Hkv).
          apply Hin in Hkv. cbn [fst] in *. rewrite Hh in Hkv.
          destruct (decide (samples = [])) as [|Hne]; [done|].
          assert (Hk2 : (2 <= length (key_times k items))%nat).
          { destruct samples; [done|]. cbn [length] in Hlen. lia. }
          split; [done|]. apply key_times_elem. intros E. rewrite E in Hk2.
          cbn [length] in Hk2. lia.
        * intros [Hlen2 _]. apply list_elem_of_fmap. exists (key, samples).
          split; [done|]. apply Hin. rewrite Hh.
          rewrite decide_False; [done|]. intros ->. cbn [length] in Hlen. lia. }
  assert (Hall : Forall (fun h : Z * Z * list Z =>
                           intervals (key_times h.1 items) = Done h.2 /\ h.2 <> [])
                   (Dump.hist_list hists)).
  { apply Forall_forall. intros [k v] Hkv. apply Hin in Hkv. cbn [fst snd].
    destruct (Hinv k) as (samples & Hs & Hh & _). rewrite Hh in Hkv.
    destruct (decide (samples = [])) as [|Hne]; [done|]. by injection Hkv as <-. }
  assert (E : Dump.hist_list hists = histograms items).
  { unfold histograms. rewrite <- Hkeys. apply pairs_of_keys.
    eapply Forall_impl; [exact Hall|]. intros h [Hs _]. unfold key_samples.
    by rewrite Hs. }
  split; [exact E|]. by rewrite <- E.
Qed.

(** The histograms of a merged dump: when the merged FIFO holds the
    timestamps that writers have logged with [logHistTS], then a flush, and
    the merge reader obtains all of it, its [dump], with a height limit of
    at least one row, prints one line with no time: a space, the heading
    and a line feed, then one histogram for every pair of a hash and a
    writer with two timestamps or more, and a line feed when the line goes
    to a file descriptor.  The histograms come by hash, then by writer;
    each is made of the hash, the name of the writer of the flush, whatever
    writer has logged its timestamps, and the chart of the [deltaMs]
    between each timestamp and the next, none of which overflows. *)
Theorem dump_draws_intervals (render_float : Z -> string) (maxHeight fd indent : Z)
    (names : list string) (name : string) (items : list hist_item)
    (flush : hist_item) :
  items <> [] ->
  Forall hist_item_ok items -> hist_item_ok flush ->
  names !! h_author flush = Some name ->
  1 <= maxHeight -> Z.of_nat (length items) + maxHeight < 2 ^ 31 ->
  Forall (fun h : Z * Z * list Z => intervals (key_times h.1 items) = Done h.2)
    (histograms items)
  /\ forall o : Reader.obtained,
       obtains_all o (encode_merged ((hist_record false <$> items)
                                     ++ [hist_record true flush])) ->
       Dump.dump_reader render_float (Dump.MergeReader_handleAuthor names)
         maxHeight fd indent (Some o)
       = (Done [line_text fd ""
                  ("Histograms:" +:+ line_feed
                   +:+ texts (histogram_text (name +:+ ": ") maxHeight)
                         (histograms items))],
          Z.of_nat (length (encode_merged ((hist_record false <$> items)
                                           ++ [hist_record true flush])))).
Proof.
  intros Hne Hitems Hflush Hname Hh Hcount.
  set (entries := encode_all (hist_frame false <$> items)).
  assert (Hmerged : encode_merged ((hist_record false <$> items)
                                   ++ [hist_record true flush])
                    = entries ++ encode (hist_frame true flush) ++ []).
  { rewrite encode_merged_app, encode_merged_hist.
    change [hist_record true flush] with (hist_record true <$> [flush]).
    rewrite encode_merged_hist. unfold entries.
    f_equal; unfold encode_all; cbn [fmap list_fmap concat]; done. }
  rewrite Hmerged. set (m := entries ++ encode (hist_frame true flush) ++ []).
  assert (Hlen : length m = (31 * length items + 31)%nat).
  { unfold m, entries. rewrite !length_app, encode_hist_frames_length,
      encode_hist_frame_length. cbn [length]. lia. }
  assert (Hentries : length entries = (31 * length items)%nat).
  { unfold entries. by rewrite encode_hist_frames_length. }
  pose proof (fun st out =>
                dump_loop_hist_entries render_float
                  (Dump.MergeReader_handleAuthor names) maxHeight fd indent m
                  (Z.of_nat (length m)) (encode (hist_frame true flush) ++ []) items
                  [] [] st out (S (S (30 * length items + 30)))) as HL.
  destruct (HL (Dump.DumpState 0 "" "" ∅ ∅) [])
    as (hists & lastTSs & Hinv & Hloop).
  { done. }
  { constructor. }
  { exact Hitems. }
  { cbn [length]. lia. }
  { done. }
  { done. }
  { unfold hists_hold. cbn [Dump.d_hists Dump.d_lastTSs]. intros key. exists [].
    rewrite !lookup_empty. done. }
  clear HL. cbn [app] in Hinv.
  destruct (hist_list_histograms items hists lastTSs Hinv) as [Hlist Hall].
  split.
  { eapply Forall_impl; [exact Hall|]. by intros h [H _]. }
  intros o [Ho Hlost].
  destruct (getSnapshot_frames o []
              ((hist_frame false <$> items) ++ [hist_frame true flush]) [])
    as (H1 & H2 & H3 & H4).
  { cbn [app]. rewrite Ho, !app_nil_r.
    rewrite encode_all_app. unfold m, entries.
    f_equal; unfold encode_all; cbn [fmap list_fmap concat]; done. }
  { cbn [app]. rewrite app_nil_r. apply Forall_app. split.
    - apply Forall_fmap, Forall_true. intros it. apply hist_frame_ok.
    - constructor; [apply hist_frame_ok|constructor]. }
  { constructor. }
  { constructor. }
  { destruct items as [|it items]; [done|]. cbn [fmap list_fmap app]. by_decide. }
  { cbn [app]. rewrite last_snoc. by_decide. }
  cbn [app] in H1, H2, H3, H4. rewrite Ho in H1.
  assert (Hend : Reader.mEnd (Reader.getSnapshot (Some o)).1 = Z.of_nat (length m)).
  { rewrite H3. f_equal. f_equal. rewrite encode_all_app. unfold m, entries.
    f_equal; unfold encode_all; cbn [fmap list_fmap concat]; done. }
  change (Z.of_nat (length (encode_all []))) with 0 in H2.
  unfold Dump.dump_reader. rewrite H4, Hend.
  unfold Dump.dump. rewrite (getSnapshot_lost o Hlost), H1, H2, Hend.
  change ((0 + (0 - 0)) `mod` 2 ^ 64) with 0. cbn [Z.ltb Z.compare].
  replace (S (length m)) with (length items + S (S (30 * length items + 30)))%nat
    by lia.
  rewrite Hloop. cbn [length Dump.d_timestamp]. rewrite Z.add_0_l.
  assert (Hpre : Z.of_nat (31 * length items) = Z.of_nat (length entries)) by lia.
  rewrite Hpre.
  pose proof (dump_entry_flush render_float (Dump.MergeReader_handleAuthor names)
                maxHeight entries [] flush
                (Dump.DumpState (Z.of_nat (length entries)) "" "" hists lastTSs)
                eq_refl) as Hfl.
  fold m in Hfl. cbn [Dump.d_hists Dump.d_body Dump.d_timestamp] in Hfl.
  rewrite Hlist in Hfl.
  rewrite (dump_hists_text (Dump.MergeReader_handleAuthor names) maxHeight m
             (Z.of_nat (length entries)) (name +:+ ": ")) in Hfl.
  2: { exact Hh. }
  2: { intros body. by apply MergeReader_handleAuthor_hist. }
  2: { eapply Forall_impl; [exact Hall|]. intros h [Hs Hn]. split; [done|].
       destruct (intervals_samples _ _ Hs) as [Hint Hl]. split; [done|].
       assert (length (key_times h.1 items) <= length items)%nat.
       { unfold key_times. rewrite length_fmap. apply length_filter. }
       lia. }
  cbn [obind] in Hfl.
  assert (Hnl : Z.of_nat (length entries) <> Z.of_nat (length m)) by lia.
  pose proof (in_buffer_frame entries [] (hist_frame true flush) 0 ltac:(lia)) as B0.
  rewrite Z.add_0_r in B0. fold m in B0.
  pose proof (in_buffer_frame entries [] (hist_frame true flush) offsetof_length
                ltac:(unfold offsetof_length; lia)) as B1.
  fold m in B1.
  rewrite (dump_loop_step render_float (Dump.MergeReader_handleAuthor names)
             maxHeight fd indent m (Z.of_nat (length m)) _
             (Dump.DumpState (Z.of_nat (length entries)) "" "" hists lastTSs)
             _ [] Hnl B0 B1 Hfl).
  cbn [Dump.d_body Dump.d_entry Dump.d_timestamp Dump.d_hists Dump.d_lastTSs].
  rewrite isEmpty_append.
  change (Dump.isEmpty ("" +:+ "Histograms:" +:+ Dump.nl)) with false.
  cbn [andb Dump.dump_loop Dump.d_entry].
  destruct (Z.eqb_spec (Z.of_nat (length entries) + 31) (Z.of_nat (length m)));
    [|lia].
  rewrite dumpLine_text. cbn [app].
  change ("" +:+ "Histograms:" +:+ Dump.nl) with ("Histograms:" +:+ line_feed).
  by rewrite !append_assoc.
Qed.

(** ** What [dump] leaves out *)

(** The snapshot of a FIFO that holds bytes carries the count of lost bytes
    that the FIFO reports. *)
Lemma getSnapshot_mLost (o : Reader.obtained) :
  Reader.iovec0 o ++ Reader.iovec1 o <> [] ->
  Reader.mLost (Reader.getSnapshot (Some o)).1 = Reader.lost o.
Proof.
  intros Hne. unfold Reader.getSnapshot. rewrite <- length_app.
  destruct (Z.leb_spec (Z.of_nat (length (Reader.iovec0 o ++ Reader.iovec1 o))) 0)
    as [Hz|Hz].
  { destruct (Reader.iovec0 o ++ Reader.iovec1 o); [done|cbn in Hz; lia]. }
  destruct (Reader.findLastEntryOfTypes _ _ _ _); done.
Qed.

(** Bytes that [dump] does not print are reported or kept: when the FIFO
    holds whole records between frames that belong to no whole record, the
    reader's [dump] prints one line for each record: the time as
    [[sec.msec]], a space, the hash and the text.  The bytes before the
    first record count as lost, with those the FIFO reports lost: when
    there are any, a line with no time that gives their number in decimal
    comes first.  The bytes after the last record are not released to the
    FIFO. *)
Theorem dump_reports_lost (render_float : Z -> string) (float_of_double : Z -> Z)
    (maxHeight fd indent : Z) (o : Reader.obtained) (skipped partial : list frame)
    (items : list dump_item) :
  Reader.iovec0 o ++ Reader.iovec1 o
  = encode_all skipped ++ encode_items float_of_double items ++ encode_all partial ->
  Forall frame_ok skipped -> Forall frame_ok partial ->
  Forall (fun f => ftype f ∉ Reader.startingTypes) skipped ->
  Forall (fun f => ftype f ∉ Reader.endingTypes) partial ->
  items <> [] -> Forall (item_ok float_of_double) items ->
  let lost := (Reader.lost o + Z.of_nat (length (encode_all skipped))) `mod` 2 ^ 64 in
  Dump.dump_reader render_float Dump.Reader_handleAuthor maxHeight fd indent (Some o)
  = (Done ((if bool_decide (0 < lost)
            then [line_text fd ""
                    ("warning: lost " +:+ pretty lost +:+ " bytes worth of events")]
            else [])
           ++ ((fun it => call_line render_float float_of_double (i_pid it)
                            (i_procName it) fd "" (i_call it)) <$> items)),
     Z.of_nat (length (encode_all skipped))
     + Z.of_nat (length (encode_items float_of_double items))).
Proof.
  intros Hd Hsk Hpa Hskt Hpat Hne Hok lost.
  set (body := concat (item_frames float_of_double <$> items)).
  assert (Hbody : encode_items float_of_double items = encode_all body).
  { apply encode_items_frames. }
  destruct (getSnapshot_frames o skipped body partial) as (H1 & H2 & H3 & H4).
  { by rewrite Hd, !encode_all_app, Hbody. }
  { apply Forall_app. split; [done|]. apply Forall_app. split; [|done].
    apply Forall_concat, Forall_fmap. eapply Forall_impl; [exact Hok|].
    intros it Hit. by apply item_frames_ok. }
  { done. }
  { done. }
  { unfold body. destruct items as [|it items]; [done|]. cbn [fmap list_fmap concat].
    destruct (item_frames_layout float_of_double it) as [rest ->]. cbn [app].
    by_decide. }
  { unfold body. destruct items as [|it items] using rev_ind; [done|].
    rewrite fmap_app, concat_app. cbn [fmap list_fmap concat].
    destruct (item_frames_last float_of_double it) as [front ->].
    rewrite app_nil_r, !app_assoc, last_snoc. by_decide. }
  rewrite encode_all_app, <- Hbody, length_app, Nat2Z.inj_add in H3.
  unfold Dump.dump_reader. rewrite H4, H3. f_equal.
  unfold Dump.dump. rewrite getSnapshot_mLost, H1, H2, H3.
  2: { rewrite Hd. destruct items as [|it items]; [done|].
       rewrite encode_items_cons.
       destruct (item_frames_layout float_of_double it) as [rest ->].
       rewrite encode_all_cons. unfold encode at 1.
       destruct (encode_all skipped); done. }
  rewrite Z.sub_0_r. fold lost.
  assert (Hlost : 0 <= lost < 2 ^ 64) by (apply Z.mod_pos_bound; lia).
  rewrite dumpLine_text, fmt_zu_pretty by done.
  replace (0 <? lost) with (bool_decide (0 < lost))
    by (destruct (Z.ltb_spec 0 lost);
        [by rewrite bool_decide_true|by rewrite bool_decide_false by lia]).
  pose proof (dump_loop_items render_float float_of_double Dump.Reader_handleAuthor
                maxHeight (fun _ => "") (fun _ => True) fd indent) as HL.
  specialize (HL ltac:(intros; unfold Dump.Reader_handleAuthor;
                       by rewrite append_nil_r)).
  rewrite Hd.
  rewrite (HL _ (encode_all partial) items (encode_all skipped)).
  - done.
  - done.
  - by apply Forall_true.
  - exact Hok.
  - done.
  - done.
  - rewrite !length_app.
    pose proof (encode_items_length float_of_double items). lia.
Qed.

(** Entries that end no record are never dumped: when the FIFO holds whole
    frames, none of which is an END_FMT, a HISTOGRAM_ENTRY_TS or a
    HISTOGRAM_FLUSH, as after calls of [log], [logTimestamp], [logInteger],
    [logFloat], [logPID], [logStart] and [logHash] alone, the reader's
    [dump] prints no more than the warning of lost bytes and releases
    nothing to the FIFO. *)
Theorem dump_without_record_end (render_float : Z -> string)
    (handleAuthor : list Z -> AbstractEntry.t -> string -> outcome string)
    (maxHeight fd indent : Z) (o : Reader.obtained) (frames : list frame) :
  Reader.iovec0 o ++ Reader.iovec1 o = encode_all frames ->
  frames <> [] -> Forall frame_ok frames ->
  Forall (fun f => ftype f ∉ Reader.endingTypes) frames ->
  let lost := Reader.lost o `mod` 2 ^ 64 in
  Dump.dump_reader render_float handleAuthor maxHeight fd indent (Some o)
  = (Done (if 0 <? lost
           then [Dump.dumpLine fd indent ""
                   ("warning: lost " +:+ Dump.fmt_zu lost
                    +:+ " bytes worth of events")]
           else []), 0).
Proof.
  intros Hd Hfr Hok Hty lost.
  destruct (getSnapshot_frames o [] [] frames) as (H1 & H2 & H3 & H4).
  { exact Hd. }
  { exact Hok. }
  { constructor. }
  { exact Hty. }
  { exact I. }
  { exact I. }
  change (Z.of_nat (length (encode_all ([] ++ [])))) with 0 in H3.
  change (Z.of_nat (length (encode_all []))) with 0 in H2.
  unfold Dump.dump_reader. rewrite H4, H3.
  unfold Dump.dump. rewrite H2, H3, Z.sub_0_r, Z.add_0_r.
  rewrite getSnapshot_mLost.
  2: { rewrite Hd. destruct frames as [|f frames]; [done|].
       rewrite encode_all_cons. done. }
  fold lost. cbn [Dump.dump_loop Dump.d_entry]. rewrite Z.eqb_refl. done.
Qed.

(** ** Entries between the records *)

Section Unexpected.
Import Dump.
Variable render_float : Z -> string.
Variable float_of_double : Z -> Z.
Variable handleAuthor : list Z -> AbstractEntry.t -> string -> outcome string.
Variable maxHeight : Z.
Variable author_text : dump_item -> string.
Variable named : dump_item -> Prop.
Variables fd indent : Z.
Hypothesis handleAuthor_item :
  forall (it : dump_item) (pre post : list Z) (body : string),
    named it -> item_ok float_of_double it ->
    handleAuthor (pre ++ encode_all (item_frames float_of_double it) ++ post)
      (AbstractEntry.FormatEntry (Z.of_nat (length pre))) body
    = Done (body +:+ author_text it).

Let item_line (it : dump_item) : string :=
  call_line render_float float_of_double (i_pid it) (i_procName it) fd
    (author_text it) (i_call it).

(** [dump] at an entry that begins no record and ends none. *)
Lemma dump_entry_unexpected (pre post : list Z) (f : frame) (st : dump_state) :
  d_entry st = Z.of_nat (length pre) ->
  ftype f <> EVENT_START_FMT -> ftype f <> EVENT_HISTOGRAM_ENTRY_TS ->
  ftype f <> EVENT_HISTOGRAM_FLUSH -> ftype f <> EVENT_END_FMT ->
  dump_entry render_float handleAuthor maxHeight (pre ++ encode f ++ post) st
  = Done (DumpState (Z.of_nat (length pre) + Z.of_nat (length (encode f)))
            (d_timestamp st)
            (d_body st +:+ "warning: unexpected event " +:+ Format.fmt_d (ftype f))
            (d_hists st) (d_lastTSs st)).
Proof.
  intros He H1 H2 H3 H4. unfold dump_entry. rewrite He, type_frame, next_frame.
  destruct (Z.eqb_spec (ftype f) EVENT_START_FMT); [done|].
  destruct (Z.eqb_spec (ftype f) EVENT_HISTOGRAM_ENTRY_TS); [done|].
  destruct (Z.eqb_spec (ftype f) EVENT_HISTOGRAM_FLUSH); [done|].
  destruct (Z.eqb_spec (ftype f) EVENT_END_FMT); [done|]. done.
Qed.

Variables (m : list Z) (last_entry : Z).

(** The records are printed, and the loop goes on behind them under the
    time of the last one. *)
Lemma dump_loop_items_then (post : list Z) (items : list dump_item) :
  forall (pre : list Z) (st : dump_state) (out : list string) (fuel : nat),
    m = pre ++ encode_items float_of_double items ++ post ->
    Forall named items ->
    Forall (item_ok float_of_double) items ->
    d_entry st = Z.of_nat (length pre) -> d_body st = "" ->
    Z.of_nat (length pre) + Z.of_nat (length (encode_items float_of_double items))
    <= last_entry ->
    dump_loop render_float handleAuthor maxHeight (length items + fuel) fd indent m
      last_entry st out
    = dump_loop render_float handleAuthor maxHeight fuel fd indent m last_entry
        (DumpState
           (Z.of_nat (length pre)
            + Z.of_nat (length (encode_items float_of_double items)))
           (match last items with
            | Some it => timestamp_text (c_ts (i_call it))
            | None => d_timestamp st
            end)
           "" (d_hists st) (d_lastTSs st))
        (out ++ (item_line <$> items)).
Proof.
  induction items as [|it items IH]; intros pre st out fuel Hm Hnamed Hok He Hb Hlast.
  - change (encode_items float_of_double []) with (@nil Z). cbn [length last].
    rewrite Z.add_0_r, app_nil_r, <- He, <- Hb. by destruct st.
  - apply Forall_cons in Hok as [Hit Hok].
    apply Forall_cons in Hnamed as [Hnit Hnamed].
    rewrite encode_items_cons, <- app_assoc in Hm.
    rewrite encode_items_cons, length_app, Nat2Z.inj_add in Hlast |- *.
    pose proof (item_frames_length float_of_double it) as Hlen.
    destruct (item_frames_layout float_of_double it) as [rest Hlay].
    assert (Hm1 : m = pre ++ encode (Frame EVENT_START_FMT (c_fmt (i_call it)))
                        ++ (encode_all rest
                            ++ encode_items float_of_double items ++ post)).
    { rewrite Hm, Hlay, encode_all_cons. by rewrite <- !app_assoc. }
    assert (Hb0 : in_buffer m (d_entry st) = true).
    { rewrite He, Hm1.
      pose proof (in_buffer_frame pre
                    (encode_all rest ++ encode_items float_of_double items ++ post)
                    (Frame EVENT_START_FMT (c_fmt (i_call it))) 0 ltac:(lia)) as H.
      by rewrite Z.add_0_r in H. }
    assert (Hb1 : in_buffer m (d_entry st + offsetof_length) = true).
    { rewrite He, Hm1. apply in_buffer_frame. unfold offsetof_length. lia. }
    pose proof (dump_entry_item render_float float_of_double handleAuthor maxHeight
                  author_text named handleAuthor_item it pre
                  (encode_items float_of_double items ++ post) st Hnit Hit He Hb)
      as Hstep.
    rewrite <- Hm in Hstep. cbn [length Nat.add].
    rewrite (dump_loop_step render_float handleAuthor maxHeight fd indent m
               last_entry _ st _ out ltac:(lia) Hb0 Hb1 Hstep).
    cbn [d_body d_entry d_timestamp d_hists d_lastTSs].
    rewrite appendHash_not_empty, dumpLine_text.
    rewrite (IH (pre ++ encode_all (item_frames float_of_double it))).
    + cbn [d_timestamp d_hists d_lastTSs fmap list_fmap].
      rewrite last_cons, length_app, Nat2Z.inj_add, <- !app_assoc, Z.add_assoc.
      cbn [app]. by destruct (last items).
    + by rewrite <- app_assoc.
    + done.
    + done.
    + cbn [d_entry]. rewrite length_app. lia.
    + done.
    + rewrite length_app. lia.
Qed.

End Unexpected.

Section WriterState.
Variable float_of_double : Z -> Z.
Variable pid : Z.
Variable procName : list Z.

(** The calls leave the writer enabled, over the records it has written. *)
Lemma run_calls_ok (calls : list format_call) :
  forall (w : Writer.t) (fifo : list Z),
    writer_ok w fifo (le_bytes 4 pid ++ procName) ->
    Forall (call_ok float_of_double pid procName) calls ->
    exists w',
      run_calls float_of_double w calls = Done w'
      /\ writer_ok w'
           (fifo ++ encode_records (call_record float_of_double pid procName <$> calls))
           (le_bytes 4 pid ++ procName).
Proof.
  intros w fifo Hw Hok.
  destruct (run_calls_written float_of_double pid procName calls w fifo Hw Hok)
    as (w' & Hrun & Hwr).
  exists w'. split; [exact Hrun|].
  revert w fifo Hw w' Hrun Hwr.
  induction calls as [|c calls IH]; intros w fifo Hw w' Hrun Hwr.
  - injection Hrun as <-. change (encode_records _) with (@nil Z).
    by rewrite app_nil_r.
  - apply Forall_cons in Hok as [Hc Hok]. cbn [run_calls] in Hrun.
    apply obind_Done in Hrun as (w1 & H1 & Hrun).
    destruct (call_frames float_of_double pid procName c Hc) as (frames & Hfr & Hrec).
    destruct Hc as (Hfb & Hfc & Hfl & Hk & Hargs & Hts & Hh & _).
    pose proof Hw as (Hen & _).
    pose proof (logVFormat_frames float_of_double (le_bytes 4 pid ++ procName) w fifo
                  (Some (c_ts c)) (c_fmt c) (c_hash c) (c_args c) Hw Hfb
                  (va_arg_typed_ok _ Hargs)) as H.
    rewrite Hfr in H. unfold Writer.logFormat in H1.
    rewrite Hen in H1. cbn [negb] in H1. rewrite H in H1. injection H1 as <-.
    cbn [fmap list_fmap]. rewrite encode_records_cons, app_assoc.
    assert (E : fifo ++ encode_record (call_record float_of_double pid procName c)
                = fifo ++ encode_all
                            (format_frames_clock (c_fmt c) (Some (c_ts c))
                               (c_hash c) frames)).
    { f_equal. rewrite Hrec. unfold encode_record, format_frames_clock.
      cbn [rec_frames app]. by rewrite string_payload_chars. }
    rewrite E. eapply (IH Hok); [|exact Hrun|].
    + by apply (set_fifo_ok w fifo).
    + destruct (run_calls_written float_of_double pid procName calls _ _
                  (set_fifo_ok w fifo _
                     (fifo ++ encode_all
                                (format_frames_clock (c_fmt c) (Some (c_ts c))
                                   (c_hash c) frames)) Hw) Hok)
        as (w2 & Hrun2 & Hwr2).
      rewrite Hrun in Hrun2. by injection Hrun2 as <-.
Qed.

End WriterState.

(** A string between formatted records is not printed: when a writer with
    an empty FIFO makes calls of [logFormat], then one of [log] with a
    string, then more calls of [logFormat], and a reader obtains all that
    was written, with nothing lost to an overrun, its [dump] prints the
    lines of the calls and, in the place of the string, a line that holds
    the time of the record before it as [[sec.msec]], a space and the
    warning of an unexpected event 1. *)
Theorem dump_string_warning (render_float : Z -> string) (float_of_double : Z -> Z)
    (maxHeight fd indent : Z) (w : Writer.t) (pid : Z) (procName : list Z)
    (calls1 calls2 : list format_call) (c : format_call) (s : list Z) :
  writer_ok w [] (le_bytes 4 pid ++ procName) ->
  Forall (fun x => x <> 0) procName ->
  Forall (call_ok float_of_double pid procName) calls1 ->
  Forall (call_ok float_of_double pid procName) calls2 ->
  last calls1 = Some c -> calls2 <> [] -> bytes s ->
  exists w1 w2 w3 : Writer.t,
    run_calls float_of_double w calls1 = Done w1
    /\ Writer.log_string w1 (Some s) = Done w2
    /\ run_calls float_of_double w2 calls2 = Done w3
    /\ forall o : Reader.obtained,
         obtains_all o (Writer.written w3) ->
         Dump.dump_reader render_float Dump.Reader_handleAuthor maxHeight fd indent
           (Some o)
         = (Done ((call_line render_float float_of_double pid procName fd ""
                     <$> calls1)
                  ++ [line_text fd (timestamp_text (c_ts c))
                        "warning: unexpected event 1"]
                  ++ (call_line render_float float_of_double pid procName fd ""
                        <$> calls2)),
            Z.of_nat (length (Writer.written w3))).
Proof.
  intros Hw Hname Hok1 Hok2 Hlast Hne Hs.
  destruct (run_calls_ok float_of_double pid procName calls1 w [] Hw Hok1)
    as (w1 & Hrun1 & Hw1).
  cbn [app] in Hw1.
  set (fifo1 := encode_records (call_record float_of_double pid procName <$> calls1))
    in *.
  set (f := Frame EVENT_STRING (string_payload s)).
  pose proof Hw1 as (Hen1 & Hf1 & _).
  pose proof (log_string_emits w1 fifo1 s Hen1 Hf1 Hs) as Hlog. fold f in Hlog.
  pose proof (set_fifo_ok w1 fifo1 _ (fifo1 ++ encode f) Hw1) as Hw2.
  destruct (run_calls_ok float_of_double pid procName calls2 _ _ Hw2 Hok2)
    as (w3 & Hrun3 & Hw3).
  exists w1, (Writer.set_fifo w1 (fifo1 ++ encode f)), w3.
  split; [exact Hrun1|]. split; [exact Hlog|]. split; [exact Hrun3|].
  pose proof Hw as (_ & _ & _ & _ & Hl & Hb).
  apply Forall_app in Hb as [_ Hb]. rewrite length_app, le_bytes_length in Hl.
  set (items1 := DumpItem None pid procName <$> calls1).
  set (items2 := DumpItem None pid procName <$> calls2).
  assert (Hitems : forall calls,
             Forall (call_ok float_of_double pid procName) calls ->
             Forall (item_ok float_of_double) (DumpItem None pid procName <$> calls)).
  { intros calls Hok. apply Forall_fmap. eapply Forall_impl; [exact Hok|].
    intros c0 Hc. split; [exact Hc|]. split; [exact Hb|]. split; [exact Hname|].
    split; [cbn; lia|exact I]. }
  assert (Henc : forall calls,
             encode_records (call_record float_of_double pid procName <$> calls)
             = encode_items float_of_double (DumpItem None pid procName <$> calls)).
  { intros calls. unfold encode_items, encode_records.
    rewrite <- !list_fmap_compose. done. }
  assert (Hwr : Writer.written w3
                = encode_items float_of_double items1 ++ encode f
                  ++ encode_items float_of_double items2).
  { destruct Hw3 as (_ & Hf3 & _). unfold Writer.written. rewrite Hf3. cbn.
    unfold fifo1. by rewrite !Henc, <- app_assoc. }
  set (m := Writer.written w3) in *.
  intros o [Ho Hlost].
  assert (Hfok : frame_ok f).
  { destruct (string_payload_ok s Hs). split; [by_decide|]. by split. }
  destruct (getSnapshot_frames o []
              (concat (item_frames float_of_double <$> items1) ++ [f]
               ++ concat (item_frames float_of_double <$> items2)) [])
    as (H1 & H2 & H3 & H4).
  { cbn [app]. rewrite Ho, !app_nil_r, Hwr.
    by rewrite encode_all_app, encode_all_cons, <- !encode_items_frames. }
  { cbn [app]. rewrite app_nil_r. apply Forall_app. split; [|constructor; [done|]].
    - apply Forall_concat, Forall_fmap. eapply Forall_impl; [exact (Hitems _ Hok1)|].
      intros it Hit. by apply item_frames_ok.
    - apply Forall_concat, Forall_fmap. eapply Forall_impl; [exact (Hitems _ Hok2)|].
      intros it Hit. by apply item_frames_ok. }
  { constructor. }
  { constructor. }
  { unfold items1. destruct calls1 as [|c1 calls1]; [done|].
    cbn [fmap list_fmap concat].
    destruct (item_frames_layout float_of_double (DumpItem None pid procName c1))
      as [rest ->].
    cbn [app]. by_decide. }
  { cbn [app]. unfold items2.
    destruct calls2 as [|c2 calls2] using rev_ind; [done|].
    rewrite fmap_app, fmap_app, concat_app. cbn [fmap list_fmap concat].
    destruct (item_frames_last float_of_double (DumpItem None pid procName c2))
      as [front ->].
    rewrite app_nil_r.
    change (?a ++ f :: ?b ++ front ++ ?e) with (a ++ [f] ++ b ++ front ++ e).
    rewrite !app_assoc, last_snoc. by_decide. }
  cbn [app] in H1, H2, H3. rewrite Ho in H1.
  change (Z.of_nat (length (encode_all []))) with 0 in H2.
  assert (Hend : Reader.mEnd (Reader.getSnapshot (Some o)).1 = Z.of_nat (length m)).
  { rewrite H3. do 2 f_equal. rewrite Hwr.
    by rewrite encode_all_app, encode_all_cons, <- !encode_items_frames. }
  unfold Dump.dump_reader. rewrite H4, Hend. f_equal.
  unfold Dump.dump. rewrite (getSnapshot_lost o Hlost), H1, H2, Hend.
  change ((0 + (0 - 0)) `mod` 2 ^ 64) with 0. cbn [Z.ltb Z.compare].
  assert (Hauthor : forall (it : dump_item) (pre post : list Z) (body : string),
             True -> item_ok float_of_double it ->
             Dump.Reader_handleAuthor
               (pre ++ encode_all (item_frames float_of_double it) ++ post)
               (AbstractEntry.FormatEntry (Z.of_nat (length pre))) body
             = Done (body +:+ "")).
  { intros. unfold Dump.Reader_handleAuthor. by rewrite append_nil_r. }
  pose proof (encode_items_length float_of_double items1) as Hn1.
  pose proof (encode_items_length float_of_double items2) as Hn2.
  pose proof (encode_length f) as Hnf. unfold kOverhead in Hnf.
  assert (Hmlen : length m
                  = (length (encode_items float_of_double items1) + length (encode f)
                     + length (encode_items float_of_double items2))%nat).
  { rewrite Hwr, !length_app. lia. }
  replace (S (length m))
    with (length items1 + S (length m - length items1))%nat by lia.
  rewrite (dump_loop_items_then render_float float_of_double Dump.Reader_handleAuthor
             maxHeight (fun _ => "") (fun _ => True) fd indent Hauthor m
             (Z.of_nat (length m))
             (encode f ++ encode_items float_of_double items2) items1 []);
    [|done|by apply Forall_true|by apply Hitems|done|done|cbn [length]; lia].
  cbn [length app Dump.d_timestamp Dump.d_hists Dump.d_lastTSs]. rewrite Z.add_0_l.
  assert (Hts : last items1 = Some (DumpItem None pid procName c)).
  { unfold items1. by rewrite fmap_last, Hlast. }
  rewrite Hts. cbn [i_call].
  set (st := Dump.DumpState
               (Z.of_nat (length (encode_items float_of_double items1)))
               (timestamp_text (c_ts c)) "" ∅ ∅).
  pose proof (dump_entry_unexpected render_float Dump.Reader_handleAuthor maxHeight
                (encode_items float_of_double items1)
                (encode_items float_of_double items2) f st eq_refl
                ltac:(by_decide) ltac:(by_decide) ltac:(by_decide) ltac:(by_decide))
    as Hstep.
  rewrite <- Hwr in Hstep.
  rewrite (dump_loop_step render_float Dump.Reader_handleAuthor maxHeight fd indent m
             (Z.of_nat (length m)) _ st _ _ ltac:(cbn [Dump.d_entry st]; lia)
             ltac:(rewrite Hwr;
                   pose proof (in_buffer_frame (encode_items float_of_double items1)
                                 (encode_items float_of_double items2) f 0
                                 ltac:(lia)) as B;
                   by rewrite Z.add_0_r in B)
             ltac:(rewrite Hwr;
                   apply (in_buffer_frame (encode_items float_of_double items1)
                            (encode_items float_of_double items2) f);
                   unfold offsetof_length; lia)
             Hstep).
  cbn [Dump.d_body Dump.d_entry Dump.d_timestamp Dump.d_hists Dump.d_lastTSs st].
  change (Dump.isEmpty ("" +:+ "warning: unexpected event "
                        +:+ Format.fmt_d (ftype f))) with false.
  cbn match.
  change ("" +:+ "warning: unexpected event " +:+ Format.fmt_d (ftype f))
    with "warning: unexpected event 1".
  rewrite dumpLine_text.
  pose proof (dump_loop_items render_float float_of_double Dump.Reader_handleAuthor
                maxHeight (fun _ => "") (fun _ => True) fd indent Hauthor m []
                items2 (encode_items float_of_double items1 ++ encode f)) as HL.
  rewrite length_app, Nat2Z.inj_add in HL.
  replace (Z.of_nat (length (encode_items float_of_double items1))
           + Z.of_nat (length (encode f))
           + Z.of_nat (length (encode_items float_of_double items2)))
    with (Z.of_nat (length m)) in HL by lia.
  rewrite HL.
  - f_equal. rewrite <- app_assoc. unfold items1, items2.
    rewrite <- !list_fmap_compose. done.
  - by rewrite Hwr, app_nil_r, <- app_assoc.
  - by apply Forall_true.
  - by apply Hitems.
  - done.
  - done.
  - lia.
Qed.

(** ** Histogram records without an author *)

Lemma hist_rec_frame_length (flush : bool) (hash : Z) (ts : timespec) :
  length (encode (Frame (hist_type flush) (Writer.HistTsEntry_bytes hash ts)))
  = 27%nat.
Proof.
  pose proof (encode_length (Frame (hist_type flush)
                               (Writer.HistTsEntry_bytes hash ts))) as H.
  cbn [fpayload] in H. rewrite HistTsEntry_bytes_length in H.
  unfold kOverhead in H. lia.
Qed.

Lemma hist_entry_frame_length (hash : Z) (ts : timespec) :
  length (encode (Frame EVENT_HISTOGRAM_ENTRY_TS (Writer.HistTsEntry_bytes hash ts)))
  = 27%nat.
Proof. exact (hist_rec_frame_length false hash ts). Qed.

Lemma hist_flush_frame_length (hash : Z) (ts : timespec) :
  length (encode (Frame EVENT_HISTOGRAM_FLUSH (Writer.HistTsEntry_bytes hash ts)))
  = 27%nat.
Proof. exact (hist_rec_frame_length true hash ts). Qed.

Lemma encode_hist_records (flush : bool) (hash : Z) (times : list timespec) :
  encode_records (RHist flush hash <$> times)
  = encode_all ((fun ts => Frame (hist_type flush)
                             (Writer.HistTsEntry_bytes hash ts)) <$> times).
Proof.
  induction times as [|ts times IH]; [done|].
  cbn [fmap list_fmap]. rewrite encode_records_cons, encode_all_cons, IH.
  f_equal; unfold encode_record, encode_all; cbn [rec_frames fmap list_fmap concat];
    by rewrite app_nil_r.
Qed.

Lemma encode_hist_records_length (flush : bool) (hash : Z) (times : list timespec) :
  length (encode_records (RHist flush hash <$> times)) = (27 * length times)%nat.
Proof.
  induction times as [|ts times IH]; [done|].
  cbn [fmap list_fmap]. rewrite encode_records_cons, length_app, IH.
  unfold encode_record, encode_all. cbn [rec_frames fmap list_fmap concat].
  rewrite app_nil_r, hist_rec_frame_length. cbn [length]. lia.
Qed.

(** What [dump] reads at a histogram entry that carries no author and is
    followed by another entry. *)
Lemma hist_rec_fields (pre post : list Z) (hash : Z) (ts : timespec)
    (next : frame) (b : Z) (rest : list Z) :
  timespec_ok ts -> 0 <= hash < 2 ^ 64 -> fpayload next = b :: rest ->
  let f := Frame EVENT_HISTOGRAM_ENTRY_TS (Writer.HistTsEntry_bytes hash ts) in
  let m := pre ++ encode f ++ encode next ++ post in
  let data := EntryIterator.data (Z.of_nat (length pre)) in
  hash_read m data = hash
  /\ timespec_read m (data + offsetof_Hist_ts) = ts
  /\ int_read m (data + offsetof_Hist_author)
     = trailing_author (ftype next) (Z.of_nat (length (fpayload next))) b
  /\ readable m data sizeof_HistTsEntryWithAuthor = true.
Proof.
  intros Hts Hh Hnext f m data.
  pose proof (frame_at_intro pre (encode next ++ post) f) as Hf. fold m in Hf.
  split; [|split; [|split]].
  - apply (hash_read_bytes _ _ _ _ Hf Hh). unfold f. cbn [fpayload].
    unfold Writer.HistTsEntry_bytes. apply take_app_length'.
    by rewrite le_bytes_length.
  - change offsetof_Hist_ts with (Z.of_nat 8).
    apply (timespec_read_bytes _ _ _ _ _ Hf Hts). unfold f. cbn [fpayload].
    unfold Writer.HistTsEntry_bytes.
    rewrite drop_app_length' by (by rewrite le_bytes_length).
    apply take_ge. by rewrite timespec_bytes_length.
  - unfold int_read, trailing_author. f_equal. f_equal.
    set (head := pre ++ EVENT_HISTOGRAM_ENTRY_TS :: 24
                      :: Writer.HistTsEntry_bytes hash ts).
    set (xs := [sizeof_HistTsEntry; ftype next;
                Z.of_nat (length (fpayload next)); b]).
    assert (Hm : m = head ++ xs ++ (rest ++ [Z.of_nat (length (fpayload next))]
                                    ++ post)).
    { unfold m, head, xs, f, encode. cbn [ftype fpayload].
      rewrite HistTsEntry_bytes_length, Hnext. cbn [app length].
      rewrite <- !app_assoc. cbn [app]. done. }
    assert (Hp : data + offsetof_Hist_author = Z.of_nat (length head)).
    { unfold data, head, EntryIterator.data, offsetof_data, offsetof_Hist_author,
        sizeof_HistTsEntry, sizeof_hash, sizeof_timespec.
      rewrite length_app. cbn [length]. rewrite HistTsEntry_bytes_length. lia. }
    rewrite Hm, Hp. change sizeof_int with (Z.of_nat (length xs)).
    apply rd_range_mid.
  - unfold readable, data, EntryIterator.data, offsetof_data,
      sizeof_HistTsEntryWithAuthor, sizeof_HistTsEntry, sizeof_hash,
      sizeof_timespec, sizeof_int, m.
    unfold f. rewrite !length_app, hist_entry_frame_length.
    pose proof (encode_length next) as Hn. rewrite Hnext in Hn.
    cbn [length] in Hn. unfold kOverhead in Hn.
    apply andb_true_intro. split; apply Z.leb_le; lia.
Qed.

(** The authors read behind entries of different types differ. *)
Lemma trailing_author_type (t1 t2 l1 l2 b1 b2 : Z) :
  0 <= t1 < 256 -> 0 <= t2 < 256 -> t1 <> t2 ->
  trailing_author t1 l1 b1 <> trailing_author t2 l2 b2.
Proof.
  intros H1 H2 Hne E. unfold trailing_author in E.
  apply (f_equal (fun x => x `mod` 2 ^ 16)) in E. cbv beta in E.
  rewrite !to_signed_mod in E. cbn [le_value] in E.
  unfold sizeof_HistTsEntry, sizeof_hash, sizeof_timespec in E.
  replace (8 + 16 + 256 * (t1 + 256 * (l1 + 256 * (b1 + 256 * 0))))
    with (24 + 256 * t1 + (l1 + 256 * b1) * 2 ^ 16) in E by lia.
  replace (8 + 16 + 256 * (t2 + 256 * (l2 + 256 * (b2 + 256 * 0))))
    with (24 + 256 * t2 + (l2 + 256 * b2) * 2 ^ 16) in E by lia.
  rewrite !Z.mod_add in E by lia.
  rewrite !Z.mod_small in E by lia. lia.
Qed.

Section PlainHistDump.
Import Dump.
Variable render_float : Z -> string.
Variable handleAuthor : list Z -> AbstractEntry.t -> string -> outcome string.
Variable maxHeight : Z.

(** [dump] at a histogram entry without an author that another entry
    follows. *)
Lemma dump_entry_hist_plain (pre post : list Z) (hash : Z) (ts : timespec)
    (next : frame) (b : Z) (rest : list Z) (st : dump_state) :
  timespec_ok ts -> 0 <= hash < 2 ^ 64 -> fpayload next = b :: rest ->
  d_entry st = Z.of_nat (length pre) ->
  let key := (hash, trailing_author (ftype next)
                      (Z.of_nat (length (fpayload next))) b) in
  dump_entry render_float handleAuthor maxHeight
    (pre ++ encode (Frame EVENT_HISTOGRAM_ENTRY_TS
                      (Writer.HistTsEntry_bytes hash ts))
         ++ encode next ++ post) st
  = let* hists :=
      match d_lastTSs st !! key with
      | Some ts1 =>
          let* delta := deltaMs ts1 ts in
          Done (<[key := default [] (d_hists st !! key) ++ [delta]]> (d_hists st))
      | None => Done (d_hists st)
      end in
    Done (DumpState (Z.of_nat (length pre) + 27) (d_timestamp st) (d_body st) hists
            (<[key := ts]> (d_lastTSs st))).
Proof.
  intros Hts Hh Hnext He key. unfold dump_entry. rewrite He, type_frame.
  cbn [ftype].
  change (EVENT_HISTOGRAM_ENTRY_TS =? EVENT_START_FMT) with false.
  change (EVENT_HISTOGRAM_ENTRY_TS =? EVENT_HISTOGRAM_ENTRY_TS) with true.
  cbn match.
  destruct (hist_rec_fields pre post hash ts next b rest Hts Hh Hnext)
    as (-> & -> & -> & ->).
  cbn [negb]. rewrite next_frame.
  rewrite hist_entry_frame_length. done.
Qed.

(** [dump] at a flush, with or without an author. *)
Lemma dump_entry_flush_frame (pre post : list Z) (f : frame) (st : dump_state) :
  ftype f = EVENT_HISTOGRAM_FLUSH ->
  d_entry st = Z.of_nat (length pre) ->
  dump_entry render_float handleAuthor maxHeight (pre ++ encode f ++ post) st
  = let* body :=
      dump_hists handleAuthor maxHeight (pre ++ encode f ++ post)
        (Z.of_nat (length pre)) (hist_list (d_hists st))
        (d_body st +:+ "Histograms:" +:+ nl) in
    Done (DumpState (Z.of_nat (length pre) + Z.of_nat (length (encode f)))
            (d_timestamp st) body ∅ ∅).
Proof.
  intros Hty He. unfold dump_entry. rewrite He, type_frame, Hty.
  change (EVENT_HISTOGRAM_FLUSH =? EVENT_START_FMT) with false.
  change (EVENT_HISTOGRAM_FLUSH =? EVENT_HISTOGRAM_ENTRY_TS) with false.
  change (EVENT_HISTOGRAM_FLUSH =? EVENT_HISTOGRAM_FLUSH) with true.
  cbn match. rewrite next_frame. done.
Qed.

Variables fd indent : Z.
Variables (m : list Z) (last_entry : Z).
Variable hash : Z.
Hypothesis hash_range : 0 <= hash < 2 ^ 64.

(** The key of an entry that another entry of the same hash follows. *)
Let key : Z * Z :=
  (hash, trailing_author EVENT_HISTOGRAM_ENTRY_TS sizeof_HistTsEntry (hash `mod` 256)).

Let hists_of (seen : list timespec) : gmap (Z * Z) (list Z) :=
  match intervals seen with
  | Done (d :: ds) => {[ key := d :: ds ]}
  | _ => ∅
  end.

Let lastTSs_of (seen : list timespec) : gmap (Z * Z) timespec :=
  match last seen with
  | Some ts => {[ key := ts ]}
  | None => ∅
  end.

Lemma intervals_Done (times : list timespec) :
  Forall hist_time_ok times -> exists samples, intervals times = Done samples.
Proof.
  induction times as [|t1 times IH]; intros Hok; [by exists []|].
  apply Forall_cons in Hok as [H1 Hok]. destruct (IH Hok) as [ds Hds].
  destruct times as [|t2 times]; [by exists []|].
  apply Forall_cons in Hok as [H2 _].
  destruct H1 as [A1 B1], H2 as [A2 B2].
  destruct (deltaMs_Done t1 t2 A1 A2 B1 B2) as [d Hd].
  exists (d :: ds).
  change (intervals (t1 :: t2 :: times))
    with (let* d0 := deltaMs t1 t2 in
          let* ds0 := intervals (t2 :: times) in Done (d0 :: ds0)).
  by rewrite Hd, Hds.
Qed.

(** The entries that an entry of the same hash follows are filed under one
    key. *)
Lemma dump_loop_plain_entries (tn : timespec) (post : list Z)
    (rest : list timespec) :
  forall (seen : list timespec) (pre : list Z) (st : dump_state)
         (out : list string) (fuel : nat),
    m = pre ++ encode_records (RHist false hash <$> rest)
            ++ encode_record (RHist false hash tn) ++ post ->
    Forall hist_time_ok seen -> Forall hist_time_ok rest ->
    Z.of_nat (length pre) + Z.of_nat (27 * length rest) < last_entry ->
    d_entry st = Z.of_nat (length pre) -> d_body st = "" ->
    d_hists st = hists_of seen -> d_lastTSs st = lastTSs_of seen ->
    dump_loop render_float handleAuthor maxHeight (length rest + fuel) fd indent m
      last_entry st out
    = dump_loop render_float handleAuthor maxHeight fuel fd indent m last_entry
        (DumpState (Z.of_nat (length pre) + Z.of_nat (27 * length rest))
           (d_timestamp st) "" (hists_of (seen ++ rest)) (lastTSs_of (seen ++ rest)))
        out.
Proof.
  induction rest as [|t rest IH];
    intros seen pre st out fuel Hm Hseen Hrest Hlast He Hb Hh Hl.
  - rewrite app_nil_r. cbn [length Nat.add].
    replace (Z.of_nat (27 * 0)) with 0 by lia.
    rewrite Z.add_0_r, <- He, <- Hb, <- Hh, <- Hl. by destruct st.
  - apply Forall_cons in Hrest as [Ht Hrest]. destruct Ht as [Hts Hsec].
    cbn [fmap list_fmap] in Hm. rewrite encode_records_cons in Hm.
    cbn [length] in Hlast.
    set (f := Frame EVENT_HISTOGRAM_ENTRY_TS (Writer.HistTsEntry_bytes hash t)).
    assert (Hnext : exists (next : frame) (rest1 tail : list Z),
               fpayload next = hash `mod` 256 :: rest1
               /\ ftype next = EVENT_HISTOGRAM_ENTRY_TS
               /\ Z.of_nat (length (fpayload next)) = sizeof_HistTsEntry
               /\ m = pre ++ encode f ++ encode next ++ tail).
    { destruct rest as [|t' rest].
      - exists (Frame EVENT_HISTOGRAM_ENTRY_TS (Writer.HistTsEntry_bytes hash tn)).
        eexists _, post. split; [reflexivity|]. split; [done|]. split.
        + cbn [fpayload]. by rewrite HistTsEntry_bytes_length.
        + rewrite Hm. unfold encode_record, encode_all.
          cbn [rec_frames fmap list_fmap concat hist_type encode_records app].
          rewrite !app_nil_r. done.
      - exists (Frame EVENT_HISTOGRAM_ENTRY_TS (Writer.HistTsEntry_bytes hash t')).
        eexists _, (encode_records (RHist false hash <$> rest)
                    ++ encode_record (RHist false hash tn) ++ post).
        split; [reflexivity|]. split; [done|]. split.
        + cbn [fpayload]. by rewrite HistTsEntry_bytes_length.
        + rewrite Hm. cbn [fmap list_fmap]. rewrite encode_records_cons.
          unfold encode_record, encode_all.
          cbn [rec_frames fmap list_fmap concat hist_type].
          rewrite !app_nil_r, <- !app_assoc. done. }
    destruct Hnext as (next & rest1 & tail & Hpay & Hty & Hlen & Hm1).
    pose proof (dump_entry_hist_plain pre tail hash t next (hash `mod` 256) rest1 st
                  Hts hash_range Hpay He) as Hstep.
    cbv zeta in Hstep. rewrite Hty, Hlen in Hstep. fold key f in Hstep.
    rewrite <- Hm1, Hh, Hl, Hb in Hstep.
    destruct (intervals_Done seen Hseen) as [samples Hs].
    assert (Hstep' : dump_entry render_float handleAuthor maxHeight m st
                     = Done (DumpState (Z.of_nat (length pre) + 27) (d_timestamp st)
                               "" (hists_of (seen ++ [t]))
                               (lastTSs_of (seen ++ [t])))).
    { rewrite Hstep. unfold lastTSs_of. rewrite last_snoc.
      unfold hists_of. rewrite Hs.
      destruct (last seen) as [t1|] eqn:Hlast1.
      - rewrite lookup_singleton_eq.
        assert (Hok1 : hist_time_ok t1).
        { rewrite Forall_forall in Hseen. apply Hseen.
          by apply last_Some_elem_of. }
        destruct Hok1 as [A1 B1].
        destruct (deltaMs_Done t1 t A1 Hts B1 Hsec) as [d Hd].
        rewrite Hd. cbn [obind].
        rewrite (intervals_snoc seen samples t1 t d Hs Hlast1 Hd).
        rewrite insert_singleton_eq. f_equal. f_equal.
        destruct samples as [|d0 ds]; cbn [app].
        + rewrite lookup_empty. cbn [default app]. by rewrite insert_empty.
        + rewrite lookup_singleton_eq. cbn [default]. by rewrite insert_singleton_eq.
      - rewrite lookup_empty. cbn [obind]. rewrite insert_empty.
        apply last_None_nil in Hlast1. subst seen. cbn in Hs. injection Hs as <-.
        done. }
    cbn [length Nat.add].
    rewrite (dump_loop_step render_float handleAuthor maxHeight fd indent m
               last_entry _ st _ out ltac:(lia)
               ltac:(rewrite He, Hm1;
                     pose proof (in_buffer_frame pre (encode next ++ tail) f 0
                                   ltac:(lia)) as B;
                     by rewrite Z.add_0_r in B)
               ltac:(rewrite He, Hm1; apply in_buffer_frame;
                     unfold offsetof_length; lia)
               Hstep').
    cbn [d_body isEmpty d_entry d_timestamp d_hists d_lastTSs].
    rewrite (IH (seen ++ [t]) (pre ++ encode_record (RHist false hash t))).
    + cbn [d_timestamp]. rewrite <- !app_assoc. cbn [app]. do 2 f_equal.
      rewrite length_app. unfold encode_record, encode_all.
      cbn [rec_frames fmap list_fmap concat]. rewrite app_nil_r.
      rewrite hist_entry_frame_length. lia.
    + by rewrite <- app_assoc.
    + apply Forall_app. split; [done|]. constructor; [by split|constructor].
    + done.
    + rewrite length_app. unfold encode_record, encode_all.
      cbn [rec_frames fmap list_fmap concat]. rewrite app_nil_r.
      rewrite hist_entry_frame_length. lia.
    + cbn [d_entry]. rewrite length_app. unfold encode_record, encode_all.
      cbn [rec_frames fmap list_fmap concat]. rewrite app_nil_r.
      rewrite hist_entry_frame_length. lia.
    + done.
    + done.
    + done.
Qed.

End PlainHistDump.

Lemma hist_list_singleton (key : Z * Z) (samples : list Z) :
  Dump.hist_list {[ key := samples ]} = [(key, samples)].
Proof. unfold Dump.hist_list. rewrite map_to_list_singleton. reflexivity. Qed.

Lemma hist_list_empty : Dump.hist_list ∅ = [].
Proof. unfold Dump.hist_list. rewrite map_to_list_empty. reflexivity. Qed.

(** Histograms of a FIFO that no merger has written lack the last interval:
    when the FIFO of a writer holds timestamps logged with [logHistTS] under
    one hash, then a flush, and the reader obtains all of it, its [dump]
    files every timestamp that another one follows under one author, read
    from the bytes behind the entry, and the last one before the flush
    under another.  With a height limit of at least one row it prints one
    line with no time: a space, the heading and a line feed, then, when
    there are three timestamps or more, one histogram with no name of a
    writer whose chart is that of the [deltaMs] between the timestamps but
    the last. *)
Theorem dump_unmerged_histogram (render_float : Z -> string)
    (maxHeight fd indent hash flush_hash : Z) (times : list timespec)
    (tn flush_ts : timespec) :
  0 <= hash < 2 ^ 64 -> 0 <= flush_hash < 2 ^ 64 ->
  Forall hist_time_ok times -> hist_time_ok tn -> timespec_ok flush_ts ->
  1 <= maxHeight -> Z.of_nat (length times) + maxHeight < 2 ^ 31 ->
  exists samples : list Z,
    intervals times = Done samples
    /\ forall o : Reader.obtained,
         obtains_all o (encode_records ((RHist false hash <$> times ++ [tn])
                                        ++ [RHist true flush_hash flush_ts])) ->
         Dump.dump_reader render_float Dump.Reader_handleAuthor maxHeight fd indent
           (Some o)
         = (Done [line_text fd ""
                    ("Histograms:" +:+ line_feed
                     +:+ texts (histogram_text "" maxHeight)
                           (match samples with
                            | [] => []
                            | _ :: _ =>
                                [((hash,
                                   trailing_author EVENT_HISTOGRAM_ENTRY_TS
                                     sizeof_HistTsEntry (hash `mod` 256)),
                                  samples)]
                            end))],
            Z.of_nat (length (encode_records
                                ((RHist false hash <$> times ++ [tn])
                                 ++ [RHist true flush_hash flush_ts])))).
Proof.
  intros Hh Hfh Htimes Htn Hfts Hmax Hcount.
  destruct (intervals_Done times Htimes) as [samples Hs].
  exists samples. split; [exact Hs|]. intros o [Ho Hlost].
  destruct (intervals_samples _ _ Hs) as [Hint Hslen].
  set (rs := (RHist false hash <$> times ++ [tn]) ++ [RHist true flush_hash flush_ts]).
  set (entries := encode_records (RHist false hash <$> times)).
  set (fe := Frame EVENT_HISTOGRAM_ENTRY_TS (Writer.HistTsEntry_bytes hash tn)).
  set (ff := Frame EVENT_HISTOGRAM_FLUSH
               (Writer.HistTsEntry_bytes flush_hash flush_ts)).
  assert (Hm : encode_records rs = entries ++ encode fe ++ encode ff ++ []).
  { unfold rs, entries, encode_records.
    rewrite !fmap_app, !concat_app. cbn [fmap list_fmap concat].
    unfold encode_record, encode_all. cbn [rec_frames fmap list_fmap concat hist_type].
    rewrite !app_nil_r, <- app_assoc. done. }
  set (m := encode_records rs) in *.
  assert (Hentries : length entries = (27 * length times)%nat).
  { apply encode_hist_records_length. }
  assert (Hmlen : length m = (27 * length times + 54)%nat).
  { rewrite Hm, !length_app, Hentries. unfold fe, ff.
    rewrite hist_entry_frame_length, hist_flush_frame_length. cbn [length]. lia. }
  assert (Hrs : Forall record_ok rs).
  { unfold rs. apply Forall_app. split.
    - apply Forall_fmap, Forall_app. split.
      + eapply Forall_impl; [exact Htimes|]. intros t [Ht _]. by split.
      + constructor; [|constructor]. destruct Htn as [Ht _]. by split.
    - constructor; [by split|constructor]. }
  destruct (getSnapshot_frames o [] (all_frames rs) []) as (H1 & H2 & H3 & H4).
  { cbn [app]. rewrite Ho, !app_nil_r.
    apply encode_records_frames. }
  { cbn [app]. rewrite app_nil_r. by apply all_frames_ok. }
  { constructor. }
  { constructor. }
  { apply unflushed_head. unfold rs. by destruct times. }
  { cbn [app]. apply all_frames_last. }
  cbn [app] in H1, H2, H3. rewrite Ho in H1. fold rs m in H1.
  change (Z.of_nat (length (encode_all []))) with 0 in H2.
  rewrite <- encode_records_frames in H3. fold m in H3.
  unfold Dump.dump_reader. rewrite H4, H3. f_equal.
  unfold Dump.dump. rewrite (getSnapshot_lost o Hlost), H1, H2, H3.
  change ((0 + (0 - 0)) `mod` 2 ^ 64) with 0. cbn [Z.ltb Z.compare].
  set (key := (hash, trailing_author EVENT_HISTOGRAM_ENTRY_TS sizeof_HistTsEntry
                       (hash `mod` 256))).
  set (hists := match samples with
                | d :: ds => ({[ key := d :: ds ]} : gmap (Z * Z) (list Z))
                | [] => ∅
                end).
  (* the timestamps that another one follows *)
  replace (S (length m))
    with (length times + S (S (S (26 * length times + 52))))%nat by lia.
  pose proof (dump_loop_plain_entries render_float Dump.Reader_handleAuthor maxHeight
                fd indent m (Z.of_nat (length m)) hash Hh tn (encode ff ++ [])
                times [] [] (Dump.DumpState 0 "" "" ∅ ∅) []
                (S (S (S (26 * length times + 52))))) as Hloop.
  cbv beta in Hloop. fold key in Hloop. cbn [app length] in Hloop.
  rewrite Hs in Hloop. fold hists in Hloop.
  rewrite Hloop; clear Hloop.
  2: { rewrite Hm. unfold encode_record, encode_all.
       cbn [rec_frames fmap list_fmap concat hist_type]. by rewrite app_nil_r. }
  2: { constructor. }
  2: { exact Htimes. }
  2: { lia. }
  2: { done. }
  2: { done. }
  2: { done. }
  2: { done. }
  cbn [Dump.d_timestamp]. rewrite Z.add_0_l, <- Hentries.
  (* the last timestamp before the flush *)
  set (key2 := (hash, trailing_author EVENT_HISTOGRAM_FLUSH sizeof_HistTsEntry
                        (flush_hash `mod` 256))).
  assert (Hkeys : key2 <> key).
  { unfold key2, key. intros E. injection E as E. revert E.
    apply trailing_author_type; by_decide. }
  set (lastTSs := match last times with
                  | Some ts => ({[ key := ts ]} : gmap (Z * Z) timespec)
                  | None => ∅
                  end).
  set (st1 := Dump.DumpState (Z.of_nat (length entries)) "" "" hists lastTSs).
  pose proof (dump_entry_hist_plain render_float Dump.Reader_handleAuthor maxHeight
                entries [] hash tn ff (flush_hash `mod` 256)
                (le_bytes 7 (flush_hash `div` 256) ++ timespec_bytes flush_ts) st1
                (proj1 Htn) Hh eq_refl eq_refl) as Hstep1.
  cbv zeta in Hstep1. cbn [ftype ff fpayload] in Hstep1.
  rewrite HistTsEntry_bytes_length in Hstep1.
  change (Z.of_nat 24) with sizeof_HistTsEntry in Hstep1.
  fold key2 ff fe in Hstep1. rewrite <- Hm in Hstep1.
  cbn [Dump.d_lastTSs Dump.d_hists Dump.d_timestamp Dump.d_body st1] in Hstep1.
  assert (Hnone : lastTSs !! key2 = None).
  { unfold lastTSs. destruct (last times).
    - by rewrite lookup_singleton_ne.
    - apply lookup_empty. }
  rewrite Hnone in Hstep1. cbn [obind] in Hstep1.
  assert (B0 : forall pre f post k, 0 <= k < 3 ->
               m = pre ++ encode f ++ post ->
               in_buffer m (Z.of_nat (length pre) + k) = true).
  { intros pre f post k Hk ->. by apply in_buffer_frame. }
  rewrite (dump_loop_step render_float Dump.Reader_handleAuthor maxHeight fd indent m
             (Z.of_nat (length m)) _ st1 _ [] ltac:(cbn [Dump.d_entry st1]; lia)
             ltac:(pose proof (B0 entries fe _ 0 ltac:(lia) Hm) as B;
                   by rewrite Z.add_0_r in B)
             ltac:(apply (B0 entries fe _ offsetof_length
                            ltac:(unfold offsetof_length; lia) Hm))
             Hstep1).
  cbn [Dump.d_body Dump.isEmpty Dump.d_entry Dump.d_timestamp Dump.d_hists
       Dump.d_lastTSs].
  (* the flush *)
  set (st2 := Dump.DumpState (Z.of_nat (length entries) + 27) "" "" hists
                (<[key2 := tn]> lastTSs)).
  assert (Hm2 : m = (entries ++ encode fe) ++ encode ff ++ []).
  { by rewrite Hm, <- app_assoc. }
  assert (Hpre2 : Z.of_nat (length (entries ++ encode fe))
                  = Z.of_nat (length entries) + 27).
  { rewrite length_app. unfold fe. rewrite hist_entry_frame_length. lia. }
  pose proof (dump_entry_flush_frame render_float Dump.Reader_handleAuthor maxHeight
                (entries ++ encode fe) [] ff st2 eq_refl
                ltac:(cbn [Dump.d_entry st2]; by rewrite Hpre2)) as Hstep2.
  rewrite <- Hm2, Hpre2 in Hstep2. unfold ff in Hstep2.
  rewrite hist_flush_frame_length in Hstep2.
  cbn [Dump.d_hists Dump.d_body Dump.d_timestamp st2] in Hstep2.
  change ("" +:+ "Histograms:" +:+ Dump.nl) with ("Histograms:" +:+ Dump.nl)
    in Hstep2.
  assert (Hin0 : in_buffer m (Dump.d_entry st2) = true).
  { cbn [Dump.d_entry st2]. rewrite <- Hpre2.
    pose proof (B0 (entries ++ encode fe) ff [] 0 ltac:(lia) Hm2) as B.
    by rewrite Z.add_0_r in B. }
  assert (Hin1 : in_buffer m (Dump.d_entry st2 + offsetof_length) = true).
  { cbn [Dump.d_entry st2]. rewrite <- Hpre2.
    apply (B0 (entries ++ encode fe) ff [] offsetof_length
             ltac:(unfold offsetof_length; lia) Hm2). }
  assert (Hne2 : Dump.d_entry st2 <> Z.of_nat (length m)).
  { cbn [Dump.d_entry st2]. lia. }
  assert (Hend : forall (fuel : nat) (ts body : string) (out : list string),
             Dump.dump_loop render_float Dump.Reader_handleAuthor maxHeight fuel fd
               indent m (Z.of_nat (length m))
               (Dump.DumpState (Z.of_nat (length entries) + 27 + 27) ts body ∅ ∅) out
             = Done out).
  { intros fuel ts body out.
    destruct fuel; cbn [Dump.dump_loop Dump.d_entry];
      destruct (Z.eqb_spec (Z.of_nat (length entries) + 27 + 27)
                  (Z.of_nat (length m))); done || lia. }
  destruct samples as [|d ds]; subst hists.
  - rewrite hist_list_empty in Hstep2. cbn [Dump.dump_hists obind] in Hstep2.
    rewrite (dump_loop_step render_float Dump.Reader_handleAuthor maxHeight fd
               indent m (Z.of_nat (length m)) _ st2 _ [] Hne2 Hin0 Hin1 Hstep2).
    cbn [Dump.d_body Dump.d_entry Dump.d_timestamp Dump.d_hists Dump.d_lastTSs
         obind].
    change (Dump.isEmpty ("Histograms:" +:+ Dump.nl)) with false. cbn match.
    rewrite Hend, dumpLine_text. cbn [app texts foldr].
    change Dump.nl with line_feed. by rewrite append_nil_r.
  - rewrite hist_list_singleton in Hstep2.
    rewrite (dump_hists_text Dump.Reader_handleAuthor maxHeight m _ "") in Hstep2.
    2: { exact Hmax. }
    2: { intros body. unfold Dump.Reader_handleAuthor. by rewrite append_nil_r. }
    2: { constructor; [|constructor]. cbn [snd]. split; [done|].
         split; [done|]. cbn [length] in Hslen |- *. lia. }
    cbn [obind] in Hstep2.
    rewrite (dump_loop_step render_float Dump.Reader_handleAuthor maxHeight fd
               indent m (Z.of_nat (length m)) _ st2 _ [] Hne2 Hin0 Hin1 Hstep2).
    cbn [Dump.d_body Dump.d_entry Dump.d_timestamp Dump.d_hists Dump.d_lastTSs].
    rewrite isEmpty_append.
    change (Dump.isEmpty ("Histograms:" +:+ Dump.nl)) with false. cbn [andb].
    rewrite Hend, dumpLine_text. cbn [app].
    change Dump.nl with line_feed. by rewrite append_assoc.
Qed.

(** ** Instances of the properties of the merge thread and of [dump] *)

Lemma threadLoop_merges_after_wakeup_witness :
  MergeThread.passes 100 nat (fun k => Done (S k)) 5
    (MergeThread.wakeup 250 nat (MergeThread.Build nat O 0))
  = Done (MergeThread.Build nat 3%nat (-250)).
Proof.
  apply (threadLoop_merges_after_wakeup 100 250 nat (fun k => Done (S k)) S
           (fun m => eq_refl) ltac:(lia) 5 (MergeThread.Build nat O 0)).
  - lia.
  - lia.
Defined.

Lemma drawHistogram_scale_fits_witness :
  exists height scalingFactor : Z,
    Dump.drawHistogram_scale 25 10 = Done (height, scalingFactor)
    /\ 1 <= scalingFactor
    /\ 1 <= height <= 10
    /\ height * scalingFactor <= 25 < (height + 1) * scalingFactor.
Proof.
  apply (drawHistogram_scale_fits 25 10); lia.
Defined.

Lemma dump_prints_calls_witness :
  exists w' : Writer.t,
    run_calls (fun d => d) scenario_writer scenario_calls = Done w'
    /\ Dump.dump_reader (fun _ => "") Dump.Reader_handleAuthor 10 1 0
         (Some (Reader.MkObtained (take 20 (Writer.written w'))
                  (drop 20 (Writer.written w')) 0))
       = (Done ["[5.007] CAFE-47806 x=<7> pid=<PID: 1234, name: audio>" +:+ line_feed;
                "[9.000] 0000-3 bye!" +:+ line_feed],
          Z.of_nat (length (Writer.written w'))).
Proof.
  destruct (dump_prints_calls (fun _ => "") (fun d => d) 10 1 0 scenario_writer 1234
              (bytes_of_string "audio") scenario_calls) as (w' & Hrun & Hdump).
  - exact scenario_writer_ok.
  - by_decide.
  - by_decide.
  - exists w'. split; [exact Hrun|].
    apply (Hdump (Reader.MkObtained (take 20 (Writer.written w'))
                    (drop 20 (Writer.written w')) 0)).
    split; [apply take_drop|reflexivity].
Defined.

Lemma scenario_mixer_ok :
  writer_ok scenario_mixer [] (le_bytes 4 77 ++ bytes_of_string "mixer").
Proof.
  unfold writer_ok. split; [reflexivity|]. split; [reflexivity|].
  split; [reflexivity|]. split; [reflexivity|]. split; [by_decide|by_decide].
Defined.

Lemma obtained_whole (ws : list Writer.t) :
  Forall2 (fun o w => obtains_all o (Writer.written w))
    ((fun w => Reader.MkObtained (Writer.written w) [] 0) <$> ws) ws.
Proof.
  induction ws as [|w ws IH]; [constructor|].
  cbn [fmap list_fmap]. constructor; [|exact IH]. split; [apply app_nil_r|reflexivity].
Defined.

Lemma merged_dump_prints_calls_witness :
  exists (ws' : list Writer.t) (merged : list Z),
    Forall3 (fun w calls w' => run_calls (fun d => d) w calls = Done w')
      [scenario_writer; scenario_mixer] scenario_logs ws'
    /\ MergerFifo.merge
         (Some <$> ((fun w => Reader.MkObtained (Writer.written w) [] 0) <$> ws'))
         (MergerFifo.Merger true)
       = Done (Some merged)
    /\ Dump.dump_reader (fun _ => "")
         (Dump.MergeReader_handleAuthor (p_name <$> scenario_procs)) 10 1 0
         (Some (Reader.MkObtained (take 50 merged) (drop 50 merged) 0))
       = (Done ["[2.000] 0000-1 normal: late" +:+ line_feed;
                "[5.007] CAFE-47806 fast: x=<7> pid=<PID: 1234, name: audio>"
                +:+ line_feed;
                "[9.000] 0000-3 fast: bye!" +:+ line_feed],
          Z.of_nat (length merged)).
Proof.
  destruct (merged_dump_prints_calls (fun _ => "") (fun d => d) 10 1 0 scenario_procs
              scenario_logs [scenario_writer; scenario_mixer])
    as (ws' & Hrun & _ & Hmerge).
  - by_decide.
  - simpl. lia.
  - constructor; [by_decide|]. constructor; [by_decide|]. constructor.
  - constructor; [exact scenario_writer_ok|].
    constructor; [exact scenario_mixer_ok|]. constructor.
  - destruct (Hmerge _ (obtained_whole ws')) as [Hm Hdump].
    exists ws', (encode_merged
                   (merge_order (zip_with (proc_stream (fun d => d)) scenario_procs
                                   scenario_logs))).
    split; [exact Hrun|]. split; [exact Hm|].
    apply (Hdump (Reader.MkObtained (take 50 _) (drop 50 _) 0)).
    split; [apply take_drop|reflexivity].
Defined.

Lemma drawHistogram_returns_witness :
  Dump.drawHistogram "Histogram" [3; 3; 5; 5; 5; 12] 10
  = Done ("Histogram" +:+ line_feed
          +:+ "   [2][3][1]" +:+ line_feed
          +:+ "3|    []   " +:+ line_feed
          +:+ "2| [] []   " +:+ line_feed
          +:+ "1|_[]_[]_[]" +:+ line_feed
          +:+ "    3  5 12" +:+ line_feed)
  /\ Dump.drawHistogram "Histogram" [3; 3; 5; 5; 5; 12] 2
     = Done ("Histogram" +:+ line_feed
             +:+ "   [2][3][1]" +:+ line_feed
             +:+ "2|_[]_[]___" +:+ line_feed
             +:+ "    3  5 12" +:+ line_feed)
  /\ Dump.drawHistogram "Histogram" [3; 3; 5; 5; 5; 12] 0 = Undefined
  /\ Dump.drawHistogram "Histogram" [3; 3; 5; 5; 5; 12] (-5) = Undefined.
Proof.
  split; [|split; [|split]].
  - apply (drawHistogram_returns "Histogram" [3; 3; 5; 5; 5; 12] 10);
      [done|by_decide|simpl; lia].
  - apply (drawHistogram_returns "Histogram" [3; 3; 5; 5; 5; 12] 2);
      [done|by_decide|simpl; lia].
  - apply (drawHistogram_returns "Histogram" [3; 3; 5; 5; 5; 12] 0);
      [done|by_decide|simpl; lia].
  - apply (drawHistogram_returns "Histogram" [3; 3; 5; 5; 5; 12] (-5));
      [done|by_decide|simpl; lia].
Defined.

Lemma dump_draws_intervals_witness :
  histograms scenario_hists = [((9, 0), [20; 20; 25]); ((9, 1), [30])]
  /\ Dump.dump_reader (fun _ => "") (Dump.MergeReader_handleAuthor ["fast"; "normal"])
       10 1 0
       (Some (Reader.MkObtained
                (encode_merged ((hist_record false <$> scenario_hists)
                                ++ [hist_record true scenario_flush])) [] 0))
     = (Done [" Histograms:" +:+ line_feed
              +:+ "Histogram 9 - normal: " +:+ line_feed
              +:+ "   [2][1]" +:+ line_feed
              +:+ "2| []   " +:+ line_feed
              +:+ "1|_[]_[]" +:+ line_feed
              +:+ "   20 25" +:+ line_feed
              +:+ "Histogram 9 - normal: " +:+ line_feed
              +:+ "   [1]" +:+ line_feed
              +:+ "1|_[]" +:+ line_feed
              +:+ "   30" +:+ line_feed
              +:+ line_feed],
        248).
Proof.
  split; [vm_compute; reflexivity|].
  destruct (dump_draws_intervals (fun _ => "") 10 1 0 ["fast"; "normal"] "normal"
              scenario_hists scenario_flush) as [_ Hdump].
  - done.
  - by_decide.
  - by_decide.
  - reflexivity.
  - lia.
  - simpl. lia.
  - apply (Hdump (Reader.MkObtained _ [] 0)).
    split; [apply app_nil_r|reflexivity].
Defined.

Lemma dump_reports_lost_witness :
  Dump.dump_reader (fun _ => "") Dump.Reader_handleAuthor 10 1 0
    (Some (Reader.MkObtained
             (encode_all [Frame EVENT_INTEGER (le_bytes 4 7); Frame EVENT_END_FMT []])
             (encode_items (fun d => d)
                (DumpItem None 1234 (bytes_of_string "audio") <$> scenario_calls)
              ++ encode_all [Frame EVENT_START_FMT (bytes_of_string "hi")])
             5))
  = (Done [" warning: lost 15 bytes worth of events" +:+ line_feed;
           "[5.007] CAFE-47806 x=<7> pid=<PID: 1234, name: audio>" +:+ line_feed;
           "[9.000] 0000-3 bye!" +:+ line_feed],
     10 + Z.of_nat (length (encode_items (fun d => d)
                              (DumpItem None 1234 (bytes_of_string "audio")
                                 <$> scenario_calls)))).
Proof.
  pose proof (dump_reports_lost (fun _ => "") (fun d => d) 10 1 0
                (Reader.MkObtained
                   (encode_all [Frame EVENT_INTEGER (le_bytes 4 7);
                                Frame EVENT_END_FMT []])
                   (encode_items (fun d => d)
                      (DumpItem None 1234 (bytes_of_string "audio")
                         <$> scenario_calls)
                    ++ encode_all [Frame EVENT_START_FMT (bytes_of_string "hi")])
                   5)
                [Frame EVENT_INTEGER (le_bytes 4 7); Frame EVENT_END_FMT []]
                [Frame EVENT_START_FMT (bytes_of_string "hi")]
                (DumpItem None 1234 (bytes_of_string "audio") <$> scenario_calls))
    as H.
  cbv zeta in H. apply H.
  - reflexivity.
  - by_decide.
  - by_decide.
  - by_decide.
  - by_decide.
  - done.
  - unfold scenario_calls. cbn [fmap list_fmap].
    constructor; [|constructor; [|constructor]];
      (split; [by_decide|]; split; [by_decide|]; split; [by_decide|];
       split; [cbn; unfold kMaxLength; lia|exact I]).
Defined.

Lemma dump_without_record_end_witness :
  Dump.dump_reader (fun _ => "") Dump.Reader_handleAuthor 10 1 0
    (Some (Reader.MkObtained
             (encode_all [Frame EVENT_STRING (bytes_of_string "hello");
                          Frame EVENT_INTEGER (le_bytes 4 7)]) [] 0))
  = (Done [], 0).
Proof.
  apply (dump_without_record_end (fun _ => "") Dump.Reader_handleAuthor 10 1 0
           (Reader.MkObtained
              (encode_all [Frame EVENT_STRING (bytes_of_string "hello");
                           Frame EVENT_INTEGER (le_bytes 4 7)]) [] 0)
           [Frame EVENT_STRING (bytes_of_string "hello");
            Frame EVENT_INTEGER (le_bytes 4 7)]).
  - cbn [Reader.iovec0 Reader.iovec1]. apply app_nil_r.
  - done.
  - by_decide.
  - by_decide.
Defined.

Lemma dump_string_warning_witness :
  exists w1 w2 w3 : Writer.t,
    run_calls (fun d => d) scenario_writer scenario_calls = Done w1
    /\ Writer.log_string w1 (Some (bytes_of_string "hello")) = Done w2
    /\ run_calls (fun d => d) w2
         [FormatCall (Timespec 11 0) (bytes_of_string "late") 1 []] = Done w3
    /\ Dump.dump_reader (fun _ => "") Dump.Reader_handleAuthor 10 1 0
         (Some (Reader.MkObtained (Writer.written w3) [] 0))
       = (Done ["[5.007] CAFE-47806 x=<7> pid=<PID: 1234, name: audio>" +:+ line_feed;
                "[9.000] 0000-3 bye!" +:+ line_feed;
                "[9.000] warning: unexpected event 1" +:+ line_feed;
                "[11.000] 0000-1 late" +:+ line_feed],
          Z.of_nat (length (Writer.written w3))).
Proof.
  destruct (dump_string_warning (fun _ => "") (fun d => d) 10 1 0 scenario_writer
              1234 (bytes_of_string "audio") scenario_calls
              [FormatCall (Timespec 11 0) (bytes_of_string "late") 1 []]
              (FormatCall (Timespec 9 0) (bytes_of_string "%s!") 3
                 [VaString (Some (bytes_of_string "bye"))])
              (bytes_of_string "hello")) as (w1 & w2 & w3 & H1 & H2 & H3 & Hdump).
  - exact scenario_writer_ok.
  - by_decide.
  - by_decide.
  - by_decide.
  - reflexivity.
  - done.
  - by_decide.
  - exists w1, w2, w3. split; [exact H1|]. split; [exact H2|]. split; [exact H3|].
    apply (Hdump (Reader.MkObtained (Writer.written w3) [] 0)).
    split; [apply app_nil_r|reflexivity].
Defined.

Lemma dump_unmerged_histogram_witness :
  intervals [Timespec 1 0; Timespec 1 20000000; Timespec 1 40000000] = Done [20; 20]
  /\ Dump.dump_reader (fun _ => "") Dump.Reader_handleAuthor 10 1 0
       (Some (Reader.MkObtained
                (encode_records
                   ((RHist false 9
                       <$> [Timespec 1 0; Timespec 1 20000000; Timespec 1 40000000]
                           ++ [Timespec 1 65000000])
                    ++ [RHist true 0 (Timespec 3 0)])) [] 0))
     = (Done [" Histograms:" +:+ line_feed
              +:+ "Histogram 9 - " +:+ line_feed
              +:+ "   [2]" +:+ line_feed
              +:+ "2| []" +:+ line_feed
              +:+ "1|_[]" +:+ line_feed
              +:+ "   20" +:+ line_feed
              +:+ line_feed],
        135).
Proof.
  destruct (dump_unmerged_histogram (fun _ => "") 10 1 0 9 0
              [Timespec 1 0; Timespec 1 20000000; Timespec 1 40000000]
              (Timespec 1 65000000) (Timespec 3 0)) as (samples & Hs & Hdump).
  - lia.
  - lia.
  - by_decide.
  - by_decide.
  - by_decide.
  - lia.
  - simpl. lia.
  - vm_compute in Hs. injection Hs as <-. split; [reflexivity|].
    apply (Hdump (Reader.MkObtained _ [] 0)).
    split; [apply app_nil_r|reflexivity].
Defined.
